(** * QuantumNumberV8: carry engine, sign algebra and trainable layers

    A shallow embedding of the Python sources under
    [quantum-number/src/main/python].  Python integers are [Z]; objects
    that are mutated in place and reached through references live in an
    explicit store (a list of cells addressed by index), so that aliasing
    between [self], [other] and the cells of a left-chain is visible. *)

From stdpp Require Import base option list strings gmap.
From Stdlib Require Import ZArith Lia DecimalString DecimalPos.
From Stdlib Require QArith Qround Qabs.

Local Open Scope Z_scope.

(** ** The cell (class [QuantumNumberV8] of QuantumNumberV8Demo28.py) *)

Abbreviation loc := nat.

Module QN.
Record cell := mk {
  signs : Z; metadata : Z;
  a : Z; b : Z; c : Z; d : Z; e : Z; f : Z;
  left : option loc; right : option loc;
  up : option loc; down : option loc;
  in_ : option loc; out : option loc
}.
End QN.

Abbreviation QuantumNumberV8 := QN.cell.

(** [QuantumNumberV8()] : every field 0, every link [None]. *)
Definition new_cell : QuantumNumberV8 :=
  QN.mk 0 0 0 0 0 0 0 0 None None None None None None.

(** The attribute names iterated by [for field in ['a','b','c','d','e','f']]. *)
Inductive field := fa | fb | fc | fd | fe | ff.

Definition fields : list field := [fa; fb; fc; fd; fe; ff].

Definition getattr (q : QuantumNumberV8) (fl : field) : Z :=
  match fl with
  | fa => QN.a q | fb => QN.b q | fc => QN.c q
  | fd => QN.d q | fe => QN.e q | ff => QN.f q
  end.

Definition setattr (q : QuantumNumberV8) (fl : field) (v : Z) : QuantumNumberV8 :=
  let 'QN.mk s m a b c d e f l r u dn i o := q in
  match fl with
  | fa => QN.mk s m v b c d e f l r u dn i o
  | fb => QN.mk s m a v c d e f l r u dn i o
  | fc => QN.mk s m a b v d e f l r u dn i o
  | fd => QN.mk s m a b c v e f l r u dn i o
  | fe => QN.mk s m a b c d v f l r u dn i o
  | ff => QN.mk s m a b c d e v l r u dn i o
  end.

Definition set_left (q : QuantumNumberV8) (l : option loc) : QuantumNumberV8 :=
  let 'QN.mk s m a b c d e f _ r u dn i o := q in
  QN.mk s m a b c d e f l r u dn i o.

(** ** The store *)

Abbreviation heap := (list QuantumNumberV8).

(** Object creation: the new cell gets the next free address. *)
Definition alloc (h : heap) : heap * loc := (h ++ [new_cell], length h).

(** [setattr(obj, field, v)] on the object at address [l]. *)
Definition store_attr (h : heap) (l : loc) (fl : field) (v : Z) : option heap :=
  q ← h !! l; Some (<[l := setattr q fl v]> h).

Definition store_left (h : heap) (l : loc) (v : option loc) : option heap :=
  q ← h !! l; Some (<[l := set_left q v]> h).

(** Monadic left fold: the body of a [for] loop threaded over a list. *)
Fixpoint foldM {A S : Type} (body : A → S → option S) (xs : list A) (s : S)
  : option S :=
  match xs with
  | [] => Some s
  | x :: xs' => s' ← body x s; foldM body xs' s'
  end.

(** ** [QuantumNumberV8.add] (Demo28, lines 40-59) *)

(** One iteration of the loop of [add]: reads [self.field] and
    [other.field] from the current store, writes [self.field] and
    [carry.field]. *)
Definition add_step (self other carry : loc) (fl : field)
    (st : heap * bool) : option (heap * bool) :=
  let '(h, carry_flag) := st in
  s ← h !! self;
  o ← h !! other;
  let val := getattr s fl + getattr o fl in
  if 10 <? val then
    h1 ← store_attr h self fl (val - 10);
    h2 ← store_attr h1 carry fl 1;
    Some (h2, true)
  else
    h1 ← store_attr h self fl val;
    h2 ← store_attr h1 carry fl 0;
    Some (h2, carry_flag).

(** [add]; the recursion follows [self.left], which the store does not
    force to be acyclic, hence the fuel.  [None] is "out of fuel" or a
    reference to an address outside the store. *)
Fixpoint add (fuel : nat) (h : heap) (self other : loc) : option heap :=
  match fuel with
  | O => None
  | S n =>
    let '(h0, carry) := alloc h in
    st ← foldM (add_step self other carry) fields (h0, false);
    let '(h1, carry_flag) := st in
    if carry_flag : bool then
      s ← h1 !! self;
      match QN.left s with
      | Some l => add n h1 l carry
      | None => store_left h1 self (Some carry)
      end
    else Some h1
  end.

(** ** [QuantumNumberV8.scale_by_int] (Demo28, lines 61-79) *)

(** Python's [//] and [%] on integers are floor division and its
    remainder: [Z.div] and [Z.modulo]. *)
Definition scale_step (self carry : loc) (scalar : Z) (fl : field)
    (st : heap * bool) : option (heap * bool) :=
  let '(h, carry_flag) := st in
  s ← h !! self;
  let val := getattr s fl * scalar in
  if 10 <? val then
    h1 ← store_attr h self fl (val mod 10);
    h2 ← store_attr h1 carry fl (val / 10);
    Some (h2, true)
  else
    h1 ← store_attr h self fl val;
    h2 ← store_attr h1 carry fl 0;
    Some (h2, carry_flag).

Definition scale_by_int (fuel : nat) (h : heap) (self : loc) (scalar : Z)
  : option heap :=
  let '(h0, carry) := alloc h in
  st ← foldM (scale_step self carry scalar) fields (h0, false);
  let '(h1, carry_flag) := st in
  if carry_flag : bool then
    s ← h1 !! self;
    match QN.left s with
    | Some l => add fuel h1 l carry
    | None => store_left h1 self (Some carry)
    end
  else Some h1.

(** ** Results of layer operations

    Python exceptions are values of [exn]; [Stuck] is not a Python
    outcome: it stands for a run the model cannot finish (fuel exhausted
    on a cyclic left-chain, or an address outside the store). *)

Inductive exn := KeyError (k : string) | IndexError | ZeroDivisionError | Stuck.

Inductive res (A : Type) := Ok (x : A) | Raise (e : exn).
Arguments Ok {A} x.
Arguments Raise {A} e.

#[global] Instance res_bind : MBind res := λ A B k m,
  match m with Ok x => k x | Raise e => Raise e end.
#[global] Instance res_ret : MRet res := λ A x, Ok x.

Definition of_opt {A} (o : option A) : res A :=
  match o with Some x => Ok x | None => Raise Stuck end.

(** [d[k]] on a dict kept as an association list (insertion order). *)
Fixpoint assoc {V} (k : string) (d : list (string * V)) : option V :=
  match d with
  | [] => None
  | (k', v) :: d' => if String.eqb k k' then Some v else assoc k d'
  end.

Definition getitem {V} (d : list (string * V)) (k : string) : res V :=
  match assoc k d with Some v => Ok v | None => Raise (KeyError k) end.

(** [d[k]] on a dict kept as a finite map. *)
Definition getkey {V} (d : gmap string V) (k : string) : res V :=
  match d !! k with Some v => Ok v | None => Raise (KeyError k) end.

(** [d[k] = v] : overwrite in place, or append a new key. *)
Fixpoint setitem {V} (d : list (string * V)) (k : string) (v : V)
  : list (string * V) :=
  match d with
  | [] => [(k, v)]
  | (k', v') :: d' =>
      if String.eqb k k' then (k', v) :: d' else (k', v') :: setitem d' k v
  end.

Fixpoint rfoldM {A S : Type} (body : A → S → res S) (xs : list A) (s : S)
  : res S :=
  match xs with
  | [] => Ok s
  | x :: xs' => s' ← body x s; rfoldM body xs' s'
  end.

(** ** [QuantumLayer] (Demo28, lines 82-128)

    [weights : output -> input -> cell] and [biases : output -> cell];
    the dicts hold references, the cells live in the store.  The dicts
    are association lists in insertion order, the order in which
    [forward] and [train_step] iterate and allocate.  A call that raises
    returns the exception only: the store it leaves is not kept. *)

Record QuantumLayer := mkLayer {
  weights : list (string * list (string * loc));
  biases : list (string * loc)
}.

(** [input_vector.get(i, 0)] *)
Definition get0 (input_vector : gmap string Z) (i : string) : Z :=
  default 0 (input_vector !! i).

(** [tmp.a, ..., tmp.f = qnum.a, ..., qnum.f] : the six coefficients
    only; [qnum.left] is not copied. *)
Definition copy_fields (h : heap) (tmp qnum : loc) : option heap :=
  q ← h !! qnum;
  t ← h !! tmp;
  Some (<[tmp := foldr (λ fl t', setattr t' fl (getattr q fl)) t fields]> h).

Section layer.
(** Fuel handed to every call of [add]. *)
Variable fuel : nat.

(** Body of the inner loop of [forward]. *)
Definition forward_term (input_vector : gmap string Z) (sum_qnum : loc)
    (w : string * loc) (h : heap) : res heap :=
  let '(i, qnum) := w in
  let '(h1, tmp) := alloc h in
  h2 ← of_opt (copy_fields h1 tmp qnum);
  h3 ← of_opt (scale_by_int fuel h2 tmp (get0 input_vector i));
  of_opt (add fuel h3 sum_qnum tmp).

(** Body of the outer loop of [forward]. *)
Definition forward_out (L : QuantumLayer) (input_vector : gmap string Z)
    (ow : string * list (string * loc))
    (st : heap * list (string * loc)) : res (heap * list (string * loc)) :=
  let '(o, weight_dict) := ow in
  let '(h, output) := st in
  let '(h1, sum_qnum) := alloc h in
  h2 ← rfoldM (forward_term input_vector sum_qnum) weight_dict h1;
  bo ← getitem (biases L) o;
  h3 ← of_opt (add fuel h2 sum_qnum bo);
  Ok (h3, setitem output o sum_qnum).

Definition forward (L : QuantumLayer) (h : heap)
    (input_vector : gmap string Z) : res (heap * list (string * loc)) :=
  rfoldM (forward_out L input_vector) (weights L) (h, []).

(** [obj.a = v] on a freshly created cell. *)
Definition fresh_a (h : heap) (v : Z) : option (heap * loc) :=
  let '(h1, l) := alloc h in
  h2 ← store_attr h1 l fa v; Some (h2, l).

Definition update_weight (input_vector : gmap string Z) (learning_rate : Z)
    (error : loc) (w : string * loc) (h : heap) : res heap :=
  let '(i, qnum) := w in
  er ← of_opt (h !! error);
  '(h1, delta) ← of_opt
      (fresh_a h (QN.a er * get0 input_vector i * learning_rate));
  of_opt (add fuel h1 qnum delta).

Definition train_out (L : QuantumLayer) (input_vector : gmap string Z)
    (target_vector : gmap string Z) (learning_rate : Z)
    (output : list (string * loc))
    (ow : string * list (string * loc)) (h : heap) : res heap :=
  let '(o, weight_dict) := ow in
  let '(h0, error) := alloc h in
  t ← getkey target_vector o;
  out_o ← getitem output o;
  oc ← of_opt (h0 !! out_o);
  h1 ← of_opt (store_attr h0 error fa (t - QN.a oc));
  h2 ← rfoldM (update_weight input_vector learning_rate error)
               weight_dict h1;
  er ← of_opt (h2 !! error);
  '(h3, bias_delta) ← of_opt (fresh_a h2 (QN.a er * learning_rate));
  bo ← getitem (biases L) o;
  of_opt (add fuel h3 bo bias_delta).

Definition train_step (L : QuantumLayer) (h : heap)
    (input_vector target_vector : gmap string Z) (learning_rate : Z)
  : res heap :=
  '(h1, output) ← forward L h input_vector;
  rfoldM (train_out L input_vector target_vector learning_rate output)
         (weights L) h1.
End layer.

(** ** Dicts with string keys, and loops that mutate and may raise *)

(** A statement that either completes with a new state or raises and
    leaves the state it found. *)
Definition atomic {S} (r : res S) (s : S) : S * option exn :=
  match r with Ok s' => (s', None) | Raise e => (s, Some e) end.

(** Sequencing: what was mutated before an exception stays mutated. *)
Definition and_then {S} (r : S * option exn) (k : S → S * option exn)
  : S * option exn :=
  match r with (s', None) => k s' | _ => r end.

(** A [for] loop whose body mutates the state and may raise. *)
Fixpoint exec {A S} (body : A → S → S * option exn) (xs : list A) (s : S)
  : S * option exn :=
  match xs with
  | [] => (s, None)
  | x :: xs' => and_then (body x s) (exec body xs')
  end.

(** ** [QuantumNumberLayer] of QuantumNumberV8Demo23.py: integer weights

    Weights and biases are plain integers in dicts owned by the layer;
    the inner dicts of [weights] are taken to be distinct objects, one
    per output key, as the demo builds them.  Module [Shared23] below
    keeps the dicts as objects of a store instead, and
    [backward_same_run] shows that the two agree on such layers. *)

Module Demo23.

Record QuantumNumberLayer := mk {
  input_keys : list string;
  output_keys : list string;
  bases : gmap string Z;
  weights : gmap string (gmap string Z);
  biases : gmap string Z
}.

(** Body of the inner loop of [forward]: [total += w * v]. *)
Definition forward_in (L : QuantumNumberLayer) (input_qn : gmap string Z)
    (out_k in_k : string) (total : Z) : res Z :=
  wo ← getkey (weights L) out_k;
  w ← getkey wo in_k;
  v ← getkey input_qn in_k;
  Ok (total + w * v).

(** Body of the outer loop; Python's [%] raises on a zero modulus. *)
Definition forward_out (L : QuantumNumberLayer) (input_qn : gmap string Z)
    (out_k : string) (output_qn : gmap string Z) : res (gmap string Z) :=
  total0 ← getkey (biases L) out_k;
  total ← rfoldM (forward_in L input_qn out_k) (input_keys L) total0;
  base ← getkey (bases L) out_k;
  if base =? 0 then Raise ZeroDivisionError
  else Ok (<[out_k := total mod base]> output_qn).

Definition forward (L : QuantumNumberLayer) (input_qn : gmap string Z)
  : res (gmap string Z) :=
  rfoldM (forward_out L input_qn) (output_keys L) ∅.

Definition set_biases (L : QuantumNumberLayer) (bs : gmap string Z) :=
  mk (input_keys L) (output_keys L) (bases L) (weights L) bs.

Definition set_weights (L : QuantumNumberLayer)
    (ws : gmap string (gmap string Z)) :=
  mk (input_keys L) (output_keys L) (bases L) ws (biases L).

(** [errors[k] = target_qn[k] - output_qn[k]] *)
Definition error_of (target_qn output_qn : gmap string Z) (k : string)
    (errors : gmap string Z) : res (gmap string Z) :=
  t ← getkey target_qn k;
  o ← getkey output_qn k;
  Ok (<[k := t - o]> errors).

(** [self.biases[out_k] += learning_rate * errors[out_k]] *)
Definition update_bias (learning_rate : Z) (errors : gmap string Z)
    (out_k : string) (L : QuantumNumberLayer) : res QuantumNumberLayer :=
  b ← getkey (biases L) out_k;
  er ← getkey errors out_k;
  Ok (set_biases L (<[out_k := b + learning_rate * er]> (biases L))).

(** [self.weights[out_k][in_k] += learning_rate * errors[out_k] * input_qn[in_k]] *)
Definition update_weight (learning_rate : Z) (errors input_qn : gmap string Z)
    (out_k in_k : string) (L : QuantumNumberLayer) : res QuantumNumberLayer :=
  wo ← getkey (weights L) out_k;
  w ← getkey wo in_k;
  er ← getkey errors out_k;
  v ← getkey input_qn in_k;
  Ok (set_weights L
        (<[out_k := <[in_k := w + learning_rate * er * v]> wo]> (weights L))).

(** [backward]: the layer as the call leaves it, and the exception it
    raised, if any. *)
Definition backward (L : QuantumNumberLayer)
    (input_qn target_qn output_qn : gmap string Z) (learning_rate : Z)
  : QuantumNumberLayer * option exn :=
  match rfoldM (error_of target_qn output_qn) (output_keys L) ∅ with
  | Raise e => (L, Some e)
  | Ok errors =>
      exec (λ out_k L1,
              and_then (atomic (update_bias learning_rate errors out_k L1) L1)
                (exec (λ in_k L2,
                         atomic (update_weight learning_rate errors input_qn
                                   out_k in_k L2) L2)
                      (input_keys L1)))
           (output_keys L) L
  end.

(** [QuantumNumberLayer(input_keys, output_keys, bases, initial_weights)]
    (lines 2-14): the arguments are kept as they are and
    [biases = {k: 0 for k in output_keys}]. *)
Definition layer_init (input_keys output_keys : list string)
    (bases : gmap string Z) (initial_weights : gmap string (gmap string Z))
  : QuantumNumberLayer :=
  mk input_keys output_keys bases initial_weights
     (foldl (λ biases k, <[k := 0]> biases) ∅ output_keys).

End Demo23.

(** ** [QuantumNumber] and [QuantumNumberLayer] of QuantumNumberV8Demo24.py *)

Module Demo24.

(** [digits] is little-endian: [digits[0]] is the lowest digit. *)
Record QuantumNumber := mkQ { digits : list Z; base : Z; sign : Z }.

(** [while len(digits) > 1 and digits[-1] == 0: digits.pop()], run on
    the reversed list: the last digit is the head. *)
Fixpoint pop_zeros (rev_digits : list Z) : list Z :=
  match rev_digits with
  | dlast :: ((_ :: _) as rest) =>
      if dlast =? 0 then pop_zeros rest else rev_digits
  | _ => rev_digits
  end.

Definition _normalize (q : QuantumNumber) : QuantumNumber :=
  let ds := rev (pop_zeros (rev (digits q))) in
  match ds with
  | [d0] => if d0 =? 0 then mkQ ds (base q) 1 else mkQ ds (base q) (sign q)
  | _ => mkQ ds (base q) (sign q)
  end.

(** [QuantumNumber(digits, base, sign)] with [digits] given. *)
Definition init (digits : list Z) (base sign : Z) : QuantumNumber :=
  _normalize (mkQ digits base sign).

(** [for i in reversed(range(len(digits))): val = val * base + digits[i]] *)
Definition to_int (q : QuantumNumber) : Z :=
  foldl (λ val d, val * base q + d) 0 (rev (digits q)) * sign q.

(** [while abs_val > 0: digits.append(abs_val % base); abs_val //= base].
    The loop is given [fuel] iterations; [Stuck] when they do not suffice. *)
Fixpoint digits_loop (fuel : nat) (base abs_val : Z) (digits : list Z)
  : res (list Z) :=
  if 0 <? abs_val then
    match fuel with
    | O => Raise Stuck
    | S k =>
        if base =? 0 then Raise ZeroDivisionError
        else digits_loop k base (abs_val / base) (digits ++ [abs_val mod base])
    end
  else Ok digits.

(** [add(value)].  The loop gets [abs_val] iterations: with [base >= 2]
    every iteration strictly decreases [abs_val], with a negative base
    the first iteration ends the loop, and with [base = 1] the Python
    loop never ends. *)
Definition add (q : QuantumNumber) (value : Z) : res QuantumNumber :=
  if value =? 0 then Ok q
  else
    let current_val := to_int q in
    let new_val := current_val + value in
    let sign1 := if 0 <=? new_val then 1 else -1 in
    let abs_val := Z.abs new_val in
    if abs_val =? 0 then Ok (_normalize (mkQ [0] (base q) 1))
    else
      ds ← digits_loop (Z.to_nat abs_val) (base q) abs_val [];
      Ok (_normalize (mkQ ds (base q) sign1)).

(** [str(d)] on an integer: its decimal numeral, with [-] in front of
    a negative one. *)
Definition str (z : Z) : string := NilZero.string_of_int (Z.to_int z).

(** [__repr__] (lines 43-45): the sign prefix and the digits, highest
    first, each printed with [str]. *)
Definition __repr__ (q : QuantumNumber) : string :=
  (if sign q <? 0 then "-" else "")
  +:+ String.concat "" (map str (rev (digits q))).

Record QuantumNumberLayer := mk {
  layer_base : Z;
  input_keys : list string;
  output_keys : list string;
  weights : gmap string (gmap string QuantumNumber);
  biases : gmap string QuantumNumber
}.

(** [total += self.weights[o][i].to_int() * inp.get(i, 0)] *)
Definition forward_in (L : QuantumNumberLayer) (inp : gmap string Z)
    (o i : string) (total : Z) : res Z :=
  wo ← getkey (weights L) o;
  w ← getkey wo i;
  Ok (total + to_int w * default 0 (inp !! i)).

Definition forward_out (L : QuantumNumberLayer) (inp : gmap string Z)
    (o : string) (out : gmap string QuantumNumber)
  : res (gmap string QuantumNumber) :=
  b ← getkey (biases L) o;
  total ← rfoldM (forward_in L inp o) (input_keys L) (to_int b);
  r ← add (init [] (layer_base L) 1) total;
  Ok (<[o := r]> out).

Definition forward (L : QuantumNumberLayer) (inp : gmap string Z)
  : res (gmap string QuantumNumber) :=
  rfoldM (forward_out L inp) (output_keys L) ∅.

Definition set_weights (L : QuantumNumberLayer)
    (ws : gmap string (gmap string QuantumNumber)) :=
  mk (layer_base L) (input_keys L) (output_keys L) ws (biases L).

Definition set_biases (L : QuantumNumberLayer)
    (bs : gmap string QuantumNumber) :=
  mk (layer_base L) (input_keys L) (output_keys L) (weights L) bs.

(** The object after [add(value)] and the exception raised, if any.
    Only a radix 0 makes [add] raise, at the first [abs_val % base],
    when the sign is already set and the digits are reset. *)
Definition add_inplace (q : QuantumNumber) (value : Z)
  : QuantumNumber * option exn :=
  match add q value with
  | Ok q' => (q', None)
  | Raise e =>
      (mkQ [] (base q) (if 0 <=? to_int q + value then 1 else -1), Some e)
  end.

(** [self.output_keys[n]] *)
Definition output_key (L : QuantumNumberLayer) (n : nat) : res string :=
  match output_keys L !! n with Some k => Ok k | None => Raise IndexError end.

(** The second [print] of [train_step]: its f-string reads
    [output_keys[0]], [output[output_keys[0]]], [output_keys[1]] and
    [output[output_keys[1]]], in this order. *)
Definition print_output (L : QuantumNumberLayer)
    (output : gmap string QuantumNumber) : res unit :=
  o0 ← output_key L 0;
  _ ← getkey output o0;
  o1 ← output_key L 1;
  _ ← getkey output o1;
  Ok tt.

(** [delta = int(error * inp.get(i, 0) * learning_rate)] and the update
    of one weight; the learning rate is an integer. *)
Definition update_weight (inp : gmap string Z) (learning_rate error : Z)
    (o i : string) (L : QuantumNumberLayer) : QuantumNumberLayer * option exn :=
  let delta := error * default 0 (inp !! i) * learning_rate in
  if delta =? 0 then (L, None)
  else
    match (wo ← getkey (weights L) o; w ← getkey wo i; Ok (wo, w)) with
    | Raise e => (L, Some e)
    | Ok (wo, w) =>
        let r := add_inplace w delta in
        (set_weights L (<[o := <[i := r.1]> wo]> (weights L)), r.2)
    end.

Definition update_bias (learning_rate error : Z) (o : string)
    (L : QuantumNumberLayer) : QuantumNumberLayer * option exn :=
  let delta_bias := error * learning_rate in
  if delta_bias =? 0 then (L, None)
  else
    match getkey (biases L) o with
    | Raise e => (L, Some e)
    | Ok b =>
        let r := add_inplace b delta_bias in
        (set_biases L (<[o := r.1]> (biases L)), r.2)
    end.

(** Body of the loop over the output keys. *)
Definition train_out (inp target : gmap string Z) (learning_rate : Z)
    (output : gmap string QuantumNumber) (o : string)
    (L : QuantumNumberLayer) : QuantumNumberLayer * option exn :=
  match (t ← getkey target o; oq ← getkey output o; Ok (t - to_int oq)) with
  | Raise e => (L, Some e)
  | Ok error =>
      and_then
        (exec (update_weight inp learning_rate error o) (input_keys L) L)
        (update_bias learning_rate error o)
  end.

(** [train_step]: the layer as the call leaves it and the exception
    raised, if any. *)
Definition train_step (L : QuantumNumberLayer) (inp target : gmap string Z)
    (learning_rate : Z) : QuantumNumberLayer * option exn :=
  match forward L inp with
  | Raise e => (L, Some e)
  | Ok output =>
      match print_output L output with
      | Raise e => (L, Some e)
      | Ok _ => exec (train_out inp target learning_rate output) (output_keys L) L
      end
  end.

(** [QuantumNumberLayer(input_keys, output_keys, base)] (lines 49-55):
    one [QuantumNumber([0], base)] per weight and per bias. *)
Definition layer_init (input_keys output_keys : list string) (base : Z)
  : QuantumNumberLayer :=
  mk base input_keys output_keys
     (foldl (λ weights o,
               <[o := foldl (λ wo i, <[i := init [0] base 1]> wo) ∅
                            input_keys]> weights)
            ∅ output_keys)
     (foldl (λ biases o, <[o := init [0] base 1]> biases) ∅ output_keys).

End Demo24.

(** ** Sign algebra and metadata (Demo5, Demo6, Demo7, Demo17)

    These demos mutate one [QuantumNumberV8] object and follow no link,
    so each method is a function from the object before to the object
    after. *)

Definition set_signs (q : QuantumNumberV8) (v : Z) : QuantumNumberV8 :=
  let 'QN.mk _ m a b c d e f l r u dn i o := q in
  QN.mk v m a b c d e f l r u dn i o.

Definition set_metadata (q : QuantumNumberV8) (v : Z) : QuantumNumberV8 :=
  let 'QN.mk s _ a b c d e f l r u dn i o := q in
  QN.mk s v a b c d e f l r u dn i o.

Module Demo5.
(** [self.qnum.signs ^= (1 << term_index)] *)
Definition toggle_sign_bit (q : QuantumNumberV8) (term_index : Z)
  : QuantumNumberV8 :=
  set_signs q (Z.lxor (QN.signs q) (Z.shiftl 1 term_index)).

Definition multiply_by (q : QuantumNumberV8) (factor : Z) : QuantumNumberV8 :=
  let '(q1, factor1) :=
    if factor <? 0
    then (toggle_sign_bit (toggle_sign_bit q 0) 3, - factor)
    else (q, factor) in
  setattr q1 fe (QN.e q1 + factor1).

Definition divide_by (q : QuantumNumberV8) (divisor : Z) : QuantumNumberV8 :=
  let '(q1, divisor1) :=
    if divisor <? 0
    then (toggle_sign_bit (toggle_sign_bit q 1) 4, - divisor)
    else (q, divisor) in
  setattr q1 ff (QN.f q1 + divisor1).

(** [sign_of] of [print_state]:
    ['-' if (self.qnum.signs >> bit_index) & 1 else '+']. *)
Definition sign_of (q : QuantumNumberV8) (bit_index : Z) : string :=
  if Z.land (Z.shiftr (QN.signs q) bit_index) 1 =? 0 then "+" else "-".
End Demo5.

Module Demo6.
Definition multiply (qnum : QuantumNumberV8) (factor : Z) (sign_flip : bool)
  : QuantumNumberV8 :=
  let q1 := setattr qnum fe (QN.e qnum + factor) in
  if sign_flip then set_signs q1 (Z.lxor (QN.signs q1) 1) else q1.

Definition divide (qnum : QuantumNumberV8) (factor : Z) (sign_flip : bool)
  : QuantumNumberV8 :=
  let q1 := setattr qnum ff (QN.f qnum + factor) in
  if sign_flip then set_signs q1 (Z.lxor (QN.signs q1) 8) else q1.

(** One iteration of [weighted_sum]: [output.a += f.a * w.a] and
    [output.signs ^= f.signs ^ w.signs]. *)
Definition weighted_term (output : QuantumNumberV8)
    (fw : QuantumNumberV8 * QuantumNumberV8) : QuantumNumberV8 :=
  let prod_a := QN.a fw.1 * QN.a fw.2 in
  let prod_signs := Z.lxor (QN.signs fw.1) (QN.signs fw.2) in
  let o1 := setattr output fa (QN.a output + prod_a) in
  set_signs o1 (Z.lxor (QN.signs o1) prod_signs).

(** [weighted_sum]: the new [self.output], from the lists [features]
    and [weights]; [zip] stops at the shorter list. *)
Definition weighted_sum (features weights : list QuantumNumberV8)
  : QuantumNumberV8 :=
  foldl weighted_term new_cell (zip features weights).
End Demo6.

Module Demo7.
Definition multiply (qnum : QuantumNumberV8) (factor : Z) (sign_flip : bool)
  : QuantumNumberV8 :=
  let q1 := setattr qnum fe (QN.e qnum + factor) in
  let q2 := if sign_flip then set_signs q1 (Z.lxor (QN.signs q1) 1) else q1 in
  set_metadata q2 (QN.metadata q2 + 1).

Definition divide (qnum : QuantumNumberV8) (factor : Z) (sign_flip : bool)
  : QuantumNumberV8 :=
  let q1 := setattr qnum ff (QN.f qnum + factor) in
  let q2 := if sign_flip then set_signs q1 (Z.lxor (QN.signs q1) 8) else q1 in
  set_metadata q2 (QN.metadata q2 + 1).

(** [if qnum.signs & 0b000001: ...]; [~0b000001] is [-2]. *)
Definition relu_activation (qnum : QuantumNumberV8) : QuantumNumberV8 :=
  if Z.land (QN.signs qnum) 1 =? 0 then qnum
  else
    let q1 := setattr qnum fa 0 in
    let q2 := set_signs q1 (Z.land (QN.signs q1) (Z.lnot 1)) in
    set_metadata q2 (QN.metadata q2 + 1).

(** One iteration of [symbolic_dot_product], on the pair
    [(self.output, max_metadata)]. *)
Definition dot_term (st : QuantumNumberV8 * Z)
    (fw : QuantumNumberV8 * QuantumNumberV8) : QuantumNumberV8 * Z :=
  (Demo6.weighted_term st.1 fw,
   Z.max (Z.max st.2 (QN.metadata fw.1)) (QN.metadata fw.2)).

(** [symbolic_dot_product]: the new [self.output]. *)
Definition symbolic_dot_product (features weights : list QuantumNumberV8)
  : QuantumNumberV8 :=
  let st := foldl dot_term (new_cell, 0) (zip features weights) in
  set_metadata st.1 (st.2 + 1).
End Demo7.

Module Demo17.
Definition relu (self : QuantumNumberV8) : QuantumNumberV8 :=
  if QN.a self <? 0 then setattr self fa 0 else self.

(** The object built by [copy]: signs, metadata and the six
    coefficients of [q]; every link [None]. *)
Definition copy_cell (q : QuantumNumberV8) : QuantumNumberV8 :=
  QN.mk (QN.signs q) (QN.metadata q)
        (QN.a q) (QN.b q) (QN.c q) (QN.d q) (QN.e q) (QN.f q)
        None None None None None None.

(** [copy]: a new object in the store. *)
Definition copy (h : heap) (self : loc) : option (heap * loc) :=
  q ← h !! self; Some (h ++ [copy_cell q], length h).

(** One statement [self.field += other.field] of [add]. *)
Definition add_stmt (self other : loc) (fl : field) (h : heap) : option heap :=
  s ← h !! self;
  o ← h !! other;
  store_attr h self fl (getattr s fl + getattr o fl).

(** [add] of Demo17: elementwise, no carry. *)
Definition add (h : heap) (self other : loc) : option heap :=
  foldM (add_stmt self other) fields h.

(** [multiply_scalar] with an integer scalar. *)
Definition multiply_scalar (h : heap) (self : loc) (scalar : Z) : option heap :=
  foldM (λ fl h1, s ← h1 !! self; store_attr h1 self fl (getattr s fl * scalar))
        fields h.

(** [weighted_sum_neighbors]: the store with the new result object,
    and its address. *)
Definition weighted_sum_neighbors (h : heap) (self : loc)
  : option (heap * loc) :=
  r ← copy h self;
  s ← r.1 !! self;
  h' ← foldM (λ neighbor h1,
                match neighbor with
                | Some n => add h1 r.2 n
                | None => Some h1
                end)
             [QN.up s; QN.down s; QN.left s; QN.right s] r.1;
  Some (h', r.2).
End Demo17.

(** A cell with the given [a] field and left link, everything else as
    created. *)
Definition cell_a (v : Z) (l : option loc) : QuantumNumberV8 :=
  set_left (setattr new_cell fa v) l.

(** ** Closed forms of one pass of the loops of [add] and [scale_by_int] *)

(** What the branch [if val > 10] of [add] leaves in [self.field], in
    [carry.field] and in [carry_flag]. *)
Definition add_keep (val : Z) : Z := if 10 <? val then val - 10 else val.
Definition add_carry (val : Z) : Z := if 10 <? val then 1 else 0.
Definition over (val : Z) : bool := 10 <? val.

Definition scale_keep (val : Z) : Z := if 10 <? val then val mod 10 else val.
Definition scale_carry (val : Z) : Z := if 10 <? val then val / 10 else 0.

(** A cell whose six coefficients are [g fa .. g ff], the rest taken
    from [q]. *)
Definition with_fields (q : QuantumNumberV8) (g : field → Z) : QuantumNumberV8 :=
  QN.mk (QN.signs q) (QN.metadata q) (g fa) (g fb) (g fc) (g fd) (g fe) (g ff)
        (QN.left q) (QN.right q) (QN.up q) (QN.down q) (QN.in_ q) (QN.out q).

Definition any_field (p : field → bool) : bool :=
  p fa || p fb || p fc || p fd || p fe || p ff.

(** The store during the loop: the original store plus the carry cell,
    with the current [self] and [carry] objects written in. *)
Definition loop_heap (h : heap) (x : loc) (sc cc : QuantumNumberV8) : heap :=
  <[length h := cc]> (<[x := sc]> (h ++ [new_cell])).

(** The objects [self] and [carry] after the loop of [add], from the
    objects [s] (self) and [o] (other) the call found. *)
Definition add_self (s o : QuantumNumberV8) : QuantumNumberV8 :=
  with_fields s (λ fl, add_keep (getattr s fl + getattr o fl)).
Definition add_carry_cell (s o : QuantumNumberV8) : QuantumNumberV8 :=
  with_fields new_cell (λ fl, add_carry (getattr s fl + getattr o fl)).
Definition add_over (s o : QuantumNumberV8) : bool :=
  any_field (λ fl, over (getattr s fl + getattr o fl)).

Definition scale_self (s : QuantumNumberV8) (k : Z) : QuantumNumberV8 :=
  with_fields s (λ fl, scale_keep (getattr s fl * k)).
Definition scale_carry_cell (s : QuantumNumberV8) (k : Z) : QuantumNumberV8 :=
  with_fields new_cell (λ fl, scale_carry (getattr s fl * k)).
Definition scale_over (s : QuantumNumberV8) (k : Z) : bool :=
  any_field (λ fl, over (getattr s fl * k)).

(** ** Left-chains

    [chain h l ls] : following [left] from the cell at [l] visits exactly
    the addresses [ls] (starting with [l]) and then reaches [None]. *)
Inductive chain (h : heap) : loc → list loc → Prop :=
| chain_end l q :
    h !! l = Some q → QN.left q = None → chain h l [l]
| chain_step l q l' ls :
    h !! l = Some q → QN.left q = Some l' → chain h l' ls →
    chain h l (l :: ls).

(** Field [fl] of the cell at [l] (0 when there is no such cell). *)
Definition field_at (h : heap) (fl : field) (l : loc) : Z :=
  from_option (λ q, getattr q fl) 0 (h !! l).

(** Mixed-radix reconstruction of one field over a chain, radix 10:
    the sum over [k] of [chain[k].field * 10^k], the cells of the chain
    being numbered from [k0]. *)
Fixpoint recon_from (k0 : nat) (h : heap) (fl : field) (ls : list loc) : Z :=
  match ls with
  | [] => 0
  | l :: ls' => field_at h fl l * 10 ^ Z.of_nat k0 + recon_from (S k0) h fl ls'
  end.

Definition recon (h : heap) (fl : field) (ls : list loc) : Z :=
  recon_from 0 h fl ls.

(** Every [left] link of the store points into the store. *)
Definition left_closed (h : heap) : Prop :=
  ∀ l q l', h !! l = Some q → QN.left q = Some l' → (l' < length h)%nat.

(** The attributes other than the six coefficients and [left]. *)
Definition same_meta (q q' : QuantumNumberV8) : Prop :=
  QN.signs q' = QN.signs q ∧ QN.metadata q' = QN.metadata q ∧
  QN.right q' = QN.right q ∧ QN.up q' = QN.up q ∧ QN.down q' = QN.down q ∧
  QN.in_ q' = QN.in_ q ∧ QN.out q' = QN.out q.

(** [self.left] after [add]: kept when present, the carry cell [c] when
    absent and some field overflowed. *)
Definition add_left (s o : QuantumNumberV8) (c : loc) : option loc :=
  match QN.left s with
  | Some l => Some l
  | None => if add_over s o then Some c else None
  end.

(** What a terminated [add] on a finite left-chain [ls] leaves behind:
    [h'] the final store, [ls'] the final chain of [self]. *)
Definition add_post (h : heap) (x : loc) (ls : list loc)
    (s o : QuantumNumberV8) (h' : heap) (ls' : list loc) : Prop :=
  chain h' x ls' ∧
  (length h < length h')%nat ∧
  (∀ l, (l < length h)%nat → l ∉ ls → h' !! l = h !! l) ∧
  (∀ fl, recon h' fl ls' = recon h fl ls + getattr o fl) ∧
  (ls' = ls ∨ ∃ c, ls' = ls ++ [c] ∧ (length h ≤ c)%nat) ∧
  h' !! x = Some (set_left (add_self s o) (add_left s o (length h))).

(** ** Concrete layers used in the examples *)

(** Demo23: inputs a, b; output x with modulus 7; weights 1, bias 0. *)
Definition layer23 : Demo23.QuantumNumberLayer :=
  Demo23.mk ["a"; "b"] ["x"] {[ "x" := 7 ]}
            {[ "x" := {[ "a" := 1; "b" := 1 ]} ]} {[ "x" := 0 ]}.

(** Demo24: inputs a, b; output x; radix 10; weights 1, bias 0. *)
Definition layer24 : Demo24.QuantumNumberLayer :=
  Demo24.mk 10 ["a"; "b"] ["x"]
            {[ "x" := {[ "a" := Demo24.init [1] 10 1;
                         "b" := Demo24.init [1] 10 1 ]} ]}
            {[ "x" := Demo24.init [0] 10 1 ]}.

(** Demo28: one input a, one output x; weight a = 1 at address 0, bias
    a = 0 at address 1. *)
Definition layer28 : QuantumLayer :=
  mkLayer [("x", [("a", 0%nat)])] [("x", 1%nat)].
Definition heap28 : heap := [cell_a 1 None; cell_a 0 None].

(** A Demo23 layer as its constructor leaves it for the configured
    keys: a bias per output key and a weight per output and input key. *)
Definition well_formed23 (L : Demo23.QuantumNumberLayer) : Prop :=
  ∀ o, o ∈ Demo23.output_keys L →
    is_Some (Demo23.biases L !! o) ∧
    ∃ wo, Demo23.weights L !! o = Some wo ∧
          ∀ i, i ∈ Demo23.input_keys L → is_Some (wo !! i).

(** The value of a little-endian digit list in radix [b]. *)
Definition le_val (b : Z) (ds : list Z) : Z :=
  foldr (λ d acc, d + b * acc) 0 ds.

(** The plain sum of the inputs over the configured input keys, a
    missing key counting as 0. *)
Definition sum_inputs (inp : gmap string Z) (keys : list string) : Z :=
  foldr (λ i acc, default 0 (inp !! i) + acc) 0 keys.

(** A Demo24 layer with every weight 1 and every bias 0. *)
Definition unit_layer24 (L : Demo24.QuantumNumberLayer) : Prop :=
  ∀ o, o ∈ Demo24.output_keys L →
    (∃ b, Demo24.biases L !! o = Some b ∧ Demo24.to_int b = 0) ∧
    ∃ wo, Demo24.weights L !! o = Some wo ∧
          ∀ i, i ∈ Demo24.input_keys L →
               ∃ w, wo !! i = Some w ∧ Demo24.to_int w = 1.

(** ** The training example: input 2, target 10, weight 1, bias 0

    [layer28] on [heap28] is the single scalar layer with weight [a = 1]
    and bias [a = 0]. *)
Definition input3 : gmap string Z := {[ "a" := 2 ]}.
Definition target3 : gmap string Z := {[ "x" := 10 ]}.

(** [n] calls of [train_step] in a row, on the same layer and store. *)
Fixpoint train_steps (fuel : nat) (lr : Z) (n : nat) (h : heap) : res heap :=
  match n with
  | O => Ok h
  | S n' =>
      h' ← train_step fuel layer28 h input3 target3 lr;
      train_steps fuel lr n' h'
  end.

(** [|target - output|], the output taken as [train_step] takes it:
    field [a] of the output cell of a forward pass. *)
Definition abs_error (fuel : nat) (h : heap) : res Z :=
  r ← forward fuel layer28 h input3;
  o ← getitem r.2 "x";
  c ← of_opt (r.1 !! o);
  Ok (Z.abs (10 - QN.a c)).

(** The error after [n] training steps. *)
Definition error_seq (fuel : nat) (lr : Z) (n : nat) : res Z :=
  h ← train_steps fuel lr n heap28;
  abs_error fuel h.

(** What the example's [forward] leaves in [output.a], and what one
    [train_step] leaves in [weight.a] and [bias.a], as functions of
    [weight.a] and [bias.a] before. *)
Definition out_a (wa ba : Z) : Z :=
  add_keep (add_keep (0 + scale_keep (wa * 2)) + ba).

Definition abs_step (lr wa ba : Z) : Z * Z :=
  let er := 10 - out_a wa ba in
  (add_keep (wa + er * 2 * lr), add_keep (ba + er * lr)).

Fixpoint abs_iter (lr : Z) (n : nat) (wa ba : Z) : Z * Z :=
  match n with
  | O => (wa, ba)
  | S k => abs_iter lr k (abs_step lr wa ba).1 (abs_step lr wa ba).2
  end.


(** Old cells are where they were and as they were. *)
Definition pres (h h' : heap) : Prop :=
  (length h ≤ length h')%nat ∧
  ∀ l, (l < length h)%nat → h' !! l = h !! l.


(** Demo24 layers for the training example (weight 1, bias 0, input
    key a): with the single output x, and with a second output y beside
    it. *)
Definition layer24_single : Demo24.QuantumNumberLayer :=
  Demo24.mk 10 ["a"] ["x"]
            {[ "x" := {[ "a" := Demo24.init [1] 10 1 ]} ]}
            {[ "x" := Demo24.init [0] 10 1 ]}.

Definition layer24_twin : Demo24.QuantumNumberLayer :=
  Demo24.mk 10 ["a"] ["x"; "y"]
            {[ "x" := {[ "a" := Demo24.init [1] 10 1 ]};
               "y" := {[ "a" := Demo24.init [1] 10 1 ]} ]}
            {[ "x" := Demo24.init [0] 10 1; "y" := Demo24.init [0] 10 1 ]}.

(** [|target - output|] on output x of a Demo24 layer after [n] training
    steps at target 10 for every output. *)
Fixpoint train24 (lr : Z) (n : nat) (L : Demo24.QuantumNumberLayer)
  : Demo24.QuantumNumberLayer * option exn :=
  match n with
  | O => (L, None)
  | S k =>
      and_then (Demo24.train_step L input3 {[ "x" := 10; "y" := 10 ]} lr)
               (train24 lr k)
  end.

Definition error24 (lr : Z) (n : nat) (L : Demo24.QuantumNumberLayer)
  : res Z :=
  match train24 lr n L with
  | (_, Some e) => Raise e
  | (L', None) =>
      out ← Demo24.forward L' input3;
      r ← getkey out "x";
      Ok (Z.abs (10 - Demo24.to_int r))
  end.

(** ** Sums used to state what the aggregations compute *)

(** The sum of field [fl] over the neighbours that are present. *)
Definition neighbor_sum (h : heap) (fl : field) (nbs : list (option loc)) : Z :=
  foldr (λ nb acc, match nb with
                   | Some n => field_at h fl n + acc
                   | None => acc
                   end) 0 nbs.

(** The sum of the products [f.a * w.a] and the exclusive or of the
    sign fields over a list of pairs. *)
Definition dot_a (l : list (QuantumNumberV8 * QuantumNumberV8)) : Z :=
  foldr (λ fw acc, QN.a fw.1 * QN.a fw.2 + acc) 0 l.

Definition xor_signs (l : list (QuantumNumberV8 * QuantumNumberV8)) : Z :=
  foldr (λ fw acc, Z.lxor (Z.lxor (QN.signs fw.1) (QN.signs fw.2)) acc) 0 l.

(** ** Canonical digit lists and affine sums (Demo24) *)

(** Digits in range and no high zero digit, the single digit 0 with
    sign 1 apart: the form [add] leaves after a nonzero value. *)
Definition canonical24 (q : Demo24.QuantumNumber) : Prop :=
  Forall (λ d, 0 ≤ d < Demo24.base q) (Demo24.digits q) ∧
  (Demo24.digits q = [0] ∧ Demo24.sign q = 1 ∨
   (∃ ds d, Demo24.digits q = ds ++ [d] ∧ d ≠ 0) ∧
   (Demo24.sign q = 1 ∨ Demo24.sign q = -1)).

(** A Demo24 layer as its constructor leaves it for the configured
    keys: a bias per output key, a weight per output and input key, all
    of the radix of the layer. *)
Definition well_formed24 (L : Demo24.QuantumNumberLayer) : Prop :=
  ∀ o, o ∈ Demo24.output_keys L →
    (∃ b, Demo24.biases L !! o = Some b ∧
          Demo24.base b = Demo24.layer_base L) ∧
    ∃ wo, Demo24.weights L !! o = Some wo ∧
          ∀ i, i ∈ Demo24.input_keys L →
            ∃ w, wo !! i = Some w ∧ Demo24.base w = Demo24.layer_base L.

(** The integer read from a weight and from a bias, 0 when absent. *)
Definition weight24 (L : Demo24.QuantumNumberLayer) (o i : string) : Z :=
  default 0 (wo ← Demo24.weights L !! o; w ← wo !! i; Some (Demo24.to_int w)).

Definition bias24 (L : Demo24.QuantumNumberLayer) (o : string) : Z :=
  default 0 (Demo24.to_int <$> Demo24.biases L !! o).

(** [bias + Σ weight * input] over the configured input keys. *)
Definition affine24 (L : Demo24.QuantumNumberLayer) (inp : gmap string Z)
    (o : string) : Z :=
  bias24 L o
  + foldr (λ i acc, weight24 L o i * default 0 (inp !! i) + acc) 0
          (Demo24.input_keys L).

(** What an output of [forward] looks like for the total [t]: read
    back it is [t]; its digits are canonical, except that the total 0
    leaves the empty digit list the output was created with. *)
Definition output24 (b t : Z) (r : Demo24.QuantumNumber) : Prop :=
  Demo24.to_int r = t ∧ Demo24.base r = b ∧
  (t = 0 → Demo24.digits r = []) ∧ (t ≠ 0 → canonical24 r).

(** Two layers with the same radix and key lists. *)
Definition same_shape24 (L L' : Demo24.QuantumNumberLayer) : Prop :=
  Demo24.layer_base L' = Demo24.layer_base L ∧
  Demo24.input_keys L' = Demo24.input_keys L ∧
  Demo24.output_keys L' = Demo24.output_keys L.

(** The sum of the squares of the inputs over the given keys, a missing
    key counting as 0. *)
Definition sum_sq (inp : gmap string Z) (keys : list string) : Z :=
  foldr (λ i acc, default 0 (inp !! i) * default 0 (inp !! i) + acc) 0 keys.

(** [target[o] - output[o].to_int()] as [train_step] computes it from
    the forward pass made before the first update. *)
Definition error24_at (L : Demo24.QuantumNumberLayer)
    (inp target : gmap string Z) (o : string) : Z :=
  default 0 (target !! o) - affine24 L inp o.

(** ** Affine sums and updates (Demo23) *)

(** The integer held as weight and as bias, 0 when absent. *)
Definition weight23 (L : Demo23.QuantumNumberLayer) (o i : string) : Z :=
  default 0 (wo ← Demo23.weights L !! o; wo !! i).

Definition bias23 (L : Demo23.QuantumNumberLayer) (o : string) : Z :=
  default 0 (Demo23.biases L !! o).

(** [bias + Σ weight * input] over the configured input keys, before
    the reduction. *)
Definition affine23 (L : Demo23.QuantumNumberLayer) (inp : gmap string Z)
    (o : string) : Z :=
  bias23 L o
  + foldr (λ i acc, weight23 L o i * default 0 (inp !! i) + acc) 0
          (Demo23.input_keys L).

(** Two layers with the same key lists and moduli. *)
Definition same_shape23 (L L' : Demo23.QuantumNumberLayer) : Prop :=
  Demo23.input_keys L' = Demo23.input_keys L ∧
  Demo23.output_keys L' = Demo23.output_keys L ∧
  Demo23.bases L' = Demo23.bases L.

(** ** The digit range of the carry engine (Demo28) *)

(** Every coefficient of the cell within 0..10: the values that the
    threshold [val > 10] of [add] lets stand. *)
Definition in_range (q : QuantumNumberV8) : Prop :=
  ∀ fl, 0 ≤ getattr q fl ≤ 10.

Definition cells_in_range (h : heap) (ls : list loc) : Prop :=
  ∀ l q, l ∈ ls → h !! l = Some q → in_range q.

(** ** What [forward] of Demo28 computes *)

(** Coefficient [fl] of an output cell of [forward]: the coefficients
    of the weights scaled by the inputs, then the bias, accumulated
    through the carry rule of [add]; of each scaled copy only the
    retained part enters. *)
Definition forward_head (h : heap) (input_vector : gmap string Z)
    (weight_dict : list (string * loc)) (bo : loc) (fl : field) : Z :=
  add_keep
    (foldl (λ acc w,
              add_keep (acc + scale_keep (field_at h fl w.2
                                          * get0 input_vector w.1)))
           0 weight_dict
     + field_at h fl bo).

(** The plain affine sum of the same coefficients. *)
Definition plain_head (h : heap) (input_vector : gmap string Z)
    (weight_dict : list (string * loc)) (bo : loc) (fl : field) : Z :=
  foldr (λ w acc, field_at h fl w.2 * get0 input_vector w.1 + acc) 0
        weight_dict
  + field_at h fl bo.

(** Every cell the layer refers to is in the store, and every output
    key has a bias. *)
Definition layer_in (L : QuantumLayer) (h : heap) : Prop :=
  ∀ o wd, (o, wd) ∈ weights L →
    (∃ bo, assoc o (biases L) = Some bo ∧ (bo < length h)%nat) ∧
    ∀ i qn, (i, qn) ∈ wd → (qn < length h)%nat.

(** ** [QuantumLayer.__init__] (Demo28, lines 83-92) *)

(** [{k: QuantumNumberV8() for k in keys}]: one new cell per key, in
    the order of [keys]. *)
Definition new_cells (keys : list string) (h : heap)
  : heap * list (string * loc) :=
  foldl (λ st k, let '(h1, l) := alloc st.1 in (h1, setitem st.2 k l))
        (h, []) keys.

(** [{o: {i: QuantumNumberV8() for i in inputs} for o in outputs}] *)
Definition new_weights (inputs outputs : list string) (h : heap)
  : heap * list (string * list (string * loc)) :=
  foldl (λ st o, let '(h1, d) := new_cells inputs st.1 in
                 (h1, setitem st.2 o d))
        (h, []) outputs.

(** [self.weights[o][i].a = 1] *)
Definition init_weight (L : QuantumLayer) (o i : string) (h : heap)
  : res heap :=
  wd ← getitem (weights L) o;
  l ← getitem wd i;
  of_opt (store_attr h l fa 1).

(** Body of the loop [for o in outputs] of the constructor. *)
Definition init_out (inputs : list string) (L : QuantumLayer) (o : string)
    (h : heap) : res heap :=
  h1 ← rfoldM (init_weight L o) inputs h;
  bo ← getitem (biases L) o;
  of_opt (store_attr h1 bo fa 1).

(** [QuantumLayer(inputs, outputs)]: the store with the new cells and
    the layer that refers to them. *)
Definition layer_init (inputs outputs : list string) (h : heap)
  : res (heap * QuantumLayer) :=
  let '(h1, ws) := new_weights inputs outputs h in
  let '(h2, bs) := new_cells outputs h1 in
  h3 ← rfoldM (init_out inputs (mkLayer ws bs)) outputs h2;
  Ok (h3, mkLayer ws bs).

(** The weight dicts the constructor builds for distinct keys: the
    cells of the [j]-th output key are the next [length inputs]
    addresses. *)
Fixpoint weight_dicts (inputs : list string) (base : nat)
    (outputs : list string) : list (string * list (string * loc)) :=
  match outputs with
  | [] => []
  | o :: os =>
      (o, zip inputs (seq base (length inputs)))
      :: weight_dicts inputs (base + length inputs) os
  end.

(** The stores the loops of the constructor go through: from address
    [nb] on, every cell is new or holds [a = 1]. *)
Definition init_state (nb : nat) (h : heap) : Prop :=
  ∀ l, (nb ≤ l < length h)%nat →
       h !! l = Some new_cell ∨ h !! l = Some (cell_a 1 None).

Definition init_step (nb : nat) (h h' : heap) : Prop :=
  length h' = length h ∧
  (∀ l, (l < nb)%nat → h' !! l = h !! l) ∧
  init_state nb h' ∧
  ∀ l, h !! l = Some (cell_a 1 None) → h' !! l = Some (cell_a 1 None).

(** The sum of the inputs as a fresh layer accumulates it. *)
Definition fresh_head (input_vector : gmap string Z) (inputs : list string)
  : Z :=
  add_keep (foldl (λ acc i, add_keep (acc + scale_keep (get0 input_vector i)))
                  0 inputs + 1).



(** ** Decimal numerals (for [__repr__] of Demo24) *)

(** The decimal digit [d] put in front of a numeral. *)
Definition digit_cons (d : Z) (u : Decimal.uint) : Decimal.uint :=
  match d with
  | 1 => Decimal.D1 u | 2 => Decimal.D2 u | 3 => Decimal.D3 u
  | 4 => Decimal.D4 u | 5 => Decimal.D5 u | 6 => Decimal.D6 u
  | 7 => Decimal.D7 u | 8 => Decimal.D8 u | 9 => Decimal.D9 u
  | _ => Decimal.D0 u
  end.

(** The numeral with the given digits, the first digit in front. *)
Definition uint_of (ds : list Z) : Decimal.uint :=
  foldr digit_cons Decimal.Nil ds.





(** ** Demo23 on the caller's dicts

    [__init__] keeps [bases] and [initial_weights] as the objects the
    caller passes (lines 12-13), [backward] updates the inner dicts of
    [weights] and the dict [biases] in place (lines 44 and 46), and
    both methods read their arguments through references.  Here every
    dict of integers is an object of a store, addressed by its index,
    so that a dict reached under two names (one inner dict held under
    two output keys, the input passed as a weight dict) is one object.
    The outer dict of [weights] holds the references to the inner
    dicts; the class only reads it. *)

Module Shared23.
Abbreviation dict := (gmap string Z).
Abbreviation store := (list dict).

Record QuantumNumberLayer := mk {
  input_keys : list string;
  output_keys : list string;
  bases : loc;
  weights : gmap string loc;
  biases : loc
}.

(** [QuantumNumberLayer(input_keys, output_keys, bases, initial_weights)]:
    the arguments are kept by reference, and [biases] is a new dict. *)
Definition layer_init (h : store) (input_keys output_keys : list string)
    (bases : loc) (initial_weights : gmap string loc)
  : store * QuantumNumberLayer :=
  (h ++ [foldl (λ biases k, <[k := 0]> biases) ∅ output_keys],
   mk input_keys output_keys bases initial_weights (length h)).

(** Body of the inner loop of [forward]: [total += w * v]. *)
Definition forward_in (L : QuantumNumberLayer) (h : store) (input_qn : loc)
    (out_k in_k : string) (total : Z) : res Z :=
  l ← getkey (weights L) out_k;
  wo ← of_opt (h !! l);
  w ← getkey wo in_k;
  iq ← of_opt (h !! input_qn);
  v ← getkey iq in_k;
  Ok (total + w * v).

Definition forward_out (L : QuantumNumberLayer) (h : store) (input_qn : loc)
    (out_k : string) (output_qn : dict) : res dict :=
  bs ← of_opt (h !! biases L);
  total0 ← getkey bs out_k;
  total ← rfoldM (forward_in L h input_qn out_k) (input_keys L) total0;
  bd ← of_opt (h !! bases L);
  base ← getkey bd out_k;
  if base =? 0 then Raise ZeroDivisionError
  else Ok (<[out_k := total mod base]> output_qn).

(** [forward]: the result is a new dict. *)
Definition forward (L : QuantumNumberLayer) (h : store) (input_qn : loc)
  : res (store * loc) :=
  output_qn ← rfoldM (forward_out L h input_qn) (output_keys L) ∅;
  Ok (h ++ [output_qn], length h).

(** [errors[k] = target_qn[k] - output_qn[k]]; [errors] is a dict of
    the call's own. *)
Definition error_of (h : store) (target_qn output_qn : loc) (k : string)
    (errors : dict) : res dict :=
  tq ← of_opt (h !! target_qn);
  t ← getkey tq k;
  oq ← of_opt (h !! output_qn);
  o ← getkey oq k;
  Ok (<[k := t - o]> errors).

(** [self.biases[out_k] += learning_rate * errors[out_k]] *)
Definition update_bias (L : QuantumNumberLayer) (learning_rate : Z)
    (errors : dict) (out_k : string) (h : store) : res store :=
  bs ← of_opt (h !! biases L);
  b ← getkey bs out_k;
  er ← getkey errors out_k;
  Ok (<[biases L := <[out_k := b + learning_rate * er]> bs]> h).

(** [self.weights[out_k][in_k] += learning_rate * errors[out_k] * input_qn[in_k]]:
    the inner dict is fetched, read at [in_k], and written in place
    once the right-hand side is computed. *)
Definition update_weight (L : QuantumNumberLayer) (learning_rate : Z)
    (errors : dict) (input_qn : loc) (out_k in_k : string) (h : store)
  : res store :=
  l ← getkey (weights L) out_k;
  wo ← of_opt (h !! l);
  w ← getkey wo in_k;
  er ← getkey errors out_k;
  iq ← of_opt (h !! input_qn);
  v ← getkey iq in_k;
  Ok (<[l := <[in_k := w + learning_rate * er * v]> wo]> h).

(** [backward]: the store as the call leaves it, and the exception it
    raised, if any. *)
Definition backward (L : QuantumNumberLayer) (h : store)
    (input_qn target_qn output_qn : loc) (learning_rate : Z)
  : store * option exn :=
  match rfoldM (error_of h target_qn output_qn) (output_keys L) ∅ with
  | Raise e => (h, Some e)
  | Ok errors =>
      exec (λ out_k h1,
              and_then (atomic (update_bias L learning_rate errors out_k h1) h1)
                (exec (λ in_k h2,
                         atomic (update_weight L learning_rate errors input_qn
                                   out_k in_k h2) h2)
                      (input_keys L)))
           (output_keys L) h
  end.
End Shared23.

(** The layer as a reader finds it in store [h]: every reference
    replaced by the dict it points to. *)
Definition snapshot (h : Shared23.store) (L : Shared23.QuantumNumberLayer)
  : Demo23.QuantumNumberLayer :=
  Demo23.mk (Shared23.input_keys L) (Shared23.output_keys L)
            (default ∅ (h !! Shared23.bases L))
            (omap (λ l, h !! l) (Shared23.weights L))
            (default ∅ (h !! Shared23.biases L)).

(** Every reference of the layer points into the store. *)
Definition allocated (h : Shared23.store) (L : Shared23.QuantumNumberLayer)
  : Prop :=
  is_Some (h !! Shared23.bases L) ∧ is_Some (h !! Shared23.biases L) ∧
  ∀ o l, Shared23.weights L !! o = Some l → is_Some (h !! l).

(** The dicts that [backward] writes: [biases] and the inner dicts. *)
Definition written (L : Shared23.QuantumNumberLayer) (l : loc) : Prop :=
  l = Shared23.biases L ∨ ∃ o, Shared23.weights L !! o = Some l.

(** No dict that [backward] writes is reached under two names: the
    inner dicts are distinct objects, one per key of [weights], none of
    them is [biases], and neither [bases] nor the input is among the
    dicts written. *)
Definition own_dicts (L : Shared23.QuantumNumberLayer) (input_qn : loc)
  : Prop :=
  (∀ o o' l, Shared23.weights L !! o = Some l →
             Shared23.weights L !! o' = Some l → o = o') ∧
  (∀ o, Shared23.weights L !! o ≠ Some (Shared23.biases L)) ∧
  ¬ written L (Shared23.bases L) ∧ ¬ written L input_qn.

(** A run on the store and a run on values that went the same way. *)
Definition same_run {S T} (R : S → T → Prop) (x : S * option exn)
    (y : T * option exn) : Prop :=
  R x.1 y.1 ∧ x.2 = y.2.

(** Store [h1] holds layer [L1], as [backward] sees them while it runs
    from store [h0]. *)
Definition holds (L : Shared23.QuantumNumberLayer) (h0 : Shared23.store)
    (input_qn : loc) (inp : gmap string Z) (h1 : Shared23.store)
    (L1 : Demo23.QuantumNumberLayer) : Prop :=
  snapshot h1 L = L1 ∧ allocated h1 L ∧ h1 !! input_qn = Some inp ∧
  length h1 = length h0 ∧ ∀ l, ¬ written L l → h1 !! l = h0 !! l.

(** A store with a layer of two outputs on distinct inner dicts:
    [bases] at 0, [biases] at 1, the weights of x at 2 and of y at 3,
    an input at 4, a target at 5 and an output at 6. *)
Definition store23 : Shared23.store :=
  [ {[ "x" := 7; "y" := 5 ]}; {[ "x" := 0; "y" := 0 ]};
    {[ "a" := 1; "b" := 2 ]}; {[ "a" := 0; "b" := 1 ]};
    {[ "a" := 3; "b" := 5 ]}; {[ "x" := 5; "y" := 4 ]};
    {[ "x" := 1; "y" := 2 ]} ].

Definition shared_layer23 : Shared23.QuantumNumberLayer :=
  Shared23.mk ["a"; "b"] ["x"; "y"] 0%nat {[ "x" := 2%nat; "y" := 3%nat ]}
              1%nat.

(** The same layer with one inner dict held under both output keys. *)
Definition aliased_layer23 : Shared23.QuantumNumberLayer :=
  Shared23.mk ["a"; "b"] ["x"; "y"] 0%nat {[ "x" := 2%nat; "y" := 2%nat ]}
              1%nat.

(** The sum of [err o] over the output keys [o] among [os] whose inner
    dict is the object [l]. *)
Definition shared_error (L : Shared23.QuantumNumberLayer) (err : string → Z)
    (l : loc) (os : list string) : Z :=
  foldr (λ o acc,
           (if decide (Shared23.weights L !! o = Some l) then err o else 0)
           + acc) 0 os.

(** ** Demo28 with a fractional learning rate

    [train_step] multiplies the error by [learning_rate] as it is
    (lines 122 and 127: no [int()], unlike Demo24), so a learning rate
    that is a fraction puts fractions into the coefficients, and
    [add], [scale_by_int] and [forward] then compare, subtract and take
    [%] and [//] of them.  This module is the same code, line by line,
    on exact rationals kept in lowest terms (Python's
    [fractions.Fraction]; a float such as 0.25, whose products here
    are all exactly representable, gives the same values).  Inputs and
    targets stay integers. *)

Module Frac28.
Import QArith_base Qreduction Qround Qabs.

Record cell := mk {
  signs : Z; metadata : Z;
  a : Q; b : Q; c : Q; d : Q; e : Q; f : Q;
  left : option loc; right : option loc;
  up : option loc; down : option loc;
  in_ : option loc; out : option loc
}.

Definition new_cell : cell :=
  mk 0 0 (inject_Z 0) (inject_Z 0) (inject_Z 0) (inject_Z 0) (inject_Z 0)
     (inject_Z 0) None None None None None None.

Definition getattr (q : cell) (fl : field) : Q :=
  match fl with
  | fa => a q | fb => b q | fc => c q | fd => d q | fe => e q | ff => f q
  end.

Definition setattr (q : cell) (fl : field) (v : Q) : cell :=
  let 'mk s m a b c d e f l r u dn i o := q in
  match fl with
  | fa => mk s m v b c d e f l r u dn i o
  | fb => mk s m a v c d e f l r u dn i o
  | fc => mk s m a b v d e f l r u dn i o
  | fd => mk s m a b c v e f l r u dn i o
  | fe => mk s m a b c d v f l r u dn i o
  | ff => mk s m a b c d e v l r u dn i o
  end.

Definition set_left (q : cell) (l : option loc) : cell :=
  let 'mk s m a b c d e f _ r u dn i o := q in
  mk s m a b c d e f l r u dn i o.

(** The fraction [n / d]. *)
Definition frac (n : Z) (d : positive) : Q := Qmake n d.

Abbreviation heap := (list cell).

Definition alloc (h : heap) : heap * loc := (h ++ [new_cell], length h).

Definition store_attr (h : heap) (l : loc) (fl : field) (v : Q) : option heap :=
  q ← h !! l; Some (<[l := setattr q fl v]> h).

Definition store_left (h : heap) (l : loc) (v : option loc) : option heap :=
  q ← h !! l; Some (<[l := set_left q v]> h).

(** Arithmetic on fractions in lowest terms: [+], [-], [*], the test
    [val > 10], and Python's [val // 10] (the floor of the quotient)
    and [val % 10] (what is left: [val - 10 * (val // 10)]). *)
Definition plus (x y : Q) : Q := Qred (Qplus x y).
Definition minus (x y : Q) : Q := Qred (Qminus x y).
Definition times (x y : Q) : Q := Qred (Qmult x y).
Definition over10 (val : Q) : bool := negb (Qle_bool val (inject_Z 10)).
Definition floordiv10 (val : Q) : Q :=
  inject_Z (Qfloor (Qdiv val (inject_Z 10))).
Definition mod10 (val : Q) : Q :=
  minus val (times (inject_Z 10) (floordiv10 val)).

(** [add] (lines 40-59) *)
Definition add_step (self other carry : loc) (fl : field)
    (st : heap * bool) : option (heap * bool) :=
  let '(h, carry_flag) := st in
  s ← h !! self;
  o ← h !! other;
  let val := plus (getattr s fl) (getattr o fl) in
  if over10 val then
    h1 ← store_attr h self fl (minus val (inject_Z 10));
    h2 ← store_attr h1 carry fl (inject_Z 1);
    Some (h2, true)
  else
    h1 ← store_attr h self fl val;
    h2 ← store_attr h1 carry fl (inject_Z 0);
    Some (h2, carry_flag).

Fixpoint add (fuel : nat) (h : heap) (self other : loc) : option heap :=
  match fuel with
  | O => None
  | S n =>
    let '(h0, carry) := alloc h in
    st ← foldM (add_step self other carry) fields (h0, false);
    let '(h1, carry_flag) := st in
    if carry_flag : bool then
      s ← h1 !! self;
      match left s with
      | Some l => add n h1 l carry
      | None => store_left h1 self (Some carry)
      end
    else Some h1
  end.

(** [scale_by_int] (lines 61-79); the scalar is an integer input. *)
Definition scale_step (self carry : loc) (scalar : Z) (fl : field)
    (st : heap * bool) : option (heap * bool) :=
  let '(h, carry_flag) := st in
  s ← h !! self;
  let val := times (getattr s fl) (inject_Z scalar) in
  if over10 val then
    h1 ← store_attr h self fl (mod10 val);
    h2 ← store_attr h1 carry fl (floordiv10 val);
    Some (h2, true)
  else
    h1 ← store_attr h self fl val;
    h2 ← store_attr h1 carry fl (inject_Z 0);
    Some (h2, carry_flag).

Definition scale_by_int (fuel : nat) (h : heap) (self : loc) (scalar : Z)
  : option heap :=
  let '(h0, carry) := alloc h in
  st ← foldM (scale_step self carry scalar) fields (h0, false);
  let '(h1, carry_flag) := st in
  if carry_flag : bool then
    s ← h1 !! self;
    match left s with
    | Some l => add fuel h1 l carry
    | None => store_left h1 self (Some carry)
    end
  else Some h1.

Definition copy_fields (h : heap) (tmp qnum : loc) : option heap :=
  q ← h !! qnum;
  t ← h !! tmp;
  Some (<[tmp := foldr (λ fl t', setattr t' fl (getattr q fl)) t fields]> h).

Section layer.
Variable fuel : nat.

(** [forward] (lines 94-107) *)
Definition forward_term (input_vector : gmap string Z) (sum_qnum : loc)
    (w : string * loc) (h : heap) : res heap :=
  let '(i, qnum) := w in
  let '(h1, tmp) := alloc h in
  h2 ← of_opt (copy_fields h1 tmp qnum);
  h3 ← of_opt (scale_by_int fuel h2 tmp (get0 input_vector i));
  of_opt (add fuel h3 sum_qnum tmp).

Definition forward_out (L : QuantumLayer) (input_vector : gmap string Z)
    (ow : string * list (string * loc))
    (st : heap * list (string * loc)) : res (heap * list (string * loc)) :=
  let '(o, weight_dict) := ow in
  let '(h, output) := st in
  let '(h1, sum_qnum) := alloc h in
  h2 ← rfoldM (forward_term input_vector sum_qnum) weight_dict h1;
  bo ← getitem (biases L) o;
  h3 ← of_opt (add fuel h2 sum_qnum bo);
  Ok (h3, setitem output o sum_qnum).

Definition forward (L : QuantumLayer) (h : heap)
    (input_vector : gmap string Z) : res (heap * list (string * loc)) :=
  rfoldM (forward_out L input_vector) (weights L) (h, []).

Definition fresh_a (h : heap) (v : Q) : option (heap * loc) :=
  let '(h1, l) := alloc h in
  h2 ← store_attr h1 l fa v; Some (h2, l).

(** [train_step] (lines 109-128) with a learning rate that is a
    fraction. *)
Definition update_weight (input_vector : gmap string Z) (learning_rate : Q)
    (error : loc) (w : string * loc) (h : heap) : res heap :=
  let '(i, qnum) := w in
  er ← of_opt (h !! error);
  '(h1, delta) ← of_opt
      (fresh_a h (times (times (a er) (inject_Z (get0 input_vector i)))
                        learning_rate));
  of_opt (add fuel h1 qnum delta).

Definition train_out (L : QuantumLayer) (input_vector : gmap string Z)
    (target_vector : gmap string Z) (learning_rate : Q)
    (output : list (string * loc))
    (ow : string * list (string * loc)) (h : heap) : res heap :=
  let '(o, weight_dict) := ow in
  let '(h0, error) := alloc h in
  t ← getkey target_vector o;
  out_o ← getitem output o;
  oc ← of_opt (h0 !! out_o);
  h1 ← of_opt (store_attr h0 error fa (minus (inject_Z t) (a oc)));
  h2 ← rfoldM (update_weight input_vector learning_rate error)
               weight_dict h1;
  er ← of_opt (h2 !! error);
  '(h3, bias_delta) ← of_opt (fresh_a h2 (times (a er) learning_rate));
  bo ← getitem (biases L) o;
  of_opt (add fuel h3 bo bias_delta).

Definition train_step (L : QuantumLayer) (h : heap)
    (input_vector target_vector : gmap string Z) (learning_rate : Q)
  : res heap :=
  '(h1, output) ← forward L h input_vector;
  rfoldM (train_out L input_vector target_vector learning_rate output)
         (weights L) h1.
End layer.

(** The training example: [layer28] on a store with the weight
    [a = 1] at address 0 and the bias [a = 0] at address 1. *)
Definition heap28 : heap :=
  [setattr new_cell fa (inject_Z 1); new_cell].

Fixpoint train_steps (fuel : nat) (lr : Q) (n : nat) (h : heap) : res heap :=
  match n with
  | O => Ok h
  | S n' =>
      h' ← train_step fuel layer28 h input3 target3 lr;
      train_steps fuel lr n' h'
  end.

(** [|target - output.a|] after [n] training steps. *)
Definition error_seq (fuel : nat) (lr : Q) (n : nat) : res Q :=
  h ← train_steps fuel lr n heap28;
  r ← forward fuel layer28 h input3;
  o ← getitem r.2 "x";
  c ← of_opt (r.1 !! o);
  Ok (Qred (Qabs (minus (inject_Z 10) (a c)))).
End Frac28.

(** * Theorems *)

Example add_6_7 :
  add 1 [cell_a 6 None; cell_a 7 None] 0%nat 1%nat
  = Some [cell_a 3 (Some 2%nat); cell_a 7 None; cell_a 1 None].
Proof. reflexivity. Qed.

Lemma getattr_setattr q fl v : getattr (setattr q fl v) fl = v.
Proof. by destruct q, fl. Qed.

Lemma getattr_setattr_ne q fl fl' v :
  fl ≠ fl' → getattr (setattr q fl v) fl' = getattr q fl'.
Proof. by destruct q, fl, fl'. Qed.

Lemma loop_heap_self h x sc cc :
  (x < length h)%nat → loop_heap h x sc cc !! x = Some sc.
Proof.
  intros Hx. unfold loop_heap.
  rewrite list_lookup_insert_ne by lia.
  apply list_lookup_insert_eq. rewrite length_app. simpl. lia.
Qed.

Lemma loop_heap_carry h x sc cc : loop_heap h x sc cc !! length h = Some cc.
Proof.
  unfold loop_heap. apply list_lookup_insert_eq.
  rewrite length_insert, length_app. simpl. lia.
Qed.

Lemma loop_heap_other h x sc cc l :
  l ≠ x → (l < length h)%nat → loop_heap h x sc cc !! l = h !! l.
Proof.
  intros Hne Hl. unfold loop_heap.
  rewrite !list_lookup_insert_ne by lia.
  by apply lookup_app_l.
Qed.

Lemma loop_heap_length h x sc cc : length (loop_heap h x sc cc) = S (length h).
Proof. unfold loop_heap. rewrite !length_insert, length_app. simpl. lia. Qed.

Lemma loop_heap_init h x s :
  h !! x = Some s → h ++ [new_cell] = loop_heap h x s new_cell.
Proof.
  intros Hs. unfold loop_heap.
  rewrite (list_insert_id (h ++ [new_cell]) x s).
  - symmetry. apply list_insert_id.
    rewrite lookup_app_r by lia. by rewrite Nat.sub_diag.
  - rewrite lookup_app_l; [done|]. by eapply lookup_lt_Some.
Qed.

Lemma loop_heap_write h x sc cc sc' cc' :
  (x < length h)%nat →
  <[length h := cc']> (<[x := sc']> (loop_heap h x sc cc)) = loop_heap h x sc' cc'.
Proof.
  intros Hx. unfold loop_heap.
  rewrite (list_insert_insert_ne _ x (length h)) by lia.
  by rewrite !list_insert_insert_eq.
Qed.

Lemma bind_Some_eq {A B} (k : A → option B) (x : A) : Some x ≫= k = k x.
Proof. reflexivity. Qed.

(** Two writes of one iteration, on a store in loop form. *)
Lemma loop_heap_store {B} h x sc cc fl v w (k : heap → option B) :
  (x < length h)%nat →
  (h1 ← store_attr (loop_heap h x sc cc) x fl v;
   h2 ← store_attr h1 (length h) fl w; k h2)
  = k (loop_heap h x (setattr sc fl v) (setattr cc fl w)).
Proof.
  intros Hx. unfold store_attr.
  rewrite loop_heap_self, !bind_Some_eq by done.
  rewrite list_lookup_insert_ne by lia.
  rewrite loop_heap_carry, bind_Some_eq.
  by rewrite loop_heap_write.
Qed.

(** One iteration of [add] on a store in loop form; [o] is the object
    [other] as the iteration finds it. *)
Lemma add_step_loop h x y sc cc o fl flag :
  (x < length h)%nat →
  loop_heap h x sc cc !! y = Some o →
  add_step x y (length h) fl (loop_heap h x sc cc, flag)
  = Some (loop_heap h x
            (setattr sc fl (add_keep (getattr sc fl + getattr o fl)))
            (setattr cc fl (add_carry (getattr sc fl + getattr o fl))),
          flag || over (getattr sc fl + getattr o fl)).
Proof.
  intros Hx Hy. unfold add_step.
  rewrite loop_heap_self, bind_Some_eq, Hy, bind_Some_eq by done.
  unfold add_keep, add_carry, over.
  destruct (10 <? _).
  - by rewrite loop_heap_store, orb_true_r.
  - by rewrite loop_heap_store, orb_false_r.
Qed.

Lemma scale_step_loop h x scalar sc cc fl flag :
  (x < length h)%nat →
  scale_step x (length h) scalar fl (loop_heap h x sc cc, flag)
  = Some (loop_heap h x
            (setattr sc fl (scale_keep (getattr sc fl * scalar)))
            (setattr cc fl (scale_carry (getattr sc fl * scalar))),
          flag || over (getattr sc fl * scalar)).
Proof.
  intros Hx. unfold scale_step.
  rewrite loop_heap_self, bind_Some_eq by done.
  unfold scale_keep, scale_carry, over.
  destruct (10 <? _).
  - by rewrite loop_heap_store, orb_true_r.
  - by rewrite loop_heap_store, orb_false_r.
Qed.

(** The object found at [other] while [self] is being rewritten: [self]
    itself when the two are the same object. *)
Lemma loop_heap_operand h x y s o sc cc :
  h !! x = Some s → h !! y = Some o →
  loop_heap h x sc cc !! y = Some (if decide (y = x) then sc else o).
Proof.
  intros Hs Ho.
  assert (x < length h)%nat by by eapply lookup_lt_Some.
  assert (y < length h)%nat by by eapply lookup_lt_Some.
  case_decide as E.
  - subst. by apply loop_heap_self.
  - by rewrite loop_heap_other.
Qed.

Lemma foldM_cons {A S} (body : A → S → option S) x xs s :
  foldM body (x :: xs) s = body x s ≫= foldM body xs.
Proof. reflexivity. Qed.

Lemma foldM_nil {A S} (body : A → S → option S) s : foldM body [] s = Some s.
Proof. reflexivity. Qed.

(** The whole loop of [add]: every field of [self] gets
    [add_keep (self.field + other.field)] computed from the values
    before the call, also when [other] is [self]. *)
Lemma add_loop h x y s o :
  h !! x = Some s → h !! y = Some o →
  foldM (add_step x y (length h)) fields (h ++ [new_cell], false)
  = Some (loop_heap h x
            (with_fields s (λ fl, add_keep (getattr s fl + getattr o fl)))
            (with_fields new_cell (λ fl, add_carry (getattr s fl + getattr o fl))),
          any_field (λ fl, over (getattr s fl + getattr o fl))).
Proof.
  intros Hs Ho.
  assert (Hx : (x < length h)%nat) by by eapply lookup_lt_Some.
  rewrite (loop_heap_init h x s Hs).
  unfold fields.
  repeat (rewrite foldM_cons;
          erewrite add_step_loop;
          [ rewrite bind_Some_eq | done | by eapply loop_heap_operand ]).
  rewrite foldM_nil.
  case_decide as E.
  - subst y. assert (o = s) by congruence. subst o. by destruct s.
  - by destruct s, o.
Qed.

Lemma scale_loop h x scalar s :
  h !! x = Some s →
  foldM (scale_step x (length h) scalar) fields (h ++ [new_cell], false)
  = Some (loop_heap h x
            (with_fields s (λ fl, scale_keep (getattr s fl * scalar)))
            (with_fields new_cell (λ fl, scale_carry (getattr s fl * scalar))),
          any_field (λ fl, over (getattr s fl * scalar))).
Proof.
  intros Hs.
  assert (Hx : (x < length h)%nat) by by eapply lookup_lt_Some.
  rewrite (loop_heap_init h x s Hs).
  unfold fields.
  repeat (rewrite foldM_cons, scale_step_loop, bind_Some_eq by done).
  rewrite foldM_nil.
  by destruct s.
Qed.

(** ** One call of [add] and of [scale_by_int] in closed form *)

Lemma add_unfold n h x y s o :
  h !! x = Some s → h !! y = Some o →
  add (S n) h x y =
    if add_over s o then
      match QN.left s with
      | Some l =>
          add n (loop_heap h x (add_self s o) (add_carry_cell s o)) l (length h)
      | None =>
          Some (loop_heap h x (set_left (add_self s o) (Some (length h)))
                          (add_carry_cell s o))
      end
    else Some (loop_heap h x (add_self s o) (add_carry_cell s o)).
Proof.
  intros Hs Ho.
  assert (Hx : (x < length h)%nat) by by eapply lookup_lt_Some.
  cbn [add alloc]. rewrite (add_loop h x y s o Hs Ho), bind_Some_eq.
  fold (add_self s o) (add_carry_cell s o) (add_over s o).
  destruct (add_over s o); [|done].
  rewrite loop_heap_self, bind_Some_eq by done.
  replace (QN.left (add_self s o)) with (QN.left s) by by destruct s.
  destruct (QN.left s); [done|].
  unfold store_left. rewrite loop_heap_self, bind_Some_eq by done.
  f_equal. unfold loop_heap at 1.
  rewrite list_insert_insert_ne by lia.
  by rewrite list_insert_insert_eq.
Qed.

Lemma scale_unfold n h x k s :
  h !! x = Some s →
  scale_by_int n h x k =
    if scale_over s k then
      match QN.left s with
      | Some l =>
          add n (loop_heap h x (scale_self s k) (scale_carry_cell s k)) l (length h)
      | None =>
          Some (loop_heap h x (set_left (scale_self s k) (Some (length h)))
                          (scale_carry_cell s k))
      end
    else Some (loop_heap h x (scale_self s k) (scale_carry_cell s k)).
Proof.
  intros Hs.
  assert (Hx : (x < length h)%nat) by by eapply lookup_lt_Some.
  unfold scale_by_int. cbn [alloc]. rewrite (scale_loop h x k s Hs), bind_Some_eq.
  fold (scale_self s k) (scale_carry_cell s k) (scale_over s k).
  destruct (scale_over s k); [|done].
  rewrite loop_heap_self, bind_Some_eq by done.
  replace (QN.left (scale_self s k)) with (QN.left s) by by destruct s.
  destruct (QN.left s); [done|].
  unfold store_left. rewrite loop_heap_self, bind_Some_eq by done.
  f_equal. unfold loop_heap at 1.
  rewrite list_insert_insert_ne by lia.
  by rewrite list_insert_insert_eq.
Qed.

(** ** Left-chains: shape, frame and acyclicity *)

Lemma chain_head h l ls : chain h l ls → ∃ ls', ls = l :: ls'.
Proof. destruct 1; eauto. Qed.

Lemma chain_valid h l ls :
  chain h l ls → ∀ l', l' ∈ ls → (l' < length h)%nat.
Proof.
  induction 1 as [l q Hq _|l q l1 ls Hq _ _ IH]; intros l' Hin.
  - apply list_elem_of_singleton in Hin as ->. by eapply lookup_lt_Some.
  - apply elem_of_cons in Hin as [->|Hin]; [by eapply lookup_lt_Some|auto].
Qed.

Lemma chain_frame h h' l ls :
  chain h l ls → (∀ l', l' ∈ ls → h' !! l' = h !! l') → chain h' l ls.
Proof.
  induction 1 as [l q Hq Hl|l q l1 ls Hq Hl _ IH]; intros Hfr.
  - eapply chain_end; [|done]. rewrite Hfr; [done|]. apply list_elem_of_here.
  - eapply chain_step; [|done|].
    + rewrite Hfr; [done|]. apply list_elem_of_here.
    + apply IH. intros l' Hin. apply Hfr. by apply list_elem_of_further.
Qed.

Lemma chain_det h l ls1 :
  chain h l ls1 → ∀ ls2, chain h l ls2 → ls1 = ls2.
Proof.
  induction 1 as [l q Hq Hl|l q l1 ls Hq Hl _ IH]; intros ls2 H2.
  - inversion H2; subst; [done|congruence].
  - inversion H2 as [|? q2 l2 ls2' Hq2 Hl2 Hc2]; subst; [congruence|].
    assert (l2 = l1) by congruence. subst. f_equal. by apply IH.
Qed.

Lemma chain_suffix h l ls :
  chain h l ls → ∀ l', l' ∈ ls →
  ∃ suf, chain h l' suf ∧ (length suf ≤ length ls)%nat.
Proof.
  induction 1 as [l q Hq Hl|l q l1 ls Hq Hl Hc IH]; intros l' Hin.
  - apply list_elem_of_singleton in Hin as ->.
    exists [l]. split; [by eapply chain_end|done].
  - apply elem_of_cons in Hin as [->|Hin].
    + exists (l :: ls). split; [by eapply chain_step|done].
    + destruct (IH _ Hin) as (suf & Hs & Hlen).
      exists suf. split; [done|]. simpl. lia.
Qed.

Lemma chain_acyclic h l ls : chain h l (l :: ls) → l ∉ ls.
Proof.
  intros Hc Hin.
  inversion Hc as [|? q l1 ? Hq Hl Hc1]; subst; [by apply elem_of_nil in Hin|].
  destruct (chain_suffix _ _ _ Hc1 _ Hin) as (suf & Hs & Hlen).
  pose proof (chain_det _ _ _ Hc _ Hs) as <-. simpl in Hlen. lia.
Qed.

(** ** Reconstruction *)

Lemma recon_from_succ k h fl ls :
  recon_from (S k) h fl ls = 10 * recon_from k h fl ls.
Proof.
  revert k. induction ls as [|l ls IH]; intros k; [done|].
  cbn [recon_from]. rewrite (IH (S k)).
  rewrite Nat2Z.inj_succ, Z.pow_succ_r by lia. lia.
Qed.

Lemma recon_cons h fl l ls :
  recon h fl (l :: ls) = field_at h fl l + 10 * recon h fl ls.
Proof.
  unfold recon. cbn [recon_from]. rewrite recon_from_succ.
  change (10 ^ Z.of_nat 0) with 1. lia.
Qed.

Lemma recon_nil h fl : recon h fl [] = 0.
Proof. reflexivity. Qed.

Lemma recon_frame h h' fl ls :
  (∀ l', l' ∈ ls → h' !! l' = h !! l') → recon h' fl ls = recon h fl ls.
Proof.
  induction ls as [|l ls IH]; intros Hfr; [done|].
  rewrite !recon_cons. unfold field_at.
  rewrite Hfr by apply list_elem_of_here.
  rewrite IH; [done|]. intros l' Hin. apply Hfr. by apply list_elem_of_further.
Qed.

Lemma field_at_Some h fl l q : h !! l = Some q → field_at h fl l = getattr q fl.
Proof. intros E. unfold field_at. by rewrite E. Qed.

(** ** Arithmetic of the two carry rules *)

Lemma add_keep_carry v : add_keep v + 10 * add_carry v = v.
Proof. unfold add_keep, add_carry. destruct (10 <? v); lia. Qed.

Lemma scale_keep_carry v : scale_keep v + 10 * scale_carry v = v.
Proof.
  unfold scale_keep, scale_carry. destruct (10 <? v); [|lia].
  pose proof (Z.div_mod v 10). lia.
Qed.

Lemma any_field_false p : any_field p = false → ∀ fl, p fl = false.
Proof.
  unfold any_field. intros H fl.
  repeat (apply orb_false_elim in H as [H ?]). by destruct fl.
Qed.

Lemma any_field_true p : any_field p = true → ∃ fl, p fl = true.
Proof.
  unfold any_field. intros H.
  repeat (apply orb_true_elim in H as [H|H]); eauto.
Qed.

Lemma getattr_with_fields q g fl : getattr (with_fields q g) fl = g fl.
Proof. by destruct fl. Qed.

Lemma add_carry_no_over v : over v = false → add_carry v = 0.
Proof. unfold over, add_carry. by intros ->. Qed.

Lemma scale_carry_no_over v : over v = false → scale_carry v = 0.
Proof. unfold over, scale_carry. by intros ->. Qed.

Lemma set_left_id q : set_left q (QN.left q) = q.
Proof. by destruct q. Qed.

Lemma left_with_fields q g : QN.left (with_fields q g) = QN.left q.
Proof. reflexivity. Qed.

Lemma left_set_left q l : QN.left (set_left q l) = l.
Proof. by destruct q. Qed.

Lemma getattr_set_left q l fl : getattr (set_left q l) fl = getattr q fl.
Proof. by destruct q, fl. Qed.

(** ** [add] on a finite left-chain terminates and keeps the value *)

Lemma add_chain ls : ∀ h x n y s o,
  chain h x ls → h !! x = Some s → h !! y = Some o →
  (length ls ≤ n)%nat →
  ∃ h' ls', add n h x y = Some h' ∧ add_post h x ls s o h' ls'.
Proof.
  induction ls as [|x0 ls IH]; intros h x n y s o Hc Hs Ho Hn.
  { inversion Hc. }
  assert (x0 = x) as -> by by inversion Hc.
  assert (Hx : (x < length h)%nat) by by eapply lookup_lt_Some.
  destruct n as [|n]; [simpl in Hn; lia|].
  rewrite (add_unfold n h x y s o Hs Ho).
  inversion Hc as [? q Hq Hl|? q l1 ? Hq Hl Hc1]; subst;
    assert (q = s) by congruence; subst q.
  - (* the chain is the single cell [x] *)
    unfold add_post, add_left. rewrite Hl.
    destruct (add_over s o) eqn:Hov.
    + eexists _, [x; length h]. split; [done|]. split_and!.
      * eapply chain_step; [by apply loop_heap_self| |].
        -- by rewrite left_set_left.
        -- eapply chain_end; [apply loop_heap_carry|done].
      * rewrite loop_heap_length. lia.
      * intros l Hlt Hni. apply loop_heap_other; [|done].
        intros ->. apply Hni, list_elem_of_here.
      * intros fl. rewrite !recon_cons, !recon_nil.
        rewrite (field_at_Some _ _ _ _ (loop_heap_self _ _ _ _ Hx)).
        rewrite (field_at_Some _ _ _ _ (loop_heap_carry _ _ _ _)).
        rewrite (field_at_Some _ _ _ _ Hs).
        rewrite getattr_set_left. unfold add_self, add_carry_cell.
        rewrite !getattr_with_fields.
        pose proof (add_keep_carry (getattr s fl + getattr o fl)). lia.
      * right. eexists. split; [done|lia].
      * by apply loop_heap_self.
    + eexists _, [x]. split; [done|]. split_and!.
      * eapply chain_end; [by apply loop_heap_self|exact Hl].
      * rewrite loop_heap_length. lia.
      * intros l Hlt Hni. apply loop_heap_other; [|done].
        intros ->. apply Hni, list_elem_of_here.
      * intros fl. rewrite !recon_cons, !recon_nil.
        rewrite (field_at_Some _ _ _ _ (loop_heap_self _ _ _ _ Hx)).
        rewrite (field_at_Some _ _ _ _ Hs).
        unfold add_self. rewrite getattr_with_fields.
        pose proof (add_keep_carry (getattr s fl + getattr o fl)).
        rewrite (add_carry_no_over _ (any_field_false _ Hov fl)) in *. lia.
      * by left.
      * replace (set_left (add_self s o) None) with (add_self s o);
          [by apply loop_heap_self|].
        rewrite <- Hl. symmetry. apply (set_left_id (add_self s o)).
  - (* the chain continues at [l1] *)
    pose proof (chain_acyclic _ _ _ Hc) as Hacy.
    pose proof (chain_valid _ _ _ Hc1) as Hval.
    unfold add_post, add_left. rewrite Hl.
    set (h1 := loop_heap h x (add_self s o) (add_carry_cell s o)).
    assert (Hfr1 : ∀ l', l' ∈ ls → h1 !! l' = h !! l').
    { intros l' Hin. apply loop_heap_other; [|by apply Hval].
      intros ->. by apply Hacy. }
    assert (Hx1 : h1 !! x = Some (add_self s o)) by by apply loop_heap_self.
    assert (Hself : set_left (add_self s o) (Some l1) = add_self s o).
    { rewrite <- Hl. apply (set_left_id (add_self s o)). }
    destruct (add_over s o) eqn:Hov.
    + assert (Hc1' : chain h1 l1 ls) by by eapply chain_frame.
      destruct (chain_head _ _ _ Hc1) as (ls0 & ->).
      assert (is_Some (h1 !! l1)) as [s1 Hs1].
      { rewrite Hfr1 by apply list_elem_of_here.
        apply lookup_lt_is_Some, Hval, list_elem_of_here. }
      destruct (IH h1 l1 n (length h) s1 (add_carry_cell s o) Hc1' Hs1)
        as (h' & ls' & Hadd & Hc' & Hlen' & Hfr' & Hrec' & Hsh' & _).
      { apply loop_heap_carry. }
      { simpl in Hn |- *. lia. }
      assert (Hlen1 : length h1 = S (length h)) by apply loop_heap_length.
      assert (Hx' : h' !! x = Some (add_self s o)).
      { rewrite Hfr'; [done|lia|done]. }
      exists h', (x :: ls'). split; [done|]. split_and!.
      * eapply chain_step; [done|exact Hl|done].
      * lia.
      * intros l Hlt Hni. apply not_elem_of_cons in Hni as [Hne Hni].
        rewrite Hfr' by (done || lia). by apply loop_heap_other.
      * intros fl. rewrite (recon_cons h' fl x), (recon_cons h fl x), Hrec'.
        rewrite (recon_frame h h1) by done.
        rewrite (field_at_Some _ _ _ _ Hx'), (field_at_Some _ _ _ _ Hs).
        unfold add_self, add_carry_cell. rewrite !getattr_with_fields.
        pose proof (add_keep_carry (getattr s fl + getattr o fl)). lia.
      * destruct Hsh' as [->|(c & -> & Hge)]; [by left|].
        right. exists c. split; [done|lia].
      * by rewrite Hself.
    + exists h1, (x :: ls). split; [done|]. split_and!.
      * eapply chain_step; [done|exact Hl|].
        by eapply chain_frame.
      * unfold h1. rewrite loop_heap_length. lia.
      * intros l Hlt Hni. apply not_elem_of_cons in Hni as [Hne Hni].
        by apply loop_heap_other.
      * intros fl. rewrite (recon_cons h1 fl x), (recon_cons h fl x).
        rewrite (recon_frame h h1) by done.
        rewrite (field_at_Some _ _ _ _ Hx1), (field_at_Some _ _ _ _ Hs).
        unfold add_self. rewrite getattr_with_fields.
        pose proof (add_keep_carry (getattr s fl + getattr o fl)).
        rewrite (add_carry_no_over _ (any_field_false _ Hov fl)) in *. lia.
      * by left.
      * by rewrite Hself.
Qed.

(** ** [add] never touches signs, metadata or the links other than [left] *)

Lemma same_meta_refl q : same_meta q q.
Proof. by repeat split. Qed.

Lemma same_meta_trans q1 q2 q3 :
  same_meta q1 q2 → same_meta q2 q3 → same_meta q1 q3.
Proof. unfold same_meta. intros H1 H2. split_and!; etrans; (apply H2 || apply H1). Qed.

Lemma same_meta_with_fields q g : same_meta q (with_fields q g).
Proof. by repeat split. Qed.

Lemma same_meta_set_left q l : same_meta q (set_left q l).
Proof. by destruct q. Qed.

Lemma loop_heap_cases h x sc cc l q :
  (x < length h)%nat →
  loop_heap h x sc cc !! l = Some q →
  (l = x ∧ q = sc) ∨ (l = length h ∧ q = cc) ∨
  (l ≠ x ∧ (l < length h)%nat ∧ h !! l = Some q).
Proof.
  intros Hx Hq.
  destruct (decide (l = x)) as [->|Hne].
  { rewrite loop_heap_self in Hq by done. left. split; congruence. }
  destruct (decide (l = length h)) as [->|Hne'].
  { rewrite loop_heap_carry in Hq. right; left. split; congruence. }
  right; right. apply lookup_lt_Some in Hq as Hlt.
  rewrite loop_heap_length in Hlt.
  assert (l < length h)%nat by lia.
  rewrite loop_heap_other in Hq by done. done.
Qed.

Lemma loop_heap_closed h x s sc cc :
  left_closed h → h !! x = Some s →
  (∀ l', QN.left sc = Some l' → QN.left s = Some l' ∨ l' = length h) →
  QN.left cc = None →
  left_closed (loop_heap h x sc cc).
Proof.
  intros Hcl Hs Hsc Hcc l q l' Hq Hl.
  assert (Hx : (x < length h)%nat) by by eapply lookup_lt_Some.
  rewrite loop_heap_length.
  apply loop_heap_cases in Hq as [[-> ->]|[[-> ->]|(_ & _ & Hq)]]; [|congruence| |done].
  - destruct (Hsc _ Hl) as [Hl'| ->]; [|lia].
    pose proof (Hcl _ _ _ Hs Hl'). lia.
  - pose proof (Hcl _ _ _ Hq Hl). lia.
Qed.

Lemma loop_heap_same_meta h x s sc cc l q :
  h !! x = Some s → same_meta s sc → h !! l = Some q →
  ∃ q', loop_heap h x sc cc !! l = Some q' ∧ same_meta q q'.
Proof.
  intros Hs Hm Hq.
  assert (Hx : (x < length h)%nat) by by eapply lookup_lt_Some.
  destruct (decide (l = x)) as [->|Hne].
  - exists sc. split; [by apply loop_heap_self|]. congruence.
  - exists q. split; [|apply same_meta_refl].
    rewrite loop_heap_other; [done..|]. by eapply lookup_lt_Some.
Qed.

Lemma add_same_meta n : ∀ h x y h',
  left_closed h → (x < length h)%nat → (y < length h)%nat →
  add n h x y = Some h' →
  left_closed h' ∧ (length h < length h')%nat ∧
  ∀ l q, h !! l = Some q → ∃ q', h' !! l = Some q' ∧ same_meta q q'.
Proof.
  induction n as [|n IH]; intros h x y h' Hcl Hx Hy Hadd; [done|].
  destruct (lookup_lt_is_Some_2 h x Hx) as [s Hs].
  destruct (lookup_lt_is_Some_2 h y Hy) as [o Ho].
  rewrite (add_unfold n h x y s o Hs Ho) in Hadd.
  assert (Hcc : QN.left (add_carry_cell s o) = None) by done.
  assert (Hcl1 : left_closed (loop_heap h x (add_self s o) (add_carry_cell s o))).
  { eapply loop_heap_closed; [done..| |done]. intros l' Hl'. by left. }
  assert (Hm1 : ∀ l q, h !! l = Some q →
     ∃ q', loop_heap h x (add_self s o) (add_carry_cell s o) !! l = Some q'
           ∧ same_meta q q').
  { intros l q Hq. eapply loop_heap_same_meta; [done| |done].
    apply same_meta_with_fields. }
  destruct (add_over s o).
  - destruct (QN.left s) as [l1|] eqn:Hl.
    + apply IH in Hadd as (Hcl' & Hlen' & Hm'); [|done|..].
      * rewrite loop_heap_length in Hlen'. split_and!; [done|lia|].
        intros l q Hq. destruct (Hm1 _ _ Hq) as (q1 & Hq1 & Hs1).
        destruct (Hm' _ _ Hq1) as (q' & Hq' & Hs').
        exists q'. split; [done|]. by eapply same_meta_trans.
      * rewrite loop_heap_length. pose proof (Hcl _ _ _ Hs Hl). lia.
      * rewrite loop_heap_length. lia.
    + injection Hadd as <-. split_and!.
      * eapply loop_heap_closed; [done..| |done].
        intros l' Hl'. simpl in Hl'. right. congruence.
      * rewrite loop_heap_length. lia.
      * intros l q Hq. eapply loop_heap_same_meta; [done| |done].
        by repeat split.
  - injection Hadd as <-. split_and!; [done| |done].
    rewrite loop_heap_length. lia.
Qed.

(** ** [scale_by_int] on a finite left-chain *)

Lemma scale_chain ls h x n k s :
  chain h x ls → h !! x = Some s → (length ls ≤ n)%nat →
  ∃ h' ls', scale_by_int n h x k = Some h' ∧ chain h' x ls' ∧
    (∀ l, (l < length h)%nat → l ∉ ls → h' !! l = h !! l) ∧
    (∀ fl, recon h' fl ls' = getattr s fl * k + 10 * recon h fl (tail ls)) ∧
    (∃ q', h' !! x = Some q' ∧
           ∀ fl, getattr q' fl = scale_keep (getattr s fl * k)) ∧
    (length h < length h')%nat.
Proof.
  intros Hc Hs Hn.
  assert (Hx : (x < length h)%nat) by by eapply lookup_lt_Some.
  rewrite (scale_unfold n h x k s Hs).
  set (h1 := loop_heap h x (scale_self s k) (scale_carry_cell s k)).
  assert (Hx1 : h1 !! x = Some (scale_self s k)) by by apply loop_heap_self.
  assert (Hfld : ∀ fl, getattr (scale_self s k) fl = scale_keep (getattr s fl * k)).
  { intros fl. unfold scale_self. by rewrite getattr_with_fields. }
  inversion Hc as [? q Hq Hl|? q l1 ls0 Hq Hl Hc1]; subst;
    assert (q = s) by congruence; subst q; rewrite Hl.
  - destruct (scale_over s k) eqn:Hov.
    + eexists _, [x; length h]. split; [done|]. split_and!.
      * eapply chain_step; [by apply loop_heap_self| |].
        -- by rewrite left_set_left.
        -- eapply chain_end; [apply loop_heap_carry|done].
      * intros l Hlt Hni. apply loop_heap_other; [|done].
        intros ->. apply Hni, list_elem_of_here.
      * intros fl. rewrite !recon_cons, !recon_nil. cbn [tail].
        rewrite (field_at_Some _ _ _ _ (loop_heap_self _ _ _ _ Hx)).
        rewrite (field_at_Some _ _ _ _ (loop_heap_carry _ _ _ _)).
        rewrite getattr_set_left, Hfld, ?recon_nil. unfold scale_carry_cell.
        rewrite getattr_with_fields.
        pose proof (scale_keep_carry (getattr s fl * k)). lia.
      * eexists. split; [by apply loop_heap_self|].
        intros fl. by rewrite getattr_set_left.
      * rewrite loop_heap_length. lia.
    + exists h1, [x]. split; [done|]. split_and!.
      * eapply chain_end; [done|exact Hl].
      * intros l Hlt Hni. apply loop_heap_other; [|done].
        intros ->. apply Hni, list_elem_of_here.
      * intros fl. rewrite recon_cons, !recon_nil. cbn [tail].
        rewrite (field_at_Some _ _ _ _ Hx1), Hfld, ?recon_nil.
        pose proof (scale_keep_carry (getattr s fl * k)).
        rewrite (scale_carry_no_over _ (any_field_false _ Hov fl)) in *. lia.
      * eauto.
      * unfold h1. rewrite loop_heap_length. lia.
  - pose proof (chain_acyclic _ _ _ Hc) as Hacy.
    pose proof (chain_valid _ _ _ Hc1) as Hval.
    assert (Hfr1 : ∀ l', l' ∈ ls0 → h1 !! l' = h !! l').
    { intros l' Hin. apply loop_heap_other; [|by apply Hval].
      intros ->. by apply Hacy. }
    cbn [tail].
    destruct (scale_over s k) eqn:Hov.
    + assert (Hc1' : chain h1 l1 ls0) by by eapply chain_frame.
      destruct (chain_head _ _ _ Hc1) as (ls1 & ->).
      assert (is_Some (h1 !! l1)) as [s1 Hs1].
      { rewrite Hfr1 by apply list_elem_of_here.
        apply lookup_lt_is_Some, Hval, list_elem_of_here. }
      destruct (add_chain _ h1 l1 n (length h) s1 (scale_carry_cell s k)
                  Hc1' Hs1)
        as (h' & ls' & Hadd & Hc' & Hlen' & Hfr' & Hrec' & _).
      { apply loop_heap_carry. }
      { simpl in Hn |- *. lia. }
      assert (Hlen1 : length h1 = S (length h)) by apply loop_heap_length.
      assert (Hx' : h' !! x = Some (scale_self s k)).
      { rewrite Hfr'; [done|lia|done]. }
      exists h', (x :: ls'). split; [done|]. split_and!.
      * eapply chain_step; [done|exact Hl|done].
      * intros l Hlt Hni. apply not_elem_of_cons in Hni as [Hne Hni].
        rewrite Hfr' by (done || lia). by apply loop_heap_other.
      * intros fl. rewrite (recon_cons h' fl x), Hrec'.
        rewrite (recon_frame h h1) by done.
        rewrite (field_at_Some _ _ _ _ Hx'), Hfld.
        unfold scale_carry_cell. rewrite getattr_with_fields.
        pose proof (scale_keep_carry (getattr s fl * k)). lia.
      * eauto.
      * lia.
    + exists h1, (x :: ls0). split; [done|]. split_and!.
      * eapply chain_step; [done|exact Hl|by eapply chain_frame].
      * intros l Hlt Hni. apply not_elem_of_cons in Hni as [Hne Hni].
        by apply loop_heap_other.
      * intros fl. rewrite (recon_cons h1 fl x).
        rewrite (recon_frame h h1) by done.
        rewrite (field_at_Some _ _ _ _ Hx1), Hfld.
        pose proof (scale_keep_carry (getattr s fl * k)).
        rewrite (scale_carry_no_over _ (any_field_false _ Hov fl)) in *. lia.
      * eauto.
      * unfold h1. rewrite loop_heap_length. lia.
Qed.

(** * The claims *)

(** ** C1: the carry rule of [add] *)

(** C1, as stated, fails: with [x.a = 5] and [y.a = 5] the sum is 10, so
    [sum mod 10 = 0] and [floor(sum/10) = 1]; the code keeps [x.a = 10]
    and creates no left link, because it carries only when [sum > 10]. *)
Lemma C1_counterexample :
  ∃ h', add 1 [cell_a 5 None; cell_a 5 None] 0%nat 1%nat = Some h' ∧
        field_at h' fa 0%nat = 10 ∧
        field_at h' fa 0%nat ≠ (5 + 5) mod 10 ∧
        (5 + 5) / 10 ≠ 0 ∧
        QN.left <$> h' !! 0%nat = Some None.
Proof. eexists. split; [reflexivity|]. by repeat split. Qed.

(** C1 (amended): for every field, [add] computes
    [sum = x.field + y.field] from the values before the call; when
    [sum > 10] it stores [sum - 10] into [x.field] and [1] into the carry
    cell's field, otherwise [sum] and [0] (so that retained + 10 * carry
    = sum, and these are [sum mod 10] and [floor(sum/10)] exactly for
    sums in 0..9 and 11..19).  If some field's sum exceeded 10, the carry
    cell (allocated at the next free address) is recursively added into
    [x.left] when [x] has a left link, and becomes [x.left] when it has
    none.  On a finite left-chain the call terminates and leaves these
    retained values in [x]. *)
Theorem C1_add_carry_rule ls h x y s o n :
  chain h x ls → h !! x = Some s → h !! y = Some o → (length ls ≤ n)%nat →
  (∀ fl, let sum := getattr s fl + getattr o fl in
     getattr (add_self s o) fl = (if 10 <? sum then sum - 10 else sum) ∧
     getattr (add_carry_cell s o) fl = (if 10 <? sum then 1 else 0) ∧
     getattr (add_self s o) fl + 10 * getattr (add_carry_cell s o) fl = sum ∧
     (0 ≤ sum ≤ 9 ∨ 11 ≤ sum ≤ 19 →
        getattr (add_self s o) fl = sum mod 10 ∧
        getattr (add_carry_cell s o) fl = sum / 10)) ∧
  (add_over s o = true ↔ ∃ fl, 10 < getattr s fl + getattr o fl) ∧
  (∀ m, add (S m) h x y =
     if add_over s o then
       match QN.left s with
       | Some l =>
           add m (loop_heap h x (add_self s o) (add_carry_cell s o)) l (length h)
       | None =>
           Some (loop_heap h x (set_left (add_self s o) (Some (length h)))
                           (add_carry_cell s o))
       end
     else Some (loop_heap h x (add_self s o) (add_carry_cell s o))) ∧
  ∃ h' q', add n h x y = Some h' ∧ h' !! x = Some q' ∧
    (∀ fl, getattr q' fl = add_keep (getattr s fl + getattr o fl)) ∧
    QN.left q' = add_left s o (length h).
Proof.
  intros Hc Hs Ho Hn. split_and!.
  - intros fl sum. unfold add_self, add_carry_cell.
    rewrite !getattr_with_fields. fold sum.
    split_and!; [done|done|apply add_keep_carry|].
    unfold add_keep, add_carry. intros Hr.
    pose proof (Z.div_mod sum 10 ltac:(lia)).
    pose proof (Z.mod_pos_bound sum 10 ltac:(lia)).
    destruct (Z.ltb_spec 10 sum); lia.
  - unfold add_over. split.
    + intros H. apply any_field_true in H as [fl H]. exists fl.
      unfold over in H. by apply Z.ltb_lt.
    + intros [fl H]. destruct (any_field _) eqn:E; [done|].
      pose proof (any_field_false _ E fl) as E'. unfold over in E'.
      apply Z.ltb_ge in E'. lia.
  - intros m. by apply add_unfold.
  - destruct (add_chain ls h x n y s o Hc Hs Ho Hn)
      as (h' & ls' & Hadd & _ & _ & _ & _ & _ & Hx').
    eexists _, _. split_and!; [done|done| |].
    + intros fl. rewrite getattr_set_left. unfold add_self.
      by rewrite getattr_with_fields.
    + by rewrite left_set_left.
Qed.

Lemma C1_add_carry_rule_witness :
  let h := [cell_a 6 None; cell_a 7 None] in
  ∃ h' q', add 1 h 0%nat 1%nat = Some h' ∧ h' !! 0%nat = Some q' ∧
    (∀ fl, getattr q' fl
           = add_keep (getattr (cell_a 6 None) fl + getattr (cell_a 7 None) fl)) ∧
    QN.left q' = add_left (cell_a 6 None) (cell_a 7 None) 2%nat.
Proof.
  apply (C1_add_carry_rule [0%nat] [cell_a 6 None; cell_a 7 None] 0%nat 1%nat
           (cell_a 6 None) (cell_a 7 None) 1%nat).
  - by eapply chain_end.
  - reflexivity.
  - reflexivity.
  - simpl. lia.
Defined.

(** ** C2: overflow is never lost *)

(** C2, as stated, fails for [scale_by_int] on a cell that already has a
    left-chain: [x.a = 3] with [x.left.a = 1] reconstructs to 13; after
    [scale_by_int(x, 2)] the chain reconstructs to 16, not 26, because
    only the head cell is scaled. *)
Lemma C2_counterexample :
  let h := [cell_a 3 (Some 1%nat); cell_a 1 None] in
  chain h 0%nat [0%nat; 1%nat] ∧ recon h fa [0%nat; 1%nat] = 13 ∧
  ∃ h', scale_by_int 1 h 0%nat 2 = Some h' ∧
        chain h' 0%nat [0%nat; 1%nat] ∧
        recon h' fa [0%nat; 1%nat] = 16 ∧
        recon h' fa [0%nat; 1%nat] ≠ recon h fa [0%nat; 1%nat] * 2.
Proof.
  split_and!.
  - eapply chain_step; [reflexivity..|]. by eapply chain_end.
  - reflexivity.
  - eexists. split; [reflexivity|]. split_and!.
    + eapply chain_step; [reflexivity..|]. by eapply chain_end.
    + reflexivity.
    + by vm_compute.
Qed.

(** C2 (amended): on a finite left-chain, of any sign, [add] terminates
    and the per-field reconstruction over the final chain of [x] is the
    reconstruction before plus the operand's field; [scale_by_int]
    terminates and the reconstruction is [x.field * scalar] plus 10 times
    the reconstruction of the old chain after [x] (the head's overflow is
    never lost, the cells behind the head are not scaled), which is the
    old reconstruction times the scalar when [x] has no left link. *)
Theorem C2_overflow_kept ls h x s n :
  chain h x ls → h !! x = Some s → (length ls ≤ n)%nat →
  (∀ y o, h !! y = Some o →
     ∃ h' ls', add n h x y = Some h' ∧ chain h' x ls' ∧
       ∀ fl, recon h' fl ls' = recon h fl ls + getattr o fl) ∧
  (∀ k, ∃ h' ls', scale_by_int n h x k = Some h' ∧ chain h' x ls' ∧
       ∀ fl, recon h' fl ls' = getattr s fl * k + 10 * recon h fl (tail ls)) ∧
  (QN.left s = None →
   ∀ k, ∃ h' ls', scale_by_int n h x k = Some h' ∧ chain h' x ls' ∧
       ∀ fl, recon h' fl ls' = recon h fl ls * k).
Proof.
  intros Hc Hs Hn.
  assert (Hsc : ∀ k, ∃ h' ls', scale_by_int n h x k = Some h' ∧ chain h' x ls' ∧
       ∀ fl, recon h' fl ls' = getattr s fl * k + 10 * recon h fl (tail ls)).
  { intros k.
    destruct (scale_chain ls h x n k s Hc Hs Hn)
      as (h' & ls' & Hsc & Hc' & _ & Hrec & _). eauto. }
  split_and!; [|done|].
  - intros y o Ho.
    destruct (add_chain ls h x n y s o Hc Hs Ho Hn)
      as (h' & ls' & Hadd & Hc' & _ & _ & Hrec & _). eauto.
  - intros Hl k. destruct (Hsc k) as (h' & ls' & E & Hc' & Hrec).
    exists h', ls'. split_and!; [done..|]. intros fl. rewrite Hrec.
    inversion Hc as [? q Hq _|? q l1 ls0 Hq Hl1 _]; subst; [|congruence].
    cbn [tail]. rewrite recon_cons, recon_nil, (field_at_Some _ _ _ _ Hs). lia.
Qed.

Lemma C2_overflow_kept_witness :
  let h := [cell_a 6 None; cell_a 7 None] in
  (∀ y o, h !! y = Some o →
     ∃ h' ls', add 1 h 0%nat y = Some h' ∧ chain h' 0%nat ls' ∧
       ∀ fl, recon h' fl ls' = recon h fl [0%nat] + getattr o fl) ∧
  (∀ k, ∃ h' ls', scale_by_int 1 h 0%nat k = Some h' ∧ chain h' 0%nat ls' ∧
       ∀ fl, recon h' fl ls'
             = getattr (cell_a 6 None) fl * k + 10 * recon h fl (tail [0%nat])) ∧
  (QN.left (cell_a 6 None) = None →
   ∀ k, ∃ h' ls', scale_by_int 1 h 0%nat k = Some h' ∧ chain h' 0%nat ls' ∧
       ∀ fl, recon h' fl ls' = recon h fl [0%nat] * k).
Proof.
  apply (C2_overflow_kept [0%nat] [cell_a 6 None; cell_a 7 None] 0%nat
           (cell_a 6 None) 1%nat).
  - by eapply chain_end.
  - reflexivity.
  - simpl. lia.
Defined.

Lemma with_fields_id q : with_fields q (getattr q) = q.
Proof. by destruct q. Qed.

Lemma with_fields_ext q g g' :
  (∀ fl, g fl = g' fl) → with_fields q g = with_fields q g'.
Proof. intros E. unfold with_fields. by rewrite !E. Qed.

Lemma any_field_none p : (∀ fl, p fl = false) → any_field p = false.
Proof. intros E. unfold any_field. by rewrite !E. Qed.

(** The store after a pass that overflowed nowhere: [self] rewritten,
    and the carry object, still all zero, left unreferenced at the end. *)
Lemma loop_heap_no_carry h x sc :
  (x < length h)%nat → loop_heap h x sc new_cell = <[x := sc]> h ++ [new_cell].
Proof.
  intros Hx. unfold loop_heap.
  rewrite insert_app_l by done.
  apply list_insert_id.
  rewrite lookup_app_r by (rewrite length_insert; lia).
  by rewrite length_insert, Nat.sub_diag.
Qed.

(** ** C6: scaling by one *)

(** C6, as stated, fails: a coefficient above 10 (it can arise from
    [add], e.g. 12 + 13 leaves 15) is reduced by [scale_by_int(x, 1)]:
    [x.a = 15] becomes [x.a = 5] with a new left cell holding 1. *)
Lemma C6_counterexample :
  ∃ h', scale_by_int 1 [cell_a 15 None] 0%nat 1 = Some h' ∧
        h' !! 0%nat = Some (cell_a 5 (Some 1%nat)) ∧
        h' !! 1%nat = Some (cell_a 1 None) ∧
        h' !! 0%nat ≠ Some (cell_a 15 None).
Proof. eexists. split; [reflexivity|]. by repeat split. Qed.

(** C6 (amended): for every cell [x] whose six coefficients are all at
    most 10, [scale_by_int(x, 1)] leaves [x] and every other cell of the
    store unchanged and emits no carry: the store only gains the carry
    object that the call creates and drops, all zero and unreferenced. *)
Theorem C6_scale_by_one h x s n :
  h !! x = Some s → (∀ fl, getattr s fl ≤ 10) →
  scale_by_int n h x 1 = Some (h ++ [new_cell]).
Proof.
  intros Hs Hle.
  assert (Hx : (x < length h)%nat) by by eapply lookup_lt_Some.
  rewrite (scale_unfold n h x 1 s Hs).
  assert (Hno : ∀ fl, over (getattr s fl * 1) = false).
  { intros fl. unfold over. apply Z.ltb_ge. specialize (Hle fl). lia. }
  unfold scale_over. rewrite (any_field_none _ Hno).
  replace (scale_carry_cell s 1) with new_cell.
  2:{ unfold scale_carry_cell.
      rewrite (with_fields_ext _ _ (getattr new_cell)), with_fields_id; [done|].
      intros fl. rewrite scale_carry_no_over by done. by destruct fl. }
  replace (scale_self s 1) with s.
  2:{ unfold scale_self.
      rewrite (with_fields_ext _ _ (getattr s)), with_fields_id; [done|].
      intros fl. unfold scale_keep. specialize (Hno fl). unfold over in Hno.
      rewrite Hno. lia. }
  rewrite loop_heap_no_carry by done. by rewrite list_insert_id.
Qed.

Lemma C6_scale_by_one_witness :
  scale_by_int 0 [cell_a 10 None; cell_a 7 None] 0%nat 1
  = Some ([cell_a 10 None; cell_a 7 None] ++ [new_cell]).
Proof.
  apply (C6_scale_by_one [cell_a 10 None; cell_a 7 None] 0%nat
           (cell_a 10 None) 0%nat).
  - reflexivity.
  - intros fl. destruct fl; simpl; lia.
Defined.

(** ** C7: no overflow below half the radix *)

(** C7: when every coefficient of [x] and of [y] is non-negative and
    strictly below half the radix (so twice the field is below 10),
    [add(x, y)] returns with each field of [x] equal to the plain sum,
    below 10; the left link of [x] is the one it had, every other cell
    is unchanged, and the carry object stays all zero and unreferenced
    (the carry branch is not taken). *)
Theorem C7_add_no_overflow h x y s o n :
  h !! x = Some s → h !! y = Some o →
  (∀ fl, 0 ≤ getattr s fl ∧ 2 * getattr s fl < 10) →
  (∀ fl, 0 ≤ getattr o fl ∧ 2 * getattr o fl < 10) →
  let s' := with_fields s (λ fl, getattr s fl + getattr o fl) in
  add (S n) h x y = Some (<[x := s']> h ++ [new_cell]) ∧
  (∀ fl, getattr s' fl < 10) ∧
  QN.left s' = QN.left s ∧
  add_over s o = false.
Proof.
  intros Hs Ho Hsb Hob s'.
  assert (Hx : (x < length h)%nat) by by eapply lookup_lt_Some.
  assert (Hno : ∀ fl, over (getattr s fl + getattr o fl) = false).
  { intros fl. unfold over. apply Z.ltb_ge.
    specialize (Hsb fl). specialize (Hob fl). lia. }
  assert (Hov : add_over s o = false) by by apply any_field_none.
  split_and!; [|
    intros fl; unfold s'; rewrite getattr_with_fields;
    specialize (Hsb fl); specialize (Hob fl); lia | done | done].
  rewrite (add_unfold n h x y s o Hs Ho), Hov.
  replace (add_carry_cell s o) with new_cell.
  2:{ unfold add_carry_cell.
      rewrite (with_fields_ext _ _ (getattr new_cell)), with_fields_id; [done|].
      intros fl. rewrite add_carry_no_over by done. by destruct fl. }
  replace (add_self s o) with s'.
  2:{ unfold add_self, s'. apply with_fields_ext. intros fl.
      unfold add_keep. specialize (Hno fl). unfold over in Hno. by rewrite Hno. }
  by rewrite loop_heap_no_carry.
Qed.

Lemma C7_add_no_overflow_witness :
  let s' := with_fields (cell_a 4 None)
              (λ fl, getattr (cell_a 4 None) fl + getattr (cell_a 3 None) fl) in
  add 1 [cell_a 4 None; cell_a 3 None] 0%nat 1%nat
  = Some (<[0%nat := s']> [cell_a 4 None; cell_a 3 None] ++ [new_cell]) ∧
  (∀ fl, getattr s' fl < 10) ∧
  QN.left s' = QN.left (cell_a 4 None) ∧
  add_over (cell_a 4 None) (cell_a 3 None) = false.
Proof.
  apply (C7_add_no_overflow [cell_a 4 None; cell_a 3 None] 0%nat 1%nat
           (cell_a 4 None) (cell_a 3 None) 0%nat).
  - reflexivity.
  - reflexivity.
  - intros fl. destruct fl; simpl; lia.
  - intros fl. destruct fl; simpl; lia.
Defined.

(** ** C10: what [add] may modify *)

(** C10, as stated, fails when [y] lies on the left-chain of [x]: with
    [x.a = 6], [x.left = y] and [y.a = 7], [add(x, y)] overflows and the
    carry is added into [x.left], which is [y]: [y.a] becomes 8. *)
Lemma C10_counterexample :
  let h := [cell_a 6 (Some 1%nat); cell_a 7 None] in
  ∃ h', add 2 h 0%nat 1%nat = Some h' ∧
        h !! 1%nat = Some (cell_a 7 None) ∧
        h' !! 1%nat = Some (cell_a 8 None) ∧
        h' !! 1%nat ≠ h !! 1%nat.
Proof. eexists. split; [reflexivity|]. by repeat split. Qed.

(** C10 (amended): in a store whose left links point to existing cells,
    with [x] on a finite left-chain [ls] and [y] not on that chain
    (neither [x] itself nor reachable from [x] through [left]),
    [add(x, y)] returns, [y] is unchanged in every attribute, every
    cell off the chain is unchanged, and every cell of the store, [x]
    included, keeps its signs, metadata and its right, up, down, in and
    out links: on [x] only the six coefficients and [left] can change. *)
Theorem C10_add_frame ls h x y s o n :
  left_closed h → chain h x ls → h !! x = Some s → h !! y = Some o →
  y ∉ ls → (length ls ≤ n)%nat →
  ∃ h', add n h x y = Some h' ∧
    h' !! y = Some o ∧
    (∀ l, (l < length h)%nat → l ∉ ls → h' !! l = h !! l) ∧
    (∀ l q, h !! l = Some q → ∃ q', h' !! l = Some q' ∧ same_meta q q') ∧
    ∃ q', h' !! x = Some q' ∧ same_meta s q' ∧
          ∀ fl, getattr q' fl = add_keep (getattr s fl + getattr o fl).
Proof.
  intros Hcl Hc Hs Ho Hy Hn.
  assert (Hx : (x < length h)%nat) by by eapply lookup_lt_Some.
  assert (Hy' : (y < length h)%nat) by by eapply lookup_lt_Some.
  destruct (add_chain ls h x n y s o Hc Hs Ho Hn)
    as (h' & ls' & Hadd & _ & _ & Hfr & _ & _ & Hx').
  destruct (add_same_meta n h x y h' Hcl Hx Hy' Hadd) as (_ & _ & Hm).
  exists h'. split_and!; [done| |done|done|].
  - rewrite Hfr; done.
  - eexists. split; [done|]. split.
    + by destruct s.
    + intros fl. rewrite getattr_set_left. unfold add_self.
      by rewrite getattr_with_fields.
Qed.

Lemma C10_add_frame_witness :
  let h := [cell_a 6 (Some 2%nat); cell_a 7 None; cell_a 2 None] in
  ∃ h', add 2 h 0%nat 1%nat = Some h' ∧
    h' !! 1%nat = Some (cell_a 7 None) ∧
    (∀ l, (l < length h)%nat → l ∉ [0%nat; 2%nat] → h' !! l = h !! l) ∧
    (∀ l q, h !! l = Some q → ∃ q', h' !! l = Some q' ∧ same_meta q q') ∧
    ∃ q', h' !! 0%nat = Some q' ∧ same_meta (cell_a 6 (Some 2%nat)) q' ∧
          ∀ fl, getattr q' fl
                = add_keep (getattr (cell_a 6 (Some 2%nat)) fl
                            + getattr (cell_a 7 None) fl).
Proof.
  apply (C10_add_frame [0%nat; 2%nat]
           [cell_a 6 (Some 2%nat); cell_a 7 None; cell_a 2 None]
           0%nat 1%nat (cell_a 6 (Some 2%nat)) (cell_a 7 None) 2%nat).
  - intros l q l' Hq Hl.
    destruct l as [|[|[|l]]]; simpl in Hq; inversion Hq; subst; simpl in Hl;
      inversion Hl; simpl; lia.
  - eapply chain_step; [reflexivity..|]. by eapply chain_end.
  - reflexivity.
  - reflexivity.
  - intros Hin. apply elem_of_cons in Hin as [Hin|Hin]; [discriminate|].
    apply elem_of_cons in Hin as [Hin|Hin]; [discriminate|].
    by apply elem_of_nil in Hin.
  - simpl. lia.
Defined.

(** ** C8: sign bits under negative factors (Demo5) *)

Lemma testbit_9 i :
  0 ≤ i → Z.testbit 9 i = (i =? 0) || (i =? 3).
Proof.
  intros Hi.
  destruct (Z.le_gt_cases 4 i).
  - rewrite Z.bits_above_log2 by (change (Z.log2 9) with 3; lia).
    symmetry. apply orb_false_intro; apply Z.eqb_neq; lia.
  - assert (i = 0 ∨ i = 1 ∨ i = 2 ∨ i = 3) as [->|[->|[->| ->]]] by lia; done.
Qed.

Lemma testbit_18 i :
  0 ≤ i → Z.testbit 18 i = (i =? 1) || (i =? 4).
Proof.
  intros Hi.
  destruct (Z.le_gt_cases 5 i).
  - rewrite Z.bits_above_log2 by (change (Z.log2 18) with 4; lia).
    symmetry. apply orb_false_intro; apply Z.eqb_neq; lia.
  - assert (i = 0 ∨ i = 1 ∨ i = 2 ∨ i = 3 ∨ i = 4)
      as [->|[->|[->|[->| ->]]]] by lia; done.
Qed.

Lemma signs_set_signs q v : QN.signs (set_signs q v) = v.
Proof. by destruct q. Qed.

Lemma signs_setattr q fl v : QN.signs (setattr q fl v) = QN.signs q.
Proof. by destruct q, fl. Qed.

Lemma xorb_true_negb b : xorb b true = negb b.
Proof. by destruct b. Qed.

(** The variants of Demo6 and Demo7 take the sign flip as a flag of
    their own, whatever the sign of the factor, and flip bit 0 on
    [multiply] and bit 3 on [divide]. *)
Lemma demo6_divide_signs q k flip :
  QN.signs (Demo6.divide q k flip)
  = if flip then Z.lxor (QN.signs q) 8 else QN.signs q.
Proof.
  unfold Demo6.divide. destruct flip.
  - by rewrite signs_set_signs, signs_setattr.
  - by rewrite signs_setattr.
Qed.

Lemma testbit_8 i :
  0 ≤ i → Z.testbit 8 i = (i =? 3).
Proof.
  intros Hi. change 8 with (Z.shiftl 1 3).
  rewrite Z.shiftl_spec by done.
  destruct (Z.eqb_spec i 3) as [->|Hne]; [done|].
  destruct (Z.lt_ge_cases i 3).
  - apply Z.testbit_neg_r. lia.
  - apply (Z.bits_above_log2 1 (i - 3)); simpl; lia.
Qed.

(** C8, as stated, fails on [divide] of Demo6, one of the functions the
    claim is about: dividing by the negative divisor [-2] leaves
    [signs] as it was when the flag [sign_flip] is not passed, and
    toggles bit 3 (coefficient d, on the numerator side) when it is;
    bits 1 and 4 are toggled in neither case. *)
Lemma C8_counterexample :
  let q := set_signs (cell_a 10 None) 1 in
  -2 < 0 ∧
  QN.signs (Demo6.divide q (-2) false) = QN.signs q ∧
  QN.signs (Demo6.divide q (-2) true) = Z.lxor (QN.signs q) 8 ∧
  Z.testbit (QN.signs (Demo6.divide q (-2) false)) 1
  = Z.testbit (QN.signs q) 1 ∧
  Z.testbit (QN.signs (Demo6.divide q (-2) true)) 4
  = Z.testbit (QN.signs q) 4 ∧
  Z.testbit (QN.signs (Demo6.divide q (-2) true)) 3
  = negb (Z.testbit (QN.signs q) 3).
Proof. by vm_compute. Qed.

(** C8 (amended): the sign bits that a division or multiplication
    toggles depend on the operation.  For every cell and every negative
    scalar, [multiply_by] of Demo5 toggles exactly bits 0 and 3 of
    [signs] (coefficients a and d), and for every negative divisor
    [divide_by] of Demo5 toggles exactly bits 1 and 4 (coefficients b
    and e); every other bit of [signs] is unchanged.  [divide] of Demo6
    never looks at the sign of its factor: for every factor, negative
    or not, it adds the factor to [f], toggles exactly bit 3 of [signs]
    when its flag [sign_flip] is set, and leaves [signs] unchanged when
    it is not. *)
Theorem C8_negative_factor_sign_bits q k :
  k < 0 →
  (QN.signs (Demo5.multiply_by q k) = Z.lxor (QN.signs q) 9 ∧
   ∀ i, 0 ≤ i →
     Z.testbit (QN.signs (Demo5.multiply_by q k)) i
     = if (i =? 0) || (i =? 3) then negb (Z.testbit (QN.signs q) i)
       else Z.testbit (QN.signs q) i) ∧
  (QN.signs (Demo5.divide_by q k) = Z.lxor (QN.signs q) 18 ∧
   ∀ i, 0 ≤ i →
     Z.testbit (QN.signs (Demo5.divide_by q k)) i
     = if (i =? 1) || (i =? 4) then negb (Z.testbit (QN.signs q) i)
       else Z.testbit (QN.signs q) i) ∧
  (∀ factor sign_flip,
     QN.f (Demo6.divide q factor sign_flip) = QN.f q + factor ∧
     QN.signs (Demo6.divide q factor sign_flip)
     = (if sign_flip : bool then Z.lxor (QN.signs q) 8 else QN.signs q) ∧
     ∀ i, 0 ≤ i →
       Z.testbit (QN.signs (Demo6.divide q factor sign_flip)) i
       = if sign_flip && (i =? 3) then negb (Z.testbit (QN.signs q) i)
         else Z.testbit (QN.signs q) i).
Proof.
  intros Hk.
  assert (Hm : QN.signs (Demo5.multiply_by q k) = Z.lxor (QN.signs q) 9).
  { unfold Demo5.multiply_by. rewrite (proj2 (Z.ltb_lt k 0) Hk).
    rewrite signs_setattr. unfold Demo5.toggle_sign_bit.
    rewrite !signs_set_signs, Z.lxor_assoc. done. }
  assert (Hd : QN.signs (Demo5.divide_by q k) = Z.lxor (QN.signs q) 18).
  { unfold Demo5.divide_by. rewrite (proj2 (Z.ltb_lt k 0) Hk).
    rewrite signs_setattr. unfold Demo5.toggle_sign_bit.
    rewrite !signs_set_signs, Z.lxor_assoc. done. }
  split; [split; [done|intros i Hi]|split; [split; [done|intros i Hi]|]].
  - rewrite Hm, Z.lxor_spec, testbit_9 by done.
    destruct (_ || _); [apply xorb_true_negb|apply xorb_false_r].
  - rewrite Hd, Z.lxor_spec, testbit_18 by done.
    destruct (_ || _); [apply xorb_true_negb|apply xorb_false_r].
  - intros factor sign_flip. split_and!.
    + unfold Demo6.divide. by destruct sign_flip, q.
    + apply demo6_divide_signs.
    + intros i Hi. rewrite demo6_divide_signs. destruct sign_flip; [|done].
      rewrite Z.lxor_spec, testbit_8 by done. cbn [andb].
      destruct (i =? 3); [apply xorb_true_negb|apply xorb_false_r].
Qed.

Lemma C8_negative_factor_sign_bits_witness :
  let q := set_signs (cell_a 10 None) 1 in
  (QN.signs (Demo5.multiply_by q (-2)) = Z.lxor (QN.signs q) 9 ∧
   ∀ i, 0 ≤ i →
     Z.testbit (QN.signs (Demo5.multiply_by q (-2))) i
     = if (i =? 0) || (i =? 3) then negb (Z.testbit (QN.signs q) i)
       else Z.testbit (QN.signs q) i) ∧
  (QN.signs (Demo5.divide_by q (-2)) = Z.lxor (QN.signs q) 18 ∧
   ∀ i, 0 ≤ i →
     Z.testbit (QN.signs (Demo5.divide_by q (-2))) i
     = if (i =? 1) || (i =? 4) then negb (Z.testbit (QN.signs q) i)
       else Z.testbit (QN.signs q) i) ∧
  (∀ factor sign_flip,
     QN.f (Demo6.divide q factor sign_flip) = QN.f q + factor ∧
     QN.signs (Demo6.divide q factor sign_flip)
     = (if sign_flip : bool then Z.lxor (QN.signs q) 8 else QN.signs q) ∧
     ∀ i, 0 ≤ i →
       Z.testbit (QN.signs (Demo6.divide q factor sign_flip)) i
       = if sign_flip && (i =? 3) then negb (Z.testbit (QN.signs q) i)
         else Z.testbit (QN.signs q) i).
Proof.
  apply (C8_negative_factor_sign_bits (set_signs (cell_a 10 None) 1) (-2)).
  lia.
Defined.

(** ** C9: the metadata counter *)

Lemma metadata_set_metadata q v : QN.metadata (set_metadata q v) = v.
Proof. by destruct q. Qed.

Lemma metadata_set_signs q v : QN.metadata (set_signs q v) = QN.metadata q.
Proof. by destruct q. Qed.

Lemma metadata_setattr q fl v : QN.metadata (setattr q fl v) = QN.metadata q.
Proof. by destruct q, fl. Qed.

Lemma scale_same_meta n h x k h' :
  left_closed h → (x < length h)%nat →
  scale_by_int n h x k = Some h' →
  ∀ l q, h !! l = Some q → ∃ q', h' !! l = Some q' ∧ same_meta q q'.
Proof.
  intros Hcl Hx Hsc.
  destruct (lookup_lt_is_Some_2 h x Hx) as [s Hs].
  rewrite (scale_unfold n h x k s Hs) in Hsc.
  assert (Hm1 : ∀ l q, h !! l = Some q →
     ∃ q', loop_heap h x (scale_self s k) (scale_carry_cell s k) !! l = Some q'
           ∧ same_meta q q').
  { intros l q Hq. eapply loop_heap_same_meta; [done| |done].
    apply same_meta_with_fields. }
  destruct (scale_over s k).
  - destruct (QN.left s) as [l1|] eqn:Hl.
    + apply add_same_meta in Hsc as (_ & _ & Hm').
      * intros l q Hq. destruct (Hm1 _ _ Hq) as (q1 & Hq1 & Hs1).
        destruct (Hm' _ _ Hq1) as (q' & Hq' & Hs').
        exists q'. split; [done|]. by eapply same_meta_trans.
      * eapply loop_heap_closed; [done..| |done]. intros l' Hl'. by left.
      * rewrite loop_heap_length. pose proof (Hcl _ _ _ Hs Hl). lia.
      * rewrite loop_heap_length. lia.
    + assert (h' = loop_heap h x (set_left (scale_self s k) (Some (length h)))
                     (scale_carry_cell s k)) as -> by congruence.
      intros l q Hq. eapply loop_heap_same_meta; [done| |done].
      eapply same_meta_trans; [apply same_meta_with_fields|].
      apply same_meta_set_left.
  - by assert (h' = loop_heap h x (scale_self s k) (scale_carry_cell s k))
      as -> by congruence.
Qed.

(** C9, as stated, fails: [add] (Demo28) never writes [metadata]; after
    [add(x, y)] the counter of [x] is what it was, so it has not strictly
    increased.  The same holds for [relu] of Demo17. *)
Lemma C9_counterexample :
  (∃ h', add 1 [cell_a 1 None; cell_a 2 None] 0%nat 1%nat = Some h' ∧
         QN.metadata <$> [cell_a 1 None; cell_a 2 None] !! 0%nat = Some 0 ∧
         QN.metadata <$> h' !! 0%nat = Some 0) ∧
  QN.metadata (Demo17.relu (cell_a (-1) None))
  = QN.metadata (cell_a (-1) None).
Proof. split; [eexists; split; [reflexivity|]|]; by repeat split. Qed.

(** C9 (amended): no operation decrements [metadata].  [multiply] and
    [divide] (Demo7) increase it by exactly 1; [relu_activation] (Demo7)
    increases it by 1 when bit 0 of [signs] is set and leaves it as it
    was otherwise; [relu] (Demo17), and [add] and [scale_by_int]
    (Demo28, on every cell of the store) leave it unchanged. *)
Theorem C9_metadata_not_decreased ls h x s n q k flip :
  left_closed h → chain h x ls → h !! x = Some s → (length ls ≤ n)%nat →
  QN.metadata (Demo7.multiply q k flip) = QN.metadata q + 1 ∧
  QN.metadata (Demo7.divide q k flip) = QN.metadata q + 1 ∧
  QN.metadata (Demo7.relu_activation q)
  = (if Z.land (QN.signs q) 1 =? 0 then QN.metadata q else QN.metadata q + 1) ∧
  QN.metadata (Demo17.relu q) = QN.metadata q ∧
  (∀ y o, h !! y = Some o →
     ∃ h', add n h x y = Some h' ∧
       ∀ l c, h !! l = Some c → QN.metadata <$> h' !! l = Some (QN.metadata c)) ∧
  (∃ h', scale_by_int n h x k = Some h' ∧
       ∀ l c, h !! l = Some c → QN.metadata <$> h' !! l = Some (QN.metadata c)).
Proof.
  intros Hcl Hc Hs Hn.
  assert (Hx : (x < length h)%nat) by by eapply lookup_lt_Some.
  split_and!.
  - unfold Demo7.multiply. by destruct flip, q.
  - unfold Demo7.divide. by destruct flip, q.
  - unfold Demo7.relu_activation. destruct (_ =? 0); [done|by destruct q].
  - unfold Demo17.relu. destruct (_ <? 0); [by destruct q|done].
  - intros y o Ho.
    assert (Hy : (y < length h)%nat) by by eapply lookup_lt_Some.
    destruct (add_chain ls h x n y s o Hc Hs Ho Hn) as (h' & ls' & Hadd & _).
    destruct (add_same_meta n h x y h' Hcl Hx Hy Hadd) as (_ & _ & Hm).
    exists h'. split; [done|]. intros l c Hlc.
    destruct (Hm _ _ Hlc) as (q' & -> & Hq'). simpl. f_equal. apply Hq'.
  - destruct (scale_chain ls h x n k s Hc Hs Hn) as (h' & ls' & Hsc & _).
    exists h'. split; [done|]. intros l c Hlc.
    destruct (scale_same_meta n h x k h' Hcl Hx Hsc _ _ Hlc) as (q' & -> & Hq').
    simpl. f_equal. apply Hq'.
Qed.

Lemma C9_metadata_not_decreased_witness :
  let h := [cell_a 6 None; cell_a 7 None] in
  let q := set_signs (cell_a 3 None) 1 in
  QN.metadata (Demo7.multiply q 2 true) = QN.metadata q + 1 ∧
  QN.metadata (Demo7.divide q 2 true) = QN.metadata q + 1 ∧
  QN.metadata (Demo7.relu_activation q)
  = (if Z.land (QN.signs q) 1 =? 0 then QN.metadata q else QN.metadata q + 1) ∧
  QN.metadata (Demo17.relu q) = QN.metadata q ∧
  (∀ y o, h !! y = Some o →
     ∃ h', add 1 h 0%nat y = Some h' ∧
       ∀ l c, h !! l = Some c → QN.metadata <$> h' !! l = Some (QN.metadata c)) ∧
  (∃ h', scale_by_int 1 h 0%nat 2 = Some h' ∧
       ∀ l c, h !! l = Some c → QN.metadata <$> h' !! l = Some (QN.metadata c)).
Proof.
  apply (C9_metadata_not_decreased [0%nat] [cell_a 6 None; cell_a 7 None] 0%nat
           (cell_a 6 None) 1%nat (set_signs (cell_a 3 None) 1) 2 true).
  - intros l c l' Hc Hl.
    destruct l as [|[|l]]; simpl in Hc; inversion Hc; subst; simpl in Hl;
      inversion Hl.
  - by eapply chain_end.
  - reflexivity.
  - simpl. lia.
Defined.


(** ** Loops over key lists *)

Lemma rfoldM_ext {A S} (f g : A → S → res S) xs s :
  (∀ x s', x ∈ xs → f x s' = g x s') → rfoldM f xs s = rfoldM g xs s.
Proof.
  revert s. induction xs as [|x xs IH]; intros s Hfg; [done|].
  cbn [rfoldM]. rewrite (Hfg x s) by apply list_elem_of_here.
  destruct (g x s) as [s1|e]; [|done].
  apply IH. intros y s' Hy. apply Hfg. by apply list_elem_of_further.
Qed.

(** ** C5: keys outside the configured sets *)

Lemma forward23_ext L inp1 inp2 :
  (∀ i, i ∈ Demo23.input_keys L → inp1 !! i = inp2 !! i) →
  Demo23.forward L inp1 = Demo23.forward L inp2.
Proof.
  intros E. unfold Demo23.forward. apply rfoldM_ext. intros o out _.
  unfold Demo23.forward_out.
  destruct (getkey (Demo23.biases L) o) as [b|]; [|done]. cbn.
  rewrite (rfoldM_ext (Demo23.forward_in L inp1 o) (Demo23.forward_in L inp2 o));
    [done|].
  intros i t Hi. unfold Demo23.forward_in, getkey. by rewrite (E i Hi).
Qed.

Lemma forward24_ext L inp1 inp2 :
  (∀ i, i ∈ Demo24.input_keys L → default 0 (inp1 !! i) = default 0 (inp2 !! i)) →
  Demo24.forward L inp1 = Demo24.forward L inp2.
Proof.
  intros E. unfold Demo24.forward. apply rfoldM_ext. intros o out _.
  unfold Demo24.forward_out.
  destruct (getkey (Demo24.biases L) o) as [b|]; [|done]. cbn.
  rewrite (rfoldM_ext (Demo24.forward_in L inp1 o) (Demo24.forward_in L inp2 o));
    [done|].
  intros i t Hi. unfold Demo24.forward_in. by rewrite (E i Hi).
Qed.

Lemma forward28_ext fuel L h inp1 inp2 :
  (∀ i, get0 inp1 i = get0 inp2 i) →
  forward fuel L h inp1 = forward fuel L h inp2.
Proof.
  intros E. unfold forward. apply rfoldM_ext. intros [o wd] [h1 out] _.
  unfold forward_out. cbn.
  rewrite (rfoldM_ext (forward_term fuel inp1 (length h1))
                      (forward_term fuel inp2 (length h1))); [done|].
  intros [i qn] h2 _. unfold forward_term. rewrite (E i). reflexivity.
Qed.

Lemma error_of_eq target output k errs :
  Demo23.error_of target output k errs =
  match target !! k with
  | None => Raise (KeyError k)
  | Some t =>
      match output !! k with
      | None => Raise (KeyError k)
      | Some o => Ok (<[k := t - o]> errs)
      end
  end.
Proof.
  unfold Demo23.error_of, getkey.
  destruct (target !! k); [|done]. by destruct (output !! k).
Qed.

Lemma forward23_in_eq L inp o i total wo :
  Demo23.weights L !! o = Some wo →
  Demo23.forward_in L inp o i total =
  match wo !! i with
  | None => Raise (KeyError i)
  | Some w =>
      match inp !! i with
      | None => Raise (KeyError i)
      | Some v => Ok (total + w * v)
      end
  end.
Proof.
  intros Hwo. unfold Demo23.forward_in, getkey. rewrite Hwo. cbn.
  destruct (wo !! i); [|done]. by destruct (inp !! i).
Qed.

Lemma rfoldM_cons {A S} (body : A → S → res S) x xs s :
  rfoldM body (x :: xs) s = body x s ≫= rfoldM body xs.
Proof. reflexivity. Qed.

Lemma rbind_Ok {A B} (k : A → res B) x : Ok x ≫= k = k x.
Proof. reflexivity. Qed.

Lemma rbind_Raise {A B} (k : A → res B) e : Raise e ≫= k = Raise e.
Proof. reflexivity. Qed.

(** The error pass of [backward] raises at the first key that the
    target or the output lacks. *)
Lemma errors_raise target output keys : ∀ errs k,
  k ∈ keys → target !! k = None ∨ output !! k = None →
  ∃ k', rfoldM (Demo23.error_of target output) keys errs = Raise (KeyError k').
Proof.
  induction keys as [|k0 keys IH]; intros errs k Hin Hmiss.
  { by apply elem_of_nil in Hin. }
  rewrite rfoldM_cons, error_of_eq.
  destruct (target !! k0) as [t|] eqn:Ht; [|eexists; reflexivity].
  destruct (output !! k0) as [o|] eqn:Ho; [|eexists; reflexivity].
  rewrite rbind_Ok. apply elem_of_cons in Hin as [->|Hin].
  - destruct Hmiss; congruence.
  - by eapply IH.
Qed.

(** The inner loop of Demo23's [forward] raises at the first configured
    input key that the input lacks. *)
Lemma forward23_in_raise L inp o wo keys : ∀ total k,
  Demo23.weights L !! o = Some wo →
  (∀ i, i ∈ keys → is_Some (wo !! i)) →
  k ∈ keys → inp !! k = None →
  ∃ k', k' ∈ keys ∧ inp !! k' = None ∧
        rfoldM (Demo23.forward_in L inp o) keys total = Raise (KeyError k').
Proof.
  induction keys as [|k0 keys IH]; intros total k Hwo Hw Hin Hmiss.
  { by apply elem_of_nil in Hin. }
  rewrite rfoldM_cons, (forward23_in_eq L inp o k0 total wo Hwo).
  destruct (Hw k0 (list_elem_of_here _ _)) as [w ->].
  destruct (inp !! k0) as [v|] eqn:Hv.
  - rewrite rbind_Ok. apply elem_of_cons in Hin as [->|Hin]; [congruence|].
    destruct (IH (total + w * v) k Hwo) as (k' & Hk' & Hm' & E); [|done..|].
    { intros i Hi. apply Hw. by apply list_elem_of_further. }
    exists k'. split_and!; [by apply list_elem_of_further|done..].
  - exists k0. split_and!; [apply list_elem_of_here|done..].
Qed.

Lemma forward23_out_raise L inp o out b e :
  Demo23.biases L !! o = Some b →
  rfoldM (Demo23.forward_in L inp o) (Demo23.input_keys L) b = Raise e →
  Demo23.forward_out L inp o out = Raise e.
Proof.
  intros Hb E. unfold Demo23.forward_out, getkey.
  by rewrite Hb, rbind_Ok, E.
Qed.

(** C5, as stated, fails.  A key outside the configured sets in the
    input of Demo23's [forward] raises nothing: the call succeeds and
    ignores it.  A configured key missing from the input of Demo24's
    and Demo28's [forward] raises nothing either: it is read as 0.
    And when Demo23's [backward] does raise for a missing input key,
    the bias and the weights updated before it stay updated. *)
Lemma C5_counterexample :
  (out ← Demo23.forward layer23 {[ "a" := 1; "b" := 2; "z" := 5 ]};
   Ok (out !! "x")) = Ok (Some 3) ∧
  (out ← Demo24.forward layer24 {[ "a" := 25 ]};
   Ok (Demo24.to_int <$> out !! "x")) = Ok (Some 25) ∧
  (let r := Demo23.backward layer23 {[ "a" := 1 ]} {[ "x" := 5 ]} {[ "x" := 1 ]} 1 in
   r.2 = Some (KeyError "b") ∧
   Demo23.biases layer23 !! "x" = Some 0 ∧
   Demo23.biases r.1 !! "x" = Some 4 ∧
   r.1 ≠ layer23).
Proof.
  split_and!; by vm_compute.
Qed.

(** C5 (amended): the layers have no [UnknownKey] check; they read the
    mappings only at the configured keys.  A key of the input outside
    the configured input keys is ignored by [forward] (Demo23, Demo24),
    which raises nothing for it.  A key missing from the input is read
    as 0 by [forward] of Demo24 and Demo28, and makes [forward] of
    Demo23 (on a layer holding a bias and weights for its keys, with at
    least one output key) raise [KeyError] for a configured key the
    input lacks; [forward] has no access to mutate weights or biases.
    When the target or the output lacks a configured output key,
    [backward] of Demo23 raises [KeyError] and leaves the layer as it
    was. *)
Theorem C5_key_handling (L23 : Demo23.QuantumNumberLayer)
    (L24 : Demo24.QuantumNumberLayer) (L28 : QuantumLayer) (h : heap)
    (fuel : nat) (inp target output : gmap string Z) (lr : Z)
    (z k : string) (v : Z) :
  (z ∉ Demo23.input_keys L23 →
     Demo23.forward L23 (<[z := v]> inp) = Demo23.forward L23 inp) ∧
  (z ∉ Demo24.input_keys L24 →
     Demo24.forward L24 (<[z := v]> inp) = Demo24.forward L24 inp) ∧
  (inp !! k = None →
     Demo24.forward L24 (<[k := 0]> inp) = Demo24.forward L24 inp ∧
     forward fuel L28 h (<[k := 0]> inp) = forward fuel L28 h inp) ∧
  (well_formed23 L23 → Demo23.output_keys L23 ≠ [] →
   k ∈ Demo23.input_keys L23 → inp !! k = None →
     ∃ k', k' ∈ Demo23.input_keys L23 ∧ inp !! k' = None ∧
           Demo23.forward L23 inp = Raise (KeyError k')) ∧
  (k ∈ Demo23.output_keys L23 → target !! k = None ∨ output !! k = None →
     ∃ k', Demo23.backward L23 inp target output lr
           = (L23, Some (KeyError k'))).
Proof.
  split_and!.
  - intros Hz. apply forward23_ext. intros i Hi.
    apply lookup_insert_ne. by intros ->.
  - intros Hz. apply forward24_ext. intros i Hi.
    rewrite lookup_insert_ne; [done|]. by intros ->.
  - intros Hk.
    assert (E : ∀ i, default 0 (<[k := 0]> inp !! i) = default 0 (inp !! i)).
    { intros i. destruct (decide (k = i)) as [->|Hne].
      - by rewrite lookup_insert_eq, Hk.
      - by rewrite lookup_insert_ne. }
    split; [by apply forward24_ext|by apply forward28_ext].
  - intros Hwf Hne Hin Hmiss.
    destruct (Demo23.output_keys L23) as [|o os] eqn:Hos; [done|].
    destruct (Hwf o) as ([b Hb] & wo & Hwo & Hw).
    { rewrite Hos. apply list_elem_of_here. }
    destruct (forward23_in_raise L23 inp o wo (Demo23.input_keys L23) b k
                Hwo Hw Hin Hmiss) as (k' & Hk' & Hm' & E).
    exists k'. split_and!; [done..|].
    unfold Demo23.forward. rewrite Hos, rfoldM_cons.
    by rewrite (forward23_out_raise L23 inp o ∅ b _ Hb E).
  - intros Hin Hmiss.
    destruct (errors_raise target output (Demo23.output_keys L23) ∅ k Hin Hmiss)
      as (k' & E).
    exists k'. unfold Demo23.backward. by rewrite E.
Qed.

(** ** Demo24: digits and their value *)

Lemma pop_zeros_value b rd :
  foldl (λ val d, val * b + d) 0 (Demo24.pop_zeros rd)
  = foldl (λ val d, val * b + d) 0 rd.
Proof.
  induction rd as [|d0 rest IH]; [done|].
  destruct rest as [|r rs]; [done|].
  change (Demo24.pop_zeros (d0 :: r :: rs))
    with (if d0 =? 0 then Demo24.pop_zeros (r :: rs) else d0 :: r :: rs).
  destruct (Z.eqb_spec d0 0) as [->|]; [|done].
  rewrite IH. done.
Qed.

Lemma value_rev b ds :
  foldl (λ val d, val * b + d) 0 (rev ds) = le_val b ds.
Proof.
  induction ds as [|d0 ds IH]; [done|].
  cbn [rev le_val foldr]. rewrite foldl_app. cbn [foldl].
  rewrite IH. fold (le_val b ds). lia.
Qed.

Lemma to_int_normalize q : Demo24.to_int (Demo24._normalize q) = Demo24.to_int q.
Proof.
  unfold Demo24._normalize.
  assert (E : le_val (Demo24.base q)
                (rev (Demo24.pop_zeros (rev (Demo24.digits q))))
              = le_val (Demo24.base q) (Demo24.digits q)).
  { rewrite <- !value_rev, rev_involutive. apply pop_zeros_value. }
  assert (Hto : ∀ ds sg, Demo24.to_int (Demo24.mkQ ds (Demo24.base q) sg)
                         = le_val (Demo24.base q) ds * sg).
  { intros ds sg. unfold Demo24.to_int. cbn. by rewrite value_rev. }
  assert (Hq : Demo24.to_int q
               = le_val (Demo24.base q) (Demo24.digits q) * Demo24.sign q).
  { unfold Demo24.to_int. by rewrite value_rev. }
  destruct (rev (Demo24.pop_zeros (rev (Demo24.digits q)))) as [|d0 [|d1 ds]] eqn:Hds;
    rewrite ?Hto, Hq, <- E; try done.
  destruct (Z.eqb_spec d0 0) as [->|]; rewrite Hto; [|done].
  cbn. lia.
Qed.

Lemma digits_loop_spec b : 2 ≤ b → ∀ fuel n ds,
  0 ≤ n → (Z.to_nat n ≤ fuel)%nat →
  ∃ enc, Demo24.digits_loop fuel b n ds = Ok (ds ++ enc) ∧ le_val b enc = n.
Proof.
  intros Hb. induction fuel as [|fuel IH]; intros n ds Hn Hf.
  - exists []. assert (n = 0) as -> by lia. split; [|done].
    cbn. by rewrite app_nil_r.
  - cbn [Demo24.digits_loop]. destruct (Z.ltb_spec 0 n) as [Hpos|Hz].
    + rewrite (proj2 (Z.eqb_neq b 0)) by lia.
      pose proof (Z.div_mod n b ltac:(lia)).
      pose proof (Z.mod_pos_bound n b ltac:(lia)) as Hm.
      assert (0 ≤ n / b) by (apply Z.div_pos; lia).
      assert (n / b < n) by (apply Z.div_lt; lia).
      destruct (IH (n / b) (ds ++ [n mod b])) as (enc & E & Hv); [lia|lia|].
      exists (n mod b :: enc). split.
      * rewrite E. by rewrite <- app_assoc.
      * cbn [le_val foldr]. fold (le_val b enc). rewrite Hv. lia.
    + exists []. assert (n = 0) as -> by lia. split; [|done].
      by rewrite app_nil_r.
Qed.

(** [add] on a number of radix at least 2 returns, and adds to the
    value read back by [to_int]. *)
Lemma add24_to_int q v :
  2 ≤ Demo24.base q →
  ∃ q', Demo24.add q v = Ok q' ∧ Demo24.to_int q' = Demo24.to_int q + v ∧
        Demo24.base q' = Demo24.base q.
Proof.
  intros Hb. unfold Demo24.add.
  destruct (Z.eqb_spec v 0) as [->|Hv].
  { exists q. split_and!; [done|lia|done]. }
  set (nv := Demo24.to_int q + v).
  destruct (Z.eqb_spec (Z.abs nv) 0) as [Hz|Hnz].
  - eexists. split_and!; [done| |].
    + rewrite to_int_normalize. unfold Demo24.to_int. cbn. lia.
    + unfold Demo24._normalize. cbn. done.
  - destruct (digits_loop_spec (Demo24.base q) Hb (Z.to_nat (Z.abs nv))
                (Z.abs nv) []) as (enc & -> & Hval); [lia|lia|].
    rewrite rbind_Ok. eexists. split_and!; [done| |].
    + rewrite to_int_normalize. unfold Demo24.to_int. cbn.
      rewrite value_rev, Hval. destruct (Z.leb_spec 0 nv); lia.
    + unfold Demo24._normalize. cbn.
      by destruct (rev _) as [|? [|? ?]]; [|destruct (_ =? 0)|].
Qed.

Lemma forward24_in_eq L inp o i total wo w :
  Demo24.weights L !! o = Some wo → wo !! i = Some w →
  Demo24.forward_in L inp o i total
  = Ok (total + Demo24.to_int w * default 0 (inp !! i)).
Proof.
  intros Hwo Hw. unfold Demo24.forward_in, getkey.
  by rewrite Hwo, rbind_Ok, Hw, rbind_Ok.
Qed.

Lemma forward24_out_eq L inp o out b :
  Demo24.biases L !! o = Some b →
  Demo24.forward_out L inp o out
  = (total ← rfoldM (Demo24.forward_in L inp o) (Demo24.input_keys L)
                    (Demo24.to_int b);
     r ← Demo24.add (Demo24.init [] (Demo24.layer_base L) 1) total;
     Ok (<[o := r]> out)).
Proof.
  intros Hb. unfold Demo24.forward_out, getkey. by rewrite Hb, rbind_Ok.
Qed.

Lemma forward24_in_sum L inp o wo keys : ∀ total,
  Demo24.weights L !! o = Some wo →
  (∀ i, i ∈ keys → ∃ w, wo !! i = Some w ∧ Demo24.to_int w = 1) →
  rfoldM (Demo24.forward_in L inp o) keys total
  = Ok (total + sum_inputs inp keys).
Proof.
  induction keys as [|k keys IH]; intros total Hwo Hw.
  { cbn. f_equal. lia. }
  destruct (Hw k (list_elem_of_here _ _)) as (w & Hwk & Hone).
  rewrite rfoldM_cons, (forward24_in_eq L inp o k total wo w Hwo Hwk).
  rewrite rbind_Ok, Hone, IH; [|done|].
  - f_equal. cbn [sum_inputs foldr]. fold (sum_inputs inp keys). lia.
  - intros i Hi. apply Hw. by apply list_elem_of_further.
Qed.

(** The sibling layer of Demo24 satisfies the linear-layer reduction:
    with all weights 1 and all biases 0, every output reads back as the
    plain sum of the inputs. *)
Lemma forward24_plain_sum L inp :
  2 ≤ Demo24.layer_base L → unit_layer24 L →
  ∃ out, Demo24.forward L inp = Ok out ∧
    ∀ o, o ∈ Demo24.output_keys L →
      ∃ r, out !! o = Some r ∧
           Demo24.to_int r = sum_inputs inp (Demo24.input_keys L).
Proof.
  intros Hb Hu. unfold Demo24.forward.
  assert (Hgen : ∀ os out0,
    (∀ o, o ∈ os → o ∈ Demo24.output_keys L) →
    ∃ out, rfoldM (Demo24.forward_out L inp) os out0 = Ok out ∧
      ∀ o, (o ∈ os →
              ∃ r, out !! o = Some r ∧
                   Demo24.to_int r = sum_inputs inp (Demo24.input_keys L)) ∧
           (o ∉ os → out !! o = out0 !! o)).
  { induction os as [|o1 os IH]; intros out0 Hsub.
    { exists out0. split; [done|]. intros o. split; [|done].
      intros Hin. by apply elem_of_nil in Hin. }
    destruct (Hu o1) as ((b & Hbo & Hb0) & wo & Hwo & Hw).
    { apply Hsub, list_elem_of_here. }
    rewrite rfoldM_cons, (forward24_out_eq L inp o1 out0 b Hbo).
    rewrite (forward24_in_sum L inp o1 wo _ _ Hwo Hw), rbind_Ok.
    destruct (add24_to_int (Demo24.init [] (Demo24.layer_base L) 1)
                (Demo24.to_int b + sum_inputs inp (Demo24.input_keys L)))
      as (r & -> & Hr & _); [done|].
    rewrite !rbind_Ok.
    destruct (IH (<[o1 := r]> out0)) as (out & -> & Hout).
    { intros o Ho. apply Hsub. by apply list_elem_of_further. }
    exists out. split; [done|]. intros o. split.
    - intros Hin. destruct (decide (o ∈ os)) as [Hos|Hos].
      + by apply Hout.
      + apply elem_of_cons in Hin as [->|Hin]; [|done].
        exists r. split.
        * rewrite (proj2 (Hout o1) Hos). apply lookup_insert_eq.
        * rewrite Hr, Hb0. unfold Demo24.to_int. cbn. lia.
    - intros Hni. apply not_elem_of_cons in Hni as [Hne Hni].
      rewrite (proj2 (Hout o) Hni). by apply lookup_insert_ne. }
  destruct (Hgen (Demo24.output_keys L) ∅) as (out & E & Hout); [done|].
  exists out. split; [done|]. intros o Ho. by apply Hout.
Qed.

Lemma C5_key_handling_witness :
  let inp : gmap string Z := {[ "a" := 1 ]} in
  Demo23.forward layer23 (<["z" := 5]> inp) = Demo23.forward layer23 inp ∧
  Demo24.forward layer24 (<["z" := 5]> inp) = Demo24.forward layer24 inp ∧
  (Demo24.forward layer24 (<["b" := 0]> inp) = Demo24.forward layer24 inp ∧
   forward 1 layer28 heap28 (<["b" := 0]> inp) = forward 1 layer28 heap28 inp) ∧
  (∃ k', k' ∈ Demo23.input_keys layer23 ∧ inp !! k' = None ∧
         Demo23.forward layer23 inp = Raise (KeyError k')) ∧
  (∃ k', Demo23.backward layer23 inp ∅ ∅ 1 = (layer23, Some (KeyError k'))).
Proof.
  intros inp.
  destruct (C5_key_handling layer23 layer24 layer28 heap28 1 inp ∅ ∅ 1
                            "z" "b" 5) as (H1 & H2 & H3 & H4 & _).
  destruct (C5_key_handling layer23 layer24 layer28 heap28 1 inp ∅ ∅ 1
                            "z" "x" 5) as (_ & _ & _ & _ & H5).
  split_and!.
  - apply H1. cbn. intros Hin. repeat (apply elem_of_cons in Hin as [Hin|Hin];
      [discriminate|]). by apply elem_of_nil in Hin.
  - apply H2. cbn. intros Hin. repeat (apply elem_of_cons in Hin as [Hin|Hin];
      [discriminate|]). by apply elem_of_nil in Hin.
  - apply H3. reflexivity.
  - apply H3. reflexivity.
  - apply H4.
    + intros o Ho. cbn in Ho. apply list_elem_of_singleton in Ho as ->.
      split; [by eexists|]. eexists. split; [reflexivity|].
      intros i Hi. cbn in Hi.
      apply elem_of_cons in Hi as [->|Hi]; [by eexists|].
      apply list_elem_of_singleton in Hi as ->. by eexists.
    + discriminate.
    + cbn. apply list_elem_of_further, list_elem_of_here.
    + reflexivity.
  - apply H5.
    + cbn. apply list_elem_of_here.
    + left. reflexivity.
Defined.

(** ** C4: the linear-layer reduction *)

(** The layer of Demo23 has no run without modulus: [forward] reduces
    every output modulo [bases[out_k]] (3 + 5 gives 1 modulo 7), and
    raises [KeyError] when [bases] has no entry for an output key. *)
Example forward23_reduces :
  (out ← Demo23.forward layer23 {[ "a" := 3; "b" := 5 ]}; Ok (out !! "x"))
  = Ok (Some 1) ∧
  Demo23.forward (Demo23.mk ["a"; "b"] ["x"] ∅ (Demo23.weights layer23)
                            (Demo23.biases layer23))
                 {[ "a" := 3; "b" := 5 ]}
  = Raise (KeyError "x").
Proof. split; by vm_compute. Qed.

(** C4 on [QuantumLayer.forward] of Demo28, at weight a = 1, bias a = 0
    and input [{'a': 11}]: the scaled copy [tmp] keeps [a = 1] and puts
    the overflow 1 into [tmp.left]; [sum_qnum.add(tmp)] reads only the
    six fields of [tmp], so the output cell has [a = 1] and no left
    link, and reconstructs to 1 where the plain sum is 11.  The layer
    of Demo24 returns 11 on the same input. *)
Theorem C4_forward_drops_overflow :
  let inp : gmap string Z := {[ "a" := 11 ]} in
  sum_inputs inp ["a"] = 11 ∧
  (∃ h' o c, forward 1 layer28 heap28 inp = Ok (h', [("x", o)]) ∧
     h' !! o = Some c ∧ QN.a c = 1 ∧ QN.left c = None ∧
     chain h' o [o] ∧ recon h' fa [o] = 1) ∧
  (out ← Demo24.forward layer24 inp; Ok (Demo24.to_int <$> out !! "x"))
  = Ok (Some 11).
Proof.
  intros inp. split_and!; [reflexivity| |by vm_compute].
  eexists _, _, _. split_and!; [by vm_compute|reflexivity|reflexivity|reflexivity| |reflexivity].
  by eapply chain_end.
Qed.

(** ** The training example, step by step *)

Lemma pres_refl h : pres h h.
Proof. by split. Qed.

Lemma pres_trans h1 h2 h3 : pres h1 h2 → pres h2 h3 → pres h1 h3.
Proof.
  intros [L1 P1] [L2 P2]. split; [lia|].
  intros l Hl. rewrite P2 by lia. by apply P1.
Qed.

Lemma pres_app h t : pres h (h ++ t).
Proof.
  split; [rewrite length_app; lia|]. intros l Hl. by apply lookup_app_l.
Qed.


Lemma of_opt_Some {A} (x : A) : of_opt (Some x) = Ok x.
Proof. reflexivity. Qed.


Lemma lookup_snoc (h : heap) q : (h ++ [q]) !! length h = Some q.
Proof. rewrite lookup_app_r by lia. by rewrite Nat.sub_diag. Qed.

Lemma copy_fields_fresh h qn q :
  h !! qn = Some q →
  copy_fields (h ++ [new_cell]) (length h) qn
  = Some (h ++ [with_fields new_cell (getattr q)]).
Proof.
  intros Hq. unfold copy_fields.
  rewrite (lookup_app_l_Some _ _ _ _ Hq), bind_Some_eq.
  rewrite lookup_snoc, bind_Some_eq. f_equal.
  rewrite <- (Nat.add_0_r (length h)) at 1. rewrite insert_app_r.
  by destruct q.
Qed.


Lemma forward_term_eq fuel inp sum i qn h :
  forward_term fuel inp sum (i, qn) h
  = (h2 ← of_opt (copy_fields (h ++ [new_cell]) (length h) qn);
     h3 ← of_opt (scale_by_int fuel h2 (length h) (get0 inp i));
     of_opt (add fuel h3 sum (length h))).
Proof. reflexivity. Qed.

Lemma forward_out_eq fuel L inp o wd h output :
  forward_out fuel L inp (o, wd) (h, output)
  = (h2 ← rfoldM (forward_term fuel inp (length h)) wd (h ++ [new_cell]);
     bo ← getitem (biases L) o;
     h3 ← of_opt (add fuel h2 (length h) bo);
     Ok (h3, setitem output o (length h))).
Proof. reflexivity. Qed.


Lemma chain_mem_head h l ls : chain h l ls → l ∈ ls.
Proof. intros Hc. destruct (chain_head _ _ _ Hc) as (? & ->). apply list_elem_of_here. Qed.












(** *** Arithmetic of the example *)

(** Learning rate at most 0: no carry ever occurs, and the error is
    multiplied by [1 - 5 * lr] at every step. *)
Lemma abs_iter_nonpos lr : lr ≤ 0 → ∀ n k wa ba,
  wa ≤ 1 → ba ≤ 0 → 10 - (2 * wa + ba) = 8 * (1 - 5 * lr) ^ Z.of_nat k →
  10 - out_a (abs_iter lr n wa ba).1 (abs_iter lr n wa ba).2
  = 8 * (1 - 5 * lr) ^ Z.of_nat (k + n).
Proof.
  intros Hlr.
  assert (Hout : ∀ wa ba, wa ≤ 1 → ba ≤ 0 → out_a wa ba = 2 * wa + ba).
  { intros wa ba Hwa Hba. unfold out_a, scale_keep, add_keep.
    rewrite (proj2 (Z.ltb_ge 10 (wa * 2))) by lia.
    rewrite (proj2 (Z.ltb_ge 10 (0 + wa * 2))) by lia.
    rewrite (proj2 (Z.ltb_ge 10 (0 + wa * 2 + ba))) by lia. lia. }
  induction n as [|n IH]; intros k wa ba Hwa Hba He.
  { cbn [abs_iter fst snd]. rewrite Hout, Nat.add_0_r by done. done. }
  cbn [abs_iter]. unfold abs_step. cbn [fst snd]. rewrite (Hout wa ba) by done.
  set (er := 10 - (2 * wa + ba)) in *.
  assert (Hpow : 0 < (1 - 5 * lr) ^ Z.of_nat k) by (apply Z.pow_pos_nonneg; lia).
  assert (Her : 0 < er) by lia.
  assert (Hp : er * lr ≤ 0) by (apply Z.mul_nonneg_nonpos; lia).
  set (p := er * lr) in *.
  replace (er * 2 * lr) with (2 * p) by (unfold p; ring).
  unfold add_keep.
  rewrite (proj2 (Z.ltb_ge 10 (wa + 2 * p))) by lia.
  rewrite (proj2 (Z.ltb_ge 10 (ba + p))) by lia.
  replace (k + S n)%nat with (S k + n)%nat by lia.
  apply IH; [lia|lia|].
  rewrite Nat2Z.inj_succ, Z.pow_succ_r by lia.
  transitivity (er - 5 * p); [unfold er; lia|].
  unfold p. rewrite He. ring.
Qed.




(** ** C3: the training example *)



(** The same example with a fractional learning rate, on the code run
    with exact fractions.  At 1/4 and at 3/10, both within
    [lr * input^2 < 2], the error does not decrease: it stays 8, and
    goes 8, 6, 7; the overshoot of the first step passes 10 and is
    lost in [forward].  At 1/10, where no coefficient passes 10, the
    error is halved at every step. *)
Example frac28_error_sequences :
  map (Frac28.error_seq 9 (Frac28.frac 1 4)) (seq 0 7)
  = map (λ e, Ok (Frac28.frac e 1)) [8; 8; 8; 8; 8; 8; 8] ∧
  map (Frac28.error_seq 9 (Frac28.frac 3 10)) (seq 0 4)
  = [Ok (Frac28.frac 8 1); Ok (Frac28.frac 6 1); Ok (Frac28.frac 7 1);
     Ok (Frac28.frac 13 2)] ∧
  map (Frac28.error_seq 9 (Frac28.frac 1 10)) (seq 0 6)
  = [Ok (Frac28.frac 8 1); Ok (Frac28.frac 4 1); Ok (Frac28.frac 2 1);
     Ok (Frac28.frac 1 1); Ok (Frac28.frac 1 2); Ok (Frac28.frac 1 4)].
Proof. split_and!; by vm_compute. Qed.

(** On an integer learning rate the run on fractions is the run on
    integers. *)
Example frac28_integer_rate :
  map (Frac28.error_seq 9 (Frac28.frac 1 1)) (seq 0 6)
  = map (λ n, e ← error_seq 9 1 n; Ok (Frac28.frac e 1)) (seq 0 6) ∧
  map (Frac28.error_seq 9 (Frac28.frac 0 1)) (seq 0 3)
  = map (λ n, e ← error_seq 9 0 n; Ok (Frac28.frac e 1)) (seq 0 3) ∧
  map (Frac28.error_seq 9 (Frac28.frac (-1) 1)) (seq 0 3)
  = map (λ n, e ← error_seq 9 (-1) n; Ok (Frac28.frac e 1)) (seq 0 3).
Proof. split_and!; by vm_compute. Qed.

(** *** The exact-integer layer of Demo24 on the same example *)

(** With fewer than two output keys, [train_step] of Demo24 raises
    [IndexError] in its second [print], before any update: the single
    scalar example cannot be trained with it. *)
Lemma train24_single_output L inp target lr out :
  (length (Demo24.output_keys L) < 2)%nat →
  Demo24.forward L inp = Ok out →
  (∀ o, o ∈ Demo24.output_keys L → is_Some (out !! o)) →
  Demo24.train_step L inp target lr = (L, Some IndexError).
Proof.
  intros Hlen Hfwd Hout. unfold Demo24.train_step. rewrite Hfwd.
  unfold Demo24.print_output, Demo24.output_key.
  destruct (Demo24.output_keys L) as [|o0 [|o1 os]] eqn:Hos;
    [done| |simpl in Hlen; lia].
  cbn [lookup list_lookup]. rewrite rbind_Ok. unfold getkey.
  destruct (Hout o0) as [r ->]; [apply list_elem_of_here|]. done.
Qed.

Example train24_single_raises :
  Demo24.train_step layer24_single input3 {[ "x" := 10 ]} 1
  = (layer24_single, Some IndexError).
Proof. by vm_compute. Qed.

(** Beside a second output the example trains, and with [lr = 1] the
    exact error is multiplied by -4 at every step. *)
Example train24_twin_lr1 :
  error24 1 0 layer24_twin = Ok 8 ∧ error24 1 1 layer24_twin = Ok 32 ∧
  error24 1 2 layer24_twin = Ok 128 ∧ error24 1 3 layer24_twin = Ok 512 ∧
  error24 0 1 layer24_twin = Ok 8 ∧ error24 0 2 layer24_twin = Ok 8.
Proof. split_and!; by vm_compute. Qed.


(** * Further properties of the code *)

(** ** Sign bits (Demo5) *)

Lemma land_1_testbit (z : Z) : (Z.land z 1 =? 0) = negb (Z.testbit z 0).
Proof.
  change 1 with (Z.ones 1). rewrite Z.land_ones by lia.
  rewrite Z.bit0_odd. change (2 ^ 1) with 2. rewrite Zmod_odd.
  by destruct (Z.odd z).
Qed.

Lemma sign_of_testbit q i :
  0 ≤ i →
  Demo5.sign_of q i = if Z.testbit (QN.signs q) i then "-" else "+".
Proof.
  intros Hi. unfold Demo5.sign_of.
  rewrite land_1_testbit, Z.shiftr_spec by lia.
  replace (0 + i) with i by lia. by destruct (Z.testbit _ i).
Qed.

Lemma testbit_one_shiftl i j :
  0 ≤ i → 0 ≤ j → Z.testbit (Z.shiftl 1 i) j = (j =? i).
Proof.
  intros Hi Hj. rewrite Z.shiftl_spec by lia.
  destruct (Z.eqb_spec j i) as [->|Hne].
  - by rewrite Z.sub_diag.
  - destruct (Z.lt_ge_cases j i).
    + by rewrite Z.testbit_neg_r by lia.
    + change 1 with (Z.ones 1). rewrite Z.ones_spec_high by lia. done.
Qed.

(** X1: for a term index that Python accepts (non-negative), toggling
    a sign bit twice gives the cell back; one toggle flips the sign
    that [print_state] shows for that term and leaves the sign of every
    other term as it was. *)
Theorem X1_toggle_sign_bit q i j :
  0 ≤ i → 0 ≤ j →
  Demo5.toggle_sign_bit (Demo5.toggle_sign_bit q i) i = q ∧
  Demo5.sign_of (Demo5.toggle_sign_bit q i) i ≠ Demo5.sign_of q i ∧
  (j ≠ i →
   Demo5.sign_of (Demo5.toggle_sign_bit q i) j = Demo5.sign_of q j).
Proof.
  intros Hi Hj. split_and!.
  - unfold Demo5.toggle_sign_bit. rewrite signs_set_signs.
    rewrite Z.lxor_assoc, Z.lxor_nilpotent, Z.lxor_0_r. by destruct q.
  - rewrite !sign_of_testbit by done. unfold Demo5.toggle_sign_bit.
    rewrite signs_set_signs, Z.lxor_spec, testbit_one_shiftl, Z.eqb_refl by done.
    by destruct (Z.testbit (QN.signs q) i).
  - intros Hne. rewrite !sign_of_testbit by done. unfold Demo5.toggle_sign_bit.
    rewrite signs_set_signs, Z.lxor_spec, testbit_one_shiftl by done.
    rewrite (proj2 (Z.eqb_neq j i) Hne). by rewrite xorb_false_r.
Qed.

Lemma X1_toggle_sign_bit_witness :
  let q := set_signs (cell_a 10 None) 5 in
  Demo5.toggle_sign_bit (Demo5.toggle_sign_bit q 3) 3 = q ∧
  Demo5.sign_of (Demo5.toggle_sign_bit q 3) 3 ≠ Demo5.sign_of q 3 ∧
  (0 ≠ 3 →
   Demo5.sign_of (Demo5.toggle_sign_bit q 3) 0 = Demo5.sign_of q 0).
Proof.
  apply (X1_toggle_sign_bit (set_signs (cell_a 10 None) 5) 3 0); lia.
Defined.

(** X2: [multiply_by] and [divide_by] commute, whatever the signs of
    the factors; and two multiplications by negative factors leave the
    sign field as it was while [e] has grown by both magnitudes. *)
Theorem X2_multiply_divide_compose q m d m1 m2 :
  Demo5.divide_by (Demo5.multiply_by q m) d
  = Demo5.multiply_by (Demo5.divide_by q d) m ∧
  (m1 < 0 → m2 < 0 →
   QN.signs (Demo5.multiply_by (Demo5.multiply_by q m1) m2) = QN.signs q ∧
   QN.e (Demo5.multiply_by (Demo5.multiply_by q m1) m2)
   = QN.e q + Z.abs m1 + Z.abs m2).
Proof.
  split.
  - unfold Demo5.divide_by, Demo5.multiply_by, Demo5.toggle_sign_bit.
    destruct q as [sg md a b c d0 e f l r u dn i o].
    destruct (m <? 0), (d <? 0); cbn; try reflexivity.
    f_equal. rewrite !Z.lxor_assoc. f_equal.
  - intros H1 H2. unfold Demo5.multiply_by, Demo5.toggle_sign_bit.
    rewrite (proj2 (Z.ltb_lt m1 0) H1), (proj2 (Z.ltb_lt m2 0) H2).
    destruct q as [sg md a b c d0 e f l r u dn i o]. cbn. split; [|lia].
    change (Z.shiftl 1 0) with 1. change (Z.shiftl 1 3) with 8.
    rewrite !Z.lxor_assoc.
    change (Z.lxor 1 (Z.lxor 8 (Z.lxor 1 8))) with 0.
    apply Z.lxor_0_r.
Qed.

Lemma X2_multiply_divide_compose_witness :
  let q := cell_a 10 None in
  Demo5.divide_by (Demo5.multiply_by q (-2)) (-4)
  = Demo5.multiply_by (Demo5.divide_by q (-4)) (-2) ∧
  (QN.signs (Demo5.multiply_by (Demo5.multiply_by q (-2)) (-3)) = QN.signs q ∧
   QN.e (Demo5.multiply_by (Demo5.multiply_by q (-2)) (-3))
   = QN.e q + Z.abs (-2) + Z.abs (-3)).
Proof.
  destruct (X2_multiply_divide_compose (cell_a 10 None) (-2) (-4) (-2) (-3))
    as [H1 H2].
  split; [exact H1|]. apply H2; lia.
Defined.

(** ** Activation and dot products (Demo6, Demo7) *)

Lemma land_lnot_1_testbit z i :
  0 ≤ i → Z.testbit (Z.land z (Z.lnot 1)) i = Z.testbit z i && negb (i =? 0).
Proof.
  intros Hi. rewrite Z.land_spec, Z.lnot_spec by done.
  assert (Z.testbit 1 i = (i =? 0)) as ->; [|done].
  destruct (Z.eqb_spec i 0) as [->|Hne]; [done|].
  apply (Z.ones_spec_high 1 i). lia.
Qed.

Lemma relu_activation_set q :
  Z.testbit (QN.signs q) 0 = true →
  QN.signs (Demo7.relu_activation q) = Z.land (QN.signs q) (Z.lnot 1) ∧
  QN.a (Demo7.relu_activation q) = 0.
Proof.
  intros E. unfold Demo7.relu_activation. rewrite land_1_testbit, E.
  by destruct q.
Qed.

Lemma relu_activation_clear q :
  Z.testbit (QN.signs q) 0 = false → Demo7.relu_activation q = q.
Proof.
  intros E. unfold Demo7.relu_activation. by rewrite land_1_testbit, E.
Qed.

(** X3: [relu_activation] is idempotent; afterwards the sign bit of
    [a] is clear, [a] is 0 if that bit was set, and every other sign
    bit is what it was. *)
Theorem X3_relu_activation q :
  Demo7.relu_activation (Demo7.relu_activation q) = Demo7.relu_activation q ∧
  Z.testbit (QN.signs (Demo7.relu_activation q)) 0 = false ∧
  (Z.testbit (QN.signs q) 0 = true → QN.a (Demo7.relu_activation q) = 0) ∧
  (∀ i, 0 < i →
     Z.testbit (QN.signs (Demo7.relu_activation q)) i
     = Z.testbit (QN.signs q) i).
Proof.
  assert (Hclear : Z.testbit (QN.signs (Demo7.relu_activation q)) 0 = false).
  { destruct (Z.testbit (QN.signs q) 0) eqn:E.
    - rewrite (proj1 (relu_activation_set q E)).
      rewrite land_lnot_1_testbit by lia. apply andb_false_r.
    - by rewrite relu_activation_clear. }
  split_and!; [by apply relu_activation_clear|done| |].
  - intros E. by apply relu_activation_set.
  - intros i Hi. destruct (Z.testbit (QN.signs q) 0) eqn:E.
    + rewrite (proj1 (relu_activation_set q E)).
      rewrite land_lnot_1_testbit by lia.
      rewrite (proj2 (Z.eqb_neq i 0)) by lia. apply andb_true_r.
    + by rewrite relu_activation_clear.
Qed.

Lemma foldl_weighted_term l : ∀ out,
  foldl Demo6.weighted_term out l
  = set_signs (setattr out fa (QN.a out + dot_a l))
              (Z.lxor (QN.signs out) (xor_signs l)).
Proof.
  induction l as [|fw l IH]; intros out.
  { cbn. rewrite Z.add_0_r, Z.lxor_0_r. by destruct out. }
  cbn [foldl]. rewrite IH. unfold Demo6.weighted_term.
  destruct out as [sg md a b c d e f lf r u dn i o]. cbn.
  fold (dot_a l) (xor_signs l). f_equal; [|lia].
  by rewrite !Z.lxor_assoc.
Qed.

(** X4: the output of [weighted_sum] (Demo6) does not depend on the
    order of the feature/weight pairs: any rearrangement of the pairs
    gives the same cell, with [a] the sum of the products [f.a * w.a] and
    [signs] the exclusive or of all sign fields. *)
Theorem X4_weighted_sum_order fs ws fs' ws' :
  zip fs ws ≡ₚ zip fs' ws' →
  Demo6.weighted_sum fs ws = Demo6.weighted_sum fs' ws' ∧
  QN.a (Demo6.weighted_sum fs ws) = dot_a (zip fs ws) ∧
  QN.signs (Demo6.weighted_sum fs ws) = xor_signs (zip fs ws).
Proof.
  intros Hp. unfold Demo6.weighted_sum. rewrite !foldl_weighted_term.
  assert (Ha : dot_a (zip fs ws) = dot_a (zip fs' ws')).
  { unfold dot_a. apply (foldr_permutation (=) _ 0); [|done].
    intros j1 x1 j2 x2 acc _ _ _. lia. }
  assert (Hx : xor_signs (zip fs ws) = xor_signs (zip fs' ws')).
  { unfold xor_signs. apply (foldr_permutation (=) _ 0); [|done].
    intros j1 x1 j2 x2 acc _ _ _.
    set (X1 := Z.lxor (QN.signs x1.1) (QN.signs x1.2)).
    set (X2 := Z.lxor (QN.signs x2.1) (QN.signs x2.2)).
    by rewrite <- !Z.lxor_assoc, (Z.lxor_comm X1 X2). }
  rewrite Ha, Hx. split_and!; [done|cbn; lia|done].
Qed.

Lemma X4_weighted_sum_order_witness :
  let f1 := set_signs (cell_a 10 None) 1 in
  let f2 := set_signs (cell_a 6 None) 4 in
  let w := cell_a 1 None in
  Demo6.weighted_sum [f1; f2] [w; w] = Demo6.weighted_sum [f2; f1] [w; w] ∧
  QN.a (Demo6.weighted_sum [f1; f2] [w; w]) = dot_a (zip [f1; f2] [w; w]) ∧
  QN.signs (Demo6.weighted_sum [f1; f2] [w; w])
  = xor_signs (zip [f1; f2] [w; w]).
Proof.
  apply (X4_weighted_sum_order
           [set_signs (cell_a 10 None) 1; set_signs (cell_a 6 None) 4]
           [cell_a 1 None; cell_a 1 None]
           [set_signs (cell_a 6 None) 4; set_signs (cell_a 10 None) 1]
           [cell_a 1 None; cell_a 1 None]).
  apply perm_swap.
Defined.

Lemma foldl_dot_term l : ∀ out mx,
  (foldl Demo7.dot_term (out, mx) l).1 = foldl Demo6.weighted_term out l ∧
  mx ≤ (foldl Demo7.dot_term (out, mx) l).2 ∧
  ∀ fw, fw ∈ l →
    QN.metadata fw.1 ≤ (foldl Demo7.dot_term (out, mx) l).2 ∧
    QN.metadata fw.2 ≤ (foldl Demo7.dot_term (out, mx) l).2.
Proof.
  induction l as [|fw0 l IH]; intros out mx.
  { cbn. split_and!; [done|lia|]. intros fw Hin. by apply elem_of_nil in Hin. }
  cbn [foldl]. unfold Demo7.dot_term at 2 4 6 8. cbn [fst snd].
  destruct (IH (Demo6.weighted_term out fw0)
               (Z.max (Z.max mx (QN.metadata fw0.1)) (QN.metadata fw0.2)))
    as (H1 & H2 & H3).
  split_and!; [done|lia|].
  intros fw Hin. apply elem_of_cons in Hin as [->|Hin]; [lia|by apply H3].
Qed.

(** X5: the output of [symbolic_dot_product] carries a metadata counter
    of at least 1 that is strictly above the counter of every feature
    and every weight that entered the product; its [a] is the sum of the
    products. *)
Theorem X5_dot_product_metadata features weights k f w :
  features !! k = Some f → weights !! k = Some w →
  let out := Demo7.symbolic_dot_product features weights in
  QN.metadata f < QN.metadata out ∧ QN.metadata w < QN.metadata out ∧
  1 ≤ QN.metadata out ∧
  QN.a out = dot_a (zip features weights).
Proof.
  intros Hf Hw out. unfold out, Demo7.symbolic_dot_product.
  destruct (foldl_dot_term (zip features weights) new_cell 0) as (H1 & H2 & H3).
  assert (Hin : (f, w) ∈ zip features weights).
  { apply list_elem_of_lookup. exists k.
    rewrite lookup_zip_with, Hf. cbn. by rewrite Hw. }
  destruct (H3 _ Hin) as [Hfm Hwm]. cbn [fst snd] in Hfm, Hwm.
  rewrite metadata_set_metadata. split_and!; [lia..|].
  rewrite H1, foldl_weighted_term.
  destruct (foldl Demo7.dot_term _ _) as [o1 m1]. cbn. lia.
Qed.

Lemma X5_dot_product_metadata_witness :
  let f := set_metadata (cell_a 12 None) 4 in
  let w := set_metadata (cell_a 1 None) 1 in
  let out := Demo7.symbolic_dot_product [f] [w] in
  QN.metadata f < QN.metadata out ∧ QN.metadata w < QN.metadata out ∧
  1 ≤ QN.metadata out ∧
  QN.a out = dot_a (zip [f] [w]).
Proof.
  apply (X5_dot_product_metadata [set_metadata (cell_a 12 None) 4]
           [set_metadata (cell_a 1 None) 1] 0%nat
           (set_metadata (cell_a 12 None) 4) (set_metadata (cell_a 1 None) 1));
    reflexivity.
Defined.

(** ** Neighbour aggregation (Demo17) *)

(** One statement of Demo17's [add] on a store whose cell [x] has
    been rewritten to [sc]; [oc] is the operand as the statement finds
    it. *)
Lemma add17_stmt h x y sc oc fl :
  (x < length h)%nat →
  <[x := sc]> h !! y = Some oc →
  Demo17.add_stmt x y fl (<[x := sc]> h)
  = Some (<[x := setattr sc fl (getattr sc fl + getattr oc fl)]> h).
Proof.
  intros Hx Hy. unfold Demo17.add_stmt, store_attr.
  rewrite list_lookup_insert_eq by done.
  repeat rewrite bind_Some_eq. rewrite Hy.
  repeat rewrite bind_Some_eq. by rewrite list_insert_insert_eq.
Qed.

(** Demo17's [add] in closed form, also when [other] is [self]. *)
Lemma add17_closed h x y s o :
  h !! x = Some s → h !! y = Some o →
  Demo17.add h x y
  = Some (<[x := with_fields s (λ fl, getattr s fl + getattr o fl)]> h).
Proof.
  intros Hs Ho.
  assert (Hx : (x < length h)%nat) by by eapply lookup_lt_Some.
  assert (Hop : ∀ sc, <[x := sc]> h !! y
                      = Some (if decide (y = x) then sc else o)).
  { intros sc. case_decide as E.
    - subst. by apply list_lookup_insert_eq.
    - by rewrite list_lookup_insert_ne. }
  unfold Demo17.add, fields.
  rewrite <- (list_insert_id h x s Hs) at 1.
  repeat (rewrite foldM_cons; erewrite add17_stmt;
          [rewrite bind_Some_eq|done|apply Hop]).
  rewrite foldM_nil. case_decide as E.
  - subst y. assert (o = s) by congruence. subst o. by destruct s.
  - by destruct s, o.
Qed.

Lemma with_fields_twice q g1 g2 :
  with_fields (with_fields q g1) g2 = with_fields q g2.
Proof. reflexivity. Qed.

Lemma neighbors_fold h rloc : ∀ nbs rc,
  rloc = length h →
  (∀ n, Some n ∈ nbs → is_Some (h !! n)) →
  foldM (λ neighbor h1,
           match neighbor with
           | Some n => Demo17.add h1 rloc n
           | None => Some h1
           end) nbs (h ++ [rc])
  = Some (h ++ [with_fields rc (λ fl, getattr rc fl + neighbor_sum h fl nbs)]).
Proof.
  induction nbs as [|nb nbs IH]; intros rc -> Hval.
  { rewrite foldM_nil.
    rewrite (with_fields_ext _ _ (getattr rc)), with_fields_id; [done|].
    intros fl. cbn. lia. }
  rewrite foldM_cons. destruct nb as [n|].
  - destruct (Hval n) as [qn Hn]; [apply list_elem_of_here|].
    rewrite (add17_closed (h ++ [rc]) (length h) n rc qn);
      [|apply lookup_snoc|by apply lookup_app_l_Some].
    rewrite bind_Some_eq.
    rewrite <- (Nat.add_0_r (length h)) at 1. rewrite insert_app_r.
    cbn [insert list_insert].
    rewrite IH; [|done|].
    + rewrite with_fields_twice.
      rewrite (with_fields_ext rc _
                 (λ fl, getattr rc fl + neighbor_sum h fl (Some n :: nbs)));
        [done|].
      intros fl. rewrite getattr_with_fields. cbn [neighbor_sum foldr].
      fold (neighbor_sum h fl nbs). rewrite (field_at_Some _ _ _ _ Hn). lia.
    + intros m Hm. apply Hval. by apply list_elem_of_further.
  - rewrite bind_Some_eq, IH; [done|done|].
    intros m Hm. apply Hval. by apply list_elem_of_further.
Qed.

(** X6: [weighted_sum_neighbors] (Demo17) returns a new cell and
    leaves every cell of the mesh as it was: the store only gains the
    result.  Each coefficient of the result is the cell's own plus those
    of the neighbours present among up, down, left and right; signs and
    metadata are the cell's own and the result has no link.  An isolated
    cell therefore gets a plain copy of itself. *)
Theorem X6_weighted_sum_neighbors h self s :
  h !! self = Some s →
  (∀ n, Some n ∈ [QN.up s; QN.down s; QN.left s; QN.right s] →
        is_Some (h !! n)) →
  let nbs := [QN.up s; QN.down s; QN.left s; QN.right s] in
  let r := with_fields (Demo17.copy_cell s)
             (λ fl, getattr s fl + neighbor_sum h fl nbs) in
  Demo17.weighted_sum_neighbors h self = Some (h ++ [r], length h) ∧
  QN.signs r = QN.signs s ∧ QN.metadata r = QN.metadata s ∧
  QN.left r = None ∧ QN.right r = None ∧ QN.up r = None ∧ QN.down r = None ∧
  (nbs = [None; None; None; None] → r = Demo17.copy_cell s).
Proof.
  intros Hs Hval nbs r.
  split.
  { unfold Demo17.weighted_sum_neighbors, Demo17.copy.
    rewrite Hs, !bind_Some_eq. cbn [fst snd].
    rewrite (lookup_app_l_Some _ _ _ _ Hs), bind_Some_eq.
    rewrite (neighbors_fold h (length h) _ (Demo17.copy_cell s) eq_refl Hval).
    rewrite bind_Some_eq. unfold r.
    rewrite (with_fields_ext (Demo17.copy_cell s) _
               (λ fl, getattr s fl + neighbor_sum h fl nbs)); [done|].
    intros fl. f_equal; by destruct s, fl. }
  split_and!; try done.
  intros E. unfold r. rewrite E.
  destruct s as [sg md a b c d e f l rt u dn i o]. cbn.
  unfold Demo17.copy_cell, with_fields. cbn. by rewrite !Z.add_0_r.
Qed.

Lemma X6_weighted_sum_neighbors_witness :
  let s := QN.mk 0 0 5 0 0 0 0 0 None (Some 1%nat) None None None None in
  let h := [s; cell_a 6 None] in
  let nbs := [QN.up s; QN.down s; QN.left s; QN.right s] in
  let r := with_fields (Demo17.copy_cell s)
             (λ fl, getattr s fl + neighbor_sum h fl nbs) in
  Demo17.weighted_sum_neighbors h 0%nat = Some (h ++ [r], length h) ∧
  QN.signs r = QN.signs s ∧ QN.metadata r = QN.metadata s ∧
  QN.left r = None ∧ QN.right r = None ∧ QN.up r = None ∧ QN.down r = None ∧
  (nbs = [None; None; None; None] → r = Demo17.copy_cell s).
Proof.
  apply (X6_weighted_sum_neighbors
           [QN.mk 0 0 5 0 0 0 0 0 None (Some 1%nat) None None None None;
            cell_a 6 None] 0%nat
           (QN.mk 0 0 5 0 0 0 0 0 None (Some 1%nat) None None None None)).
  - reflexivity.
  - intros n Hn. cbn in Hn.
    repeat (apply elem_of_cons in Hn as [Hn|Hn]; [try discriminate|]).
    + injection Hn as ->. by eexists.
    + by apply elem_of_nil in Hn.
Defined.

(** ** Digits of Demo24: canonical form, composition and small radices *)

Lemma pop_zeros_nonzero d rest :
  d ≠ 0 → Demo24.pop_zeros (d :: rest) = d :: rest.
Proof.
  intros Hd. destruct rest as [|r rs]; [done|].
  change (Demo24.pop_zeros (d :: r :: rs))
    with (if d =? 0 then Demo24.pop_zeros (r :: rs) else d :: r :: rs).
  by rewrite (proj2 (Z.eqb_neq d 0)).
Qed.

Lemma normalize_canon e d b s :
  d ≠ 0 → Demo24._normalize (Demo24.mkQ (e ++ [d]) b s) = Demo24.mkQ (e ++ [d]) b s.
Proof.
  intros Hd. unfold Demo24._normalize. cbn [Demo24.digits Demo24.base Demo24.sign].
  rewrite rev_app_distr. cbn [rev app].
  rewrite (pop_zeros_nonzero d (rev e) Hd). cbn [rev].
  rewrite rev_involutive.
  destruct e as [|e0 [|e1 e]]; cbn [app]; try done.
  by rewrite (proj2 (Z.eqb_neq d 0)).
Qed.

Lemma digits_loop_canon b : 2 ≤ b → ∀ fuel n ds,
  0 ≤ n → (Z.to_nat n ≤ fuel)%nat →
  ∃ enc, Demo24.digits_loop fuel b n ds = Ok (ds ++ enc) ∧ le_val b enc = n ∧
         Forall (λ d, 0 ≤ d < b) enc ∧
         (n = 0 → enc = []) ∧
         (0 < n → ∃ e d, enc = e ++ [d] ∧ d ≠ 0).
Proof.
  intros Hb. induction fuel as [|fuel IH]; intros n ds Hn Hf.
  - exists []. assert (n = 0) as -> by lia.
    split_and!; [cbn; by rewrite app_nil_r|done..|lia].
  - cbn [Demo24.digits_loop]. destruct (Z.ltb_spec 0 n) as [Hpos|Hz].
    + rewrite (proj2 (Z.eqb_neq b 0)) by lia.
      pose proof (Z.div_mod n b ltac:(lia)).
      pose proof (Z.mod_pos_bound n b ltac:(lia)) as Hm.
      assert (0 ≤ n / b) by (apply Z.div_pos; lia).
      assert (n / b < n) by (apply Z.div_lt; lia).
      destruct (IH (n / b) (ds ++ [n mod b]))
        as (enc & E & Hv & Hr & Hz & Hl); [lia|lia|].
      exists (n mod b :: enc). split_and!.
      * rewrite E. by rewrite <- app_assoc.
      * cbn [le_val foldr]. fold (le_val b enc). rewrite Hv. lia.
      * by constructor.
      * lia.
      * intros _. destruct (Z.eq_dec (n / b) 0) as [E0|E0].
        -- rewrite (Hz E0). exists [], (n mod b). split; [done|]. lia.
        -- destruct Hl as (e & d & -> & Hd); [lia|].
           by exists (n mod b :: e), d.
    + exists []. assert (n = 0) as -> by lia.
      split_and!; [by rewrite app_nil_r|done..|lia].
Qed.

Lemma add24_canon q v :
  2 ≤ Demo24.base q → v ≠ 0 →
  ∃ q', Demo24.add q v = Ok q' ∧
        Demo24.to_int q' = Demo24.to_int q + v ∧
        Demo24.base q' = Demo24.base q ∧
        Demo24.sign q' = (if 0 <=? Demo24.to_int q + v then 1 else -1) ∧
        canonical24 q'.
Proof.
  intros Hb Hv. unfold Demo24.add.
  rewrite (proj2 (Z.eqb_neq v 0)) by done.
  set (nv := Demo24.to_int q + v).
  destruct (Z.eqb_spec (Z.abs nv) 0) as [Hz|Hnz].
  - exists (Demo24.mkQ [0] (Demo24.base q) 1). split_and!; try done.
    + unfold Demo24.to_int. cbn. lia.
    + cbn. destruct (Z.leb_spec 0 nv); [done|lia].
    + split; [|by left]. cbn. constructor; [lia|constructor].
  - destruct (digits_loop_canon (Demo24.base q) Hb (Z.to_nat (Z.abs nv))
                (Z.abs nv) []) as (enc & -> & Hval & Hr & _ & Hl); [lia|lia|].
    destruct Hl as (e & d & -> & Hd); [lia|].
    rewrite rbind_Ok. cbn [app]. rewrite (normalize_canon e d _ _ Hd).
    eexists. split_and!; try done.
    + unfold Demo24.to_int. cbn [Demo24.digits Demo24.base Demo24.sign].
      rewrite value_rev, Hval. destruct (Z.leb_spec 0 nv); lia.
    + split; [done|]. right. split; [by exists e, d|].
      cbn. destruct (0 <=? nv); [by left|by right].
Qed.

(** X7. [add] of Demo24 with a nonzero value on a number of radix at
    least 2 returns; the result reads back as the old value plus the
    value added, keeps the radix, has the sign of the sum (1 at zero)
    and is in canonical form: every digit in [0, base), no high zero
    digit, the single digit 0 for zero.  The digits the number had
    before play no part beyond their value: two numbers of the same
    radix that reach the same sum end as the same object. *)
Theorem X7_add24_round_trip q v :
  2 ≤ Demo24.base q → v ≠ 0 →
  (∃ q', Demo24.add q v = Ok q' ∧
         Demo24.to_int q' = Demo24.to_int q + v ∧
         Demo24.base q' = Demo24.base q ∧
         Demo24.sign q' = (if 0 <=? Demo24.to_int q + v then 1 else -1) ∧
         canonical24 q') ∧
  (∀ q2 v2, Demo24.base q2 = Demo24.base q → v2 ≠ 0 →
            Demo24.to_int q2 + v2 = Demo24.to_int q + v →
            Demo24.add q2 v2 = Demo24.add q v).
Proof.
  intros Hb Hv. split; [by apply add24_canon|].
  intros q2 v2 Hb2 Hv2 Hsum. unfold Demo24.add.
  rewrite (proj2 (Z.eqb_neq v 0)), (proj2 (Z.eqb_neq v2 0)) by done.
  by rewrite Hsum, Hb2.
Qed.

Lemma X7_add24_round_trip_witness :
  (∃ q', Demo24.add (Demo24.mkQ [7; 0; 0] 10 1) (-19) = Ok q' ∧
         Demo24.to_int q' = Demo24.to_int (Demo24.mkQ [7; 0; 0] 10 1) + -19 ∧
         Demo24.base q' = Demo24.base (Demo24.mkQ [7; 0; 0] 10 1) ∧
         Demo24.sign q' =
           (if 0 <=? Demo24.to_int (Demo24.mkQ [7; 0; 0] 10 1) + -19
            then 1 else -1) ∧
         canonical24 q') ∧
  (∀ q2 v2, Demo24.base q2 = Demo24.base (Demo24.mkQ [7; 0; 0] 10 1) →
            v2 ≠ 0 →
            Demo24.to_int q2 + v2
            = Demo24.to_int (Demo24.mkQ [7; 0; 0] 10 1) + -19 →
            Demo24.add q2 v2 = Demo24.add (Demo24.mkQ [7; 0; 0] 10 1) (-19)).
Proof.
  apply (X7_add24_round_trip (Demo24.mkQ [7; 0; 0] 10 1) (-19)).
  - cbn. lia.
  - lia.
Defined.

(** X8. Two calls of [add] of Demo24 compose: adding [v] and then [w]
    leaves the same object as adding [v + w] at once, when the radix is
    at least 2 and none of [v], [w] and [v + w] is zero.  (With
    [v + w = 0] the single call is the no-op of line 27 and keeps the
    digits as they are, while the two calls rewrite them.) *)
Theorem X8_add24_compose q v w :
  2 ≤ Demo24.base q → v ≠ 0 → w ≠ 0 → v + w ≠ 0 →
  (q' ← Demo24.add q v; Demo24.add q' w) = Demo24.add q (v + w).
Proof.
  intros Hb Hv Hw Hvw.
  destruct (add24_to_int q v Hb) as (q' & -> & Hval & Hbq).
  rewrite rbind_Ok. unfold Demo24.add.
  rewrite (proj2 (Z.eqb_neq w 0)), (proj2 (Z.eqb_neq (v + w) 0)) by done.
  rewrite Hval, Hbq.
  by replace (Demo24.to_int q + v + w) with (Demo24.to_int q + (v + w)) by lia.
Qed.

Lemma X8_add24_compose_witness :
  (q' ← Demo24.add (Demo24.mkQ [5; 0] 10 1) 7; Demo24.add q' (-30))
  = Demo24.add (Demo24.mkQ [5; 0] 10 1) (7 + -30).
Proof.
  apply (X8_add24_compose (Demo24.mkQ [5; 0] 10 1) 7 (-30)).
  - cbn. lia.
  - lia.
  - lia.
  - lia.
Defined.

Lemma digits_loop_done fuel b n ds :
  n ≤ 0 → Demo24.digits_loop fuel b n ds = Ok ds.
Proof.
  intros Hn. destruct fuel; cbn [Demo24.digits_loop];
    by rewrite (proj2 (Z.ltb_ge 0 n)).
Qed.

Lemma digits_loop_radix_one fuel : ∀ n ds,
  0 < n → Demo24.digits_loop fuel 1 n ds = Raise Stuck.
Proof.
  induction fuel as [|fuel IH]; intros n ds Hn; cbn [Demo24.digits_loop];
    rewrite (proj2 (Z.ltb_lt 0 n)) by done; [done|].
  cbn [Z.eqb]. rewrite Z.div_1_r. by apply IH.
Qed.

(** X9. Below radix 2 [add] of Demo24 does not store the sum.  For a
    nonzero value and a nonzero sum: at radix 0 it raises
    [ZeroDivisionError] at the first [abs_val % base], the digits
    already reset to the empty list and the sign already that of the
    sum; at radix 1 the loop of lines 38-40 never ends, whatever
    the number of iterations allowed; at a negative radix the loop ends
    after one digit and the number reads back as a value different
    from the sum. *)
Theorem X9_add24_small_radix q v :
  v ≠ 0 → Demo24.to_int q + v ≠ 0 →
  let nv := Demo24.to_int q + v in
  (Demo24.base q = 0 →
     Demo24.add_inplace q v
     = (Demo24.mkQ [] 0 (if 0 <=? nv then 1 else -1), Some ZeroDivisionError)) ∧
  (Demo24.base q = 1 →
     ∀ fuel ds, Demo24.digits_loop fuel (Demo24.base q) (Z.abs nv) ds
                = Raise Stuck) ∧
  (Demo24.base q < 0 →
     ∃ q', Demo24.add q v = Ok q' ∧
           Demo24.digits q' = [Z.abs nv mod Demo24.base q] ∧
           Demo24.to_int q' ≠ nv).
Proof.
  intros Hv Hnv nv. split_and!.
  - intros Hb. unfold Demo24.add_inplace, Demo24.add.
    rewrite (proj2 (Z.eqb_neq v 0)) by done. fold nv.
    rewrite (proj2 (Z.eqb_neq (Z.abs nv) 0)) by lia.
    destruct (Z.to_nat (Z.abs nv)) as [|k] eqn:Hk; [lia|].
    cbn [Demo24.digits_loop].
    rewrite (proj2 (Z.ltb_lt 0 (Z.abs nv))) by lia.
    rewrite Hb. cbn [Z.eqb]. by rewrite rbind_Raise.
  - intros Hb fuel ds. rewrite Hb. apply digits_loop_radix_one. lia.
  - intros Hb. unfold Demo24.add.
    rewrite (proj2 (Z.eqb_neq v 0)) by done. fold nv.
    rewrite (proj2 (Z.eqb_neq (Z.abs nv) 0)) by lia.
    destruct (Z.to_nat (Z.abs nv)) as [|k] eqn:Hk; [lia|].
    cbn [Demo24.digits_loop].
    rewrite (proj2 (Z.ltb_lt 0 (Z.abs nv))) by lia.
    rewrite (proj2 (Z.eqb_neq (Demo24.base q) 0)) by lia.
    pose proof (Z.mod_neg_bound (Z.abs nv) (Demo24.base q) Hb) as Hm.
    pose proof (Z.div_mod (Z.abs nv) (Demo24.base q) ltac:(lia)) as Hdm.
    assert (Hdiv : Z.abs nv / Demo24.base q ≤ 0) by nia.
    rewrite (digits_loop_done k _ _ _ Hdiv), rbind_Ok. cbn [app].
    set (m := Z.abs nv mod Demo24.base q) in *.
    unfold Demo24._normalize. cbn [Demo24.digits Demo24.base Demo24.sign rev app Demo24.pop_zeros].
    destruct (Z.eqb_spec m 0) as [Hm0|Hm0]; eexists; (split; [reflexivity|]);
      (split; [reflexivity|]); unfold Demo24.to_int;
      cbn [Demo24.digits Demo24.base Demo24.sign rev app foldl].
    + lia.
    + destruct (Z.leb_spec 0 nv); lia.
Qed.

Lemma X9_add24_small_radix_witness :
  Demo24.add_inplace (Demo24.mkQ [3] 0 1) 4
  = (Demo24.mkQ [] 0 1, Some ZeroDivisionError) ∧
  (∀ fuel ds, Demo24.digits_loop fuel 1 7 ds = Raise Stuck) ∧
  (∃ q', Demo24.add (Demo24.mkQ [3] (-10) 1) 4 = Ok q' ∧
         Demo24.digits q' = [-3] ∧ Demo24.to_int q' ≠ 7).
Proof.
  split_and!.
  - exact (proj1 (X9_add24_small_radix (Demo24.mkQ [3] 0 1) 4
                    ltac:(lia) ltac:(vm_compute; discriminate)) eq_refl).
  - exact (proj1 (proj2 (X9_add24_small_radix (Demo24.mkQ [3] 1 1) 4
                           ltac:(lia) ltac:(vm_compute; discriminate))) eq_refl).
  - exact (proj2 (proj2 (X9_add24_small_radix (Demo24.mkQ [3] (-10) 1) 4
                           ltac:(lia) ltac:(vm_compute; discriminate))) ltac:(cbn; lia)).
Defined.

Lemma pop_zeros_idem rd :
  Demo24.pop_zeros (Demo24.pop_zeros rd) = Demo24.pop_zeros rd.
Proof.
  induction rd as [|d rest IH]; [done|].
  destruct rest as [|r rs]; [done|].
  change (Demo24.pop_zeros (d :: r :: rs))
    with (if d =? 0 then Demo24.pop_zeros (r :: rs) else d :: r :: rs).
  destruct (Z.eqb_spec d 0) as [->|Hd]; [done|].
  by apply pop_zeros_nonzero.
Qed.

Lemma pop_zeros_nil rd : Demo24.pop_zeros rd = [] → rd = [].
Proof.
  induction rd as [|d rest IH]; [done|].
  destruct rest as [|r rs]; [done|].
  change (Demo24.pop_zeros (d :: r :: rs))
    with (if d =? 0 then Demo24.pop_zeros (r :: rs) else d :: r :: rs).
  destruct (d =? 0); [|done]. intros E. by apply IH in E.
Qed.

Lemma pop_zeros_suffix rd :
  ∃ zs, rd = zs ++ Demo24.pop_zeros rd ∧ Forall (λ d, d = 0) zs.
Proof.
  induction rd as [|d rest IH]; [by exists []|].
  destruct rest as [|r rs]; [by exists []|].
  change (Demo24.pop_zeros (d :: r :: rs))
    with (if d =? 0 then Demo24.pop_zeros (r :: rs) else d :: r :: rs).
  destruct (Z.eqb_spec d 0) as [->|Hd]; [|by exists []].
  destruct IH as (zs & E & Hzs). exists (0 :: zs). split.
  - cbn [app]. by rewrite <- E.
  - by constructor.
Qed.

Lemma pop_zeros_head rd d r rs :
  Demo24.pop_zeros rd = d :: r :: rs → d ≠ 0.
Proof.
  induction rd as [|d0 rest IH]; [done|].
  destruct rest as [|r0 rs0]; [done|].
  change (Demo24.pop_zeros (d0 :: r0 :: rs0))
    with (if d0 =? 0 then Demo24.pop_zeros (r0 :: rs0) else d0 :: r0 :: rs0).
  destruct (Z.eqb_spec d0 0) as [->|Hd]; [done|].
  intros E. by injection E as <- _ _.
Qed.

(** X10. [_normalize] of Demo24 only drops zeros from the high end of
    the digit list, and never the last digit left; it keeps the radix
    and the value read by [to_int]; the sign becomes 1 exactly when the
    single digit 0 is left.  What it returns has no high zero digit
    and normalising it again changes nothing. *)
Theorem X10_normalize24 q :
  let q' := Demo24._normalize q in
  Demo24._normalize q' = q' ∧
  Demo24.to_int q' = Demo24.to_int q ∧
  Demo24.base q' = Demo24.base q ∧
  (∃ zs, Demo24.digits q = Demo24.digits q' ++ zs ∧ Forall (λ d, d = 0) zs) ∧
  (Demo24.digits q' = [] ↔ Demo24.digits q = []) ∧
  (∀ ds d, Demo24.digits q' = ds ++ [d] → ds ≠ [] → d ≠ 0) ∧
  Demo24.sign q' = (if decide (Demo24.digits q' = [0]) then 1 else Demo24.sign q).
Proof.
  intros q'.
  set (ds' := rev (Demo24.pop_zeros (rev (Demo24.digits q)))).
  assert (Hd : Demo24.digits q' = ds').
  { unfold q', Demo24._normalize. fold ds'.
    by destruct ds' as [|d0 [|d1 ds]]; [|destruct (d0 =? 0)|]. }
  assert (Hb : Demo24.base q' = Demo24.base q).
  { unfold q', Demo24._normalize. fold ds'.
    by destruct ds' as [|d0 [|d1 ds]]; [|destruct (d0 =? 0)|]. }
  assert (Hs : Demo24.sign q'
               = if decide (ds' = [0]) then 1 else Demo24.sign q).
  { unfold q', Demo24._normalize. fold ds'.
    destruct ds' as [|d0 [|d1 ds]].
    - by rewrite decide_False.
    - destruct (Z.eqb_spec d0 0) as [->|Hd0]; cbn.
      + by rewrite decide_True.
      + rewrite decide_False; [done|congruence].
    - by rewrite decide_False. }
  assert (Hrev : rev ds' = Demo24.pop_zeros (rev (Demo24.digits q))).
  { unfold ds'. apply rev_involutive. }
  split_and!.
  - unfold Demo24._normalize at 1. rewrite Hd, Hb, Hs, Hrev, pop_zeros_idem.
    fold ds'. destruct q' as [dq bq sq]. cbn in Hd, Hb, Hs. subst dq bq.
    destruct ds' as [|d0 [|d1 ds]]; [by rewrite Hs| |by rewrite Hs].
    destruct (Z.eqb_spec d0 0) as [->|Hd0]; [|by rewrite Hs].
    by rewrite Hs.
  - apply to_int_normalize.
  - done.
  - rewrite Hd. destruct (pop_zeros_suffix (rev (Demo24.digits q)))
      as (zs & E & Hzs).
    exists (rev zs). split; [|by apply Forall_rev].
    unfold ds'. rewrite <- rev_app_distr, <- E. by rewrite rev_involutive.
  - rewrite Hd. destruct (pop_zeros_suffix (rev (Demo24.digits q)))
      as (zs & E & Hzs). split.
    + intros E'. assert (Demo24.pop_zeros (rev (Demo24.digits q)) = []) as E0.
      { rewrite <- Hrev, E'. done. }
      apply pop_zeros_nil in E0.
      by rewrite <- (rev_involutive (Demo24.digits q)), E0.
    + intros E'. unfold ds'. by rewrite E'.
  - rewrite Hd. intros ds d E Hne.
    assert (Hp : Demo24.pop_zeros (rev (Demo24.digits q)) = d :: rev ds).
    { rewrite <- Hrev, E, rev_app_distr. done. }
    destruct (rev ds) as [|r rs] eqn:Er.
    + destruct Hne. by rewrite <- (rev_involutive ds), Er.
    + by apply (pop_zeros_head _ _ _ _ Hp).
  - by rewrite Hd.
Qed.

(** ** The layer of Demo24: [forward] and [train_step] *)

Lemma weight24_eq L o i wo w :
  Demo24.weights L !! o = Some wo → wo !! i = Some w →
  weight24 L o i = Demo24.to_int w.
Proof. intros Hwo Hw. unfold weight24. by rewrite Hwo; cbn; rewrite Hw. Qed.

Lemma bias24_eq L o b :
  Demo24.biases L !! o = Some b → bias24 L o = Demo24.to_int b.
Proof. intros Hb. unfold bias24. by rewrite Hb. Qed.

Lemma forward24_in_affine L inp o wo keys : ∀ total,
  Demo24.weights L !! o = Some wo →
  (∀ i, i ∈ keys → is_Some (wo !! i)) →
  rfoldM (Demo24.forward_in L inp o) keys total
  = Ok (total + foldr (λ i acc, weight24 L o i * default 0 (inp !! i) + acc)
                      0 keys).
Proof.
  induction keys as [|k keys IH]; intros total Hwo Hw.
  { cbn. f_equal. lia. }
  destruct (Hw k (list_elem_of_here _ _)) as (w & Hwk).
  rewrite rfoldM_cons, (forward24_in_eq L inp o k total wo w Hwo Hwk).
  rewrite rbind_Ok, IH; [|done|].
  - f_equal. cbn [foldr]. rewrite (weight24_eq L o k wo w Hwo Hwk). lia.
  - intros i Hi. apply Hw. by apply list_elem_of_further.
Qed.

Lemma add24_output b t :
  2 ≤ b →
  ∃ r, Demo24.add (Demo24.init [] b 1) t = Ok r ∧ output24 b t r.
Proof.
  intros Hb. change (Demo24.init [] b 1) with (Demo24.mkQ [] b 1).
  destruct (Z.eq_dec t 0) as [->|Ht].
  - exists (Demo24.mkQ [] b 1). by split.
  - destruct (add24_canon (Demo24.mkQ [] b 1) t Hb Ht)
      as (r & E & Hv & Hbr & _ & Hc).
    exists r. split; [done|]. by split_and!.
Qed.

Lemma forward24_general L inp :
  2 ≤ Demo24.layer_base L → well_formed24 L →
  ∃ out, Demo24.forward L inp = Ok out ∧
    (∀ o, o ∈ Demo24.output_keys L →
       ∃ r, out !! o = Some r ∧
            output24 (Demo24.layer_base L) (affine24 L inp o) r) ∧
    (∀ o, o ∉ Demo24.output_keys L → out !! o = None).
Proof.
  intros Hb Hwf. unfold Demo24.forward.
  assert (Hgen : ∀ os out0,
    (∀ o, o ∈ os → o ∈ Demo24.output_keys L) →
    ∃ out, rfoldM (Demo24.forward_out L inp) os out0 = Ok out ∧
      ∀ o, (o ∈ os →
              ∃ r, out !! o = Some r ∧
                   output24 (Demo24.layer_base L) (affine24 L inp o) r) ∧
           (o ∉ os → out !! o = out0 !! o)).
  { induction os as [|o1 os IH]; intros out0 Hsub.
    { exists out0. split; [done|]. intros o. split; [|done].
      intros Hin. by apply elem_of_nil in Hin. }
    destruct (Hwf o1) as ((b & Hbo & _) & wo & Hwo & Hw).
    { apply Hsub, list_elem_of_here. }
    rewrite rfoldM_cons, (forward24_out_eq L inp o1 out0 b Hbo).
    rewrite (forward24_in_affine L inp o1 wo _ _ Hwo), rbind_Ok.
    2:{ intros i Hi. destruct (Hw i Hi) as (w & -> & _). by eexists. }
    rewrite <- (bias24_eq L o1 b Hbo). fold (affine24 L inp o1).
    destruct (add24_output (Demo24.layer_base L) (affine24 L inp o1) Hb)
      as (r & -> & Hr).
    rewrite !rbind_Ok.
    destruct (IH (<[o1 := r]> out0)) as (out & -> & Hout).
    { intros o Ho. apply Hsub. by apply list_elem_of_further. }
    exists out. split; [done|]. intros o. split.
    - intros Hin. destruct (decide (o ∈ os)) as [Hos|Hos].
      + by apply Hout.
      + apply elem_of_cons in Hin as [->|Hin]; [|done].
        exists r. split; [|done].
        rewrite (proj2 (Hout o1) Hos). apply lookup_insert_eq.
    - intros Hni. apply not_elem_of_cons in Hni as [Hne Hni].
      rewrite (proj2 (Hout o) Hni). by apply lookup_insert_ne. }
  destruct (Hgen (Demo24.output_keys L) ∅) as (out & E & Hout); [done|].
  exists out. split; [done|]. split.
  - intros o Ho. by apply Hout.
  - intros o Ho. by rewrite (proj2 (Hout o) Ho).
Qed.

(** X11. [forward] of Demo24 on a layer that holds a bias for every
    output key and a weight for every output and input key, radix at
    least 2, returns a dict with exactly the output keys.  Each output
    reads back as bias plus the sum of weight times input over the
    input keys, an input key missing from [inp] counting as 0, with no
    reduction; it is in canonical form, except that a total of 0
    leaves the empty digit list the output was created with. *)
Theorem X11_forward24_affine L inp :
  2 ≤ Demo24.layer_base L → well_formed24 L →
  ∃ out, Demo24.forward L inp = Ok out ∧
    (∀ o, o ∈ Demo24.output_keys L →
       ∃ r, out !! o = Some r ∧
            Demo24.to_int r = affine24 L inp o ∧
            Demo24.base r = Demo24.layer_base L ∧
            (affine24 L inp o = 0 → Demo24.digits r = []) ∧
            (affine24 L inp o ≠ 0 → canonical24 r)) ∧
    (∀ o, o ∉ Demo24.output_keys L → out !! o = None).
Proof.
  intros Hb Hwf.
  destruct (forward24_general L inp Hb Hwf) as (out & E & Hin & Hout).
  exists out. split_and!; [done| |done].
  intros o Ho. destruct (Hin o Ho) as (r & Hr & H1 & H2 & H3 & H4).
  by exists r.
Qed.

Lemma well_formed24_twin : well_formed24 layer24_twin.
Proof.
  intros o Ho. cbn in Ho.
  apply elem_of_cons in Ho as [->|Ho];
    [|apply list_elem_of_singleton in Ho as ->].
  - split; [eexists; split; reflexivity|].
    eexists. split; [reflexivity|]. intros i Hi. cbn in Hi.
    apply list_elem_of_singleton in Hi as ->. eexists; split; reflexivity.
  - split; [eexists; split; reflexivity|].
    eexists. split; [reflexivity|]. intros i Hi. cbn in Hi.
    apply list_elem_of_singleton in Hi as ->. eexists; split; reflexivity.
Defined.

Lemma X11_forward24_affine_witness :
  ∃ out, Demo24.forward layer24_twin input3 = Ok out ∧
    (∀ o, o ∈ Demo24.output_keys layer24_twin →
       ∃ r, out !! o = Some r ∧
            Demo24.to_int r = affine24 layer24_twin input3 o ∧
            Demo24.base r = Demo24.layer_base layer24_twin ∧
            (affine24 layer24_twin input3 o = 0 → Demo24.digits r = []) ∧
            (affine24 layer24_twin input3 o ≠ 0 → canonical24 r)) ∧
    (∀ o, o ∉ Demo24.output_keys layer24_twin → out !! o = None).
Proof.
  apply (X11_forward24_affine layer24_twin input3).
  - cbn. lia.
  - apply well_formed24_twin.
Defined.

(** X12. [train_step] of Demo24 needs two output keys: on a layer with
    fewer, otherwise fit for [forward], it raises [IndexError] at the
    [output_keys[1]] (or [output_keys[0]]) of its second [print], after
    the forward pass and before any update, so the layer is left as it
    was. *)
Theorem X12_train_step24_needs_two_outputs L inp target lr :
  2 ≤ Demo24.layer_base L → well_formed24 L →
  (length (Demo24.output_keys L) < 2)%nat →
  Demo24.train_step L inp target lr = (L, Some IndexError).
Proof.
  intros Hb Hwf Hlen.
  destruct (forward24_general L inp Hb Hwf) as (out & E & Hin & _).
  apply (train24_single_output L inp target lr out Hlen E).
  intros o Ho. destruct (Hin o Ho) as (r & -> & _). by eexists.
Qed.

Lemma well_formed24_single : well_formed24 layer24_single.
Proof.
  intros o Ho. cbn in Ho. apply list_elem_of_singleton in Ho as ->.
  split; [eexists; split; reflexivity|].
  eexists. split; [reflexivity|]. intros i Hi. cbn in Hi.
  apply list_elem_of_singleton in Hi as ->. eexists; split; reflexivity.
Defined.

Lemma X12_train_step24_needs_two_outputs_witness :
  Demo24.train_step layer24_single input3 {[ "x" := 10 ]} 1
  = (layer24_single, Some IndexError).
Proof.
  apply (X12_train_step24_needs_two_outputs layer24_single input3).
  - cbn. lia.
  - apply well_formed24_single.
  - cbn. lia.
Defined.

Lemma same_shape24_refl L : same_shape24 L L.
Proof. done. Qed.

Lemma same_shape24_trans L1 L2 L3 :
  same_shape24 L1 L2 → same_shape24 L2 L3 → same_shape24 L1 L3.
Proof. intros (?&?&?) (?&?&?). split_and!; congruence. Qed.

Lemma add_inplace24_ok w delta :
  2 ≤ Demo24.base w →
  ∃ w', Demo24.add_inplace w delta = (w', None) ∧
        Demo24.to_int w' = Demo24.to_int w + delta ∧
        Demo24.base w' = Demo24.base w.
Proof.
  intros Hb. destruct (add24_to_int w delta Hb) as (w' & E & Hv & Hbw).
  exists w'. unfold Demo24.add_inplace. by rewrite E.
Qed.

Lemma update_weight24_spec inp lr error o i L :
  2 ≤ Demo24.layer_base L → well_formed24 L →
  o ∈ Demo24.output_keys L → i ∈ Demo24.input_keys L →
  ∃ L', Demo24.update_weight inp lr error o i L = (L', None) ∧
    same_shape24 L L' ∧ well_formed24 L' ∧
    Demo24.biases L' = Demo24.biases L ∧
    weight24 L' o i = weight24 L o i + error * default 0 (inp !! i) * lr ∧
    ∀ o' i', o' ≠ o ∨ i' ≠ i → weight24 L' o' i' = weight24 L o' i'.
Proof.
  intros Hb Hwf Ho Hi. unfold Demo24.update_weight.
  set (delta := error * default 0 (inp !! i) * lr).
  destruct (Z.eqb_spec delta 0) as [Hz|Hnz].
  { exists L. split_and!; try done. lia. }
  destruct (Hwf o Ho) as (_ & wo & Hwo & Hw).
  destruct (Hw i Hi) as (w & Hwi & Hbw).
  unfold getkey. rewrite Hwo, rbind_Ok, Hwi, rbind_Ok.
  destruct (add_inplace24_ok w delta) as (w' & -> & Hv & Hbw'); [lia|].
  cbn [fst snd]. eexists. split; [reflexivity|]. split_and!.
  - done.
  - intros o2 Ho2. destruct (Hwf o2 Ho2) as (Hb2 & wo2 & Hwo2 & Hw2).
    split; [done|]. cbn [Demo24.set_weights Demo24.weights].
    destruct (decide (o2 = o)) as [->|Hne].
    + rewrite lookup_insert_eq. eexists. split; [done|].
      intros i2 Hi2. destruct (decide (i2 = i)) as [->|Hni].
      * rewrite lookup_insert_eq. exists w'. split; [done|].
        cbn. congruence.
      * rewrite lookup_insert_ne by done. apply Hw. exact Hi2.
    + rewrite lookup_insert_ne by done. by exists wo2.
  - done.
  - rewrite (weight24_eq L o i wo w Hwo Hwi).
    rewrite (weight24_eq _ o i (<[i := w']> wo) w'); [done| |].
    + cbn. apply lookup_insert_eq.
    + apply lookup_insert_eq.
  - intros o' i' Hne. unfold weight24. cbn [Demo24.set_weights Demo24.weights].
    destruct (decide (o' = o)) as [->|Hno].
    + rewrite lookup_insert_eq, Hwo. cbn.
      destruct Hne as [Hne|Hne]; [done|].
      by rewrite lookup_insert_ne.
    + by rewrite lookup_insert_ne.
Qed.

Lemma exec_cons {A S} (body : A → S → S * option exn) x xs (s : S) :
  exec body (x :: xs) s = and_then (body x s) (exec body xs).
Proof. done. Qed.

Lemma exec24_weights inp lr error o : ∀ keys L,
  2 ≤ Demo24.layer_base L → well_formed24 L →
  o ∈ Demo24.output_keys L →
  (∀ i, i ∈ keys → i ∈ Demo24.input_keys L) → NoDup keys →
  ∃ L', exec (Demo24.update_weight inp lr error o) keys L = (L', None) ∧
    same_shape24 L L' ∧ well_formed24 L' ∧
    Demo24.biases L' = Demo24.biases L ∧
    (∀ i, i ∈ keys →
       weight24 L' o i = weight24 L o i + error * default 0 (inp !! i) * lr) ∧
    ∀ o' i', o' ≠ o ∨ i' ∉ keys → weight24 L' o' i' = weight24 L o' i'.
Proof.
  induction keys as [|k keys IH]; intros L Hb Hwf Ho Hsub Hnd.
  { exists L. split_and!; try done. intros i Hi. by apply elem_of_nil in Hi. }
  apply NoDup_cons in Hnd as [Hk Hnd].
  destruct (update_weight24_spec inp lr error o k L Hb Hwf Ho)
    as (L1 & E1 & Hsh1 & Hwf1 & Hb1 & Hk1 & Ho1).
  { apply Hsub, list_elem_of_here. }
  destruct Hsh1 as (Hsb & Hsi & Hso).
  destruct (IH L1) as (L2 & E2 & Hsh2 & Hwf2 & Hb2 & Hk2 & Ho2); try done.
  { by rewrite Hsb. }
  { by rewrite Hso. }
  { intros i Hi. rewrite Hsi. by apply Hsub, list_elem_of_further. }
  exists L2. rewrite exec_cons, E1. cbn [and_then]. split_and!.
  - done.
  - by apply (same_shape24_trans L L1 L2).
  - done.
  - congruence.
  - intros i Hi. apply elem_of_cons in Hi as [->|Hi].
    + rewrite Ho2 by (by right). done.
    + rewrite Hk2 by done. rewrite Ho1; [done|]. right. by intros ->.
  - intros o' i' Hne. rewrite Ho2, Ho1; [done| |].
    + destruct Hne as [?|Hne]; [by left|]. right.
      intros ->. apply Hne, list_elem_of_here.
    + destruct Hne as [?|Hne]; [by left|]. right.
      intros Hin. by apply Hne, list_elem_of_further.
Qed.

Lemma update_bias24_spec lr error o L :
  2 ≤ Demo24.layer_base L → well_formed24 L → o ∈ Demo24.output_keys L →
  ∃ L', Demo24.update_bias lr error o L = (L', None) ∧
    same_shape24 L L' ∧ well_formed24 L' ∧
    Demo24.weights L' = Demo24.weights L ∧
    bias24 L' o = bias24 L o + error * lr ∧
    ∀ o', o' ≠ o → bias24 L' o' = bias24 L o'.
Proof.
  intros Hb Hwf Ho. unfold Demo24.update_bias.
  destruct (Z.eqb_spec (error * lr) 0) as [Hz|Hnz].
  { exists L. split_and!; try done. lia. }
  destruct (Hwf o Ho) as ((b & Hbo & Hbb) & _).
  unfold getkey. rewrite Hbo.
  destruct (add_inplace24_ok b (error * lr)) as (b' & -> & Hv & Hbb'); [lia|].
  cbn [fst snd]. eexists. split; [reflexivity|]. split_and!.
  - done.
  - intros o2 Ho2. destruct (Hwf o2 Ho2) as ((b2 & Hb2 & Hbb2) & Hw2).
    split; [|done]. cbn [Demo24.set_biases Demo24.biases].
    destruct (decide (o2 = o)) as [->|Hne].
    + rewrite lookup_insert_eq. exists b'. split; [done|]. cbn. congruence.
    + rewrite lookup_insert_ne by done. by exists b2.
  - done.
  - rewrite (bias24_eq L o b Hbo). rewrite (bias24_eq _ o b'); [done|].
    apply lookup_insert_eq.
  - intros o' Hne. unfold bias24. cbn [Demo24.set_biases Demo24.biases].
    by rewrite lookup_insert_ne.
Qed.

Lemma train_out24_spec inp target lr output o t oq L :
  2 ≤ Demo24.layer_base L → well_formed24 L → o ∈ Demo24.output_keys L →
  NoDup (Demo24.input_keys L) →
  target !! o = Some t → output !! o = Some oq →
  ∃ L', Demo24.train_out inp target lr output o L = (L', None) ∧
    same_shape24 L L' ∧ well_formed24 L' ∧
    bias24 L' o = bias24 L o + (t - Demo24.to_int oq) * lr ∧
    (∀ i, i ∈ Demo24.input_keys L →
       weight24 L' o i
       = weight24 L o i + (t - Demo24.to_int oq) * default 0 (inp !! i) * lr) ∧
    ∀ o', o' ≠ o →
      bias24 L' o' = bias24 L o' ∧ ∀ i', weight24 L' o' i' = weight24 L o' i'.
Proof.
  intros Hb Hwf Ho Hnd Ht Hoq. unfold Demo24.train_out, getkey.
  rewrite Ht, rbind_Ok, Hoq, rbind_Ok.
  destruct (exec24_weights inp lr (t - Demo24.to_int oq) o
              (Demo24.input_keys L) L Hb Hwf Ho)
    as (L1 & -> & Hsh1 & Hwf1 & Hb1 & Hk1 & Ho1); [done|done|].
  cbn [and_then]. destruct Hsh1 as (Hsb & Hsi & Hso).
  destruct (update_bias24_spec lr (t - Demo24.to_int oq) o L1)
    as (L2 & -> & Hsh2 & Hwf2 & Hw2 & Hbo2 & Hbn2).
  { by rewrite Hsb. }
  { done. }
  { by rewrite Hso. }
  assert (Hw : ∀ o' i', weight24 L2 o' i' = weight24 L1 o' i').
  { intros o' i'. unfold weight24. by rewrite Hw2. }
  assert (Hbs : ∀ o', bias24 L1 o' = bias24 L o').
  { intros o'. unfold bias24. by rewrite Hb1. }
  exists L2. split_and!.
  - done.
  - by apply (same_shape24_trans L L1 L2).
  - done.
  - by rewrite Hbo2, Hbs.
  - intros i Hi. rewrite Hw. by apply Hk1.
  - intros o' Hne. split.
    + by rewrite Hbn2, Hbs.
    + intros i'. rewrite Hw. apply Ho1. by left.
Qed.

Lemma exec24_train inp target lr output :
  ∀ os L,
  2 ≤ Demo24.layer_base L → well_formed24 L →
  NoDup (Demo24.input_keys L) → NoDup os →
  (∀ o, o ∈ os → o ∈ Demo24.output_keys L ∧ is_Some (target !! o) ∧
                 is_Some (output !! o)) →
  ∃ L', exec (Demo24.train_out inp target lr output) os L = (L', None) ∧
    same_shape24 L L' ∧ well_formed24 L' ∧
    ∀ o,
      let error := default 0 (target !! o)
                   - default 0 (Demo24.to_int <$> output !! o) in
      (o ∈ os →
         bias24 L' o = bias24 L o + error * lr ∧
         ∀ i, i ∈ Demo24.input_keys L →
           weight24 L' o i
           = weight24 L o i + error * default 0 (inp !! i) * lr) ∧
      (o ∉ os →
         bias24 L' o = bias24 L o ∧ ∀ i, weight24 L' o i = weight24 L o i).
Proof.
  induction os as [|o1 os IH]; intros L Hb Hwf Hndi Hnd Hos.
  { exists L. split_and!; try done. intros o error. split; [|done].
    intros Hi. by apply elem_of_nil in Hi. }
  apply NoDup_cons in Hnd as [Hk Hnd].
  destruct (Hos o1 (list_elem_of_here _ _)) as (Ho1 & [t Ht] & [oq Hoq]).
  destruct (train_out24_spec inp target lr output o1 t oq L Hb Hwf Ho1 Hndi
              Ht Hoq) as (L1 & E1 & Hsh1 & Hwf1 & Hb1 & Hw1 & Hn1).
  destruct Hsh1 as (Hsb & Hsi & Hso).
  destruct (IH L1) as (L2 & E2 & Hsh2 & Hwf2 & H2); try done.
  { by rewrite Hsb. }
  { by rewrite Hsi. }
  { intros o Ho. rewrite Hso. by apply Hos, list_elem_of_further. }
  exists L2. rewrite exec_cons, E1. cbn [and_then]. split_and!.
  - done.
  - by apply (same_shape24_trans L L1 L2).
  - done.
  - intros o. cbv zeta. split.
    + intros Hin. apply elem_of_cons in Hin as [->|Hin].
      * destruct (proj2 (H2 o1) Hk) as (Hbo & Hwo).
        rewrite Ht, Hoq. cbn [default fmap option_fmap option_map].
        rewrite Hbo, Hb1. split; [done|].
        intros i Hi. by rewrite Hwo, Hw1.
      * destruct (proj1 (H2 o) Hin) as (Hbo & Hwo).
        assert (o ≠ o1) as Hne by (by intros ->).
        destruct (Hn1 o Hne) as (Hbn & Hwn).
        rewrite Hbo, Hbn. split; [done|].
        intros i Hi. rewrite Hwo, Hwn; [done|]. by rewrite Hsi.
    + intros Hni. apply not_elem_of_cons in Hni as [Hne Hni].
      destruct (proj2 (H2 o) Hni) as (Hbo & Hwo).
      destruct (Hn1 o Hne) as (Hbn & Hwn).
      rewrite Hbo, Hbn. split; [done|]. intros i. by rewrite Hwo, Hwn.
Qed.

Lemma sum_update {A} (w' w x : A → Z) (c : Z) (keys : list A) :
  (∀ i, i ∈ keys → w' i = w i + c * x i) →
  foldr (λ i acc, w' i * x i + acc) 0 keys
  = foldr (λ i acc, w i * x i + acc) 0 keys
    + c * foldr (λ i acc, x i * x i + acc) 0 keys.
Proof.
  induction keys as [|k keys IH]; intros Hw; [cbn; lia|].
  cbn [foldr]. rewrite (Hw k) by apply list_elem_of_here.
  rewrite IH by (intros i Hi; by apply Hw, list_elem_of_further). lia.
Qed.

(** X13. [train_step] of Demo24 is the integer delta rule.  On a layer
    with at least two output keys, no key listed twice, a bias and a
    weight for every configured key, radix at least 2, and a target
    for every output key, it returns without raising, keeps the keys
    and the radix, and leaves every bias read back as
    [bias + error * lr] and every weight as
    [weight + error * input * lr], where [error] is the target minus
    the output of the forward pass made before the first update and a
    missing input counts as 0.  The layer it leaves is again fit for
    [forward] and [train_step], and on the same input and target its
    error is the old error times [1 - lr * (1 + sum of the squared
    inputs)]. *)
Theorem X13_train_step24_delta_rule L inp target lr :
  2 ≤ Demo24.layer_base L → well_formed24 L →
  (2 ≤ length (Demo24.output_keys L))%nat →
  NoDup (Demo24.output_keys L) → NoDup (Demo24.input_keys L) →
  (∀ o, o ∈ Demo24.output_keys L → is_Some (target !! o)) →
  ∃ L', Demo24.train_step L inp target lr = (L', None) ∧
    same_shape24 L L' ∧ well_formed24 L' ∧
    ∀ o, o ∈ Demo24.output_keys L →
      bias24 L' o = bias24 L o + error24_at L inp target o * lr ∧
      (∀ i, i ∈ Demo24.input_keys L →
         weight24 L' o i
         = weight24 L o i
           + error24_at L inp target o * default 0 (inp !! i) * lr) ∧
      error24_at L' inp target o
      = error24_at L inp target o
        * (1 - lr * (1 + sum_sq inp (Demo24.input_keys L))).
Proof.
  intros Hb Hwf Hlen Hndo Hndi Htg.
  destruct (forward24_general L inp Hb Hwf) as (out & E & Hin & _).
  unfold Demo24.train_step. rewrite E.
  assert (Hpr : Demo24.print_output L out = Ok tt).
  { unfold Demo24.print_output, Demo24.output_key.
    destruct (Demo24.output_keys L) as [|o0 [|o1 os]] eqn:Hos;
      [simpl in Hlen; lia|simpl in Hlen; lia|].
    cbn [lookup list_lookup]. rewrite rbind_Ok. unfold getkey.
    destruct (Hin o0) as (r0 & -> & _); [apply list_elem_of_here|].
    rewrite !rbind_Ok.
    destruct (Hin o1) as (r1 & -> & _);
      [apply list_elem_of_further, list_elem_of_here|].
    by rewrite rbind_Ok. }
  rewrite Hpr.
  destruct (exec24_train inp target lr out (Demo24.output_keys L) L Hb Hwf
              Hndi Hndo) as (L' & -> & Hsh & Hwf' & H').
  { intros o Ho. split_and!; [done|by apply Htg|].
    destruct (Hin o Ho) as (r & -> & _). by eexists. }
  exists L'. split_and!; try done.
  intros o Ho. destruct (proj1 (H' o) Ho) as (Hbo & Hwo).
  destruct (Hin o Ho) as (r & Hr & Hv & _).
  rewrite Hr in Hbo, Hwo. cbn [default fmap option_fmap option_map] in Hbo, Hwo.
  change (id (Demo24.to_int r)) with (Demo24.to_int r) in Hbo, Hwo.
  rewrite Hv in Hbo, Hwo. fold (error24_at L inp target o) in Hbo, Hwo.
  split_and!; [done|done|].
  destruct Hsh as (_ & Hsi & _).
  unfold error24_at at 1. unfold affine24 at 1. rewrite Hsi, Hbo.
  rewrite (sum_update (weight24 L' o) (weight24 L o)
             (λ i, default 0 (inp !! i)) (error24_at L inp target o * lr)).
  2:{ intros i Hi. cbv beta. rewrite Hwo by done. ring. }
  cbv beta. unfold error24_at, affine24, sum_sq. ring.
Qed.

Lemma X13_train_step24_delta_rule_witness :
  ∃ L', Demo24.train_step layer24_twin input3 {[ "x" := 10; "y" := 4 ]} 1
        = (L', None) ∧
    same_shape24 layer24_twin L' ∧ well_formed24 L' ∧
    ∀ o, o ∈ Demo24.output_keys layer24_twin →
      bias24 L' o
      = bias24 layer24_twin o
        + error24_at layer24_twin input3 {[ "x" := 10; "y" := 4 ]} o * 1 ∧
      (∀ i, i ∈ Demo24.input_keys layer24_twin →
         weight24 L' o i
         = weight24 layer24_twin o i
           + error24_at layer24_twin input3 {[ "x" := 10; "y" := 4 ]} o
             * default 0 (input3 !! i) * 1) ∧
      error24_at L' input3 {[ "x" := 10; "y" := 4 ]} o
      = error24_at layer24_twin input3 {[ "x" := 10; "y" := 4 ]} o
        * (1 - 1 * (1 + sum_sq input3 (Demo24.input_keys layer24_twin))).
Proof.
  apply (X13_train_step24_delta_rule layer24_twin input3
           {[ "x" := 10; "y" := 4 ]} 1).
  - cbn. lia.
  - apply well_formed24_twin.
  - cbn. lia.
  - apply (bool_decide_unpack _). by vm_compute.
  - apply (bool_decide_unpack _). by vm_compute.
  - intros o Ho. cbn in Ho.
    apply elem_of_cons in Ho as [->|Ho];
      [|apply list_elem_of_singleton in Ho as ->]; by eexists.
Defined.

(** ** The layer of Demo23: [forward] and [backward] *)

Lemma weight23_eq L o i wo w :
  Demo23.weights L !! o = Some wo → wo !! i = Some w → weight23 L o i = w.
Proof. intros Hwo Hw. unfold weight23. by rewrite Hwo; cbn; rewrite Hw. Qed.

Lemma bias23_eq L o b : Demo23.biases L !! o = Some b → bias23 L o = b.
Proof. intros Hb. unfold bias23. by rewrite Hb. Qed.

Lemma forward23_in_affine L inp o wo keys : ∀ total,
  Demo23.weights L !! o = Some wo →
  (∀ i, i ∈ keys → is_Some (wo !! i) ∧ is_Some (inp !! i)) →
  rfoldM (Demo23.forward_in L inp o) keys total
  = Ok (total + foldr (λ i acc, weight23 L o i * default 0 (inp !! i) + acc)
                      0 keys).
Proof.
  induction keys as [|k keys IH]; intros total Hwo Hk.
  { cbn. f_equal. lia. }
  destruct (Hk k (list_elem_of_here _ _)) as ([w Hw] & [v Hv]).
  rewrite rfoldM_cons, (forward23_in_eq L inp o k total wo Hwo), Hw, Hv.
  rewrite rbind_Ok, IH; [|done|].
  - f_equal. cbn [foldr]. rewrite (weight23_eq L o k wo w Hwo Hw), Hv.
    cbn. lia.
  - intros i Hi. apply Hk. by apply list_elem_of_further.
Qed.

(** One round of the outer loop of [forward] on a layer that holds the
    keys: the reduction, or [ZeroDivisionError] at modulus 0. *)
Lemma forward23_out_eq L inp o out b :
  well_formed23 L → o ∈ Demo23.output_keys L →
  (∀ i, i ∈ Demo23.input_keys L → is_Some (inp !! i)) →
  Demo23.bases L !! o = Some b →
  Demo23.forward_out L inp o out
  = if b =? 0 then Raise ZeroDivisionError
    else Ok (<[o := affine23 L inp o mod b]> out).
Proof.
  intros Hwf Ho Hinp Hb. destruct (Hwf o Ho) as ([b0 Hb0] & wo & Hwo & Hw).
  unfold Demo23.forward_out, getkey. rewrite Hb0, rbind_Ok.
  rewrite (forward23_in_affine L inp o wo _ _ Hwo).
  2:{ intros i Hi. split; [by apply Hw|by apply Hinp]. }
  rewrite rbind_Ok, Hb, rbind_Ok.
  unfold affine23. by rewrite (bias23_eq L o b0 Hb0).
Qed.

Lemma forward23_general L inp :
  well_formed23 L →
  (∀ o, o ∈ Demo23.output_keys L →
        ∃ b, Demo23.bases L !! o = Some b ∧ b ≠ 0) →
  (∀ i, i ∈ Demo23.input_keys L → is_Some (inp !! i)) →
  ∃ out, Demo23.forward L inp = Ok out ∧
    ∀ o, (o ∈ Demo23.output_keys L →
            ∃ b, Demo23.bases L !! o = Some b ∧
                 out !! o = Some (affine23 L inp o mod b)) ∧
         (o ∉ Demo23.output_keys L → out !! o = None).
Proof.
  intros Hwf Hbases Hinp. unfold Demo23.forward.
  assert (Hgen : ∀ os out0,
    (∀ o, o ∈ os → o ∈ Demo23.output_keys L) →
    ∃ out, rfoldM (Demo23.forward_out L inp) os out0 = Ok out ∧
      ∀ o, (o ∈ os →
              ∃ b, Demo23.bases L !! o = Some b ∧
                   out !! o = Some (affine23 L inp o mod b)) ∧
           (o ∉ os → out !! o = out0 !! o)).
  { induction os as [|o1 os IH]; intros out0 Hsub.
    { exists out0. split; [done|]. intros o. split; [|done].
      intros Hin. by apply elem_of_nil in Hin. }
    assert (Ho1 : o1 ∈ Demo23.output_keys L) by apply Hsub, list_elem_of_here.
    destruct (Hbases o1 Ho1) as (b & Hb & Hnz).
    rewrite rfoldM_cons, (forward23_out_eq L inp o1 out0 b Hwf Ho1 Hinp Hb).
    rewrite (proj2 (Z.eqb_neq b 0) Hnz), rbind_Ok.
    destruct (IH (<[o1 := affine23 L inp o1 mod b]> out0))
      as (out & -> & Hout).
    { intros o Ho. apply Hsub. by apply list_elem_of_further. }
    exists out. split; [done|]. intros o. split.
    - intros Hin. destruct (decide (o ∈ os)) as [Hos|Hos].
      + by apply Hout.
      + apply elem_of_cons in Hin as [->|Hin]; [|done].
        exists b. split; [done|].
        rewrite (proj2 (Hout o1) Hos). apply lookup_insert_eq.
    - intros Hni. apply not_elem_of_cons in Hni as [Hne Hni].
      rewrite (proj2 (Hout o) Hni). by apply lookup_insert_ne. }
  destruct (Hgen (Demo23.output_keys L) ∅) as (out & E & Hout); [done|].
  exists out. split; [done|]. intros o. split; [by apply Hout|].
  intros Ho. by rewrite (proj2 (Hout o) Ho).
Qed.

(** X14. [forward] of Demo23 on a layer that holds a bias, a weight and
    a nonzero modulus for its keys, with an input that holds every
    input key, returns a dict with exactly the output keys; the entry
    of an output key is bias plus the sum of weight times input, reduced
    modulo [bases[out_k]] with the sign of the modulus: in [0, base)
    for a positive modulus, in (base, 0] for a negative one. *)
Theorem X14_forward23_affine_mod L inp :
  well_formed23 L →
  (∀ o, o ∈ Demo23.output_keys L →
        ∃ b, Demo23.bases L !! o = Some b ∧ b ≠ 0) →
  (∀ i, i ∈ Demo23.input_keys L → is_Some (inp !! i)) →
  ∃ out, Demo23.forward L inp = Ok out ∧
    (∀ o, o ∈ Demo23.output_keys L →
       ∃ b v, Demo23.bases L !! o = Some b ∧ out !! o = Some v ∧
              v = affine23 L inp o mod b ∧
              (0 < b → 0 ≤ v < b) ∧ (b < 0 → b < v ≤ 0)) ∧
    (∀ o, o ∉ Demo23.output_keys L → out !! o = None).
Proof.
  intros Hwf Hbases Hinp.
  destruct (forward23_general L inp Hwf Hbases Hinp) as (out & E & Hout).
  exists out. split; [done|]. split.
  - intros o Ho. destruct (proj1 (Hout o) Ho) as (b & Hb & Hv).
    destruct (Hbases o Ho) as (b' & Hb' & Hnz).
    assert (b' = b) as -> by congruence.
    exists b, (affine23 L inp o mod b). split_and!; try done.
    + intros Hpos. by apply Z.mod_pos_bound.
    + intros Hneg. by apply Z.mod_neg_bound.
  - intros o Ho. by apply Hout.
Qed.

Lemma well_formed23_layer23 : well_formed23 layer23.
Proof.
  intros o Ho. cbn in Ho. apply list_elem_of_singleton in Ho as ->.
  split; [by eexists|]. eexists. split; [reflexivity|].
  intros i Hi. cbn in Hi.
  apply elem_of_cons in Hi as [->|Hi]; [by eexists|].
  apply list_elem_of_singleton in Hi as ->. by eexists.
Defined.

Lemma X14_forward23_affine_mod_witness :
  ∃ out, Demo23.forward layer23 {[ "a" := 3; "b" := 5 ]} = Ok out ∧
    (∀ o, o ∈ Demo23.output_keys layer23 →
       ∃ b v, Demo23.bases layer23 !! o = Some b ∧ out !! o = Some v ∧
              v = affine23 layer23 {[ "a" := 3; "b" := 5 ]} o mod b ∧
              (0 < b → 0 ≤ v < b) ∧ (b < 0 → b < v ≤ 0)) ∧
    (∀ o, o ∉ Demo23.output_keys layer23 → out !! o = None).
Proof.
  apply (X14_forward23_affine_mod layer23 {[ "a" := 3; "b" := 5 ]}).
  - apply well_formed23_layer23.
  - intros o Ho. cbn in Ho. apply list_elem_of_singleton in Ho as ->.
    exists 7. split; [reflexivity|lia].
  - intros i Hi. cbn in Hi.
    apply elem_of_cons in Hi as [->|Hi]; [by eexists|].
    apply list_elem_of_singleton in Hi as ->. by eexists.
Defined.

(** X15. A modulus 0 makes [forward] of Demo23 raise
    [ZeroDivisionError]: on a layer that holds a bias, a weight and a
    modulus for its keys, with an input that holds every input key,
    [forward] raises it as soon as one output key has modulus 0, and
    returns no partial result. *)
Theorem X15_forward23_zero_modulus L inp o0 :
  well_formed23 L →
  (∀ o, o ∈ Demo23.output_keys L → is_Some (Demo23.bases L !! o)) →
  (∀ i, i ∈ Demo23.input_keys L → is_Some (inp !! i)) →
  o0 ∈ Demo23.output_keys L → Demo23.bases L !! o0 = Some 0 →
  Demo23.forward L inp = Raise ZeroDivisionError.
Proof.
  intros Hwf Hbases Hinp Ho0 Hz. unfold Demo23.forward.
  assert (Hgen : ∀ os out0,
    (∀ o, o ∈ os → o ∈ Demo23.output_keys L) → o0 ∈ os →
    rfoldM (Demo23.forward_out L inp) os out0 = Raise ZeroDivisionError).
  { induction os as [|o1 os IH]; intros out0 Hsub Hin.
    { by apply elem_of_nil in Hin. }
    assert (Ho1 : o1 ∈ Demo23.output_keys L) by apply Hsub, list_elem_of_here.
    destruct (Hbases o1 Ho1) as (b & Hb).
    rewrite rfoldM_cons, (forward23_out_eq L inp o1 out0 b Hwf Ho1 Hinp Hb).
    destruct (Z.eqb_spec b 0) as [->|Hnz]; [done|].
    rewrite rbind_Ok. apply IH.
    - intros o Ho. apply Hsub. by apply list_elem_of_further.
    - apply elem_of_cons in Hin as [->|Hin]; [|done]. congruence. }
  by apply Hgen.
Qed.

Lemma X15_forward23_zero_modulus_witness :
  Demo23.forward (Demo23.mk ["a"; "b"] ["x"] {[ "x" := 0 ]}
                            (Demo23.weights layer23) (Demo23.biases layer23))
                 {[ "a" := 3; "b" := 5 ]}
  = Raise ZeroDivisionError.
Proof.
  apply (X15_forward23_zero_modulus
           (Demo23.mk ["a"; "b"] ["x"] {[ "x" := 0 ]}
                      (Demo23.weights layer23) (Demo23.biases layer23))
           {[ "a" := 3; "b" := 5 ]} "x").
  - apply well_formed23_layer23.
  - intros o Ho. cbn in Ho. apply list_elem_of_singleton in Ho as ->.
    by eexists.
  - intros i Hi. cbn in Hi.
    apply elem_of_cons in Hi as [->|Hi]; [by eexists|].
    apply list_elem_of_singleton in Hi as ->. by eexists.
  - cbn. apply list_elem_of_here.
  - reflexivity.
Defined.

Lemma errors23_ok target output : ∀ os errs,
  (∀ o, o ∈ os → is_Some (target !! o) ∧ is_Some (output !! o)) →
  ∃ errors, rfoldM (Demo23.error_of target output) os errs = Ok errors ∧
    ∀ o, (o ∈ os →
            errors !! o
            = Some (default 0 (target !! o) - default 0 (output !! o))) ∧
         (o ∉ os → errors !! o = errs !! o).
Proof.
  induction os as [|o1 os IH]; intros errs Hos.
  { exists errs. split; [done|]. intros o. split; [|done].
    intros Hin. by apply elem_of_nil in Hin. }
  destruct (Hos o1 (list_elem_of_here _ _)) as ([t Ht] & [v Hv]).
  rewrite rfoldM_cons, error_of_eq, Ht, Hv, rbind_Ok.
  destruct (IH (<[o1 := t - v]> errs)) as (errors & -> & He).
  { intros o Ho. by apply Hos, list_elem_of_further. }
  exists errors. split; [done|]. intros o. split.
  - intros Hin. destruct (decide (o ∈ os)) as [Hin'|Hni].
    + by apply He.
    + apply elem_of_cons in Hin as [->|Hin]; [|done].
      rewrite (proj2 (He o1) Hni), lookup_insert_eq, Ht, Hv. done.
  - intros Hni. apply not_elem_of_cons in Hni as [Hne Hni].
    rewrite (proj2 (He o) Hni). by apply lookup_insert_ne.
Qed.

Lemma same_shape23_trans L1 L2 L3 :
  same_shape23 L1 L2 → same_shape23 L2 L3 → same_shape23 L1 L3.
Proof. intros (?&?&?) (?&?&?). split_and!; congruence. Qed.

Lemma update_bias23_spec lr errors o er L :
  well_formed23 L → o ∈ Demo23.output_keys L → errors !! o = Some er →
  ∃ L', Demo23.update_bias lr errors o L = Ok L' ∧
    same_shape23 L L' ∧ well_formed23 L' ∧
    Demo23.weights L' = Demo23.weights L ∧
    bias23 L' o = bias23 L o + lr * er ∧
    ∀ o', o' ≠ o → Demo23.biases L' !! o' = Demo23.biases L !! o'.
Proof.
  intros Hwf Ho Her. destruct (Hwf o Ho) as ([b Hb] & _).
  unfold Demo23.update_bias, getkey. rewrite Hb, rbind_Ok, Her, rbind_Ok.
  eexists. split; [reflexivity|]. split_and!.
  - done.
  - intros o2 Ho2. destruct (Hwf o2 Ho2) as (Hb2 & Hw2). split; [|done].
    cbn [Demo23.set_biases Demo23.biases].
    destruct (decide (o2 = o)) as [->|Hne].
    + rewrite lookup_insert_eq. by eexists.
    + by rewrite lookup_insert_ne.
  - done.
  - rewrite (bias23_eq L o b Hb). unfold bias23.
    cbn [Demo23.set_biases Demo23.biases]. by rewrite lookup_insert_eq.
  - intros o' Hne. cbn [Demo23.set_biases Demo23.biases].
    by rewrite lookup_insert_ne.
Qed.

Lemma update_weight23_spec lr errors inp o i er v L :
  well_formed23 L → o ∈ Demo23.output_keys L → i ∈ Demo23.input_keys L →
  errors !! o = Some er → inp !! i = Some v →
  ∃ L', Demo23.update_weight lr errors inp o i L = Ok L' ∧
    same_shape23 L L' ∧ well_formed23 L' ∧
    Demo23.biases L' = Demo23.biases L ∧
    weight23 L' o i = weight23 L o i + lr * er * v ∧
    (∀ o' i', o' ≠ o ∨ i' ≠ i → weight23 L' o' i' = weight23 L o' i') ∧
    ∀ o', o' ≠ o → Demo23.weights L' !! o' = Demo23.weights L !! o'.
Proof.
  intros Hwf Ho Hi Her Hv. destruct (Hwf o Ho) as (_ & wo & Hwo & Hw).
  destruct (Hw i Hi) as [w Hwi].
  unfold Demo23.update_weight, getkey.
  rewrite Hwo, rbind_Ok, Hwi, rbind_Ok, Her, rbind_Ok, Hv, rbind_Ok.
  eexists. split; [reflexivity|]. split_and!.
  - done.
  - intros o2 Ho2. destruct (Hwf o2 Ho2) as (Hb2 & wo2 & Hwo2 & Hw2).
    split; [done|]. cbn [Demo23.set_weights Demo23.weights].
    destruct (decide (o2 = o)) as [->|Hne].
    + rewrite lookup_insert_eq. eexists. split; [done|].
      intros i2 Hi2. destruct (decide (i2 = i)) as [->|Hni].
      * rewrite lookup_insert_eq. by eexists.
      * rewrite lookup_insert_ne by done. apply Hw. exact Hi2.
    + rewrite lookup_insert_ne by done. by exists wo2.
  - done.
  - rewrite (weight23_eq L o i wo w Hwo Hwi).
    apply (weight23_eq _ o i (<[i := w + lr * er * v]> wo)).
    + cbn. apply lookup_insert_eq.
    + apply lookup_insert_eq.
  - intros o' i' Hne. unfold weight23.
    cbn [Demo23.set_weights Demo23.weights].
    destruct (decide (o' = o)) as [->|Hno].
    + rewrite lookup_insert_eq, Hwo. cbn.
      destruct Hne as [Hne|Hne]; [done|]. by rewrite lookup_insert_ne.
    + by rewrite lookup_insert_ne.
  - intros o' Hne. cbn [Demo23.set_weights Demo23.weights].
    by rewrite lookup_insert_ne.
Qed.

Lemma exec23_weights lr errors inp o er : ∀ keys L,
  well_formed23 L → o ∈ Demo23.output_keys L → errors !! o = Some er →
  (∀ i, i ∈ keys → i ∈ Demo23.input_keys L ∧ is_Some (inp !! i)) →
  NoDup keys →
  ∃ L', exec (λ in_k L2,
                atomic (Demo23.update_weight lr errors inp o in_k L2) L2)
             keys L = (L', None) ∧
    same_shape23 L L' ∧ well_formed23 L' ∧
    Demo23.biases L' = Demo23.biases L ∧
    (∀ i, i ∈ keys →
       weight23 L' o i = weight23 L o i + lr * er * default 0 (inp !! i)) ∧
    (∀ o' i', o' ≠ o ∨ i' ∉ keys → weight23 L' o' i' = weight23 L o' i') ∧
    ∀ o', o' ≠ o → Demo23.weights L' !! o' = Demo23.weights L !! o'.
Proof.
  induction keys as [|k keys IH]; intros L Hwf Ho Her Hsub Hnd.
  { exists L. split_and!; try done. intros i Hi. by apply elem_of_nil in Hi. }
  apply NoDup_cons in Hnd as [Hk Hnd].
  destruct (Hsub k (list_elem_of_here _ _)) as (Hki & [v Hv]).
  destruct (update_weight23_spec lr errors inp o k er v L Hwf Ho Hki Her Hv)
    as (L1 & E1 & Hsh1 & Hwf1 & Hb1 & Hk1 & Ho1 & Hn1).
  destruct Hsh1 as (Hsi & Hso & Hsb).
  destruct (IH L1) as (L2 & E2 & Hsh2 & Hwf2 & Hb2 & Hk2 & Ho2 & Hn2);
    try done.
  { by rewrite Hso. }
  { intros i Hi. rewrite Hsi. by apply Hsub, list_elem_of_further. }
  exists L2. rewrite exec_cons, E1. cbn [atomic and_then]. split_and!.
  - done.
  - by apply (same_shape23_trans L L1 L2).
  - done.
  - congruence.
  - intros i Hi. apply elem_of_cons in Hi as [->|Hi].
    + rewrite Ho2 by (by right). by rewrite Hk1, Hv.
    + rewrite Hk2 by done. rewrite Ho1; [done|]. right. by intros ->.
  - intros o' i' Hne. rewrite Ho2, Ho1; [done| |].
    + destruct Hne as [?|Hne]; [by left|]. right.
      intros ->. apply Hne, list_elem_of_here.
    + destruct Hne as [?|Hne]; [by left|]. right.
      intros Hin. by apply Hne, list_elem_of_further.
  - intros o' Hne. by rewrite Hn2, Hn1.
Qed.

Lemma exec23_backward lr errors inp : ∀ os L,
  well_formed23 L → NoDup (Demo23.input_keys L) → NoDup os →
  (∀ o, o ∈ os → o ∈ Demo23.output_keys L ∧ is_Some (errors !! o)) →
  (∀ i, i ∈ Demo23.input_keys L → is_Some (inp !! i)) →
  ∃ L', exec (λ out_k L1,
                and_then
                  (atomic (Demo23.update_bias lr errors out_k L1) L1)
                  (exec (λ in_k L2,
                           atomic (Demo23.update_weight lr errors inp
                                     out_k in_k L2) L2)
                        (Demo23.input_keys L1)))
             os L = (L', None) ∧
    same_shape23 L L' ∧ well_formed23 L' ∧
    ∀ o,
      (o ∈ os →
         bias23 L' o = bias23 L o + lr * default 0 (errors !! o) ∧
         ∀ i, i ∈ Demo23.input_keys L →
           weight23 L' o i
           = weight23 L o i
             + lr * default 0 (errors !! o) * default 0 (inp !! i)) ∧
      (o ∉ os →
         Demo23.biases L' !! o = Demo23.biases L !! o ∧
         Demo23.weights L' !! o = Demo23.weights L !! o).
Proof.
  induction os as [|o1 os IH]; intros L Hwf Hndi Hnd Hos Hinp.
  { exists L. split_and!; try done. intros o. split; [|done].
    intros Hi. by apply elem_of_nil in Hi. }
  apply NoDup_cons in Hnd as [Hk Hnd].
  destruct (Hos o1 (list_elem_of_here _ _)) as (Ho1 & [er Her]).
  destruct (update_bias23_spec lr errors o1 er L Hwf Ho1 Her)
    as (L1 & E1 & (Hsi1 & Hso1 & Hsb1) & Hwf1 & Hw1 & Hb1 & Hbn1).
  destruct (exec23_weights lr errors inp o1 er (Demo23.input_keys L) L1)
    as (L2 & E2 & (Hsi2 & Hso2 & Hsb2) & Hwf2 & Hb2 & Hk2 & Ho2 & Hn2);
    try done.
  { by rewrite Hso1. }
  { intros i Hi. split; [by rewrite Hsi1|]. by apply Hinp. }
  destruct (IH L2) as (L3 & E3 & Hsh3 & Hwf3 & H3); try done.
  { by rewrite Hsi2, Hsi1. }
  { intros o Ho. rewrite Hso2, Hso1. by apply Hos, list_elem_of_further. }
  { intros i Hi. apply Hinp. by rewrite <- Hsi1, <- Hsi2. }
  exists L3. rewrite exec_cons, E1. cbn [atomic and_then]. rewrite E2.
  cbn [and_then]. split_and!.
  - done.
  - apply (same_shape23_trans L L2 L3); [|done]. split_and!; congruence.
  - done.
  - assert (Hw12 : ∀ o i, weight23 L1 o i = weight23 L o i).
    { intros o i. unfold weight23. by rewrite Hw1. }
    assert (Hb12 : ∀ o, bias23 L2 o = bias23 L1 o).
    { intros o. unfold bias23. by rewrite Hb2. }
    intros o. split.
    + intros Hin. apply elem_of_cons in Hin as [->|Hin].
      * destruct (proj2 (H3 o1) Hk) as (Hbo & Hwo).
        rewrite Her. cbn [default]. split.
        -- unfold bias23 at 1. rewrite Hbo. fold (bias23 L2 o1).
           by rewrite Hb12, Hb1.
        -- intros i Hi. unfold weight23 at 1. rewrite Hwo.
           fold (weight23 L2 o1 i). rewrite Hk2 by done.
           by rewrite Hw12.
      * destruct (proj1 (H3 o) Hin) as (Hbo & Hwo).
        assert (o ≠ o1) as Hne by (by intros ->).
        split.
        -- rewrite Hbo, Hb12. unfold bias23. by rewrite Hbn1.
        -- intros i Hi. rewrite Hwo by (by rewrite Hsi2, Hsi1).
           rewrite Ho2 by (by left). by rewrite Hw12.
    + intros Hni. apply not_elem_of_cons in Hni as [Hne Hni].
      destruct (proj2 (H3 o) Hni) as (Hbo & Hwo). split.
      * rewrite Hbo, Hb2. by apply Hbn1.
      * rewrite Hwo, Hn2 by done. by rewrite Hw1.
Qed.

(** [backward] on a layer whose dicts are values (no dict reached
    under two names): on a layer that holds a bias and a weight for its
    keys, no key listed twice, with target and output holding every
    output key and the input every input key, it returns without
    raising and leaves [bias + lr * error] in every bias and
    [weight + lr * error * input] in every weight. *)
Lemma backward23_value_delta_rule L inp target output lr :
  well_formed23 L →
  NoDup (Demo23.output_keys L) → NoDup (Demo23.input_keys L) →
  (∀ o, o ∈ Demo23.output_keys L →
        is_Some (target !! o) ∧ is_Some (output !! o)) →
  (∀ i, i ∈ Demo23.input_keys L → is_Some (inp !! i)) →
  ∃ L', Demo23.backward L inp target output lr = (L', None) ∧
    same_shape23 L L' ∧ well_formed23 L' ∧
    (∀ o, o ∈ Demo23.output_keys L →
       let error := default 0 (target !! o) - default 0 (output !! o) in
       bias23 L' o = bias23 L o + lr * error ∧
       (∀ i, i ∈ Demo23.input_keys L →
          weight23 L' o i
          = weight23 L o i + lr * error * default 0 (inp !! i)) ∧
       affine23 L' inp o
       = affine23 L inp o
         + lr * error * (1 + sum_sq inp (Demo23.input_keys L))) ∧
    (∀ o, o ∉ Demo23.output_keys L →
       Demo23.biases L' !! o = Demo23.biases L !! o ∧
       Demo23.weights L' !! o = Demo23.weights L !! o).
Proof.
  intros Hwf Hndo Hndi Hto Hinp. unfold Demo23.backward.
  destruct (errors23_ok target output (Demo23.output_keys L) ∅ Hto)
    as (errors & -> & He).
  destruct (exec23_backward lr errors inp (Demo23.output_keys L) L Hwf
              Hndi Hndo) as (L' & -> & Hsh & Hwf' & H'); [|done|].
  { intros o Ho. split; [done|]. rewrite (proj1 (He o) Ho). by eexists. }
  exists L'. split_and!; try done.
  - intros o Ho. cbv zeta. destruct (proj1 (H' o) Ho) as (Hb & Hw).
    rewrite (proj1 (He o) Ho) in Hb, Hw. cbn [default from_option] in Hb, Hw.
    change (id (?x - ?y)) with (x - y) in Hb, Hw.
    split_and!; [done|done|].
    destruct Hsh as (Hsi & _). unfold affine23. rewrite Hsi, Hb.
    rewrite (sum_update (weight23 L' o) (weight23 L o)
               (λ i, default 0 (inp !! i))
               (lr * (default 0 (target !! o) - default 0 (output !! o)))).
    2:{ intros i Hi. cbv beta. rewrite Hw by done. ring. }
    cbv beta. unfold sum_sq. ring.
  - intros o Ho. by apply H'.
Qed.

Lemma update_bias23_id lr errors o er L :
  well_formed23 L → o ∈ Demo23.output_keys L → errors !! o = Some er →
  lr * er = 0 → Demo23.update_bias lr errors o L = Ok L.
Proof.
  intros Hwf Ho Her Hz. destruct (Hwf o Ho) as ([b Hb] & _).
  unfold Demo23.update_bias, getkey. rewrite Hb, rbind_Ok, Her, rbind_Ok.
  rewrite Hz, Z.add_0_r, insert_id by done. by destruct L.
Qed.

Lemma update_weight23_id lr errors inp o i er L :
  well_formed23 L → o ∈ Demo23.output_keys L → i ∈ Demo23.input_keys L →
  errors !! o = Some er → is_Some (inp !! i) → lr * er = 0 →
  Demo23.update_weight lr errors inp o i L = Ok L.
Proof.
  intros Hwf Ho Hi Her [v Hv] Hz. destruct (Hwf o Ho) as (_ & wo & Hwo & Hw).
  destruct (Hw i Hi) as [w Hwi].
  unfold Demo23.update_weight, getkey.
  rewrite Hwo, rbind_Ok, Hwi, rbind_Ok, Her, rbind_Ok, Hv, rbind_Ok.
  rewrite Hz, Z.mul_0_l, Z.add_0_r.
  rewrite (insert_id wo i w Hwi), (insert_id _ o wo Hwo). by destruct L.
Qed.

(** X17. [backward] of Demo23 has the trained layer as a fixed point:
    when [lr * (target - output)] is 0 at every output key (the output
    meets the target, or the learning rate is 0), on a layer that holds
    its keys and with an input that holds every input key, it returns
    without raising and the layer is exactly as before, key lists
    with repeated keys included. *)
Theorem X17_backward23_fixed_point L inp target output lr :
  well_formed23 L →
  (∀ o, o ∈ Demo23.output_keys L →
        ∃ t v, target !! o = Some t ∧ output !! o = Some v ∧
               lr * (t - v) = 0) →
  (∀ i, i ∈ Demo23.input_keys L → is_Some (inp !! i)) →
  Demo23.backward L inp target output lr = (L, None).
Proof.
  intros Hwf Hto Hinp. unfold Demo23.backward.
  destruct (errors23_ok target output (Demo23.output_keys L) ∅)
    as (errors & -> & He).
  { intros o Ho. destruct (Hto o Ho) as (t & v & -> & -> & _).
    split; by eexists. }
  assert (Her : ∀ o, o ∈ Demo23.output_keys L →
                     ∃ er, errors !! o = Some er ∧ lr * er = 0).
  { intros o Ho. destruct (Hto o Ho) as (t & v & Ht & Hv & Hz).
    exists (t - v). split; [|done].
    rewrite (proj1 (He o) Ho), Ht, Hv. done. }
  assert (Hin : ∀ o keys, o ∈ Demo23.output_keys L →
    (∀ i, i ∈ keys → i ∈ Demo23.input_keys L) →
    exec (λ in_k L2,
            atomic (Demo23.update_weight lr errors inp o in_k L2) L2)
         keys L = (L, None)).
  { intros o keys Ho. induction keys as [|k keys IH]; intros Hsub; [done|].
    destruct (Her o Ho) as (er & Heo & Hz).
    rewrite exec_cons.
    rewrite (update_weight23_id lr errors inp o k er L Hwf Ho); try done.
    - cbn [atomic and_then]. apply IH.
      intros i Hi. by apply Hsub, list_elem_of_further.
    - apply Hsub, list_elem_of_here.
    - apply Hinp, Hsub, list_elem_of_here. }
  assert (Hout : ∀ os, (∀ o, o ∈ os → o ∈ Demo23.output_keys L) →
    exec (λ out_k L1,
            and_then
              (atomic (Demo23.update_bias lr errors out_k L1) L1)
              (exec (λ in_k L2,
                       atomic (Demo23.update_weight lr errors inp
                                 out_k in_k L2) L2)
                    (Demo23.input_keys L1)))
         os L = (L, None)).
  { induction os as [|o1 os IH]; intros Hsub; [done|].
    assert (Ho1 : o1 ∈ Demo23.output_keys L) by apply Hsub, list_elem_of_here.
    destruct (Her o1 Ho1) as (er & Heo & Hz).
    rewrite exec_cons.
    rewrite (update_bias23_id lr errors o1 er L Hwf Ho1 Heo Hz).
    cbn [atomic and_then]. rewrite (Hin o1 _ Ho1) by done.
    cbn [and_then]. apply IH.
    intros o Ho. by apply Hsub, list_elem_of_further. }
  by apply Hout.
Qed.

Lemma X17_backward23_fixed_point_witness :
  Demo23.backward layer23 {[ "a" := 3; "b" := 5 ]} {[ "x" := 1 ]}
                  {[ "x" := 1 ]} 4
  = (layer23, None).
Proof.
  apply (X17_backward23_fixed_point layer23 {[ "a" := 3; "b" := 5 ]}
           {[ "x" := 1 ]} {[ "x" := 1 ]} 4).
  - apply well_formed23_layer23.
  - intros o Ho. cbn in Ho. apply list_elem_of_singleton in Ho as ->.
    exists 1, 1. split_and!; [reflexivity|reflexivity|lia].
  - intros i Hi. cbn in Hi.
    apply elem_of_cons in Hi as [->|Hi]; [by eexists|].
    apply list_elem_of_singleton in Hi as ->. by eexists.
Defined.

(** ** The digit range of the carry engine (Demo28) *)

Lemma in_range_add_self s o :
  in_range s → in_range o → in_range (add_self s o).
Proof.
  intros Hs Ho fl. unfold add_self. rewrite getattr_with_fields.
  specialize (Hs fl). specialize (Ho fl). unfold add_keep.
  destruct (Z.ltb_spec 10 (getattr s fl + getattr o fl)); lia.
Qed.

Lemma in_range_add_carry s o : in_range (add_carry_cell s o).
Proof.
  intros fl. unfold add_carry_cell. rewrite getattr_with_fields.
  unfold add_carry. destruct (10 <? _); lia.
Qed.

Lemma in_range_set_left q l : in_range q → in_range (set_left q l).
Proof. intros Hq fl. rewrite getattr_set_left. apply Hq. Qed.

Lemma in_range_scale_self s k :
  in_range s → 0 ≤ k → in_range (scale_self s k).
Proof.
  intros Hs Hk fl. unfold scale_self. rewrite getattr_with_fields.
  specialize (Hs fl). unfold scale_keep.
  destruct (Z.ltb_spec 10 (getattr s fl * k)).
  - pose proof (Z.mod_pos_bound (getattr s fl * k) 10 ltac:(lia)). lia.
  - nia.
Qed.

Lemma in_range_scale_carry s k :
  in_range s → 0 ≤ k ≤ 10 → in_range (scale_carry_cell s k).
Proof.
  intros Hs Hk fl. unfold scale_carry_cell. rewrite getattr_with_fields.
  specialize (Hs fl). unfold scale_carry.
  destruct (Z.ltb_spec 10 (getattr s fl * k)); [|lia].
  assert (getattr s fl * k ≤ 100) by nia.
  pose proof (Z.div_mod (getattr s fl * k) 10 ltac:(lia)).
  pose proof (Z.mod_pos_bound (getattr s fl * k) 10 ltac:(lia)). lia.
Qed.

(** The cells of a store in loop form: the rewritten cell, the carry
    cell, and the cells of the store before. *)
Lemma loop_heap_lookup h x sc cc l q :
  (x < length h)%nat → loop_heap h x sc cc !! l = Some q →
  l = x ∧ q = sc ∨ l = length h ∧ q = cc ∨
  l ≠ x ∧ (l < length h)%nat ∧ h !! l = Some q.
Proof.
  intros Hx Hq. destruct (decide (l = x)) as [->|Hne].
  { left. rewrite loop_heap_self in Hq by done. split; congruence. }
  destruct (decide (l = length h)) as [->|Hnl].
  { right. left. rewrite loop_heap_carry in Hq. split; congruence. }
  right. right.
  assert (l < length (loop_heap h x sc cc))%nat by by eapply lookup_lt_Some.
  rewrite loop_heap_length in *.
  rewrite loop_heap_other in Hq by lia. split_and!; [done|lia|done].
Qed.

Lemma add_range ls : ∀ h x n y s o h',
  chain h x ls → h !! x = Some s → h !! y = Some o → (length ls ≤ n)%nat →
  cells_in_range h ls → in_range o →
  add n h x y = Some h' →
  ∀ l q', h' !! l = Some q' → l ∈ ls ∨ (length h ≤ l)%nat → in_range q'.
Proof.
  induction ls as [|x0 ls IH]; intros h x n y s o h' Hc Hs Ho Hn Hr Hor Hadd.
  { inversion Hc. }
  assert (x0 = x) as -> by by inversion Hc.
  assert (Hx : (x < length h)%nat) by by eapply lookup_lt_Some.
  assert (Hsr : in_range s) by (eapply Hr; [apply list_elem_of_here|done]).
  destruct n as [|n]; [simpl in Hn; lia|].
  rewrite (add_unfold n h x y s o Hs Ho) in Hadd.
  assert (Hbase : ∀ sc, in_range sc → ∀ l q',
    loop_heap h x sc (add_carry_cell s o) !! l = Some q' →
    l ∈ x :: ls ∨ (length h ≤ l)%nat → in_range q').
  { intros sc Hsc l q' Hq Hl.
    apply loop_heap_lookup in Hq as [[-> ->]|[[-> ->]|(Hne & Hlt & Hq)]];
      [done|apply in_range_add_carry| |done].
    destruct Hl as [Hl|Hl]; [|lia].
    apply elem_of_cons in Hl as [->|Hl]; [done|]. by eapply Hr;
      [apply list_elem_of_further|]. }
  destruct (add_over s o) eqn:Hov;
    [|injection Hadd as <-;
      exact (Hbase _ (in_range_add_self s o Hsr Hor))].
  destruct (QN.left s) as [l1|] eqn:Hl1;
    [|injection Hadd as <-;
      exact (Hbase _ (in_range_set_left _ _ (in_range_add_self s o Hsr Hor)))].
  inversion Hc as [? q Hq Hl|? q l1' ls0 Hq Hl Hc1]; subst;
    assert (q = s) by congruence; subst q; [congruence|].
  assert (l1' = l1) as -> by congruence.
  pose proof (chain_acyclic _ _ _ Hc) as Hacy.
  pose proof (chain_valid _ _ _ Hc1) as Hval.
  set (h1 := loop_heap h x (add_self s o) (add_carry_cell s o)) in *.
  assert (Hfr1 : ∀ l', l' ∈ ls → h1 !! l' = h !! l').
  { intros l' Hin. apply loop_heap_other; [|by apply Hval].
    intros ->. by apply Hacy. }
  assert (Hc1' : chain h1 l1 ls) by by eapply chain_frame.
  assert (is_Some (h1 !! l1)) as [s1 Hs1].
  { rewrite Hfr1 by by eapply chain_mem_head.
    apply lookup_lt_is_Some, Hval. by eapply chain_mem_head. }
  assert (Hlen1 : length h1 = S (length h)) by apply loop_heap_length.
  assert (Hn1 : (length ls ≤ n)%nat) by (simpl in Hn; lia).
  assert (Hr1 : cells_in_range h1 ls).
  { intros l c Hin Hlc. rewrite Hfr1 in Hlc by done.
    eapply Hr; [by apply list_elem_of_further|done]. }
  pose proof (IH h1 l1 n (length h) s1 (add_carry_cell s o) h' Hc1' Hs1
                (loop_heap_carry _ _ _ _) Hn1 Hr1 (in_range_add_carry s o)
                Hadd) as Hrec.
  destruct (add_chain ls h1 l1 n (length h) s1 (add_carry_cell s o) Hc1' Hs1
              (loop_heap_carry _ _ _ _) Hn1)
    as (h'' & ls' & Hadd' & _ & _ & Hfr' & _).
  assert (h'' = h') as -> by congruence.
  intros l q' Hlq Hlin.
  destruct (decide (l ∈ ls)) as [Hin|Hni]; [by eapply Hrec; [|left]|].
  destruct (decide (length h1 ≤ l)%nat) as [Hge|Hlt];
    [by eapply Hrec; [|right]|].
  rewrite Hfr' in Hlq by (done || lia).
  apply loop_heap_lookup in Hlq as [[-> ->]|[[-> ->]|(Hne & Hlt' & Hlq)]];
    [by apply in_range_add_self|apply in_range_add_carry| |done].
  destruct Hlin as [Hlin|Hlin]; [|lia].
  apply elem_of_cons in Hlin as [->|Hlin]; done.
Qed.

Lemma left_scale_self s k : QN.left (scale_self s k) = QN.left s.
Proof. unfold scale_self. apply left_with_fields. Qed.

(** X18. The carry engine of Demo28 keeps the digit range 0..10 along
    a left-chain.  When every coefficient of every cell of the chain of
    [x] is within 0..10, [add(x, y)] with the coefficients of [y] within
    0..10, and [scale_by_int(x, k)] with [0 <= k <= 10], return and
    leave a chain at most one cell longer whose coefficients are all
    within 0..10 again (10 itself included: the threshold is
    [val > 10]). *)
Theorem X18_digit_range ls h x s n :
  chain h x ls → h !! x = Some s → (length ls ≤ n)%nat →
  cells_in_range h ls →
  (∀ y o, h !! y = Some o → in_range o →
     ∃ h' ls', add n h x y = Some h' ∧ chain h' x ls' ∧
       cells_in_range h' ls' ∧ (length ls' ≤ S (length ls))%nat) ∧
  (∀ k, 0 ≤ k ≤ 10 →
     ∃ h' ls', scale_by_int n h x k = Some h' ∧ chain h' x ls' ∧
       cells_in_range h' ls' ∧ (length ls' ≤ S (length ls))%nat).
Proof.
  intros Hc Hs Hn Hr.
  assert (Hx : (x < length h)%nat) by by eapply lookup_lt_Some.
  assert (Hsr : in_range s) by (eapply Hr; [by eapply chain_mem_head|done]).
  split.
  - intros y o Ho Hor.
    destruct (add_chain ls h x n y s o Hc Hs Ho Hn)
      as (h' & ls' & Hadd & Hc' & _ & _ & _ & Hsh & _).
    exists h', ls'. split_and!; [done|done| |].
    + intros l q Hin Hq.
      eapply (add_range ls h x n y s o h'); try done.
      destruct Hsh as [->|(c & -> & Hge)]; [by left|].
      apply elem_of_app in Hin as [Hin|Hin]; [by left|].
      apply list_elem_of_singleton in Hin as ->. by right.
    + destruct Hsh as [->|(c & -> & Hge)]; [lia|].
      rewrite length_app. simpl. lia.
  - intros k Hk. rewrite (scale_unfold n h x k s Hs).
    set (cc := scale_carry_cell s k).
    assert (Hcc : in_range cc) by by apply in_range_scale_carry.
    assert (Hsc : in_range (scale_self s k))
      by (apply in_range_scale_self; [done|lia]).
    set (h1 := loop_heap h x (scale_self s k) cc).
    assert (Hx1 : h1 !! x = Some (scale_self s k)) by by apply loop_heap_self.
    assert (Hlen1 : length h1 = S (length h)) by apply loop_heap_length.
    inversion Hc as [? q Hq Hl|? q l1 ls0 Hq Hl Hc1]; subst;
      assert (q = s) by congruence; subst q; rewrite Hl.
    + destruct (scale_over s k).
      * eexists _, [x; length h]. split_and!; [done| | |simpl; lia].
        -- eapply chain_step; [by apply loop_heap_self| |].
           ++ by rewrite left_set_left.
           ++ eapply chain_end; [apply loop_heap_carry|done].
        -- intros l q Hin Hlq.
           apply loop_heap_lookup in Hlq
             as [[-> ->]|[[-> ->]|(Hne & Hlt & Hlq)]]; [|done| |done].
           ++ by apply in_range_set_left.
           ++ apply elem_of_cons in Hin as [->|Hin]; [done|].
              apply list_elem_of_singleton in Hin. lia.
      * exists h1, [x]. split_and!; [done| | |simpl; lia].
        -- eapply chain_end; [done|]. by rewrite left_scale_self.
        -- intros l q Hin Hlq. apply list_elem_of_singleton in Hin as ->.
           rewrite Hx1 in Hlq. by injection Hlq as <-.
    + pose proof (chain_acyclic _ _ _ Hc) as Hacy.
      pose proof (chain_valid _ _ _ Hc1) as Hval.
      assert (Hfr1 : ∀ l', l' ∈ ls0 → h1 !! l' = h !! l').
      { intros l' Hin. apply loop_heap_other; [|by apply Hval].
        intros ->. by apply Hacy. }
      assert (Hc1' : chain h1 l1 ls0) by by eapply chain_frame.
      assert (Hr1 : cells_in_range h1 ls0).
      { intros l c Hin Hlc. rewrite Hfr1 in Hlc by done.
        eapply Hr; [by apply list_elem_of_further|done]. }
      destruct (scale_over s k).
      * assert (is_Some (h1 !! l1)) as [s1 Hs1].
        { rewrite Hfr1 by by eapply chain_mem_head.
          apply lookup_lt_is_Some, Hval. by eapply chain_mem_head. }
        assert (Hn1 : (length ls0 ≤ n)%nat) by (simpl in Hn; lia).
        destruct (add_chain ls0 h1 l1 n (length h) s1 cc Hc1' Hs1
                    (loop_heap_carry _ _ _ _) Hn1)
          as (h' & ls' & Hadd & Hc' & _ & Hfr' & _ & Hsh & _).
        assert (Hx' : h' !! x = Some (scale_self s k)).
        { rewrite Hfr'; [done|lia|done]. }
        exists h', (x :: ls'). split_and!; [done| | |].
        -- eapply chain_step; [done| |done]. by rewrite left_scale_self.
        -- intros l q Hin Hlq. apply elem_of_cons in Hin as [->|Hin].
           { rewrite Hx' in Hlq. by injection Hlq as <-. }
           eapply (add_range ls0 h1 l1 n (length h) s1 cc h'); try done.
           { apply loop_heap_carry. }
           destruct Hsh as [->|(c & -> & Hge)]; [by left|].
           apply elem_of_app in Hin as [Hin|Hin]; [by left|].
           apply list_elem_of_singleton in Hin as ->. right. lia.
        -- destruct Hsh as [->|(c & -> & Hge)]; [simpl; lia|].
           simpl. rewrite length_app. simpl. lia.
      * exists h1, (x :: ls0). split_and!; [done| | |simpl; lia].
        -- eapply chain_step; [done| |done]. by rewrite left_scale_self.
        -- intros l q Hin Hlq. apply elem_of_cons in Hin as [->|Hin].
           { rewrite Hx1 in Hlq. by injection Hlq as <-. }
           by eapply Hr1.
Qed.

Lemma X18_digit_range_witness :
  let h := [cell_a 10 (Some 1%nat); cell_a 10 None; cell_a 9 None] in
  (∀ y o, h !! y = Some o → in_range o →
     ∃ h' ls', add 2 h 0%nat y = Some h' ∧ chain h' 0%nat ls' ∧
       cells_in_range h' ls' ∧ (length ls' ≤ 3)%nat) ∧
  (∀ k, 0 ≤ k ≤ 10 →
     ∃ h' ls', scale_by_int 2 h 0%nat k = Some h' ∧ chain h' 0%nat ls' ∧
       cells_in_range h' ls' ∧ (length ls' ≤ 3)%nat).
Proof.
  apply (X18_digit_range [0%nat; 1%nat]
           [cell_a 10 (Some 1%nat); cell_a 10 None; cell_a 9 None] 0%nat
           (cell_a 10 (Some 1%nat)) 2).
  - eapply chain_step; [reflexivity..|]. by eapply chain_end.
  - reflexivity.
  - simpl. lia.
  - intros l q Hin Hq fl.
    apply elem_of_cons in Hin as [->|Hin];
      [|apply list_elem_of_singleton in Hin as ->];
      injection Hq as <-; destruct fl; cbn; lia.
Defined.

(** ** [forward] of Demo28 on any layer *)

Lemma assoc_setitem_eq {V} (d : list (string * V)) k v :
  assoc k (setitem d k v) = Some v.
Proof.
  induction d as [|[k' v'] d IH]; cbn; [by rewrite String.eqb_refl|].
  destruct (String.eqb k k') eqn:E; cbn; rewrite E; [done|exact IH].
Qed.

Lemma assoc_setitem_ne {V} (d : list (string * V)) k k' v :
  k' ≠ k → assoc k' (setitem d k v) = assoc k' d.
Proof.
  intros Hne. induction d as [|[k1 v1] d IH]; cbn.
  - by rewrite (proj2 (String.eqb_neq k' k)).
  - destruct (String.eqb k k1) eqn:E; cbn.
    + apply String.eqb_eq in E. subst k1.
      by rewrite (proj2 (String.eqb_neq k' k)).
    + destruct (String.eqb k' k1); [done|exact IH].
Qed.

Lemma forward_term_spec fuel inp h0 h sum ls c i qn q :
  pres h0 h → (length h0 ≤ sum)%nat → chain h sum ls →
  (∀ l, l ∈ ls → (length h0 ≤ l)%nat) → h !! sum = Some c →
  h0 !! qn = Some q → (length ls ≤ fuel)%nat → (1 ≤ fuel)%nat →
  ∃ h' ls' c', forward_term fuel inp sum (i, qn) h = Ok h' ∧
    pres h0 h' ∧ chain h' sum ls' ∧
    (∀ l, l ∈ ls' → (length h0 ≤ l)%nat) ∧
    (length ls' ≤ S (length ls))%nat ∧ h' !! sum = Some c' ∧
    ∀ fl, getattr c' fl
          = add_keep (getattr c fl + scale_keep (getattr q fl * get0 inp i)).
Proof.
  intros [Hlen0 Hp0] Hsum Hc Hls Hs Hq Hf Hf1.
  assert (Hsl : (sum < length h)%nat) by by eapply lookup_lt_Some.
  assert (Hqn : (qn < length h0)%nat) by by eapply lookup_lt_Some.
  rewrite forward_term_eq.
  rewrite (copy_fields_fresh h qn q) by (by rewrite Hp0).
  rewrite of_opt_Some, rbind_Ok.
  set (tmp0 := with_fields new_cell (getattr q)).
  set (h2 := h ++ [tmp0]).
  assert (Hlen2 : length h2 = S (length h))
    by (unfold h2; rewrite length_app; simpl; lia).
  assert (Ht2 : h2 !! length h = Some tmp0) by apply lookup_snoc.
  destruct (scale_chain [length h] h2 (length h) fuel (get0 inp i) tmp0)
    as (h3 & ls3 & -> & _ & Hfr3 & _ & (q3 & Hq3 & Hf3) & Hlen3);
    [by eapply chain_end|done|simpl; lia|].
  rewrite of_opt_Some, rbind_Ok.
  assert (Hold3 : ∀ l, (l < length h)%nat → h3 !! l = h !! l).
  { intros l Hl. rewrite Hfr3; [|lia|rewrite list_elem_of_singleton; lia].
    unfold h2. by rewrite lookup_app_l. }
  assert (Hc3 : chain h3 sum ls).
  { eapply chain_frame; [done|]. intros l Hin. apply Hold3.
    by eapply chain_valid. }
  destruct (add_chain ls h3 sum fuel (length h) c q3 Hc3)
    as (h4 & ls4 & -> & Hc4 & Hlen4 & Hfr4 & _ & Hsh4 & Hs4);
    [by rewrite Hold3|done|done|].
  rewrite of_opt_Some.
  eexists h4, ls4, _. split_and!; [done| |done| | |done|].
  - split; [lia|]. intros l Hl. rewrite Hfr4; [|lia|].
    + rewrite Hold3 by lia. by apply Hp0.
    + intros Hin. apply Hls in Hin. lia.
  - intros l Hin. destruct Hsh4 as [->|(c4 & -> & Hge)]; [by apply Hls|].
    apply elem_of_app in Hin as [Hin|Hin]; [by apply Hls|].
    apply list_elem_of_singleton in Hin as ->. lia.
  - destruct Hsh4 as [->|(c4 & -> & Hge)]; [lia|].
    rewrite length_app. simpl. lia.
  - intros fl. rewrite getattr_set_left. unfold add_self.
    rewrite getattr_with_fields, Hf3. unfold tmp0.
    by rewrite getattr_with_fields.
Qed.

Lemma forward_terms_spec fuel inp h0 sum : ∀ wd h ls c,
  pres h0 h → (length h0 ≤ sum)%nat → chain h sum ls →
  (∀ l, l ∈ ls → (length h0 ≤ l)%nat) → h !! sum = Some c →
  (∀ i qn, (i, qn) ∈ wd → (qn < length h0)%nat) →
  (length ls + length wd ≤ fuel)%nat → (1 ≤ fuel)%nat →
  ∃ h' ls' c', rfoldM (forward_term fuel inp sum) wd h = Ok h' ∧
    pres h0 h' ∧ chain h' sum ls' ∧
    (∀ l, l ∈ ls' → (length h0 ≤ l)%nat) ∧
    (length ls' ≤ length ls + length wd)%nat ∧ h' !! sum = Some c' ∧
    ∀ fl, getattr c' fl
          = foldl (λ acc w,
                     add_keep (acc + scale_keep (field_at h0 fl w.2
                                                 * get0 inp w.1)))
                  (getattr c fl) wd.
Proof.
  induction wd as [|[i qn] wd IH]; intros h ls c Hp Hsum Hc Hls Hs Hwd Hf Hf1.
  { exists h, ls, c. split_and!; try done. lia. }
  assert (is_Some (h0 !! qn)) as [q Hq].
  { apply lookup_lt_is_Some. eapply Hwd, list_elem_of_here. }
  simpl in Hf.
  destruct (forward_term_spec fuel inp h0 h sum ls c i qn q)
    as (h1 & ls1 & c1 & E1 & Hp1 & Hc1 & Hls1 & Hlen1 & Hs1 & Hv1);
    try done; [lia|].
  destruct (IH h1 ls1 c1) as (h' & ls' & c' & E & Hp' & Hc' & Hls' & Hlen' & Hs' & Hv');
    try done.
  { intros i' qn' Hin. eapply Hwd. by apply list_elem_of_further. }
  { lia. }
  exists h', ls', c'. rewrite rfoldM_cons, E1, rbind_Ok.
  split_and!; try done.
  - simpl. lia.
  - intros fl. rewrite Hv'. cbn [foldl fst snd].
    by rewrite Hv1, (field_at_Some _ _ _ _ Hq).
Qed.

Lemma forward_out_spec fuel L inp h o wd output bo :
  assoc o (biases L) = Some bo → (bo < length h)%nat →
  (∀ i qn, (i, qn) ∈ wd → (qn < length h)%nat) →
  (length wd < fuel)%nat →
  ∃ h' c, forward_out fuel L inp (o, wd) (h, output)
          = Ok (h', setitem output o (length h)) ∧
    pres h h' ∧ (length h < length h')%nat ∧ h' !! length h = Some c ∧
    ∀ fl, getattr c fl = forward_head h inp wd bo fl.
Proof.
  intros Hbo Hbl Hwd Hf. rewrite forward_out_eq.
  destruct (forward_terms_spec fuel inp h (length h) wd (h ++ [new_cell])
              [length h] new_cell)
    as (h2 & ls2 & c2 & -> & Hp2 & Hc2 & Hls2 & Hlen2 & Hs2 & Hv2).
  { apply pres_app. }
  { lia. }
  { eapply chain_end; [apply lookup_snoc|done]. }
  { intros l Hl. apply list_elem_of_singleton in Hl. lia. }
  { apply lookup_snoc. }
  { done. }
  { simpl. lia. }
  { lia. }
  rewrite rbind_Ok. unfold getitem. rewrite Hbo, rbind_Ok.
  assert (is_Some (h !! bo)) as [qb Hqb] by by apply lookup_lt_is_Some.
  destruct Hp2 as [Hl2 Hp2].
  destruct (add_chain ls2 h2 (length h) fuel bo c2 qb Hc2 Hs2)
    as (h3 & ls3 & -> & _ & Hlen3 & Hfr3 & _ & _ & Hs3);
    [by rewrite Hp2|simpl in Hlen2; lia|].
  rewrite of_opt_Some, rbind_Ok.
  eexists _, _. split_and!; [done| |lia|done|].
  - split; [lia|]. intros l Hl. rewrite Hfr3; [by apply Hp2|lia|].
    intros Hin. apply Hls2 in Hin. lia.
  - intros fl. rewrite getattr_set_left. unfold add_self.
    rewrite getattr_with_fields, Hv2. unfold forward_head.
    rewrite (field_at_Some _ _ _ _ Hqb). by destruct fl.
Qed.

Lemma forward_head_pres h0 h inp wd bo fl :
  pres h0 h → (bo < length h0)%nat →
  (∀ i qn, (i, qn) ∈ wd → (qn < length h0)%nat) →
  forward_head h inp wd bo fl = forward_head h0 inp wd bo fl.
Proof.
  intros [_ Hp] Hbo Hwd. unfold forward_head.
  assert (Hfa : ∀ l, (l < length h0)%nat → field_at h fl l = field_at h0 fl l).
  { intros l Hl. unfold field_at. by rewrite Hp. }
  rewrite (Hfa bo Hbo). f_equal. f_equal.
  generalize 0. induction wd as [|[i qn] wd IH]; intros acc; [done|].
  cbn [foldl fst snd]. rewrite Hfa by (eapply Hwd, list_elem_of_here).
  apply IH. intros i' qn' Hin. eapply Hwd. by apply list_elem_of_further.
Qed.

Lemma forward28_general fuel L inp h0 : ∀ ws h output,
  pres h0 h →
  (∀ o wd, (o, wd) ∈ ws →
     (∃ bo, assoc o (biases L) = Some bo ∧ (bo < length h0)%nat) ∧
     (∀ i qn, (i, qn) ∈ wd → (qn < length h0)%nat) ∧
     (length wd < fuel)%nat) →
  NoDup ws.*1 →
  ∃ h' output', rfoldM (forward_out fuel L inp) ws (h, output)
                = Ok (h', output') ∧
    pres h h' ∧
    (∀ o wd, (o, wd) ∈ ws →
       ∃ l c bo, assoc o output' = Some l ∧ (length h ≤ l)%nat ∧
                 h' !! l = Some c ∧ assoc o (biases L) = Some bo ∧
                 ∀ fl, getattr c fl = forward_head h0 inp wd bo fl) ∧
    (∀ o, o ∉ ws.*1 → assoc o output' = assoc o output).
Proof.
  induction ws as [|[o1 wd1] ws IH]; intros h output Hp Hws Hnd.
  { exists h, output. split_and!; try done; try apply pres_refl.
    intros o wd Hin. by apply elem_of_nil in Hin. }
  cbn [fmap list_fmap fst] in Hnd. apply NoDup_cons in Hnd as [Hk Hnd].
  destruct (Hws o1 wd1 (list_elem_of_here _ _)) as ((bo & Hbo & Hbl) & Hwd & Hf).
  pose proof Hp as [Hlen Hpl].
  destruct (forward_out_spec fuel L inp h o1 wd1 output bo Hbo)
    as (h1 & c1 & E1 & Hp1 & Hlen1 & Hc1 & Hv1); [lia| |done|].
  { intros i qn Hin. specialize (Hwd i qn Hin). lia. }
  destruct (IH h1 (setitem output o1 (length h)))
    as (h' & output' & E & Hp' & Hout & Hother); [|  |done|].
  { by eapply pres_trans. }
  { intros o wd Hin. apply Hws. by apply list_elem_of_further. }
  exists h', output'. rewrite rfoldM_cons, E1, rbind_Ok.
  split_and!; [done|by eapply pres_trans| |].
  - intros o wd Hin. apply elem_of_cons in Hin as [Heq|Hin].
    + injection Heq as -> ->.
      exists (length h), c1, bo. split_and!; [|done| |done|].
      * rewrite (Hother o1 Hk). apply assoc_setitem_eq.
      * destruct Hp' as [_ Hp']. by rewrite Hp'.
      * intros fl. rewrite Hv1. by apply forward_head_pres.
    + destruct (Hout o wd Hin) as (l & c & bo' & Hl & Hge & Hc & Hb' & Hv).
      exists l, c, bo'. split_and!; try done. lia.
  - intros o Ho. cbn [fmap list_fmap fst] in Ho.
    apply not_elem_of_cons in Ho as [Hne Ho].
    rewrite (Hother o Ho). by apply assoc_setitem_ne.
Qed.

Lemma sum_nonneg {A} (term : A → Z) (l : list A) :
  (∀ w, w ∈ l → 0 ≤ term w) → 0 ≤ foldr (λ w a, term w + a) 0 l.
Proof.
  induction l as [|w l IH]; intros Hn; [done|]. cbn [foldr].
  assert (0 ≤ term w) by apply Hn, list_elem_of_here.
  assert (0 ≤ foldr (λ w a, term w + a) 0 l); [|lia].
  apply IH. intros w0 Hw0. by apply Hn, list_elem_of_further.
Qed.

Lemma foldl_keep_plain {A} (term : A → Z) : ∀ (l : list A) acc,
  (∀ w, w ∈ l → 0 ≤ term w) → 0 ≤ acc →
  acc + foldr (λ w a, term w + a) 0 l ≤ 10 →
  foldl (λ a w, add_keep (a + scale_keep (term w))) acc l
  = acc + foldr (λ w a, term w + a) 0 l.
Proof.
  induction l as [|w l IH]; intros acc Hn Ha Hs; [cbn; lia|].
  cbn [foldl foldr] in *.
  assert (0 ≤ term w) by apply Hn, list_elem_of_here.
  assert (Hrest : 0 ≤ foldr (λ w a, term w + a) 0 l).
  { apply sum_nonneg. intros w0 Hw0. by apply Hn, list_elem_of_further. }
  assert (scale_keep (term w) = term w) as ->.
  { unfold scale_keep. destruct (Z.ltb_spec 10 (term w)); lia. }
  assert (add_keep (acc + term w) = acc + term w) as ->.
  { unfold add_keep. destruct (Z.ltb_spec 10 (acc + term w)); lia. }
  rewrite IH; [lia| |lia|lia].
  intros w0 Hw0. by apply Hn, list_elem_of_further.
Qed.

Lemma forward_head_plain h inp wd bo fl :
  (∀ w, w ∈ wd → 0 ≤ field_at h fl w.2 * get0 inp w.1) →
  0 ≤ field_at h fl bo → plain_head h inp wd bo fl ≤ 10 →
  forward_head h inp wd bo fl = plain_head h inp wd bo fl.
Proof.
  intros Hnn Hb Hle. unfold forward_head, plain_head in *.
  pose proof (sum_nonneg (λ w : string * loc,
                            field_at h fl w.2 * get0 inp w.1) wd Hnn) as Hs.
  pose proof (foldl_keep_plain (λ w : string * loc,
                                  field_at h fl w.2 * get0 inp w.1) wd 0 Hnn)
    as Hg.
  cbv beta in Hs, Hg. rewrite Hg by lia. rewrite Z.add_0_l.
  unfold add_keep.
  destruct (Z.ltb_spec 10
              (foldr (λ w a, field_at h fl w.2 * get0 inp w.1 + a) 0 wd
               + field_at h fl bo)); lia.
Qed.

(** X19. [forward] of Demo28 on any layer whose cells are in the store,
    with a bias for every output key and fuel above the number of
    weights of an output, returns without raising and is read-only on
    the store it was given: every cell that existed before, the weights
    and biases among them, is unchanged.  It returns one fresh cell per
    output key; each coefficient of that cell is the accumulation,
    through the threshold rule of [add], of the retained parts of
    [weight * input] and of the bias (a missing input counts as 0), and
    is the plain affine sum when the terms are non-negative and the sum
    is at most 10. *)
Theorem X19_forward28_read_only fuel L h inp :
  layer_in L h → NoDup (weights L).*1 →
  (∀ o wd, (o, wd) ∈ weights L → (length wd < fuel)%nat) →
  ∃ h' output, forward fuel L h inp = Ok (h', output) ∧ pres h h' ∧
    (∀ o wd, (o, wd) ∈ weights L →
       ∃ l c bo, assoc o output = Some l ∧ (length h ≤ l)%nat ∧
                 h' !! l = Some c ∧ assoc o (biases L) = Some bo ∧
                 ∀ fl, getattr c fl = forward_head h inp wd bo fl ∧
                       ((∀ w, w ∈ wd → 0 ≤ field_at h fl w.2 * get0 inp w.1) →
                        0 ≤ field_at h fl bo →
                        plain_head h inp wd bo fl ≤ 10 →
                        getattr c fl = plain_head h inp wd bo fl)) ∧
    (∀ o, o ∉ (weights L).*1 → assoc o output = None).
Proof.
  intros Hin Hnd Hf. unfold forward.
  destruct (forward28_general fuel L inp h (weights L) h [])
    as (h' & output & E & Hp & Hout & Hother); [apply pres_refl| |done|].
  { intros o wd Ho. destruct (Hin o wd Ho) as (Hb & Hw).
    split_and!; [done|done|by eapply Hf]. }
  exists h', output. split_and!; [done|done| |].
  - intros o wd Ho.
    destruct (Hout o wd Ho) as (l & c & bo & Hl & Hge & Hc & Hb & Hv).
    exists l, c, bo. split_and!; try done.
    intros fl. split; [done|]. intros Hnn Hbn Hle.
    rewrite Hv. by apply forward_head_plain.
  - intros o Ho. by rewrite (Hother o Ho).
Qed.

Lemma X19_forward28_read_only_witness :
  let inp : gmap string Z := {[ "a" := 3 ]} in
  ∃ h' output, forward 2 layer28 heap28 inp = Ok (h', output) ∧
    pres heap28 h' ∧
    (∀ o wd, (o, wd) ∈ weights layer28 →
       ∃ l c bo, assoc o output = Some l ∧ (length heap28 ≤ l)%nat ∧
                 h' !! l = Some c ∧ assoc o (biases layer28) = Some bo ∧
                 ∀ fl, getattr c fl = forward_head heap28 inp wd bo fl ∧
                       ((∀ w, w ∈ wd →
                           0 ≤ field_at heap28 fl w.2 * get0 inp w.1) →
                        0 ≤ field_at heap28 fl bo →
                        plain_head heap28 inp wd bo fl ≤ 10 →
                        getattr c fl = plain_head heap28 inp wd bo fl)) ∧
    (∀ o, o ∉ (weights layer28).*1 → assoc o output = None).
Proof.
  apply (X19_forward28_read_only 2 layer28 heap28 {[ "a" := 3 ]}).
  - intros o wd Ho. cbn in Ho. apply list_elem_of_singleton in Ho.
    injection Ho as -> ->. split.
    + exists 1%nat. split; [reflexivity|simpl; lia].
    + intros i qn Hi. apply list_elem_of_singleton in Hi.
      injection Hi as -> ->. simpl. lia.
  - apply (bool_decide_unpack _). by vm_compute.
  - intros o wd Ho. cbn in Ho. apply list_elem_of_singleton in Ho.
    injection Ho as -> ->. simpl. lia.
Defined.

(** ** Layers fresh from their constructors (Demo23, Demo24) *)

Lemma foldl_insert_lookup {V} (f : string → V) : ∀ ks (m : gmap string V) k,
  foldl (λ m o, <[o := f o]> m) m ks !! k
  = if decide (k ∈ ks) then Some (f k) else m !! k.
Proof.
  induction ks as [|o ks IH]; intros m k; cbn [foldl].
  { rewrite decide_False; [done|]. apply not_elem_of_nil. }
  rewrite IH. destruct (decide (k ∈ ks)) as [Hin|Hni].
  - rewrite decide_True; [done|]. by apply list_elem_of_further.
  - destruct (decide (k = o)) as [->|Hne].
    + rewrite decide_True by apply list_elem_of_here.
      apply lookup_insert_eq.
    + rewrite decide_False.
      * by apply lookup_insert_ne.
      * intros Hin. apply elem_of_cons in Hin as [?|?]; done.
Qed.

(** X20. A Demo23 layer fresh from its constructor has bias 0 under
    exactly the output keys, so it is fit for [forward] and [backward]
    as soon as [initial_weights] holds a weight for every output and
    input key; with nonzero moduli and an input that holds every input
    key, its [forward] returns the weighted sum of the inputs alone,
    reduced modulo [bases[out_k]]. *)
Theorem X20_fresh_layer23 input_keys output_keys bases initial_weights inp :
  (∀ o, o ∈ output_keys →
     (∃ b, bases !! o = Some b ∧ b ≠ 0) ∧
     ∃ wo, initial_weights !! o = Some wo ∧
           ∀ i, i ∈ input_keys → is_Some (wo !! i)) →
  (∀ i, i ∈ input_keys → is_Some (inp !! i)) →
  let L := Demo23.layer_init input_keys output_keys bases initial_weights in
  well_formed23 L ∧
  (∀ o, Demo23.biases L !! o = if decide (o ∈ output_keys) then Some 0 else None) ∧
  ∃ out, Demo23.forward L inp = Ok out ∧
    ∀ o, o ∈ output_keys →
      ∃ b wo, bases !! o = Some b ∧ initial_weights !! o = Some wo ∧
        out !! o
        = Some (foldr (λ i acc, default 0 (wo !! i) * default 0 (inp !! i) + acc)
                      0 input_keys mod b).
Proof.
  intros Hkeys Hinp L.
  assert (Hb : ∀ o, Demo23.biases L !! o
                    = if decide (o ∈ output_keys) then Some 0 else None).
  { intros o. unfold L, Demo23.layer_init. cbn [Demo23.biases].
    by rewrite (foldl_insert_lookup (λ _, 0)). }
  assert (Hwf : well_formed23 L).
  { intros o Ho. change (Demo23.output_keys L) with output_keys in Ho.
    split.
    - rewrite Hb, decide_True by done. by eexists.
    - destruct (Hkeys o Ho) as (_ & wo & Hwo & Hw). by exists wo. }
  split_and!; [done|done|].
  destruct (forward23_general L inp Hwf) as (out & E & Hout).
  { intros o Ho. by apply Hkeys. }
  { done. }
  exists out. split; [done|]. intros o Ho.
  destruct (proj1 (Hout o) Ho) as (b & Hbo & Hv).
  destruct (Hkeys o Ho) as (_ & wo & Hwo & Hw).
  exists b, wo. split_and!; [done|done|].
  rewrite Hv. do 2 f_equal. unfold affine23, bias23.
  rewrite Hb, decide_True by done. cbn [default].
  rewrite Z.add_0_l. unfold weight23.
  change (Demo23.weights L) with initial_weights.
  change (Demo23.input_keys L) with input_keys. by rewrite Hwo.
Qed.

Lemma X20_fresh_layer23_witness :
  let L := Demo23.layer_init ["a"; "b"] ["x"] {[ "x" := 7 ]}
             {[ "x" := {[ "a" := 1; "b" := 2 ]} ]} in
  well_formed23 L ∧
  (∀ o, Demo23.biases L !! o = if decide (o ∈ ["x"]) then Some 0 else None) ∧
  ∃ out, Demo23.forward L {[ "a" := 3; "b" := 5 ]} = Ok out ∧
    ∀ o, o ∈ ["x"] →
      ∃ b wo, ({[ "x" := 7 ]} : gmap string Z) !! o = Some b ∧
        ({[ "x" := {[ "a" := 1; "b" := 2 ]} ]}
           : gmap string (gmap string Z)) !! o = Some wo ∧
        out !! o
        = Some (foldr (λ i acc,
                         default 0 (wo !! i)
                         * default 0 (({[ "a" := 3; "b" := 5 ]}
                                         : gmap string Z) !! i) + acc)
                      0 ["a"; "b"] mod b).
Proof.
  apply (X20_fresh_layer23 ["a"; "b"] ["x"] {[ "x" := 7 ]}
           {[ "x" := {[ "a" := 1; "b" := 2 ]} ]} {[ "a" := 3; "b" := 5 ]}).
  - intros o Ho. apply list_elem_of_singleton in Ho as ->. split.
    + exists 7. split; [reflexivity|lia].
    + eexists. split; [reflexivity|]. intros i Hi.
      apply elem_of_cons in Hi as [->|Hi]; [by eexists|].
      apply list_elem_of_singleton in Hi as ->. by eexists.
  - intros i Hi.
    apply elem_of_cons in Hi as [->|Hi]; [by eexists|].
    apply list_elem_of_singleton in Hi as ->. by eexists.
Defined.

Lemma layer_init24_weights input_keys output_keys b o :
  o ∈ output_keys →
  Demo24.weights (Demo24.layer_init input_keys output_keys b) !! o
  = Some (foldl (λ wo i, <[i := Demo24.init [0] b 1]> wo) ∅ input_keys).
Proof.
  intros Ho. unfold Demo24.layer_init. cbn [Demo24.weights].
  rewrite (foldl_insert_lookup
             (λ _, foldl (λ wo i, <[i := Demo24.init [0] b 1]> wo) ∅
                         input_keys)).
  by rewrite decide_True.
Qed.

Lemma layer_init24_biases input_keys output_keys b o :
  Demo24.biases (Demo24.layer_init input_keys output_keys b) !! o
  = if decide (o ∈ output_keys) then Some (Demo24.mkQ [0] b 1) else None.
Proof.
  unfold Demo24.layer_init. cbn [Demo24.biases].
  by rewrite (foldl_insert_lookup (λ _, Demo24.init [0] b 1)).
Qed.

Lemma sum_zero {A} (g : A → Z) (l : list A) :
  (∀ x, x ∈ l → g x = 0) → foldr (λ x acc, g x + acc) 0 l = 0.
Proof.
  induction l as [|x l IH]; intros Hz; [done|]. cbn [foldr].
  rewrite (Hz x) by apply list_elem_of_here. rewrite IH; [done|].
  intros y Hy. by apply Hz, list_elem_of_further.
Qed.

(** X21. A Demo24 layer fresh from its constructor holds the number 0,
    digits [0], for every weight and bias of its keys.  With a radix of
    at least 2 its [forward] returns, for every input, one number per
    output key that reads back as 0 and has the empty digit list (not
    [0]): the output is created with no digits and [add(0)] returns at
    once.  One [train_step] with at least two output keys, no key
    listed twice and a target for every output key, then leaves
    [target * input * lr] in every weight and [target * lr] in every
    bias. *)
Theorem X21_fresh_layer24 input_keys output_keys b inp target lr :
  2 ≤ b →
  let L := Demo24.layer_init input_keys output_keys b in
  well_formed24 L ∧
  (∀ o i, weight24 L o i = 0) ∧ (∀ o, bias24 L o = 0) ∧
  (∃ out, Demo24.forward L inp = Ok out ∧
     ∀ o, o ∈ output_keys →
       ∃ r, out !! o = Some r ∧ Demo24.digits r = [] ∧ Demo24.to_int r = 0) ∧
  ((2 ≤ length output_keys)%nat → NoDup output_keys → NoDup input_keys →
   (∀ o, o ∈ output_keys → is_Some (target !! o)) →
   ∃ L', Demo24.train_step L inp target lr = (L', None) ∧
     ∀ o, o ∈ output_keys →
       bias24 L' o = default 0 (target !! o) * lr ∧
       ∀ i, i ∈ input_keys →
         weight24 L' o i = default 0 (target !! o) * default 0 (inp !! i) * lr).
Proof.
  intros Hb L.
  assert (Hwf : well_formed24 L).
  { intros o Ho. change (Demo24.output_keys L) with output_keys in Ho.
    split.
    - unfold L. rewrite layer_init24_biases, decide_True by done.
      by eexists.
    - eexists. split; [by apply layer_init24_weights|].
      intros i Hi. change (Demo24.input_keys L) with input_keys in Hi.
      rewrite (foldl_insert_lookup (λ _, Demo24.init [0] b 1)).
      rewrite decide_True by done. by eexists. }
  assert (Hw0 : ∀ o i, weight24 L o i = 0).
  { intros o i. unfold weight24, L, Demo24.layer_init. cbn [Demo24.weights].
    rewrite (foldl_insert_lookup
               (λ _, foldl (λ wo i, <[i := Demo24.init [0] b 1]> wo) ∅
                           input_keys)).
    destruct (decide (o ∈ output_keys)); [|done]. cbn.
    rewrite (foldl_insert_lookup (λ _, Demo24.init [0] b 1)).
    by destruct (decide (i ∈ input_keys)). }
  assert (Hb0 : ∀ o, bias24 L o = 0).
  { intros o. unfold bias24, L. rewrite layer_init24_biases.
    by destruct (decide (o ∈ output_keys)). }
  assert (Haff : ∀ o, affine24 L inp o = 0).
  { intros o. unfold affine24. rewrite Hb0, Z.add_0_l.
    apply (sum_zero (λ i, weight24 L o i * default 0 (inp !! i))).
    intros i _. by rewrite Hw0. }
  destruct (forward24_general L inp Hb Hwf) as (out & E & Hin & _).
  split_and!; [done|done|done| |].
  - exists out. split; [done|]. intros o Ho.
    destruct (Hin o Ho) as (r & Hr & Hv & _ & Hd & _).
    exists r. rewrite Haff in Hv, Hd. split_and!; [done|by apply Hd|done].
  - intros Hlen Hndo Hndi Htg. unfold Demo24.train_step. rewrite E.
    assert (Hpr : Demo24.print_output L out = Ok tt).
    { unfold Demo24.print_output, Demo24.output_key.
      change (Demo24.output_keys L) with output_keys.
      destruct output_keys as [|o0 [|o1 os]] eqn:Hos;
        [simpl in Hlen; lia|simpl in Hlen; lia|].
      cbn [lookup list_lookup]. rewrite rbind_Ok. unfold getkey.
      destruct (Hin o0) as (r0 & -> & _); [apply list_elem_of_here|].
      rewrite !rbind_Ok.
      destruct (Hin o1) as (r1 & -> & _);
        [apply list_elem_of_further, list_elem_of_here|].
      by rewrite rbind_Ok. }
    rewrite Hpr.
    destruct (exec24_train inp target lr out (Demo24.output_keys L) L Hb Hwf
                Hndi Hndo) as (L' & -> & Hsh & Hwf' & H').
    { intros o Ho. split_and!; [done|by apply Htg|].
      destruct (Hin o Ho) as (r & -> & _). by eexists. }
    exists L'. split; [done|]. intros o Ho.
    destruct (proj1 (H' o) Ho) as (Hbo & Hwo).
    destruct (Hin o Ho) as (r & Hr & Hv & _).
    rewrite Hr in Hbo, Hwo.
    cbn [default fmap option_fmap option_map] in Hbo, Hwo.
    rewrite Hv, Haff, Z.sub_0_r in Hbo, Hwo. split.
    + by rewrite Hbo, Hb0.
    + intros i Hi. by rewrite Hwo, Hw0.
Qed.

Lemma X21_fresh_layer24_witness :
  let L := Demo24.layer_init ["a"] ["x"; "y"] 10 in
  let inp : gmap string Z := {[ "a" := 2 ]} in
  let target : gmap string Z := {[ "x" := 5; "y" := 4 ]} in
  well_formed24 L ∧
  (∀ o i, weight24 L o i = 0) ∧ (∀ o, bias24 L o = 0) ∧
  (∃ out, Demo24.forward L inp = Ok out ∧
     ∀ o, o ∈ ["x"; "y"] →
       ∃ r, out !! o = Some r ∧ Demo24.digits r = [] ∧ Demo24.to_int r = 0) ∧
  ∃ L', Demo24.train_step L inp target 1 = (L', None) ∧
    ∀ o, o ∈ ["x"; "y"] →
      bias24 L' o = default 0 (target !! o) * 1 ∧
      ∀ i, i ∈ ["a"] →
        weight24 L' o i = default 0 (target !! o) * default 0 (inp !! i) * 1.
Proof.
  intros L inp target.
  destruct (X21_fresh_layer24 ["a"] ["x"; "y"] 10 {[ "a" := 2 ]}
              {[ "x" := 5; "y" := 4 ]} 1 ltac:(lia))
    as (H1 & H2 & H3 & H4 & H5).
  split_and!; [exact H1|exact H2|exact H3|exact H4|].
  apply H5.
  - simpl. lia.
  - apply (bool_decide_unpack _). by vm_compute.
  - apply (bool_decide_unpack _). by vm_compute.
  - intros o Ho.
    apply elem_of_cons in Ho as [->|Ho];
      [|apply list_elem_of_singleton in Ho as ->]; by eexists.
Defined.

(** ** A layer fresh from [QuantumLayer.__init__] (Demo28) *)

Lemma setitem_fresh {V} (d : list (string * V)) k v :
  k ∉ d.*1 → setitem d k v = d ++ [(k, v)].
Proof.
  induction d as [|[k' v'] d IH]; intros Hk; [done|].
  cbn [fmap list_fmap fst] in Hk. apply not_elem_of_cons in Hk as [Hne Hk].
  cbn [setitem]. rewrite (proj2 (String.eqb_neq k k')) by done.
  cbn [app]. by rewrite IH.
Qed.

Lemma assoc_elem {V} (d : list (string * V)) k v :
  NoDup d.*1 → (k, v) ∈ d → assoc k d = Some v.
Proof.
  induction d as [|[k' v'] d IH]; intros Hnd Hin.
  { by apply elem_of_nil in Hin. }
  cbn [fmap list_fmap fst] in Hnd. apply NoDup_cons in Hnd as [Hk Hnd].
  cbn [assoc]. apply elem_of_cons in Hin as [Heq|Hin].
  - injection Heq as -> ->. by rewrite String.eqb_refl.
  - destruct (String.eqb_spec k k') as [->|Hne]; [|by apply IH].
    destruct Hk. apply list_elem_of_fmap. by exists (k', v).
Qed.

Lemma new_cells_gen : ∀ keys h d,
  NoDup keys → (∀ k, k ∈ keys → k ∉ d.*1) →
  foldl (λ st k, let '(h1, l) := alloc st.1 in (h1, setitem st.2 k l))
        (h, d) keys
  = (h ++ replicate (length keys) new_cell,
     d ++ zip keys (seq (length h) (length keys))).
Proof.
  induction keys as [|k keys IH]; intros h d Hnd Hd.
  { cbn. by rewrite !app_nil_r. }
  apply NoDup_cons in Hnd as [Hk Hnd].
  cbn [foldl alloc fst snd].
  rewrite setitem_fresh by apply Hd, list_elem_of_here.
  rewrite IH; [|done|].
  - rewrite length_app. cbn [length replicate seq zip zip_with].
    rewrite Nat.add_1_r, <- !app_assoc. done.
  - intros k' Hk'. rewrite fmap_app. cbn. intros Hin.
    apply elem_of_app in Hin as [Hin|Hin].
    + by apply (Hd k'); [apply list_elem_of_further|].
    + apply list_elem_of_singleton in Hin as ->. done.
Qed.

Lemma new_cells_spec keys h :
  NoDup keys →
  new_cells keys h
  = (h ++ replicate (length keys) new_cell,
     zip keys (seq (length h) (length keys))).
Proof.
  intros Hnd. unfold new_cells. rewrite new_cells_gen; [done|done|].
  intros k _. apply not_elem_of_nil.
Qed.

Lemma new_weights_gen inputs : NoDup inputs → ∀ outputs h ws,
  NoDup outputs → (∀ o, o ∈ outputs → o ∉ ws.*1) →
  foldl (λ st o, let '(h1, d) := new_cells inputs st.1 in
                 (h1, setitem st.2 o d))
        (h, ws) outputs
  = (h ++ replicate (length outputs * length inputs) new_cell,
     ws ++ weight_dicts inputs (length h) outputs).
Proof.
  intros Hndi. induction outputs as [|o os IH]; intros h ws Hnd Hd.
  { cbn. by rewrite !app_nil_r. }
  apply NoDup_cons in Hnd as [Hk Hnd].
  cbn [foldl fst snd]. rewrite (new_cells_spec inputs h Hndi).
  rewrite setitem_fresh by apply Hd, list_elem_of_here.
  rewrite IH; [|done|].
  - rewrite length_app, length_replicate. cbn [length weight_dicts].
    rewrite <- !app_assoc. cbn [app]. f_equal.
    by rewrite <- replicate_add.
  - intros o' Ho'. rewrite fmap_app. cbn. intros Hin.
    apply elem_of_app in Hin as [Hin|Hin].
    + by apply (Hd o'); [apply list_elem_of_further|].
    + apply list_elem_of_singleton in Hin as ->. done.
Qed.

Lemma weight_dicts_fst inputs : ∀ outputs base,
  (weight_dicts inputs base outputs).*1 = outputs.
Proof.
  induction outputs as [|o os IH]; intros base; [done|].
  cbn. by rewrite IH.
Qed.

Lemma weight_dicts_elem inputs : ∀ outputs base o wd,
  (o, wd) ∈ weight_dicts inputs base outputs →
  o ∈ outputs ∧ wd.*1 = inputs ∧
  ∀ i qn, (i, qn) ∈ wd →
    i ∈ inputs ∧
    (base ≤ qn < base + length outputs * length inputs)%nat.
Proof.
  induction outputs as [|o1 os IH]; intros base o wd Hin.
  { by apply elem_of_nil in Hin. }
  cbn [weight_dicts] in Hin. apply elem_of_cons in Hin as [Heq|Hin].
  - injection Heq as -> ->. split_and!.
    + apply list_elem_of_here.
    + apply fst_zip. by rewrite length_seq.
    + intros i qn Hi. apply elem_of_zip_l in Hi as Hil.
      apply elem_of_zip_r in Hi as Hir. apply elem_of_seq in Hir.
      split; [done|]. cbn [length]. lia.
  - destruct (IH _ _ _ Hin) as (Ho & Hf & Hr). split_and!.
    + by apply list_elem_of_further.
    + done.
    + intros i qn Hi. destruct (Hr i qn Hi) as [Hii Hq].
      split; [done|]. cbn [length]. lia.
Qed.

Lemma insert_one_step nb (h : heap) l :
  init_state nb h → (nb ≤ l < length h)%nat →
  init_step nb h (<[l := cell_a 1 None]> h).
Proof.
  intros Hst Hl. split_and!.
  - apply length_insert.
  - intros l' Hl'. apply list_lookup_insert_ne. lia.
  - intros l' Hl'. rewrite length_insert in Hl'.
    destruct (decide (l' = l)) as [->|Hne].
    + right. apply list_lookup_insert_eq. lia.
    + rewrite list_lookup_insert_ne by done. by apply Hst.
  - intros l' E'. destruct (decide (l' = l)) as [->|Hne].
    + apply list_lookup_insert_eq. lia.
    + by rewrite list_lookup_insert_ne.
Qed.

Lemma store_one nb h l :
  init_state nb h → (nb ≤ l < length h)%nat →
  ∃ h', store_attr h l fa 1 = Some h' ∧ init_step nb h h' ∧
        h' !! l = Some (cell_a 1 None).
Proof.
  intros Hst Hl. unfold store_attr.
  exists (<[l := cell_a 1 None]> h). split_and!.
  - by destruct (Hst l Hl) as [E|E]; rewrite E, bind_Some_eq.
  - by apply insert_one_step.
  - apply list_lookup_insert_eq. lia.
Qed.

Lemma init_step_refl nb h : init_state nb h → init_step nb h h.
Proof. by intros Hst; split_and!. Qed.

Lemma init_step_trans nb h1 h2 h3 :
  init_step nb h1 h2 → init_step nb h2 h3 → init_step nb h1 h3.
Proof.
  intros (L1 & P1 & S1 & O1) (L2 & P2 & S2 & O2). split_and!.
  - congruence.
  - intros l Hl. by rewrite P2, P1.
  - done.
  - intros l E. by apply O2, O1.
Qed.

Lemma init_weight_eq L o i wd l h :
  assoc o (weights L) = Some wd → assoc i wd = Some l →
  init_weight L o i h = of_opt (store_attr h l fa 1).
Proof.
  intros Hwd Hl. unfold init_weight, getitem. rewrite Hwd.
  change (Ok wd ≫= ?k) with (k wd). cbv beta. by rewrite Hl.
Qed.

Lemma init_out_eq inputs L o bo h :
  assoc o (biases L) = Some bo →
  init_out inputs L o h
  = (h1 ← rfoldM (init_weight L o) inputs h; of_opt (store_attr h1 bo fa 1)).
Proof. intros Hbo. unfold init_out, getitem. by rewrite Hbo. Qed.

Lemma init_weights_loop nb L o wd :
  assoc o (weights L) = Some wd → ∀ keys hc,
  init_state nb hc →
  (∀ i, i ∈ keys → ∃ l, assoc i wd = Some l ∧ (nb ≤ l < length hc)%nat) →
  ∃ hc', rfoldM (init_weight L o) keys hc = Ok hc' ∧ init_step nb hc hc' ∧
    ∀ i l, i ∈ keys → assoc i wd = Some l → hc' !! l = Some (cell_a 1 None).
Proof.
  intros Hwd. induction keys as [|k keys IH]; intros hc Hst Hk.
  { exists hc. split_and!; [done|by apply init_step_refl|].
    intros i l Hi. by apply elem_of_nil in Hi. }
  destruct (Hk k (list_elem_of_here _ _)) as (l & Hl & Hr).
  destruct (store_one nb hc l Hst Hr) as (h1 & E1 & Hs1 & Ho1).
  destruct (IH h1) as (h2 & E2 & Hs2 & Ho2).
  { apply Hs1. }
  { intros i Hi. destruct (Hk i (list_elem_of_further _ _ _ Hi))
      as (l' & Hl' & Hr'). exists l'. split; [done|].
    destruct Hs1 as (-> & _). done. }
  exists h2. split_and!.
  - rewrite rfoldM_cons, (init_weight_eq L o k wd l hc Hwd Hl).
    by rewrite E1, of_opt_Some, rbind_Ok.
  - by eapply init_step_trans.
  - intros i l' Hi Hl'. apply elem_of_cons in Hi as [->|Hi].
    + assert (l' = l) as -> by congruence. by apply Hs2.
    + by eapply Ho2.
Qed.

Lemma init_out_spec nb inputs L o wd bo hc :
  assoc o (weights L) = Some wd → assoc o (biases L) = Some bo →
  init_state nb hc → (nb ≤ bo < length hc)%nat →
  (∀ i, i ∈ inputs → ∃ l, assoc i wd = Some l ∧ (nb ≤ l < length hc)%nat) →
  ∃ hc', init_out inputs L o hc = Ok hc' ∧ init_step nb hc hc' ∧
    hc' !! bo = Some (cell_a 1 None) ∧
    ∀ i l, i ∈ inputs → assoc i wd = Some l →
           hc' !! l = Some (cell_a 1 None).
Proof.
  intros Hwd Hbo Hst Hb Hk.
  destruct (init_weights_loop nb L o wd Hwd inputs hc Hst Hk)
    as (h1 & E1 & Hs1 & Ho1).
  destruct (store_one nb h1 bo) as (h2 & E2 & Hs2 & Ho2).
  { apply Hs1. }
  { destruct Hs1 as (-> & _). done. }
  exists h2. split_and!.
  - rewrite (init_out_eq inputs L o bo hc Hbo).
    by rewrite E1, rbind_Ok, E2.
  - by eapply init_step_trans.
  - done.
  - intros i l Hi Hl. by eapply Hs2, Ho1.
Qed.

Lemma init_outs_loop nb inputs L : ∀ os hc,
  init_state nb hc →
  (∀ o, o ∈ os →
     ∃ wd bo, assoc o (weights L) = Some wd ∧ assoc o (biases L) = Some bo ∧
       (nb ≤ bo < length hc)%nat ∧
       ∀ i, i ∈ inputs →
            ∃ l, assoc i wd = Some l ∧ (nb ≤ l < length hc)%nat) →
  ∃ hc', rfoldM (init_out inputs L) os hc = Ok hc' ∧ init_step nb hc hc' ∧
    ∀ o wd bo, o ∈ os → assoc o (weights L) = Some wd →
      assoc o (biases L) = Some bo →
      hc' !! bo = Some (cell_a 1 None) ∧
      ∀ i l, i ∈ inputs → assoc i wd = Some l →
             hc' !! l = Some (cell_a 1 None).
Proof.
  induction os as [|o1 os IH]; intros hc Hst Hos.
  { exists hc. split_and!; [done|by apply init_step_refl|].
    intros o wd bo Ho. by apply elem_of_nil in Ho. }
  destruct (Hos o1 (list_elem_of_here _ _)) as (wd1 & bo1 & Hwd1 & Hbo1 & Hr1 & Hk1).
  destruct (init_out_spec nb inputs L o1 wd1 bo1 hc Hwd1 Hbo1 Hst Hr1 Hk1)
    as (h1 & E1 & Hs1 & Hb1 & Hw1).
  destruct (IH h1) as (h2 & E2 & Hs2 & H2).
  { apply Hs1. }
  { intros o Ho.
    destruct (Hos o (list_elem_of_further _ _ _ Ho))
      as (wd & bo & Hwd & Hbo & Hr & Hk).
    exists wd, bo. destruct Hs1 as (-> & _). done. }
  exists h2. split_and!.
  - by rewrite rfoldM_cons, E1, rbind_Ok.
  - by eapply init_step_trans.
  - intros o wd bo Ho Hwd Hbo. apply elem_of_cons in Ho as [->|Ho].
    + assert (wd = wd1) as -> by congruence.
      assert (bo = bo1) as -> by congruence. split.
      * by apply Hs2.
      * intros i l Hi Hl. by eapply Hs2, Hw1.
    + by eapply H2.
Qed.

Lemma forward_head_fresh h inp wd bo inputs :
  (∀ i qn, (i, qn) ∈ wd → h !! qn = Some (cell_a 1 None)) →
  h !! bo = Some (cell_a 1 None) → wd.*1 = inputs →
  forward_head h inp wd bo fa = fresh_head inp inputs ∧
  ∀ fl, fl ≠ fa → forward_head h inp wd bo fl = 0.
Proof.
  intros Hw Hb <-. unfold forward_head, fresh_head. split.
  - rewrite (field_at_Some _ _ _ _ Hb).
    f_equal. f_equal. generalize 0.
    induction wd as [|[i qn] wd IH]; intros acc; [done|].
    cbn [foldl fmap list_fmap fst snd].
    rewrite (field_at_Some _ _ _ _ (Hw i qn (list_elem_of_here _ _))).
    change (getattr (cell_a 1 None) fa) with 1. rewrite Z.mul_1_l.
    apply IH. intros i' qn' Hin. eapply Hw. by apply list_elem_of_further.
  - intros fl Hfl.
    assert (Hz : getattr (cell_a 1 None) fl = 0) by by destruct fl.
    rewrite (field_at_Some _ _ _ _ Hb), Hz.
    assert (foldl (λ acc w,
                     add_keep (acc + scale_keep (field_at h fl w.2
                                                 * get0 inp w.1))) 0 wd = 0)
      as ->; [|done].
    induction wd as [|[i qn] wd IH]; [done|].
    cbn [foldl fst snd].
    rewrite (field_at_Some _ _ _ _ (Hw i qn (list_elem_of_here _ _))), Hz.
    rewrite Z.mul_0_l. change (add_keep (0 + scale_keep 0)) with 0.
    apply IH. intros i' qn' Hin. eapply Hw. by apply list_elem_of_further.
Qed.

(** X22. [QuantumLayer(inputs, outputs)] of Demo28, for key lists
    without repetition, returns without raising and leaves the store it
    found unchanged.  The layer it builds has one weight dict and one
    bias per output key, one weight per input key, each referring to a
    cell created by the call that holds [a = 1], the other
    coefficients 0 and no link.  [forward] on this layer then returns,
    again without changing a cell, one cell per output key with 0 in
    [b]..[f] and in [a] the inputs accumulated through the carry rule,
    plus one. *)
Theorem X22_layer_init28 inputs outputs h inp fuel :
  NoDup inputs → NoDup outputs → (length inputs < fuel)%nat →
  ∃ h' L, layer_init inputs outputs h = Ok (h', L) ∧ pres h h' ∧
    (weights L).*1 = outputs ∧ (biases L).*1 = outputs ∧
    (∀ o wd, (o, wd) ∈ weights L →
       wd.*1 = inputs ∧
       ∀ i qn, (i, qn) ∈ wd →
         (length h ≤ qn)%nat ∧ h' !! qn = Some (cell_a 1 None)) ∧
    (∀ o bo, (o, bo) ∈ biases L →
       (length h ≤ bo)%nat ∧ h' !! bo = Some (cell_a 1 None)) ∧
    ∃ h'' output, forward fuel L h' inp = Ok (h'', output) ∧ pres h' h'' ∧
      ∀ o, o ∈ outputs →
        ∃ l c, assoc o output = Some l ∧ h'' !! l = Some c ∧
               getattr c fa = fresh_head inp inputs ∧
               ∀ fl, fl ≠ fa → getattr c fl = 0.
Proof.
  intros Hndi Hndo Hfuel. unfold layer_init, new_weights.
  rewrite (new_weights_gen inputs Hndi outputs h [] Hndo)
    by (intros o _; apply not_elem_of_nil).
  cbn [app].
  set (n := length inputs). set (m := length outputs).
  set (h1 := h ++ replicate (m * n) new_cell).
  rewrite (new_cells_spec outputs h1 Hndo). fold m.
  set (ws := weight_dicts inputs (length h) outputs).
  set (bs := zip outputs (seq (length h1) m)).
  set (h2 := h1 ++ replicate m new_cell).
  set (L := mkLayer ws bs).
  assert (Hlen1 : length h1 = (length h + m * n)%nat).
  { unfold h1. by rewrite length_app, length_replicate. }
  assert (Hlen2 : length h2 = (length h + m * n + m)%nat).
  { unfold h2. rewrite length_app, length_replicate. lia. }
  assert (Hws1 : ws.*1 = outputs) by apply weight_dicts_fst.
  assert (Hbs1 : bs.*1 = outputs).
  { unfold bs. apply fst_zip. by rewrite length_seq. }
  assert (Hst2 : init_state (length h) h2).
  { intros l Hl. left. unfold h2, h1. rewrite <- app_assoc.
    rewrite lookup_app_r by lia. rewrite <- replicate_add.
    apply lookup_replicate_2. rewrite Hlen2 in Hl. lia. }
  assert (Hwse : ∀ o wd, (o, wd) ∈ ws →
            o ∈ outputs ∧ wd.*1 = inputs ∧ assoc o ws = Some wd ∧
            ∀ i qn, (i, qn) ∈ wd →
              (length h ≤ qn < length h2)%nat ∧ assoc i wd = Some qn).
  { intros o wd Hin.
    destruct (weight_dicts_elem _ _ _ _ _ Hin) as (Ho & Hf & Hr).
    split_and!; [done|done| |].
    - apply assoc_elem; [by rewrite Hws1|done].
    - intros i qn Hi. destruct (Hr i qn Hi) as [_ Hq]. fold m n in Hq.
      split; [lia|]. apply assoc_elem; [by rewrite Hf|done]. }
  assert (Hbse : ∀ o bo, (o, bo) ∈ bs →
            o ∈ outputs ∧ (length h ≤ bo < length h2)%nat ∧
            assoc o bs = Some bo).
  { intros o bo Hin. split; [by eapply elem_of_zip_l|]. split.
    - apply elem_of_zip_r, elem_of_seq in Hin. lia.
    - apply assoc_elem; [by rewrite Hbs1|done]. }
  assert (Hkeys : ∀ o, o ∈ outputs →
            ∃ wd bo, (o, wd) ∈ ws ∧ (o, bo) ∈ bs).
  { intros o Ho.
    assert (Hw : o ∈ ws.*1) by by rewrite Hws1.
    assert (Hb : o ∈ bs.*1) by by rewrite Hbs1.
    apply list_elem_of_fmap in Hw as ([o1 wd] & Heq & Hw).
    apply list_elem_of_fmap in Hb as ([o2 bo] & Heq' & Hb).
    cbn in Heq, Heq'. subst o1 o2. by exists wd, bo. }
  assert (Hinp : ∀ (wd : list (string * loc)) i,
            wd.*1 = inputs → i ∈ inputs → ∃ l, (i, l) ∈ wd).
  { intros wd i Hf Hi. rewrite <- Hf in Hi.
    apply list_elem_of_fmap in Hi as ([i1 l] & Heq & Hi).
    cbn in Heq. subst i1. by exists l. }
  destruct (init_outs_loop (length h) inputs L outputs h2 Hst2)
    as (h3 & -> & Hs3 & H3).
  { intros o Ho. destruct (Hkeys o Ho) as (wd & bo & Hw & Hb).
    destruct (Hwse o wd Hw) as (_ & Hf & Ha & Hr).
    destruct (Hbse o bo Hb) as (_ & Hbr & Hba).
    exists wd, bo. split; [exact Ha|]. split; [exact Hba|].
    split; [exact Hbr|].
    intros i Hi. destruct (Hinp wd i Hf Hi) as (l & Hl).
    exists l. destruct (Hr i l Hl). by split. }
  rewrite rbind_Ok.
  destruct Hs3 as (Hlen3 & Hp3 & Hst3 & _).
  assert (Hpres : pres h h3).
  { split; [lia|]. intros l Hl. rewrite Hp3 by done.
    unfold h2, h1. by rewrite <- app_assoc, lookup_app_l. }
  assert (Hwone : ∀ o wd, (o, wd) ∈ ws → ∀ i qn, (i, qn) ∈ wd →
            h3 !! qn = Some (cell_a 1 None)).
  { intros o wd Hw i qn Hi.
    destruct (Hwse o wd Hw) as (Ho & Hf & Ha & Hr).
    destruct (Hkeys o Ho) as (_ & bo & _ & Hb).
    destruct (Hbse o bo Hb) as (_ & _ & Hba).
    destruct (Hr i qn Hi) as [_ Hai].
    eapply (H3 o wd bo Ho Ha Hba); [|done].
    rewrite <- Hf. apply list_elem_of_fmap. by exists (i, qn). }
  assert (Hbone : ∀ o bo, (o, bo) ∈ bs → h3 !! bo = Some (cell_a 1 None)).
  { intros o bo Hb. destruct (Hbse o bo Hb) as (Ho & _ & Hba).
    destruct (Hkeys o Ho) as (wd & _ & Hw & _).
    destruct (Hwse o wd Hw) as (_ & _ & Ha & _).
    by apply (H3 o wd bo Ho Ha Hba). }
  exists h3, L. split_and!; [done|done|done|done| | |].
  - intros o wd Hw. destruct (Hwse o wd Hw) as (_ & Hf & _ & Hr).
    split; [done|]. intros i qn Hi. destruct (Hr i qn Hi) as [Hq _].
    split; [lia|by eapply Hwone].
  - intros o bo Hb. destruct (Hbse o bo Hb) as (_ & Hr & _).
    split; [lia|by eapply Hbone].
  - destruct (forward28_general fuel L inp h3 ws h3 [])
      as (h4 & output & E & Hp4 & Hout & _); [apply pres_refl| |by rewrite Hws1|].
    { intros o wd Hw. destruct (Hwse o wd Hw) as (Ho & Hf & _ & Hr).
      destruct (Hkeys o Ho) as (_ & bo & _ & Hb).
      destruct (Hbse o bo Hb) as (_ & Hbr & Hba).
      split_and!.
      - exists bo. split; [done|lia].
      - intros i qn Hi. destruct (Hr i qn Hi). lia.
      - rewrite <- (length_fmap fst wd), Hf. done. }
    exists h4, output. split_and!; [done|done|].
    intros o Ho. destruct (Hkeys o Ho) as (wd & bo & Hw & Hb).
    destruct (Hout o wd Hw) as (l & c & bo' & Hl & _ & Hc & Hb' & Hv).
    destruct (Hbse o bo Hb) as (_ & _ & Hba).
    assert (bo' = bo) as -> by (cbn in Hb'; congruence).
    destruct (Hwse o wd Hw) as (_ & Hf & _ & _).
    destruct (forward_head_fresh h3 inp wd bo inputs) as [Ha Hz];
      [by eapply Hwone|by eapply Hbone|done|].
    exists l, c. split_and!; [done|done|by rewrite Hv|].
    intros fl Hfl. rewrite Hv. by apply Hz.
Qed.

Lemma X22_layer_init28_witness :
  let inp : gmap string Z := {[ "a" := 4; "b" := 9 ]} in
  ∃ h' L, layer_init ["a"; "b"] ["x"; "y"] [] = Ok (h', L) ∧ pres [] h' ∧
    (weights L).*1 = ["x"; "y"] ∧ (biases L).*1 = ["x"; "y"] ∧
    (∀ o wd, (o, wd) ∈ weights L →
       wd.*1 = ["a"; "b"] ∧
       ∀ i qn, (i, qn) ∈ wd →
         (length ([] : heap) ≤ qn)%nat ∧ h' !! qn = Some (cell_a 1 None)) ∧
    (∀ o bo, (o, bo) ∈ biases L →
       (length ([] : heap) ≤ bo)%nat ∧ h' !! bo = Some (cell_a 1 None)) ∧
    ∃ h'' output, forward 3 L h' inp = Ok (h'', output) ∧ pres h' h'' ∧
      ∀ o, o ∈ ["x"; "y"] →
        ∃ l c, assoc o output = Some l ∧ h'' !! l = Some c ∧
               getattr c fa = fresh_head inp ["a"; "b"] ∧
               ∀ fl, fl ≠ fa → getattr c fl = 0.
Proof.
  apply (X22_layer_init28 ["a"; "b"] ["x"; "y"] [] {[ "a" := 4; "b" := 9 ]} 3).
  - apply (bool_decide_unpack _). by vm_compute.
  - apply (bool_decide_unpack _). by vm_compute.
  - simpl. lia.
Defined.

(** ** Scaling and rectification (Demo17) *)

Lemma mult17_stmt h x sc fl k :
  (x < length h)%nat →
  (s ← <[x := sc]> h !! x; store_attr (<[x := sc]> h) x fl (getattr s fl * k))
  = Some (<[x := setattr sc fl (getattr sc fl * k)]> h).
Proof.
  intros Hx. unfold store_attr.
  rewrite list_lookup_insert_eq by done.
  repeat rewrite bind_Some_eq. by rewrite list_insert_insert_eq.
Qed.

(** [multiply_scalar] in closed form. *)
Lemma mult17_closed h x s k :
  h !! x = Some s →
  Demo17.multiply_scalar h x k
  = Some (<[x := with_fields s (λ fl, getattr s fl * k)]> h).
Proof.
  intros Hs.
  assert (Hx : (x < length h)%nat) by by eapply lookup_lt_Some.
  unfold Demo17.multiply_scalar, fields.
  rewrite <- (list_insert_id h x s Hs) at 1.
  repeat (rewrite foldM_cons, mult17_stmt, bind_Some_eq by done).
  rewrite foldM_nil. by destruct s.
Qed.

Lemma relu17_scaled s k :
  0 ≤ k →
  Demo17.relu (with_fields s (λ fl, getattr s fl * k))
  = with_fields (Demo17.relu s) (λ fl, getattr (Demo17.relu s) fl * k).
Proof.
  intros Hk. destruct s as [sg md a b c d e f l r u dn i o].
  unfold Demo17.relu. cbn.
  destruct (Z.ltb_spec a 0) as [Hneg|Hpos];
    destruct (Z.ltb_spec (a * k) 0) as [Hneg'|Hpos']; cbn;
    try reflexivity; try (exfalso; nia).
  unfold with_fields. cbn. f_equal. nia.
Qed.

(** X23. [multiply_scalar] of Demo17 with an integer scalar rewrites
    only the six coefficients of its own cell: signs, metadata and
    links stay, and so does every other cell.  Scaling by [k1] and then
    by [k2] is scaling by [k1 * k2], and scaling by 1 changes nothing.
    [relu] is idempotent and commutes with scaling by a non-negative
    scalar. *)
Theorem X23_multiply_scalar17 h x s k1 k2 :
  h !! x = Some s →
  let scaled := with_fields s (λ fl, getattr s fl * k1) in
  Demo17.multiply_scalar h x k1 = Some (<[x := scaled]> h) ∧
  same_meta s scaled ∧ QN.left scaled = QN.left s ∧
  (h1 ← Demo17.multiply_scalar h x k1; Demo17.multiply_scalar h1 x k2)
  = Demo17.multiply_scalar h x (k1 * k2) ∧
  Demo17.multiply_scalar h x 1 = Some h ∧
  Demo17.relu (Demo17.relu s) = Demo17.relu s ∧
  (0 ≤ k1 →
   Demo17.relu scaled
   = with_fields (Demo17.relu s) (λ fl, getattr (Demo17.relu s) fl * k1)).
Proof.
  intros Hs scaled.
  assert (Hx : (x < length h)%nat) by by eapply lookup_lt_Some.
  split_and!.
  - by apply mult17_closed.
  - apply same_meta_with_fields.
  - done.
  - rewrite (mult17_closed h x s k1 Hs), bind_Some_eq.
    rewrite (mult17_closed _ x scaled k2)
      by (by apply list_lookup_insert_eq).
    rewrite (mult17_closed h x s (k1 * k2) Hs), list_insert_insert_eq.
    do 2 f_equal. unfold scaled. rewrite with_fields_twice.
    apply with_fields_ext. intros fl. rewrite getattr_with_fields. lia.
  - rewrite (mult17_closed h x s 1 Hs). f_equal.
    rewrite (with_fields_ext s _ (getattr s)) by (intros fl; lia).
    rewrite with_fields_id. by apply list_insert_id.
  - unfold Demo17.relu. destruct (Z.ltb_spec (QN.a s) 0) as [Hneg|Hpos].
    + by destruct s.
    + by rewrite (proj2 (Z.ltb_ge (QN.a s) 0)).
  - intros Hk. by apply relu17_scaled.
Qed.

Lemma X23_multiply_scalar17_witness :
  let h := [cell_a (-3) None; cell_a 4 None] in
  let s := cell_a (-3) None in
  let scaled := with_fields s (λ fl, getattr s fl * 2) in
  Demo17.multiply_scalar h 0%nat 2 = Some (<[0%nat := scaled]> h) ∧
  same_meta s scaled ∧ QN.left scaled = QN.left s ∧
  (h1 ← Demo17.multiply_scalar h 0%nat 2; Demo17.multiply_scalar h1 0%nat 5)
  = Demo17.multiply_scalar h 0%nat (2 * 5) ∧
  Demo17.multiply_scalar h 0%nat 1 = Some h ∧
  Demo17.relu (Demo17.relu s) = Demo17.relu s ∧
  (0 ≤ 2 →
   Demo17.relu scaled
   = with_fields (Demo17.relu s) (λ fl, getattr (Demo17.relu s) fl * 2)).
Proof.
  apply (X23_multiply_scalar17 [cell_a (-3) None; cell_a 4 None] 0%nat
           (cell_a (-3) None) 2 5).
  reflexivity.
Defined.

(** ** Printing (Demo24): [__repr__] and the decimal numeral of the value *)

Ltac digit_cases d H :=
  assert (d = 0 ∨ d = 1 ∨ d = 2 ∨ d = 3 ∨ d = 4 ∨ d = 5 ∨ d = 6 ∨ d = 7
          ∨ d = 8 ∨ d = 9) as H by lia;
  destruct H as [->|[->|[->|[->|[->|[->|[->|[->|[->| ->]]]]]]]]].

Lemma string_of_digit_cons d u :
  0 ≤ d ≤ 9 →
  NilEmpty.string_of_uint (digit_cons d u)
  = Demo24.str d +:+ NilEmpty.string_of_uint u.
Proof. intros Hd. digit_cases d H; reflexivity. Qed.

Lemma concat_str bs :
  Forall (λ d, 0 ≤ d ≤ 9) bs →
  String.concat "" (map Demo24.str bs) = NilEmpty.string_of_uint (uint_of bs).
Proof.
  induction 1 as [|d bs Hd _ IH]; [done|].
  cbn [map uint_of foldr]. fold (uint_of bs).
  rewrite (string_of_digit_cons d _ Hd), <- IH.
  destruct bs as [|d' bs']; [|done].
  cbn. digit_cases d H; reflexivity.
Qed.

Lemma of_lu_digit_cons d u :
  0 ≤ d ≤ 9 →
  Z.of_N (DecimalPos.Unsigned.of_lu (digit_cons d u)) = d + 10 * Z.of_N (DecimalPos.Unsigned.of_lu u).
Proof. intros Hd. digit_cases d H; cbn [digit_cons DecimalPos.Unsigned.of_lu]; lia. Qed.

Lemma of_lu_uint_of ds :
  Forall (λ d, 0 ≤ d ≤ 9) ds →
  Z.of_N (DecimalPos.Unsigned.of_lu (uint_of ds)) = le_val 10 ds.
Proof.
  induction 1 as [|d ds Hd _ IH]; [done|].
  cbn [uint_of foldr le_val]. fold (uint_of ds) (le_val 10 ds).
  by rewrite (of_lu_digit_cons d _ Hd), IH.
Qed.

Lemma revapp_uint_of bs : ∀ acc,
  Forall (λ d, 0 ≤ d ≤ 9) bs →
  Decimal.revapp (uint_of bs) acc = foldr digit_cons acc (rev bs).
Proof.
  induction bs as [|d bs IH]; intros acc Hbs; [done|].
  apply Forall_cons in Hbs as [Hd Hbs].
  cbn [uint_of foldr rev]. fold (uint_of bs).
  rewrite foldr_app. cbn [foldr]. rewrite <- IH by done.
  digit_cases d H; reflexivity.
Qed.

Lemma rev_uint_of bs :
  Forall (λ d, 0 ≤ d ≤ 9) bs →
  Decimal.rev (uint_of bs) = uint_of (rev bs).
Proof. intros Hbs. unfold Decimal.rev. by apply revapp_uint_of. Qed.

Lemma unorm_uint_of d bs :
  1 ≤ d ≤ 9 →
  Decimal.unorm (uint_of (d :: bs)) = uint_of (d :: bs) ∧
  uint_of (d :: bs) ≠ Decimal.Nil ∧
  uint_of (d :: bs) ≠ Decimal.D0 Decimal.Nil.
Proof.
  intros Hd. cbn [uint_of foldr].
  assert (d = 1 ∨ d = 2 ∨ d = 3 ∨ d = 4 ∨ d = 5 ∨ d = 6 ∨ d = 7
          ∨ d = 8 ∨ d = 9) as H by lia.
  destruct H as [->|[->|[->|[->|[->|[->|[->|[->| ->]]]]]]]]; by split_and!.
Qed.

Lemma to_int_of_N n : Z.to_int (Z.of_N n) = Decimal.Pos (N.to_uint n).
Proof. by destruct n. Qed.

Lemma to_int_opp_of_N n :
  n ≠ 0%N → Z.to_int (- Z.of_N n) = Decimal.Neg (N.to_uint n).
Proof. by destruct n. Qed.

(** The numeral of a canonical digit list with nonzero high digit is the
    decimal numeral of its value. *)
Lemma to_uint_le_val e d :
  Forall (λ d, 0 ≤ d ≤ 9) (e ++ [d]) → d ≠ 0 →
  ∃ n, le_val 10 (e ++ [d]) = Z.of_N n ∧ n ≠ 0%N ∧
       N.to_uint n = uint_of (rev (e ++ [d])).
Proof.
  intros Hr Hd.
  assert (Hd9 : 1 ≤ d ≤ 9).
  { apply Forall_app in Hr as [_ Hr]. apply Forall_cons in Hr as [Hr _].
    cbv beta in Hr. lia. }
  set (bs := rev (e ++ [d])).
  assert (Hbs : Forall (λ d, 0 ≤ d ≤ 9) bs) by by apply Forall_rev.
  assert (Ebs : bs = d :: rev e).
  { unfold bs. by rewrite rev_app_distr. }
  destruct (unorm_uint_of d (rev e) Hd9) as (Hn & Hnil & Hz).
  rewrite <- Ebs in Hn, Hnil, Hz.
  exists (Pos.of_uint (uint_of bs)).
  assert (Hto : N.to_uint (Pos.of_uint (uint_of bs)) = uint_of bs).
  { by rewrite DecimalPos.Unsigned.to_of. }
  split_and!.
  - rewrite DecimalPos.Unsigned.of_uint_alt, (rev_uint_of bs Hbs).
    unfold bs. rewrite rev_involutive. symmetry. by apply of_lu_uint_of.
  - intros E0. rewrite E0 in Hto. cbn in Hto. congruence.
  - done.
Qed.

Lemma repr_canonical q :
  Demo24.base q = 10 → canonical24 q →
  Demo24.__repr__ q = Demo24.str (Demo24.to_int q).
Proof.
  intros Hb (Hr & Hc). rewrite Hb in Hr.
  assert (Hr9 : Forall (λ d, 0 ≤ d ≤ 9) (Demo24.digits q)).
  { eapply Forall_impl; [exact Hr|]. intros d Hd. cbn in Hd. lia. }
  unfold Demo24.__repr__, Demo24.to_int. rewrite value_rev, Hb.
  destruct Hc as [[Hd Hs]|[(e & d & Hd & Hnz) Hs]].
  - rewrite Hd, Hs. reflexivity.
  - rewrite (concat_str _ (Forall_rev Hr9)). rewrite Hd in *.
    destruct (to_uint_le_val e d Hr9 Hnz) as (n & -> & Hn0 & Hto).
    assert (Hnil : uint_of (rev (e ++ [d])) ≠ Decimal.Nil).
    { rewrite rev_app_distr. cbn [rev app].
      apply unorm_uint_of.
      apply Forall_app in Hr9 as [_ Hr9]. apply Forall_cons in Hr9 as [Hr9 _].
      cbv beta in Hr9. lia. }
    destruct Hs as [-> | ->].
    + rewrite Z.mul_1_r. unfold Demo24.str. rewrite to_int_of_N, Hto.
      cbn [Z.ltb Z.compare]. unfold NilZero.string_of_int, NilZero.string_of_uint.
      by destruct (uint_of (rev (e ++ [d]))).
    + replace (Z.of_N n * -1) with (- Z.of_N n) by lia.
      unfold Demo24.str. rewrite (to_int_opp_of_N n Hn0), Hto.
      cbn [Z.ltb Z.compare]. unfold NilZero.string_of_int, NilZero.string_of_uint.
      by destruct (uint_of (rev (e ++ [d]))).
Qed.

(** X24. At radix 10 the printed form of a Demo24 number is the decimal
    numeral of its value: [__repr__] of a number in canonical form is
    [str(to_int())], so after [add] of a nonzero value it prints the
    old value plus the value added.  The round trip fails for the empty
    digit list that [forward] leaves for a total of 0: it reads back
    as 0 and prints as the empty string. *)
Theorem X24_repr24_round_trip q v :
  Demo24.base q = 10 →
  (canonical24 q → Demo24.__repr__ q = Demo24.str (Demo24.to_int q)) ∧
  (v ≠ 0 →
   ∃ q', Demo24.add q v = Ok q' ∧
         Demo24.__repr__ q' = Demo24.str (Demo24.to_int q + v)) ∧
  (Demo24.digits q = [] → 0 ≤ Demo24.sign q →
   Demo24.__repr__ q = "" ∧ Demo24.to_int q = 0 ∧ Demo24.str 0 = "0").
Proof.
  intros Hb. split_and!.
  - by apply repr_canonical.
  - intros Hv.
    destruct (add24_canon q v) as (q' & E & Hval & Hbq & _ & Hc); [lia|done|].
    exists q'. split; [done|]. rewrite <- Hval.
    apply repr_canonical; [congruence|done].
  - intros Hd Hs. unfold Demo24.__repr__, Demo24.to_int. rewrite Hd.
    rewrite (proj2 (Z.ltb_ge (Demo24.sign q) 0) Hs). by split_and!.
Qed.

Lemma X24_repr24_round_trip_witness :
  Demo24.__repr__ (Demo24.mkQ [5; 2] 10 (-1))
  = Demo24.str (Demo24.to_int (Demo24.mkQ [5; 2] 10 (-1))) ∧
  (∃ q', Demo24.add (Demo24.mkQ [5; 2] 10 (-1)) 130 = Ok q' ∧
         Demo24.__repr__ q'
         = Demo24.str (Demo24.to_int (Demo24.mkQ [5; 2] 10 (-1)) + 130)) ∧
  (Demo24.__repr__ (Demo24.mkQ [] 10 1) = "" ∧
   Demo24.to_int (Demo24.mkQ [] 10 1) = 0 ∧ Demo24.str 0 = "0").
Proof.
  destruct (X24_repr24_round_trip (Demo24.mkQ [5; 2] 10 (-1)) 130 eq_refl)
    as (H1 & H2 & _).
  destruct (X24_repr24_round_trip (Demo24.mkQ [] 10 1) 130 eq_refl)
    as (_ & _ & H3).
  split; [|split; [apply H2; lia|apply H3; [reflexivity|cbn; lia]]].
  apply H1. split.
  - cbn. repeat constructor; lia.
  - right. split; [|by right]. exists [5], 2. split; [reflexivity|lia].
Defined.

(** ** Exceptions in the middle of an update (Demo24, Demo23) *)

Lemma exec_app {A S} (body : A → S → S * option exn) (xs ys : list A) :
  ∀ s, exec body (xs ++ ys) s = and_then (exec body xs s) (exec body ys).
Proof.
  induction xs as [|x xs IH]; intros s; [done|].
  cbn [app exec]. destruct (body x s) as [s' [e|]]; [done|].
  cbn [and_then]. apply IH.
Qed.

(** X25. [train_step] of Demo24 is not atomic.  When the target lacks
    an output key, the call raises [KeyError] for the first such key
    after the forward pass, and the layer is left with the delta rule
    applied to the weights and biases of the output keys before it and
    with those of the other keys as they were. *)
Theorem X25_train_step24_missing_target L inp target lr pre o post :
  2 ≤ Demo24.layer_base L → well_formed24 L →
  (2 ≤ length (Demo24.output_keys L))%nat →
  NoDup (Demo24.output_keys L) → NoDup (Demo24.input_keys L) →
  Demo24.output_keys L = pre ++ o :: post →
  (∀ o', o' ∈ pre → is_Some (target !! o')) → target !! o = None →
  ∃ L', Demo24.train_step L inp target lr = (L', Some (KeyError o)) ∧
    same_shape24 L L' ∧ well_formed24 L' ∧
    (∀ o', o' ∈ pre →
       bias24 L' o' = bias24 L o' + error24_at L inp target o' * lr ∧
       ∀ i, i ∈ Demo24.input_keys L →
         weight24 L' o' i
         = weight24 L o' i
           + error24_at L inp target o' * default 0 (inp !! i) * lr) ∧
    (∀ o', o' ∉ pre →
       bias24 L' o' = bias24 L o' ∧ ∀ i, weight24 L' o' i = weight24 L o' i).
Proof.
  intros Hb Hwf Hlen Hndo Hndi Hkeys Htg Hmiss.
  destruct (forward24_general L inp Hb Hwf) as (out & E & Hin & _).
  unfold Demo24.train_step. rewrite E.
  assert (Hpr : Demo24.print_output L out = Ok tt).
  { unfold Demo24.print_output, Demo24.output_key.
    destruct (Demo24.output_keys L) as [|o0 [|o1 os]] eqn:Hos;
      [simpl in Hlen; lia|simpl in Hlen; lia|].
    cbn [lookup list_lookup]. rewrite rbind_Ok. unfold getkey.
    destruct (Hin o0) as (r0 & -> & _); [apply list_elem_of_here|].
    rewrite !rbind_Ok.
    destruct (Hin o1) as (r1 & -> & _);
      [apply list_elem_of_further, list_elem_of_here|].
    by rewrite rbind_Ok. }
  rewrite Hpr, Hkeys, exec_app.
  assert (Hndp : NoDup pre).
  { rewrite Hkeys in Hndo. by apply NoDup_app in Hndo as (? & _). }
  assert (Hsub : ∀ o', o' ∈ pre → o' ∈ Demo24.output_keys L).
  { intros o' Ho'. rewrite Hkeys. apply elem_of_app. by left. }
  destruct (exec24_train inp target lr out pre L Hb Hwf Hndi Hndp)
    as (L' & -> & Hsh & Hwf' & H').
  { intros o' Ho'. split_and!; [by apply Hsub|by apply Htg|].
    destruct (Hin o' (Hsub o' Ho')) as (r & -> & _). by eexists. }
  cbn [and_then]. rewrite exec_cons.
  assert (Et : Demo24.train_out inp target lr out o L'
               = (L', Some (KeyError o))).
  { unfold Demo24.train_out, getkey. by rewrite Hmiss. }
  rewrite Et. cbn [and_then].
  exists L'. split_and!; try done.
  - intros o' Ho'. destruct (proj1 (H' o') Ho') as (Hbo & Hwo).
    destruct (Hin o' (Hsub o' Ho')) as (r & Hr & Hv & _).
    rewrite Hr in Hbo, Hwo.
    cbn [default fmap option_fmap option_map] in Hbo, Hwo.
    change (id (Demo24.to_int r)) with (Demo24.to_int r) in Hbo, Hwo.
    rewrite Hv in Hbo, Hwo. by split.
  - intros o' Ho'. by apply H'.
Qed.

Lemma X25_train_step24_missing_target_witness :
  ∃ L', Demo24.train_step layer24_twin input3 {[ "x" := 10 ]} 1
        = (L', Some (KeyError "y")) ∧
    same_shape24 layer24_twin L' ∧ well_formed24 L' ∧
    (∀ o', o' ∈ ["x"] →
       bias24 L' o'
       = bias24 layer24_twin o'
         + error24_at layer24_twin input3 {[ "x" := 10 ]} o' * 1 ∧
       ∀ i, i ∈ Demo24.input_keys layer24_twin →
         weight24 L' o' i
         = weight24 layer24_twin o' i
           + error24_at layer24_twin input3 {[ "x" := 10 ]} o'
             * default 0 (input3 !! i) * 1) ∧
    (∀ o', o' ∉ ["x"] →
       bias24 L' o' = bias24 layer24_twin o' ∧
       ∀ i, weight24 L' o' i = weight24 layer24_twin o' i).
Proof.
  apply (X25_train_step24_missing_target layer24_twin input3 {[ "x" := 10 ]} 1
           ["x"] "y" []).
  - cbn. lia.
  - apply well_formed24_twin.
  - cbn. lia.
  - apply (bool_decide_unpack _). by vm_compute.
  - apply (bool_decide_unpack _). by vm_compute.
  - reflexivity.
  - intros o Ho. apply list_elem_of_singleton in Ho as ->. by eexists.
  - reflexivity.
Defined.

Lemma update_weight23_raise lr errors inp o i er L :
  well_formed23 L → o ∈ Demo23.output_keys L → i ∈ Demo23.input_keys L →
  errors !! o = Some er → inp !! i = None →
  Demo23.update_weight lr errors inp o i L = Raise (KeyError i).
Proof.
  intros Hwf Ho Hi Her Hv. destruct (Hwf o Ho) as (_ & wo & Hwo & Hw).
  destruct (Hw i Hi) as [w Hwi].
  unfold Demo23.update_weight, getkey.
  by rewrite Hwo, rbind_Ok, Hwi, rbind_Ok, Her, rbind_Ok, Hv.
Qed.

(** [backward] on a layer whose dicts are values, when the input
    lacks an input key: [KeyError] for the first such key while the
    first output key is updated, after the updates made so far. *)
Lemma backward23_value_missing_input L inp target output lr o1 os pre i0 post :
  well_formed23 L →
  Demo23.output_keys L = o1 :: os →
  Demo23.input_keys L = pre ++ i0 :: post → NoDup pre →
  (∀ o, o ∈ Demo23.output_keys L →
        is_Some (target !! o) ∧ is_Some (output !! o)) →
  (∀ i, i ∈ pre → is_Some (inp !! i)) → inp !! i0 = None →
  let error := default 0 (target !! o1) - default 0 (output !! o1) in
  ∃ L', Demo23.backward L inp target output lr = (L', Some (KeyError i0)) ∧
    same_shape23 L L' ∧
    bias23 L' o1 = bias23 L o1 + lr * error ∧
    (∀ i, i ∈ pre →
       weight23 L' o1 i
       = weight23 L o1 i + lr * error * default 0 (inp !! i)) ∧
    (∀ i, i ∉ pre → weight23 L' o1 i = weight23 L o1 i) ∧
    (∀ o, o ≠ o1 →
       Demo23.biases L' !! o = Demo23.biases L !! o ∧
       Demo23.weights L' !! o = Demo23.weights L !! o).
Proof.
  intros Hwf Hos Hkeys Hndp Hto Hinp Hmiss error. unfold Demo23.backward.
  destruct (errors23_ok target output (Demo23.output_keys L) ∅ Hto)
    as (errors & -> & He).
  assert (Ho1 : o1 ∈ Demo23.output_keys L)
    by (rewrite Hos; apply list_elem_of_here).
  assert (Her : errors !! o1 = Some error) by apply He, Ho1.
  rewrite Hos, exec_cons.
  destruct (update_bias23_spec lr errors o1 error L Hwf Ho1 Her)
    as (L1 & -> & (Hsi1 & Hso1 & Hsb1) & Hwf1 & Hw1 & Hb1 & Hbn1).
  cbn [atomic and_then]. rewrite Hkeys, exec_app.
  destruct (exec23_weights lr errors inp o1 error pre L1)
    as (L2 & -> & (Hsi2 & Hso2 & Hsb2) & Hwf2 & Hb2 & Hk2 & Ho2 & Hn2);
    try done.
  { by rewrite Hso1. }
  { intros i Hi. split; [|by apply Hinp].
    rewrite Hsi1, Hkeys. apply elem_of_app. by left. }
  cbn [and_then]. rewrite exec_cons.
  rewrite (update_weight23_raise lr errors inp o1 i0 error L2); try done.
  2:{ by rewrite Hso2, Hso1. }
  2:{ rewrite Hsi2, Hsi1, Hkeys. apply elem_of_app. right.
      apply list_elem_of_here. }
  cbn [atomic and_then].
  assert (Hw12 : ∀ o i, weight23 L1 o i = weight23 L o i).
  { intros o i. unfold weight23. by rewrite Hw1. }
  exists L2. split_and!.
  - done.
  - split_and!; congruence.
  - unfold bias23 at 1. rewrite Hb2. fold (bias23 L1 o1). done.
  - intros i Hi. rewrite Hk2 by done. by rewrite Hw12.
  - intros i Hi. rewrite Ho2 by (by right). by rewrite Hw12.
  - intros o Hne. split.
    + rewrite Hb2. by apply Hbn1.
    + rewrite Hn2 by done. by rewrite Hw1.
Qed.

(** ** Two calls of [add] (Demo28) *)

Lemma add_twice ls h x y z s oy oz n :
  chain h x ls → h !! x = Some s → h !! y = Some oy → h !! z = Some oz →
  y ∉ ls → z ∉ ls → (S (length ls) ≤ n)%nat →
  ∃ h1 h2 ls2, add n h x y = Some h1 ∧ add n h1 x z = Some h2 ∧
    chain h2 x ls2 ∧ (length ls2 ≤ length ls + 2)%nat ∧
    (∀ fl, recon h2 fl ls2 = recon h fl ls + getattr oy fl + getattr oz fl) ∧
    h2 !! y = Some oy ∧ h2 !! z = Some oz ∧
    (∀ l, (l < length h)%nat → l ∉ ls → h2 !! l = h !! l).
Proof.
  intros Hc Hs Hy Hz Hyl Hzl Hn.
  assert (Hyl' : (y < length h)%nat) by by eapply lookup_lt_Some.
  assert (Hzl' : (z < length h)%nat) by by eapply lookup_lt_Some.
  destruct (add_chain ls h x n y s oy Hc Hs Hy)
    as (h1 & ls1 & E1 & Hc1 & Hlen1 & Hfr1 & Hrec1 & Hsh1 & Hx1); [lia|].
  assert (Hls1 : (length ls1 ≤ S (length ls))%nat ∧
                 ∀ l, (l < length h)%nat → l ∉ ls → l ∉ ls1).
  { destruct Hsh1 as [->|(c & -> & Hge)]; [split; [lia|done]|].
    split; [rewrite length_app; simpl; lia|].
    intros l Hl Hni Hin. apply elem_of_app in Hin as [Hin|Hin]; [done|].
    apply list_elem_of_singleton in Hin. lia. }
  destruct Hls1 as [Hl1 Hni1].
  destruct (add_chain ls1 h1 x n z _ oz Hc1 Hx1)
    as (h2 & ls2 & E2 & Hc2 & Hlen2 & Hfr2 & Hrec2 & Hsh2 & _);
    [by rewrite Hfr1|lia|].
  exists h1, h2, ls2. split_and!; [done|done|done| | | | |].
  - destruct Hsh2 as [->|(c & -> & Hge)]; [lia|].
    rewrite length_app. simpl. lia.
  - intros fl. rewrite Hrec2, Hrec1. done.
  - rewrite Hfr2; [by rewrite Hfr1|lia|by apply Hni1].
  - rewrite Hfr2; [by rewrite Hfr1|lia|by apply Hni1].
  - intros l Hl Hni. rewrite Hfr2; [by rewrite Hfr1|lia|by apply Hni1].
Qed.

(** X27. Two calls of [add] of Demo28 on the same cell compose, and
    their order does not matter for the value.  With [x] on a finite
    left-chain and [y], [z] off it, [add(x, y)] followed by [add(x, z)]
    returns, the reconstruction over the final chain of [x] is the
    old one plus the fields of [y] and of [z], the chain has grown by
    at most two cells, and [y], [z] and every other cell off the chain
    are unchanged.  The two calls in the other order reconstruct to the
    same value. *)
Theorem X27_add_twice_commutes ls h x y z s oy oz n :
  chain h x ls → h !! x = Some s → h !! y = Some oy → h !! z = Some oz →
  y ∉ ls → z ∉ ls → (S (length ls) ≤ n)%nat →
  ∃ h1 h2 ls2 h1' h2' ls2',
    add n h x y = Some h1 ∧ add n h1 x z = Some h2 ∧ chain h2 x ls2 ∧
    add n h x z = Some h1' ∧ add n h1' x y = Some h2' ∧ chain h2' x ls2' ∧
    (length ls2 ≤ length ls + 2)%nat ∧
    (∀ fl, recon h2 fl ls2 = recon h fl ls + getattr oy fl + getattr oz fl) ∧
    (∀ fl, recon h2' fl ls2' = recon h2 fl ls2) ∧
    h2 !! y = Some oy ∧ h2 !! z = Some oz ∧
    (∀ l, (l < length h)%nat → l ∉ ls → h2 !! l = h !! l).
Proof.
  intros Hc Hs Hy Hz Hyl Hzl Hn.
  destruct (add_twice ls h x y z s oy oz n Hc Hs Hy Hz Hyl Hzl Hn)
    as (h1 & h2 & ls2 & E1 & E2 & Hc2 & Hl2 & Hr2 & Hy2 & Hz2 & Hfr2).
  destruct (add_twice ls h x z y s oz oy n Hc Hs Hz Hy Hzl Hyl Hn)
    as (h1' & h2' & ls2' & E1' & E2' & Hc2' & _ & Hr2' & _).
  exists h1, h2, ls2, h1', h2', ls2'. split_and!; try done.
  intros fl. rewrite Hr2', Hr2. lia.
Qed.

Lemma X27_add_twice_commutes_witness :
  let h := [cell_a 8 None; cell_a 7 None; cell_a 9 None] in
  ∃ h1 h2 ls2 h1' h2' ls2',
    add 2 h 0%nat 1%nat = Some h1 ∧ add 2 h1 0%nat 2%nat = Some h2 ∧
    chain h2 0%nat ls2 ∧
    add 2 h 0%nat 2%nat = Some h1' ∧ add 2 h1' 0%nat 1%nat = Some h2' ∧
    chain h2' 0%nat ls2' ∧
    (length ls2 ≤ length [0%nat] + 2)%nat ∧
    (∀ fl, recon h2 fl ls2
           = recon h fl [0%nat] + getattr (cell_a 7 None) fl
             + getattr (cell_a 9 None) fl) ∧
    (∀ fl, recon h2' fl ls2' = recon h2 fl ls2) ∧
    h2 !! 1%nat = Some (cell_a 7 None) ∧ h2 !! 2%nat = Some (cell_a 9 None) ∧
    (∀ l, (l < length h)%nat → l ∉ [0%nat] → h2 !! l = h !! l).
Proof.
  apply (X27_add_twice_commutes [0%nat]
           [cell_a 8 None; cell_a 7 None; cell_a 9 None] 0%nat 1%nat 2%nat
           (cell_a 8 None) (cell_a 7 None) (cell_a 9 None) 2).
  - by eapply chain_end.
  - reflexivity.
  - reflexivity.
  - reflexivity.
  - intros Hin. apply list_elem_of_singleton in Hin. discriminate.
  - intros Hin. apply list_elem_of_singleton in Hin. discriminate.
  - simpl. lia.
Defined.

(** ** Demo23: the store of dicts and the layer of values *)

Lemma same_run_atomic {S T} (R : S → T → Prop) (r : res S) (r' : res T) s t :
  R s t →
  match r, r' with
  | Ok s', Ok t' => R s' t'
  | Raise e, Raise e' => e = e'
  | _, _ => False
  end →
  same_run R (atomic r s) (atomic r' t).
Proof. intros HR. destruct r, r'; cbn; intros H; try done. by subst. Qed.

Lemma same_run_and_then {S T} (R : S → T → Prop) x y
    (k : S → S * option exn) (k' : T → T * option exn) :
  same_run R x y → (∀ s t, R s t → same_run R (k s) (k' t)) →
  same_run R (and_then x k) (and_then y k').
Proof.
  destruct x as [s [e|]], y as [t [e'|]]; intros [HR He] Hk; cbn in *;
    try done. by apply Hk.
Qed.

Lemma same_run_exec {A S T} (R : S → T → Prop)
    (f : A → S → S * option exn) (g : A → T → T * option exn) :
  (∀ a s t, R s t → same_run R (f a s) (g a t)) →
  ∀ xs s t, R s t → same_run R (exec f xs s) (exec g xs t).
Proof.
  intros Hfg. induction xs as [|x xs IH]; intros s t HR; [done|].
  cbn [exec]. apply same_run_and_then; [by apply Hfg|done].
Qed.

Lemma getkey_Some {V} (d : gmap string V) k v :
  d !! k = Some v → getkey d k = Ok v.
Proof. unfold getkey. by intros ->. Qed.

Lemma getkey_None {V} (d : gmap string V) k :
  d !! k = None → getkey d k = Raise (KeyError k).
Proof. unfold getkey. by intros ->. Qed.

Section shared.
Variables (L : Shared23.QuantumNumberLayer) (h0 : Shared23.store).
Variables (input_qn : loc) (inp : gmap string Z).
Hypothesis Hown : own_dicts L input_qn.

Lemma update_bias_same_run lr errors o h1 L1 :
  holds L h0 input_qn inp h1 L1 →
  same_run (holds L h0 input_qn inp)
    (atomic (Shared23.update_bias L lr errors o h1) h1)
    (atomic (Demo23.update_bias lr errors o L1) L1).
Proof.
  intros HR. apply same_run_atomic; [done|].
  destruct HR as (<- & (Hbd & [bs Hbs] & Hws) & Hinp & Hlen & Hfr).
  destruct Hown as (Hinj & Hwb & Hbases & Hin).
  unfold Shared23.update_bias, Demo23.update_bias.
  rewrite Hbs, of_opt_Some, rbind_Ok.
  cbn [snapshot Demo23.biases]. rewrite Hbs. cbn [default from_option].
  change (id bs) with bs.
  destruct (bs !! o) as [b|] eqn:Hb;
    [rewrite (getkey_Some _ _ _ Hb)|by rewrite (getkey_None _ _ Hb)].
  rewrite !rbind_Ok.
  destruct (errors !! o) as [er|] eqn:Her;
    [rewrite (getkey_Some _ _ _ Her)|by rewrite (getkey_None _ _ Her)].
  rewrite !rbind_Ok.
  assert (Hlt : (Shared23.biases L < length h1)%nat)
    by (by eapply lookup_lt_Some).
  split_and!.
  - unfold snapshot, Demo23.set_biases. cbn. f_equal.
    + rewrite list_lookup_insert_ne; [done|].
      intros E. apply Hbases. left. congruence.
    + apply map_eq. intros o'. rewrite !lookup_omap.
      destruct (Shared23.weights L !! o') as [l|] eqn:Hl; [|done]. cbn.
      rewrite list_lookup_insert_ne; [done|].
      intros <-. by apply (Hwb o').
    + by rewrite list_lookup_insert_eq.
  - split_and!.
    + apply lookup_lt_is_Some. rewrite length_insert.
      by apply lookup_lt_is_Some.
    + apply lookup_lt_is_Some. by rewrite length_insert.
    + intros o' l Hl. apply lookup_lt_is_Some. rewrite length_insert.
      apply lookup_lt_is_Some. by eapply Hws.
  - rewrite list_lookup_insert_ne; [done|].
    intros E. apply Hin. left. congruence.
  - by rewrite length_insert.
  - intros l Hl. rewrite list_lookup_insert_ne; [by apply Hfr|].
    intros E. apply Hl. left. congruence.
Qed.

Lemma update_weight_same_run lr errors o i h1 L1 :
  holds L h0 input_qn inp h1 L1 →
  same_run (holds L h0 input_qn inp)
    (atomic (Shared23.update_weight L lr errors input_qn o i h1) h1)
    (atomic (Demo23.update_weight lr errors inp o i L1) L1).
Proof.
  intros HR. apply same_run_atomic; [done|].
  destruct HR as (<- & (Hbd & Hbs & Hws) & Hinp & Hlen & Hfr).
  destruct Hown as (Hinj & Hwb & Hbases & Hin).
  unfold Shared23.update_weight, Demo23.update_weight.
  cbn [snapshot Demo23.weights].
  destruct (Shared23.weights L !! o) as [l|] eqn:Hl.
  2:{ rewrite (getkey_None _ _ Hl).
      rewrite (getkey_None (omap _ _) o); [done|].
      by rewrite lookup_omap, Hl. }
  rewrite (getkey_Some _ _ _ Hl), rbind_Ok.
  destruct (Hws o l Hl) as [wo Hwo].
  rewrite Hwo, of_opt_Some, rbind_Ok.
  rewrite (getkey_Some (omap _ _) o wo) by (by rewrite lookup_omap, Hl).
  rewrite rbind_Ok.
  destruct (wo !! i) as [w|] eqn:Hw;
    [rewrite (getkey_Some _ _ _ Hw)|by rewrite (getkey_None _ _ Hw)].
  rewrite !rbind_Ok.
  destruct (errors !! o) as [er|] eqn:Her;
    [rewrite (getkey_Some _ _ _ Her)|by rewrite (getkey_None _ _ Her)].
  rewrite !rbind_Ok, Hinp, of_opt_Some, rbind_Ok.
  destruct (inp !! i) as [v|] eqn:Hv;
    [rewrite (getkey_Some _ _ _ Hv)|by rewrite (getkey_None _ _ Hv)].
  rewrite !rbind_Ok.
  assert (Hlt : (l < length h1)%nat) by (by eapply lookup_lt_Some).
  assert (Hwl : written L l) by (right; by exists o).
  split_and!.
  - unfold snapshot, Demo23.set_weights. cbn. f_equal.
    + rewrite list_lookup_insert_ne; [done|].
      intros E. apply Hbases. congruence.
    + apply map_eq. intros o'. rewrite lookup_omap.
      destruct (decide (o' = o)) as [->|Hne].
      * rewrite lookup_insert_eq, Hl. cbn. by rewrite list_lookup_insert_eq.
      * rewrite lookup_insert_ne, lookup_omap by done.
        destruct (Shared23.weights L !! o') as [l'|] eqn:Hl'; [|done]. cbn.
        rewrite list_lookup_insert_ne; [done|].
        intros E. apply Hne. apply (Hinj o' o l); congruence.
    + rewrite list_lookup_insert_ne; [done|].
      intros E. apply (Hwb o). congruence.
  - split_and!.
    + apply lookup_lt_is_Some. rewrite length_insert.
      by apply lookup_lt_is_Some.
    + apply lookup_lt_is_Some. rewrite length_insert.
      by apply lookup_lt_is_Some.
    + intros o' l' Hl'. apply lookup_lt_is_Some. rewrite length_insert.
      apply lookup_lt_is_Some. by eapply Hws.
  - rewrite list_lookup_insert_ne; [done|].
    intros E. apply Hin. congruence.
  - by rewrite length_insert.
  - intros l' Hl'. rewrite list_lookup_insert_ne; [by apply Hfr|].
    intros E. apply Hl'. congruence.
Qed.
End shared.

(** With no written dict reached under two names, [backward] on the
    store goes as [backward] on the layer of values: the same
    exception, if any, and the store it leaves holds the layer that
    the run on values leaves.  Only the dicts written have changed. *)
Lemma backward_same_run L h input_qn target_qn output_qn inp target output lr :
  h !! input_qn = Some inp → h !! target_qn = Some target →
  h !! output_qn = Some output →
  allocated h L → own_dicts L input_qn →
  same_run (holds L h input_qn inp)
    (Shared23.backward L h input_qn target_qn output_qn lr)
    (Demo23.backward (snapshot h L) inp target output lr).
Proof.
  intros Hinp Htg Hout Hal Hown.
  assert (HR : holds L h input_qn inp h (snapshot h L)) by done.
  unfold Shared23.backward, Demo23.backward.
  rewrite (rfoldM_ext (Shared23.error_of h target_qn output_qn)
             (Demo23.error_of target output)).
  2:{ intros k errs. unfold Shared23.error_of, Demo23.error_of.
      by rewrite Htg, Hout, !of_opt_Some, !rbind_Ok. }
  cbn [snapshot Demo23.output_keys].
  destruct (rfoldM _ _ _) as [errors|e]; [|done].
  apply same_run_exec; [|done].
  intros o h1 L1 HR1.
  replace (Demo23.input_keys L1) with (Shared23.input_keys L)
    by (by destruct HR1 as (<- & _)).
  apply same_run_and_then.
  - by apply update_bias_same_run.
  - intros h2 L2 HR2. apply same_run_exec; [|done].
    intros i h3 L3 HR3. by apply update_weight_same_run.
Qed.

(** [forward] only reads: on the store it computes what [forward]
    computes on the layer of values that the store holds, whatever
    dicts are shared, and returns it as a new dict. *)
Lemma forward_snapshot L h input_qn inp :
  h !! input_qn = Some inp → allocated h L →
  Shared23.forward L h input_qn
  = (output_qn ← Demo23.forward (snapshot h L) inp;
     Ok (h ++ [output_qn], length h)).
Proof.
  intros Hinp (Hbd & Hbs & Hws).
  unfold Shared23.forward, Demo23.forward. cbn [snapshot Demo23.output_keys].
  rewrite (rfoldM_ext (Shared23.forward_out L h input_qn)
             (Demo23.forward_out (snapshot h L) inp)); [done|].
  intros o out _. unfold Shared23.forward_out, Demo23.forward_out.
  destruct Hbs as [bs Hbs]. destruct Hbd as [bd Hbd].
  cbn [snapshot Demo23.biases Demo23.bases Demo23.input_keys].
  rewrite Hbs, Hbd, !of_opt_Some, rbind_Ok. cbn [default from_option].
  change (id bs) with bs. change (id bd) with bd.
  destruct (getkey bs o) as [total0|e]; [|done]. rewrite !rbind_Ok.
  rewrite (rfoldM_ext (Shared23.forward_in L h input_qn o)
             (Demo23.forward_in (snapshot h L) inp o)).
  2:{ intros i total _. unfold Shared23.forward_in, Demo23.forward_in.
      cbn [snapshot Demo23.weights].
      destruct (Shared23.weights L !! o) as [l|] eqn:Hl.
      - destruct (Hws o l Hl) as [wo Hwo].
        rewrite (getkey_Some _ _ _ Hl), rbind_Ok, Hwo, of_opt_Some, rbind_Ok.
        rewrite (getkey_Some (omap _ _) o wo) by (by rewrite lookup_omap, Hl).
        rewrite rbind_Ok. destruct (getkey wo i) as [w|e]; [|done].
        by rewrite !rbind_Ok, Hinp, of_opt_Some, rbind_Ok.
      - rewrite (getkey_None _ _ Hl).
        rewrite (getkey_None (omap _ _) o); [done|].
        by rewrite lookup_omap, Hl. }
  destruct (rfoldM _ _ _) as [total|e]; [|done].
  by rewrite ?rbind_Ok.
Qed.

(** The constructor, given inner dicts that are distinct objects of the
    store and a [bases] that is none of them, builds a layer none of
    whose written dicts is reached under two names: [biases] is a new
    object. *)
Lemma layer_init_own_dicts h input_keys output_keys bases initial_weights
    input_qn :
  (bases < length h)%nat → (input_qn < length h)%nat →
  (∀ o l, initial_weights !! o = Some l → (l < length h)%nat) →
  (∀ o o' l, initial_weights !! o = Some l →
             initial_weights !! o' = Some l → o = o') →
  (∀ o, initial_weights !! o ≠ Some bases) →
  (∀ o, initial_weights !! o ≠ Some input_qn) →
  let r := Shared23.layer_init h input_keys output_keys bases
             initial_weights in
  allocated r.1 r.2 ∧ own_dicts r.2 input_qn ∧
  snapshot r.1 r.2
  = Demo23.layer_init input_keys output_keys (default ∅ (h !! bases))
      (omap (λ l, h !! l) initial_weights) ∧
  ∀ l, (l < length h)%nat → r.1 !! l = h !! l.
Proof.
  intros Hb Hi Hlt Hinj Hwb Hwi r. unfold r, Shared23.layer_init.
  cbn [fst snd]. split_and!.
  - split_and!; cbn.
    + apply lookup_lt_is_Some. rewrite length_app. lia.
    + apply lookup_lt_is_Some. rewrite length_app. cbn. lia.
    + intros o l Hl. apply lookup_lt_is_Some. rewrite length_app.
      specialize (Hlt o l Hl). lia.
  - split_and!; cbn.
    + done.
    + intros o Hl. specialize (Hlt o _ Hl). lia.
    + intros [E|[o Hl]]; cbn in *; [lia|]. by apply (Hwb o).
    + intros [E|[o Hl]]; cbn in *; [lia|]. by apply (Hwi o).
  - unfold snapshot, Demo23.layer_init. cbn. f_equal.
    + by rewrite lookup_app_l.
    + apply map_eq. intros o. rewrite !lookup_omap.
      destruct (initial_weights !! o) as [l|] eqn:Hl; [|done]. cbn.
      rewrite lookup_app_l; [done|]. by eapply Hlt.
    + by rewrite list_lookup_middle.
  - intros l Hl. by rewrite lookup_app_l.
Qed.

Lemma allocated_store23 : allocated store23 shared_layer23.
Proof.
  split_and!; [by eexists|by eexists|].
  intros o l Hl. cbn in Hl.
  apply lookup_insert_Some in Hl as [[_ <-]|[_ Hl]]; [by eexists|].
  apply lookup_singleton_Some in Hl as [_ <-]. by eexists.
Qed.

Lemma own_dicts_store23 : own_dicts shared_layer23 4%nat.
Proof.
  assert (Hl : ∀ o l, Shared23.weights shared_layer23 !! o = Some l →
                 (o = "x" ∧ l = 2%nat) ∨ (o = "y" ∧ l = 3%nat)).
  { intros o l Hl. cbn in Hl.
    apply lookup_insert_Some in Hl as [[<- <-]|[_ Hl]]; [by left|].
    apply lookup_singleton_Some in Hl as [<- <-]. by right. }
  split_and!.
  - intros o o' l H1 H2.
    destruct (Hl _ _ H1) as [[-> ->]|[-> ->]],
             (Hl _ _ H2) as [[-> ?]|[-> ?]]; done.
  - intros o H1. destruct (Hl _ _ H1) as [[_ ?]|[_ ?]]; done.
  - intros [?|[o H1]]; [done|]. destruct (Hl _ _ H1) as [[_ ?]|[_ ?]]; done.
  - intros [?|[o H1]]; [done|]. destruct (Hl _ _ H1) as [[_ ?]|[_ ?]]; done.
Qed.

Lemma well_formed23_store23 :
  well_formed23 (snapshot store23 shared_layer23).
Proof.
  intros o Ho. cbn in Ho.
  apply elem_of_cons in Ho as [->|Ho];
    [|apply list_elem_of_singleton in Ho as ->].
  - split; [by eexists|]. eexists. split; [by vm_compute|].
    intros i Hi. cbn in Hi.
    apply elem_of_cons in Hi as [->|Hi]; [by eexists|].
    apply list_elem_of_singleton in Hi as ->. by eexists.
  - split; [by eexists|]. eexists. split; [by vm_compute|].
    intros i Hi. cbn in Hi.
    apply elem_of_cons in Hi as [->|Hi]; [by eexists|].
    apply list_elem_of_singleton in Hi as ->. by eexists.
Qed.

(** X16. [backward] of Demo23 is the integer delta rule on the output
    it is given, provided that no dict it writes is reached under two
    names: the inner dicts of [weights] are distinct objects, none of
    them is [biases], and neither [bases] nor the input is one of the
    dicts written (the target and the output may be any dicts).  On
    such a layer that holds a bias and a weight for its keys, no key
    listed twice, with target and output holding every output key and
    the input every input key, it returns without raising, changes no
    dict but [biases] and the inner dicts, and leaves
    [bias + lr * error] in every bias and
    [weight + lr * error * input] in every weight, with
    [error = target - output]; no modulus is applied to the stored
    values, and entries of the dicts under other keys are untouched.
    On the same input the sum that [forward] reduces has moved by
    [lr * error * (1 + sum of the squared inputs)]. *)
Theorem X16_backward23_delta_rule L h input_qn target_qn output_qn
    inp target output lr :
  h !! input_qn = Some inp → h !! target_qn = Some target →
  h !! output_qn = Some output →
  allocated h L → own_dicts L input_qn →
  well_formed23 (snapshot h L) →
  NoDup (Shared23.output_keys L) → NoDup (Shared23.input_keys L) →
  (∀ o, o ∈ Shared23.output_keys L →
        is_Some (target !! o) ∧ is_Some (output !! o)) →
  (∀ i, i ∈ Shared23.input_keys L → is_Some (inp !! i)) →
  ∃ h', Shared23.backward L h input_qn target_qn output_qn lr = (h', None) ∧
    length h' = length h ∧
    (∀ l, ¬ written L l → h' !! l = h !! l) ∧
    well_formed23 (snapshot h' L) ∧
    (∀ o, o ∈ Shared23.output_keys L →
       let error := default 0 (target !! o) - default 0 (output !! o) in
       bias23 (snapshot h' L) o = bias23 (snapshot h L) o + lr * error ∧
       (∀ i, i ∈ Shared23.input_keys L →
          weight23 (snapshot h' L) o i
          = weight23 (snapshot h L) o i + lr * error * default 0 (inp !! i)) ∧
       affine23 (snapshot h' L) inp o
       = affine23 (snapshot h L) inp o
         + lr * error * (1 + sum_sq inp (Shared23.input_keys L))) ∧
    (∀ o, o ∉ Shared23.output_keys L →
       Demo23.biases (snapshot h' L) !! o
       = Demo23.biases (snapshot h L) !! o ∧
       Demo23.weights (snapshot h' L) !! o
       = Demo23.weights (snapshot h L) !! o).
Proof.
  intros Hinp Htg Hout Hal Hown Hwf Hndo Hndi Hto Hin.
  destruct (backward_same_run L h input_qn target_qn output_qn inp target
              output lr Hinp Htg Hout Hal Hown) as (HR & He).
  destruct (backward23_value_delta_rule (snapshot h L) inp target output lr
              Hwf Hndo Hndi Hto Hin) as (L' & E & _ & Hwf' & Hk & Hn).
  rewrite E in HR, He. cbn [fst snd] in HR, He.
  destruct (Shared23.backward L h input_qn target_qn output_qn lr)
    as [h' e]. cbn [fst snd] in HR, He. subst e.
  destruct HR as (Hsnap & _ & _ & Hlen & Hfr). rewrite <- Hsnap in *.
  exists h'. split_and!; done.
Qed.

Lemma X16_backward23_delta_rule_witness :
  let inp : gmap string Z := {[ "a" := 3; "b" := 5 ]} in
  let target : gmap string Z := {[ "x" := 5; "y" := 4 ]} in
  let output : gmap string Z := {[ "x" := 1; "y" := 2 ]} in
  let L := shared_layer23 in
  ∃ h', Shared23.backward L store23 4%nat 5%nat 6%nat 2 = (h', None) ∧
    length h' = length store23 ∧
    (∀ l, ¬ written L l → h' !! l = store23 !! l) ∧
    well_formed23 (snapshot h' L) ∧
    (∀ o, o ∈ Shared23.output_keys L →
       let error := default 0 (target !! o) - default 0 (output !! o) in
       bias23 (snapshot h' L) o = bias23 (snapshot store23 L) o + 2 * error ∧
       (∀ i, i ∈ Shared23.input_keys L →
          weight23 (snapshot h' L) o i
          = weight23 (snapshot store23 L) o i
            + 2 * error * default 0 (inp !! i)) ∧
       affine23 (snapshot h' L) inp o
       = affine23 (snapshot store23 L) inp o
         + 2 * error * (1 + sum_sq inp (Shared23.input_keys L))) ∧
    (∀ o, o ∉ Shared23.output_keys L →
       Demo23.biases (snapshot h' L) !! o
       = Demo23.biases (snapshot store23 L) !! o ∧
       Demo23.weights (snapshot h' L) !! o
       = Demo23.weights (snapshot store23 L) !! o).
Proof.
  apply (X16_backward23_delta_rule shared_layer23 store23 4%nat 5%nat 6%nat
           {[ "a" := 3; "b" := 5 ]} {[ "x" := 5; "y" := 4 ]}
           {[ "x" := 1; "y" := 2 ]} 2).
  - reflexivity.
  - reflexivity.
  - reflexivity.
  - apply allocated_store23.
  - apply own_dicts_store23.
  - apply well_formed23_store23.
  - apply (bool_decide_unpack _). by vm_compute.
  - apply (bool_decide_unpack _). by vm_compute.
  - intros o Ho. cbn in Ho.
    apply elem_of_cons in Ho as [->|Ho];
      [|apply list_elem_of_singleton in Ho as ->]; split; by eexists.
  - intros i Hi. cbn in Hi.
    apply elem_of_cons in Hi as [->|Hi]; [by eexists|].
    apply list_elem_of_singleton in Hi as ->. by eexists.
Defined.

(** X26. [backward] of Demo23 is not atomic.  On a layer none of whose
    written dicts is reached under two names, when the input lacks an
    input key (target and output holding every output key), the call
    raises [KeyError] for the first such key while updating the first
    output key: the bias of that output key and its weights for the
    input keys before the missing one are already updated in the
    store, and everything else is as it was. *)
Theorem X26_backward23_missing_input L h input_qn target_qn output_qn
    inp target output lr o1 os pre i0 post :
  h !! input_qn = Some inp → h !! target_qn = Some target →
  h !! output_qn = Some output →
  allocated h L → own_dicts L input_qn →
  well_formed23 (snapshot h L) →
  Shared23.output_keys L = o1 :: os →
  Shared23.input_keys L = pre ++ i0 :: post → NoDup pre →
  (∀ o, o ∈ Shared23.output_keys L →
        is_Some (target !! o) ∧ is_Some (output !! o)) →
  (∀ i, i ∈ pre → is_Some (inp !! i)) → inp !! i0 = None →
  let error := default 0 (target !! o1) - default 0 (output !! o1) in
  ∃ h', Shared23.backward L h input_qn target_qn output_qn lr
        = (h', Some (KeyError i0)) ∧
    length h' = length h ∧
    (∀ l, ¬ written L l → h' !! l = h !! l) ∧
    bias23 (snapshot h' L) o1 = bias23 (snapshot h L) o1 + lr * error ∧
    (∀ i, i ∈ pre →
       weight23 (snapshot h' L) o1 i
       = weight23 (snapshot h L) o1 i + lr * error * default 0 (inp !! i)) ∧
    (∀ i, i ∉ pre →
       weight23 (snapshot h' L) o1 i = weight23 (snapshot h L) o1 i) ∧
    (∀ o, o ≠ o1 →
       Demo23.biases (snapshot h' L) !! o
       = Demo23.biases (snapshot h L) !! o ∧
       Demo23.weights (snapshot h' L) !! o
       = Demo23.weights (snapshot h L) !! o).
Proof.
  intros Hinp Htg Hout Hal Hown Hwf Hos Hkeys Hndp Hto Hin Hmiss error.
  destruct (backward_same_run L h input_qn target_qn output_qn inp target
              output lr Hinp Htg Hout Hal Hown) as (HR & He).
  destruct (backward23_value_missing_input (snapshot h L) inp target output
              lr o1 os pre i0 post Hwf Hos Hkeys Hndp Hto Hin Hmiss)
    as (L' & E & _ & Hb & Hk & Hnk & Hn).
  rewrite E in HR, He. cbn [fst snd] in HR, He.
  destruct (Shared23.backward L h input_qn target_qn output_qn lr)
    as [h' e]. cbn [fst snd] in HR, He. subst e.
  destruct HR as (Hsnap & _ & _ & Hlen & Hfr). rewrite <- Hsnap in *.
  exists h'. split_and!; done.
Qed.

Lemma X26_backward23_missing_input_witness :
  let inp : gmap string Z := {[ "a" := 3 ]} in
  let target : gmap string Z := {[ "x" := 5; "y" := 4 ]} in
  let output : gmap string Z := {[ "x" := 1; "y" := 2 ]} in
  let L := shared_layer23 in
  let h := <[4%nat := inp]> store23 in
  let error := default 0 (target !! "x") - default 0 (output !! "x") in
  ∃ h', Shared23.backward L h 4%nat 5%nat 6%nat 2
        = (h', Some (KeyError "b")) ∧
    length h' = length h ∧
    (∀ l, ¬ written L l → h' !! l = h !! l) ∧
    bias23 (snapshot h' L) "x" = bias23 (snapshot h L) "x" + 2 * error ∧
    (∀ i, i ∈ ["a"] →
       weight23 (snapshot h' L) "x" i
       = weight23 (snapshot h L) "x" i + 2 * error * default 0 (inp !! i)) ∧
    (∀ i, i ∉ ["a"] →
       weight23 (snapshot h' L) "x" i = weight23 (snapshot h L) "x" i) ∧
    (∀ o, o ≠ "x" →
       Demo23.biases (snapshot h' L) !! o
       = Demo23.biases (snapshot h L) !! o ∧
       Demo23.weights (snapshot h' L) !! o
       = Demo23.weights (snapshot h L) !! o).
Proof.
  apply (X26_backward23_missing_input shared_layer23
           (<[4%nat := {[ "a" := 3 ]}]> store23) 4%nat 5%nat 6%nat
           {[ "a" := 3 ]} {[ "x" := 5; "y" := 4 ]} {[ "x" := 1; "y" := 2 ]}
           2 "x" ["y"] ["a"] "b" []).
  - reflexivity.
  - reflexivity.
  - reflexivity.
  - split_and!; [by eexists|by eexists|].
    intros o l Hl. destruct (allocated_store23) as (_ & _ & Hw).
    destruct (Hw o l Hl) as [d Hd]. apply lookup_lt_is_Some.
    rewrite length_insert. by eapply lookup_lt_Some.
  - apply own_dicts_store23.
  - apply well_formed23_store23.
  - reflexivity.
  - reflexivity.
  - apply (bool_decide_unpack _). by vm_compute.
  - intros o Ho. cbn in Ho.
    apply elem_of_cons in Ho as [->|Ho];
      [|apply list_elem_of_singleton in Ho as ->]; split; by eexists.
  - intros i Hi. apply list_elem_of_singleton in Hi as ->. by eexists.
  - reflexivity.
Defined.

(** ** Demo23: inner dicts held under several output keys *)

Lemma shared_error_ext L err err' l os :
  (∀ o, o ∈ os → err o = err' o) →
  shared_error L err l os = shared_error L err' l os.
Proof.
  induction os as [|o os IH]; intros He; [done|].
  cbn [shared_error foldr]. fold (shared_error L err l os).
  fold (shared_error L err' l os).
  rewrite IH by (intros o' Ho'; by apply He, list_elem_of_further).
  by rewrite (He o) by apply list_elem_of_here.
Qed.

Lemma shared_error_cons L err l o os :
  shared_error L err l (o :: os)
  = (if decide (Shared23.weights L !! o = Some l) then err o else 0)
    + shared_error L err l os.
Proof. done. Qed.

(** With distinct inner dicts the sum has one term. *)
Lemma shared_error_own L err l o os :
  (∀ o1 o2 l', Shared23.weights L !! o1 = Some l' →
               Shared23.weights L !! o2 = Some l' → o1 = o2) →
  NoDup os → o ∈ os → Shared23.weights L !! o = Some l →
  shared_error L err l os = err o.
Proof.
  intros Hinj. induction os as [|o1 os IH]; intros Hnd Ho Hl.
  { by apply elem_of_nil in Ho. }
  apply NoDup_cons in Hnd as [Hni Hnd]. rewrite shared_error_cons.
  assert (Hz : o ∉ os → shared_error L err l os = 0).
  { clear IH Hnd Hni Ho. induction os as [|o2 os IH]; intros Hn; [done|].
    apply not_elem_of_cons in Hn as [Hne Hn].
    rewrite shared_error_cons, IH by done.
    rewrite decide_False; [done|]. intros H2. apply Hne.
    by apply (Hinj o o2 l). }
  apply elem_of_cons in Ho as [->|Ho].
  - rewrite decide_True by done. rewrite Hz by done. lia.
  - rewrite decide_False, IH by
      (done || (intros H1; apply Hni; by rewrite (Hinj o1 o l))). lia.
Qed.

Section aliasing.
Variables (L : Shared23.QuantumNumberLayer) (lr : Z) (errors : gmap string Z).
Variables (input_qn : loc) (inp : gmap string Z).
Hypothesis Hwb : ∀ o, Shared23.weights L !! o ≠ Some (Shared23.biases L).
Hypothesis Hib : input_qn ≠ Shared23.biases L.
Hypothesis Hiw : ∀ o, Shared23.weights L !! o ≠ Some input_qn.

Lemma shared_bias_step h1 bs o b er :
  h1 !! Shared23.biases L = Some bs → bs !! o = Some b →
  errors !! o = Some er →
  Shared23.update_bias L lr errors o h1
  = Ok (<[Shared23.biases L := <[o := b + lr * er]> bs]> h1).
Proof.
  intros Hbs Hb Her. unfold Shared23.update_bias.
  by rewrite Hbs, of_opt_Some, rbind_Ok, (getkey_Some _ _ _ Hb), rbind_Ok,
    (getkey_Some _ _ _ Her), rbind_Ok.
Qed.

Lemma shared_weight_step h1 o i l w wi er v :
  Shared23.weights L !! o = Some l → h1 !! l = Some w → w !! i = Some wi →
  errors !! o = Some er → h1 !! input_qn = Some inp → inp !! i = Some v →
  Shared23.update_weight L lr errors input_qn o i h1
  = Ok (<[l := <[i := wi + lr * er * v]> w]> h1).
Proof.
  intros Hl Hw Hwi Her Hinp Hv. unfold Shared23.update_weight.
  by rewrite (getkey_Some _ _ _ Hl), rbind_Ok, Hw, of_opt_Some, rbind_Ok,
    (getkey_Some _ _ _ Hwi), rbind_Ok, (getkey_Some _ _ _ Her), rbind_Ok,
    Hinp, of_opt_Some, rbind_Ok, (getkey_Some _ _ _ Hv), rbind_Ok.
Qed.

(** The inner loop rewrites one object, the inner dict of [o]. *)
Lemma shared_weights_loop o l er : ∀ keys w h1,
  NoDup keys →
  Shared23.weights L !! o = Some l → h1 !! l = Some w →
  errors !! o = Some er → h1 !! input_qn = Some inp →
  (∀ i, i ∈ keys → is_Some (w !! i) ∧ is_Some (inp !! i)) →
  ∃ w', exec (λ in_k h2,
                atomic (Shared23.update_weight L lr errors input_qn o in_k h2)
                       h2) keys h1
        = (<[l := w']> h1, None) ∧
    (∀ i, i ∈ keys →
       w' !! i = Some (default 0 (w !! i) + lr * er * default 0 (inp !! i))) ∧
    (∀ i, i ∉ keys → w' !! i = w !! i).
Proof.
  induction keys as [|k keys IH]; intros w h1 Hnd Hl Hw Her Hinp Hk.
  { exists w. split_and!.
    - cbn. by rewrite list_insert_id.
    - intros i Hi. by apply elem_of_nil in Hi.
    - done. }
  apply NoDup_cons in Hnd as [Hni Hnd].
  destruct (Hk k (list_elem_of_here _ _)) as ([wk Hwk] & [v Hv]).
  assert (Hlt : (l < length h1)%nat) by (by eapply lookup_lt_Some).
  assert (Hne : input_qn ≠ l) by (intros ->; by apply (Hiw o)).
  destruct (IH (<[k := wk + lr * er * v]> w)
               (<[l := <[k := wk + lr * er * v]> w]> h1))
    as (w' & E & Hin & Hout); try done.
  { by rewrite list_lookup_insert_eq. }
  { by rewrite list_lookup_insert_ne. }
  { intros i Hi. destruct (Hk i (list_elem_of_further _ _ _ Hi)) as (Hwi & ?).
    split; [|done]. destruct (decide (i = k)) as [->|Hik].
    - rewrite lookup_insert_eq. by eexists.
    - by rewrite lookup_insert_ne. }
  exists w'. rewrite exec_cons.
  rewrite (shared_weight_step h1 o k l w wk er v) by done.
  cbn [atomic and_then]. rewrite E, list_insert_insert_eq. split_and!.
  - done.
  - intros i Hi. apply elem_of_cons in Hi as [->|Hi].
    + rewrite Hout by done. by rewrite lookup_insert_eq, Hwk, Hv.
    + rewrite Hin by done. rewrite lookup_insert_ne; [done|].
      by intros ->.
  - intros i Hi. apply not_elem_of_cons in Hi as [Hik Hi].
    rewrite Hout by done. by rewrite lookup_insert_ne.
Qed.

(** The outer loop, on any store: every dict other than [biases] has
    moved, at the input keys, by the errors of all the output keys that
    hold it. *)
Lemma shared_backward_loop : ∀ os h1 bs,
  NoDup os → NoDup (Shared23.input_keys L) →
  h1 !! input_qn = Some inp → h1 !! Shared23.biases L = Some bs →
  (∀ i, i ∈ Shared23.input_keys L → is_Some (inp !! i)) →
  (∀ o, o ∈ os →
     is_Some (bs !! o) ∧ is_Some (errors !! o) ∧
     ∃ l w, Shared23.weights L !! o = Some l ∧ h1 !! l = Some w ∧
            ∀ i, i ∈ Shared23.input_keys L → is_Some (w !! i)) →
  ∃ h' bs',
    exec (λ out_k h2,
            and_then (atomic (Shared23.update_bias L lr errors out_k h2) h2)
              (exec (λ in_k h3,
                       atomic (Shared23.update_weight L lr errors input_qn
                                 out_k in_k h3) h3)
                    (Shared23.input_keys L)))
         os h1 = (h', None) ∧
    length h' = length h1 ∧
    h' !! Shared23.biases L = Some bs' ∧
    (∀ o, o ∈ os →
       bs' !! o = Some (default 0 (bs !! o) + lr * default 0 (errors !! o))) ∧
    (∀ o, o ∉ os → bs' !! o = bs !! o) ∧
    (∀ l, l ≠ Shared23.biases L →
       (∀ o, o ∈ os → Shared23.weights L !! o ≠ Some l) →
       h' !! l = h1 !! l) ∧
    ∀ l w, l ≠ Shared23.biases L → h1 !! l = Some w →
      ∃ w', h' !! l = Some w' ∧
        (∀ i, i ∈ Shared23.input_keys L →
           default 0 (w' !! i)
           = default 0 (w !! i)
             + lr * shared_error L (λ o, default 0 (errors !! o)) l os
               * default 0 (inp !! i)) ∧
        (∀ i, i ∉ Shared23.input_keys L → w' !! i = w !! i) ∧
        (∀ i, is_Some (w !! i) → is_Some (w' !! i)).
Proof.
  induction os as [|o1 os IH]; intros h1 bs Hnd Hndi Hinp Hbs Hik Hos.
  { exists h1, bs. split_and!; try done.
    - intros o Ho. by apply elem_of_nil in Ho.
    - intros l w Hl Hw. exists w. split_and!; try done.
      intros i Hi. cbn. lia. }
  apply NoDup_cons in Hnd as [Hni Hnd].
  destruct (Hos o1 (list_elem_of_here _ _))
    as ([b Hb] & [er Her] & l1 & w1 & Hl1 & Hw1 & Hk1).
  assert (Hl1b : l1 ≠ Shared23.biases L) by (intros ->; by apply (Hwb o1)).
  assert (Hl1i : input_qn ≠ l1) by (intros ->; by apply (Hiw o1)).
  set (bs1 := <[o1 := b + lr * er]> bs).
  set (h2 := <[Shared23.biases L := bs1]> h1).
  assert (Hw2 : h2 !! l1 = Some w1)
    by (unfold h2; by rewrite list_lookup_insert_ne).
  assert (Hinp2 : h2 !! input_qn = Some inp)
    by (unfold h2; by rewrite list_lookup_insert_ne).
  destruct (shared_weights_loop o1 l1 er (Shared23.input_keys L) w1 h2)
    as (w1' & E1 & Hin1 & Hout1); try done.
  { intros i Hi. split; [by apply Hk1|by apply Hik]. }
  set (h3 := <[l1 := w1']> h2) in *.
  assert (Hlb : (Shared23.biases L < length h1)%nat)
    by (by eapply lookup_lt_Some).
  assert (Hl1l : (l1 < length h1)%nat) by (by eapply lookup_lt_Some).
  assert (Hbs3 : h3 !! Shared23.biases L = Some bs1).
  { unfold h3, h2. rewrite list_lookup_insert_ne by done.
    by rewrite list_lookup_insert_eq. }
  assert (H13 : ∀ l, l ≠ Shared23.biases L → l ≠ l1 → h3 !! l = h1 !! l).
  { intros l Hlb' Hll. unfold h3, h2.
    by rewrite !list_lookup_insert_ne by done. }
  assert (H3l1 : h3 !! l1 = Some w1').
  { unfold h3, h2. by rewrite list_lookup_insert_eq by
      (by rewrite length_insert). }
  destruct (IH h3 bs1) as (h' & bs' & E & Hlen & Hbs' & Hbin & Hbout
                           & Hfr & Hws); try done.
  { rewrite H13 by done. done. }
  { intros o Ho. destruct (Hos o (list_elem_of_further _ _ _ Ho))
      as (Hbo & Heo & l & w & Hl & Hw & Hk).
    split_and!; [|done|].
    - unfold bs1. destruct (decide (o = o1)) as [->|Hne].
      + rewrite lookup_insert_eq. by eexists.
      + by rewrite lookup_insert_ne.
    - assert (Hlb' : l ≠ Shared23.biases L)
        by (intros ->; by apply (Hwb o)).
      destruct (decide (l = l1)) as [->|Hll].
      + exists l1, w1'. split_and!; [done|done|].
        intros i Hi. rewrite Hin1 by done. by eexists.
      + exists l, w. split_and!; [done| |done]. by rewrite H13. }
  exists h', bs'. rewrite exec_cons.
  rewrite (shared_bias_step h1 bs o1 b er) by done.
  cbn [atomic and_then]. fold bs1. fold h2. rewrite E1.
  cbn [and_then]. fold h3. split_and!.
  - done.
  - rewrite Hlen. unfold h3, h2. by rewrite !length_insert.
  - done.
  - intros o Ho. apply elem_of_cons in Ho as [->|Ho].
    + rewrite Hbout by done. unfold bs1.
      by rewrite lookup_insert_eq, Hb, Her.
    + rewrite Hbin by done. unfold bs1.
      rewrite lookup_insert_ne; [done|]. by intros ->.
  - intros o Ho. apply not_elem_of_cons in Ho as [Hne Ho].
    rewrite Hbout by done. unfold bs1. by rewrite lookup_insert_ne.
  - intros l Hlb' Hno. rewrite Hfr; [|done|].
    + apply H13; [done|]. intros ->.
      by apply (Hno o1 (list_elem_of_here _ _)).
    + intros o Ho. by apply Hno, list_elem_of_further.
  - intros l w Hlb' Hw. rewrite shared_error_cons.
    destruct (decide (l = l1)) as [->|Hll].
    + assert (w = w1) as -> by congruence.
      destruct (Hws l1 w1' Hlb' H3l1) as (w' & Hw' & Hin' & Hout' & Hsome').
      exists w'. split_and!; [done| | |].
      * intros i Hi. rewrite Hin' by done. rewrite Hin1 by done.
        rewrite decide_True by done. rewrite Her. cbn [default from_option].
        change (id ?x) with x. lia.
      * intros i Hi. rewrite Hout' by done. by apply Hout1.
      * intros i Hi. apply Hsome'.
        destruct (decide (i ∈ Shared23.input_keys L)) as [Hii|Hii].
        -- rewrite Hin1 by done. by eexists.
        -- by rewrite Hout1.
    + destruct (Hws l w Hlb') as (w' & Hw' & Hin' & Hout' & Hsome').
      { by rewrite H13. }
      exists w'. split_and!; [done| |done|done].
      intros i Hi. rewrite Hin' by done.
      rewrite decide_False; [lia|]. intros E'. apply Hll. congruence.
Qed.
End aliasing.

(** X28. [backward] of Demo23 when inner dicts of [weights] are held
    under several output keys (the constructor keeps the caller's
    dicts, so nothing prevents it): every inner dict receives the
    increments of all the output keys that hold it.  With [biases] not
    among the inner dicts, the input not among the dicts written, no
    key listed twice and every key present, the call returns without
    raising; each bias is [bias + lr * error]; each inner dict reads,
    at every input key, [weight + lr * E * input] where [E] is the sum
    of the errors of the output keys holding that dict; and no other
    dict of the store has changed.  When the inner dicts are distinct
    objects, [E] is the error of the one output key. *)
Theorem X28_backward23_shared_dicts L h input_qn target_qn output_qn
    inp target output bs lr :
  h !! input_qn = Some inp → h !! target_qn = Some target →
  h !! output_qn = Some output → h !! Shared23.biases L = Some bs →
  (∀ o, Shared23.weights L !! o ≠ Some (Shared23.biases L)) →
  input_qn ≠ Shared23.biases L →
  (∀ o, Shared23.weights L !! o ≠ Some input_qn) →
  NoDup (Shared23.output_keys L) → NoDup (Shared23.input_keys L) →
  (∀ o, o ∈ Shared23.output_keys L →
     is_Some (bs !! o) ∧ is_Some (target !! o) ∧ is_Some (output !! o) ∧
     ∃ l w, Shared23.weights L !! o = Some l ∧ h !! l = Some w ∧
            ∀ i, i ∈ Shared23.input_keys L → is_Some (w !! i)) →
  (∀ i, i ∈ Shared23.input_keys L → is_Some (inp !! i)) →
  let err := λ o, default 0 (target !! o) - default 0 (output !! o) in
  ∃ h' bs',
    Shared23.backward L h input_qn target_qn output_qn lr = (h', None) ∧
    length h' = length h ∧
    h' !! Shared23.biases L = Some bs' ∧
    (∀ o, o ∈ Shared23.output_keys L →
       bs' !! o = Some (default 0 (bs !! o) + lr * err o)) ∧
    (∀ o, o ∉ Shared23.output_keys L → bs' !! o = bs !! o) ∧
    (∀ l, l ≠ Shared23.biases L →
       (∀ o, o ∈ Shared23.output_keys L → Shared23.weights L !! o ≠ Some l) →
       h' !! l = h !! l) ∧
    (∀ o l w, o ∈ Shared23.output_keys L →
       Shared23.weights L !! o = Some l → h !! l = Some w →
       ∃ w', h' !! l = Some w' ∧
         (∀ i, i ∈ Shared23.input_keys L →
            w' !! i
            = Some (default 0 (w !! i)
                    + lr * shared_error L err l (Shared23.output_keys L)
                      * default 0 (inp !! i))) ∧
         (∀ i, i ∉ Shared23.input_keys L → w' !! i = w !! i)) ∧
    ((∀ o1 o2 l, Shared23.weights L !! o1 = Some l →
                 Shared23.weights L !! o2 = Some l → o1 = o2) →
     ∀ o l, o ∈ Shared23.output_keys L → Shared23.weights L !! o = Some l →
       shared_error L err l (Shared23.output_keys L) = err o).
Proof.
  intros Hinp Htg Hout Hbs Hwb Hib Hiw Hndo Hndi Hos Hik err.
  unfold Shared23.backward.
  rewrite (rfoldM_ext (Shared23.error_of h target_qn output_qn)
             (Demo23.error_of target output)).
  2:{ intros k errs _. unfold Shared23.error_of, Demo23.error_of.
      by rewrite Htg, Hout, !of_opt_Some, !rbind_Ok. }
  destruct (errors23_ok target output (Shared23.output_keys L) ∅)
    as (errors & -> & He).
  { intros o Ho. destruct (Hos o Ho) as (_ & ? & ? & _). by split. }
  assert (Herr : ∀ o, o ∈ Shared23.output_keys L →
                   default 0 (errors !! o) = err o).
  { intros o Ho. by rewrite (proj1 (He o) Ho). }
  destruct (shared_backward_loop L lr errors input_qn inp Hwb Hib Hiw
              (Shared23.output_keys L) h bs Hndo Hndi Hinp Hbs Hik)
    as (h' & bs' & E & Hlen & Hbs' & Hbin & Hbout & Hfr & Hws).
  { intros o Ho. destruct (Hos o Ho) as (Hb & _ & _ & Hw).
    split_and!; [done| |done]. rewrite (proj1 (He o) Ho). by eexists. }
  exists h', bs'. split_and!; try done.
  - intros o Ho. by rewrite Hbin, Herr.
  - intros o l w Ho Hl Hw.
    assert (Hlb : l ≠ Shared23.biases L) by (intros ->; by apply (Hwb o)).
    destruct (Hws l w Hlb Hw) as (w' & Hw' & Hin' & Hout' & Hsome').
    exists w'. split_and!; [done| |done].
    intros i Hi. destruct (Hos o Ho) as (_ & _ & _ & l0 & w0 & Hl0 & Hw0 & Hk0).
    assert (l0 = l) as -> by congruence.
    assert (w0 = w) as -> by congruence.
    destruct (Hsome' i (Hk0 i Hi)) as [x Hx].
    pose proof (Hin' i Hi) as Hd. rewrite Hx in Hd.
    cbn [default from_option] in Hd. change (id x) with x in Hd.
    rewrite Hx, Hd.
    by rewrite (shared_error_ext L (λ o, default 0 (errors !! o)) err l
                  (Shared23.output_keys L) Herr).
  - intros Hinj o l Ho Hl. by apply shared_error_own.
Qed.

Lemma X28_backward23_shared_dicts_witness :
  let inp : gmap string Z := {[ "a" := 3; "b" := 5 ]} in
  let target : gmap string Z := {[ "x" := 5; "y" := 4 ]} in
  let output : gmap string Z := {[ "x" := 1; "y" := 2 ]} in
  let bs : gmap string Z := {[ "x" := 0; "y" := 0 ]} in
  let L := aliased_layer23 in
  let h := store23 in
  let err := λ o, default 0 (target !! o) - default 0 (output !! o) in
  ∃ h' bs',
    Shared23.backward L h 4%nat 5%nat 6%nat 2 = (h', None) ∧
    length h' = length h ∧
    h' !! Shared23.biases L = Some bs' ∧
    (∀ o, o ∈ Shared23.output_keys L →
       bs' !! o = Some (default 0 (bs !! o) + 2 * err o)) ∧
    (∀ o, o ∉ Shared23.output_keys L → bs' !! o = bs !! o) ∧
    (∀ l, l ≠ Shared23.biases L →
       (∀ o, o ∈ Shared23.output_keys L → Shared23.weights L !! o ≠ Some l) →
       h' !! l = h !! l) ∧
    (∀ o l w, o ∈ Shared23.output_keys L →
       Shared23.weights L !! o = Some l → h !! l = Some w →
       ∃ w', h' !! l = Some w' ∧
         (∀ i, i ∈ Shared23.input_keys L →
            w' !! i
            = Some (default 0 (w !! i)
                    + 2 * shared_error L err l (Shared23.output_keys L)
                      * default 0 (inp !! i))) ∧
         (∀ i, i ∉ Shared23.input_keys L → w' !! i = w !! i)) ∧
    ((∀ o1 o2 l, Shared23.weights L !! o1 = Some l →
                 Shared23.weights L !! o2 = Some l → o1 = o2) →
     ∀ o l, o ∈ Shared23.output_keys L → Shared23.weights L !! o = Some l →
       shared_error L err l (Shared23.output_keys L) = err o).
Proof.
  assert (Hl : ∀ o l, Shared23.weights aliased_layer23 !! o = Some l →
                 l = 2%nat).
  { intros o l Hl. cbn in Hl.
    apply lookup_insert_Some in Hl as [[_ <-]|[_ Hl]]; [done|].
    by apply lookup_singleton_Some in Hl as [_ <-]. }
  apply (X28_backward23_shared_dicts aliased_layer23 store23 4%nat 5%nat 6%nat
           {[ "a" := 3; "b" := 5 ]} {[ "x" := 5; "y" := 4 ]}
           {[ "x" := 1; "y" := 2 ]} {[ "x" := 0; "y" := 0 ]} 2).
  - reflexivity.
  - reflexivity.
  - reflexivity.
  - reflexivity.
  - intros o H1. by apply Hl in H1.
  - done.
  - intros o H1. by apply Hl in H1.
  - apply (bool_decide_unpack _). by vm_compute.
  - apply (bool_decide_unpack _). by vm_compute.
  - intros o Ho. cbn in Ho.
    apply elem_of_cons in Ho as [->|Ho];
      [|apply list_elem_of_singleton in Ho as ->].
    + split_and!; [by eexists..|].
      exists 2%nat, {[ "a" := 1; "b" := 2 ]}. split_and!; [done|done|].
      intros i Hi. cbn in Hi.
      apply elem_of_cons in Hi as [->|Hi]; [by eexists|].
      apply list_elem_of_singleton in Hi as ->. by eexists.
    + split_and!; [by eexists..|].
      exists 2%nat, {[ "a" := 1; "b" := 2 ]}. split_and!; [done|done|].
      intros i Hi. cbn in Hi.
      apply elem_of_cons in Hi as [->|Hi]; [by eexists|].
      apply list_elem_of_singleton in Hi as ->. by eexists.
  - intros i Hi. cbn in Hi.
    apply elem_of_cons in Hi as [->|Hi]; [by eexists|].
    apply list_elem_of_singleton in Hi as ->. by eexists.
Defined.

(** The run of the witness, in numbers: errors 4 and 2, learning rate
    2, inputs 3 and 5.  The one inner dict, read under [x] or under
    [y], has moved by [2 * (4 + 2)] times the input; on distinct inner
    dicts the weights of [x] move by [2 * 4] and those of [y] by
    [2 * 2] times the input. *)
Example backward23_aliased_run :
  (Shared23.backward aliased_layer23 store23 4%nat 5%nat 6%nat 2).1
    !! 2%nat
  = Some ({[ "a" := 1 + 2 * (4 + 2) * 3; "b" := 2 + 2 * (4 + 2) * 5 ]}
          : gmap string Z) ∧
  (Shared23.backward shared_layer23 store23 4%nat 5%nat 6%nat 2).1
    !! 2%nat
  = Some ({[ "a" := 1 + 2 * 4 * 3; "b" := 2 + 2 * 4 * 5 ]} : gmap string Z) ∧
  (Shared23.backward shared_layer23 store23 4%nat 5%nat 6%nat 2).1
    !! 3%nat
  = Some ({[ "a" := 0 + 2 * 2 * 3; "b" := 1 + 2 * 2 * 5 ]} : gmap string Z).
Proof. split_and!; by vm_compute. Qed.

